(** * pystell.pybooz: the VMEC -> Boozer coordinate transform (class VMEC2Booz)

    A shallow embedding of [src/pystell/pybooz.py] and the properties of it
    that the specification states.

    Conventions of the embedding.
    - Python integers (mode bounds, surface indices, mode numbers) are [Z];
      the mode-number arrays [xm], [xn], [xmb], [xnb], ... hold integral
      values (numpy stores them as float64) and are lists of [Z].
    - numpy float64 data is modelled over exact real arithmetic ([R]); the
      one routine whose documented behaviour is an IEEE-754 one ([harfun] at
      a zero Jacobian factor) is written against an arithmetic interface and
      instantiated both at [R] and at binary64 ([PrimFloat.float]).
    - A numpy 1-D array is a list; a 2-D array is a [table]: its shape and a
      lookup function.  A cell of an array carries the number of stores made
      to it, so that "never assigned" ([np.empty] contents) and "written" can
      be stated.
    - A Python exception is the [Raise] outcome of a [result]. *)

From Stdlib Require Import String Floats.
From Stdlib Require Import ZArith List Bool Lia Reals Lra Sorted.
Import ListNotations.
Local Open Scope Z_scope.

Set Implicit Arguments.

(** ** Exceptions and the result monad *)

Inductive exn : Type :=
| IndexError
| ValueError (msg : string)
| TypeError
| OverflowError
| ZeroDivisionError.

Definition no_broadcast : exn :=
  ValueError "operands could not be broadcast together".
Definition negative_dimensions : exn :=
  ValueError "negative dimensions are not allowed".
Definition too_many_values : exn :=
  ValueError "too many values to unpack (expected 3)".
Definition not_enough_values : exn :=
  ValueError "not enough values to unpack".
Definition nan_to_integer : exn :=
  ValueError "cannot convert float NaN to integer".

Inductive result (A : Type) : Type :=
| Ok (a : A)
| Raise (e : exn).

Arguments Ok {A} a.
Arguments Raise {A} e.

Definition bind {A B : Type} (m : result A) (k : A -> result B) : result B :=
  match m with
  | Ok a => k a
  | Raise e => Raise e
  end.

Notation "x <- m ;; k" := (bind m (fun x => k))
  (at level 61, m at next level, right associativity).
Notation "' p <- m ;; k" := (bind m (fun x => match x with p => k end))
  (at level 61, p pattern, m at next level, right associativity).

(** [for x in xs: st = body(st, x)] with a body that may raise. *)
Fixpoint foldM {S A : Type} (body : S -> A -> result S) (xs : list A) (st : S)
  : result S :=
  match xs with
  | [] => Ok st
  | x :: xs' => st' <- body st x ;; foldM body xs' st'
  end.

(** ** Python and numpy primitives *)

(** [range(a, b)]. *)
Definition py_range (a b : Z) : list Z :=
  map (fun i => a + Z.of_nat i) (seq 0 (Z.to_nat (b - a))).

(** An index into an axis of length [len]: a negative index counts from the
    end, anything outside [-len, len) is an [IndexError]. *)
Definition np_index (len : nat) (i : Z) : result nat :=
  if (0 <=? i) && (i <? Z.of_nat len) then Ok (Z.to_nat i)
  else if (- Z.of_nat len <=? i) && (i <? 0) then Ok (Z.to_nat (Z.of_nat len + i))
  else Raise IndexError.

(** The bounds [start, stop) selected by the slice [i1:i2] on an axis of
    length [len]: negative bounds count from the end, and both are clipped. *)
Definition slice_bound (len : nat) (i : Z) : nat :=
  if i <? 0 then Z.to_nat (Z.max 0 (Z.of_nat len + i))
  else Z.to_nat (Z.min i (Z.of_nat len)).

(** [np.sign]. *)
Definition np_sign (x : Z) : R := IZR (Z.sgn x).

Fixpoint map2 {A B C : Type} (f : A -> B -> C) (u : list A) (v : list B) : list C :=
  match u, v with
  | a :: u', b :: v' => f a b :: map2 f u' v'
  | _, _ => []
  end.

(** One element of a 1-D array. *)
Definition item {A : Type} (v : list A) (i : Z) (d : A) : result A :=
  k <- np_index (length v) i ;; Ok (nth k v d).

(** Python's builtin [sum] over a float array: a left fold from 0. *)
Definition py_sum (v : list R) : R := fold_left Rplus v 0%R.

(** *** Cells and tables *)

Record cell (A : Type) : Type := mkCell { val : A; writes : nat }.

Definition store {A : Type} (x : A) (c : cell A) : cell A :=
  {| val := x; writes := S (writes c) |}.

Record table (A : Type) : Type := mkTable {
  nrows : nat;
  ncols : nat;
  at_ : nat -> nat -> A
}.

(** A float value is a numpy scalar or a 1-D array. *)
Inductive nd : Type :=
| Sc (x : R)
| Ar (v : list R).

Section Broadcast.
Variable T : Type.
Variable f : T -> T -> T.

(** Elementwise [u (op) v] with numpy's broadcasting of 1-D operands. *)
Definition bcast (u v : list T) : result (list T) :=
  if (length u =? length v)%nat then Ok (map2 f u v)
  else match u, v with
       | [x], _ => Ok (map (f x) v)
       | _, [y] => Ok (map (fun x => f x y) u)
       | _, _ => Raise no_broadcast
       end.

(** In-place [u (op)= v]: the result keeps the shape of [u]. *)
Definition bcast_into (u v : list T) : result (list T) :=
  if (length u =? length v)%nat then Ok (map2 f u v)
  else match v with
       | [y] => Ok (map (fun x => f x y) u)
       | _ => Raise no_broadcast
       end.
End Broadcast.

Definition nd_op (f : R -> R -> R) (a b : nd) : result nd :=
  match a, b with
  | Sc x, Sc y => Ok (Sc (f x y))
  | Sc x, Ar v => Ok (Ar (map (f x) v))
  | Ar u, Sc y => Ok (Ar (map (fun x => f x y) u))
  | Ar u, Ar v => w <- bcast f u v ;; Ok (Ar w)
  end.

Definition vmul := bcast Rmult.
Definition vadd := bcast Rplus.
Definition vsub := bcast Rminus.
Definition scale (v : list R) (c : R) : list R := map (fun x => (x * c)%R) v.

Section Tables.
Variable A : Type.

(** [np.zeros([r, c])] (with [x = 0]) and [np.empty([r, c])] (with the
    contents [x i j] of the fresh memory). *)
Definition np_alloc2 (x : nat -> nat -> A) (r c : Z) : result (table (cell A)) :=
  if (r <? 0) || (c <? 0) then Raise negative_dimensions
  else Ok {| nrows := Z.to_nat r; ncols := Z.to_nat c;
             at_ := fun i j => {| val := x i j; writes := 0 |} |}.

Definition store_col (t : table (cell A)) (c : nat) (x : nat -> A) : table (cell A) :=
  {| nrows := nrows t; ncols := ncols t;
     at_ := fun i j => if ((j =? c) && (i <? nrows t))%nat
                       then store (x i) (at_ t i j) else at_ t i j |}.

Definition store_at (t : table (cell A)) (r c : nat) (x : A) : table (cell A) :=
  {| nrows := nrows t; ncols := ncols t;
     at_ := fun i j => if ((i =? r) && (j =? c))%nat
                       then store x (at_ t i j) else at_ t i j |}.

(** [t[:, j]] *)
Definition get_col (t : table (cell A)) (j : Z) : result (list A) :=
  c <- np_index (ncols t) j ;;
  Ok (map (fun i => val (at_ t i c)) (seq 0 (nrows t))).

(** [t[i, j] = x] *)
Definition set_at (t : table (cell A)) (i j : Z) (x : A) : result (table (cell A)) :=
  r <- np_index (nrows t) i ;;
  c <- np_index (ncols t) j ;;
  Ok (store_at t r c x).

(** [t[i, j]] *)
Definition get_at (t : table (cell A)) (i j : Z) : result A :=
  r <- np_index (nrows t) i ;;
  c <- np_index (ncols t) j ;;
  Ok (val (at_ t r c)).
End Tables.

(** [t[:, j] = v] *)
Definition set_col (t : table (cell R)) (j : Z) (v : nd) : result (table (cell R)) :=
  c <- np_index (ncols t) j ;;
  match v with
  | Sc x => Ok (store_col t c (fun _ => x))
  | Ar l =>
      if (length l =? nrows t)%nat then Ok (store_col t c (fun i => nth i l 0%R))
      else match l with
           | [x] => Ok (store_col t c (fun _ => x))
           | _ => Raise no_broadcast
           end
  end.

(** ** trigfunc *)

Section Trigfunc.
(** Contents of the memory [np.empty] hands out: [junk b i j] is what the
    cell [(i, j)] of the [b]-th array allocated holds.  Each of the four
    tables is an array of its own. *)
Variable junk : nat -> nat -> nat -> R.

(** The body of both recurrence loops of [trigfunc]:
<<
    cosm[:, m] = cosm[:, m - 1] * cosm[:, 1] - sinm[:, m - 1] * sinm[:, 1]
    sinm[:, m] = sinm[:, m - 1] * cosm[:, 1] + cosm[:, m - 1] * sinm[:, 1]
>> *)
Definition harmonic_step (cs : table (cell R) * table (cell R)) (m : Z)
  : result (table (cell R) * table (cell R)) :=
  let '(cosm, sinm) := cs in
  c_m1 <- get_col cosm (m - 1) ;;
  c_1 <- get_col cosm 1 ;;
  a <- vmul c_m1 c_1 ;;
  s_m1 <- get_col sinm (m - 1) ;;
  s_1 <- get_col sinm 1 ;;
  b <- vmul s_m1 s_1 ;;
  newc <- vsub a b ;;
  cosm <- set_col cosm m (Ar newc) ;;
  s_m1 <- get_col sinm (m - 1) ;;
  c_1 <- get_col cosm 1 ;;
  a <- vmul s_m1 c_1 ;;
  c_m1 <- get_col cosm (m - 1) ;;
  s_1 <- get_col sinm 1 ;;
  b <- vmul c_m1 s_1 ;;
  news <- vadd a b ;;
  sinm <- set_col sinm m (Ar news) ;;
  Ok (cosm, sinm).

Definition trigfunc (nfp : Z) (th zt : list R) (mpol ntor nznt : Z)
  : result (table (cell R) * table (cell R) * table (cell R) * table (cell R)) :=
  cosm <- np_alloc2 (junk 0%nat) nznt (mpol + 1) ;;
  sinm <- np_alloc2 (junk 1%nat) nznt (mpol + 1) ;;
  cosn <- np_alloc2 (junk 2%nat) nznt (ntor + 1) ;;
  sinn <- np_alloc2 (junk 3%nat) nznt (ntor + 1) ;;
  cosm <- set_col cosm 0 (Sc 1) ;;
  sinm <- set_col sinm 0 (Sc 0) ;;
  cosm <- set_col cosm 1 (Ar (map cos th)) ;;
  sinm <- set_col sinm 1 (Ar (map sin th)) ;;
  ' (cosm, sinm) <- foldM harmonic_step (py_range 2 (mpol + 1)) (cosm, sinm) ;;
  cosn <- set_col cosn 0 (Sc 1) ;;
  sinn <- set_col sinn 0 (Sc 0) ;;
  ' (cosn, sinn) <-
    (if 1 <? ntor then
       cosn <- set_col cosn 1 (Ar (map (fun z => cos (z * IZR nfp)) zt)) ;;
       sinn <- set_col sinn 1 (Ar (map (fun z => sin (z * IZR nfp)) zt)) ;;
       Ok (cosn, sinn)
     else Ok (cosn, sinn)) ;;
  ' (cosn, sinn) <- foldM harmonic_step (py_range 2 (ntor + 1)) (cosn, sinn) ;;
  Ok (cosm, sinm, cosn, sinn).
End Trigfunc.

(** ** 1-D arrays *)

Fixpoint list_set {A : Type} (l : list A) (k : nat) (f : A -> A) : list A :=
  match l, k with
  | [], _ => []
  | a :: l', O => f a :: l'
  | a :: l', S k' => a :: list_set l' k' f
  end.

(** [v[i] = x] on a plain array. *)
Definition set_item {A : Type} (v : list A) (i : Z) (x : A) : result (list A) :=
  k <- np_index (length v) i ;; Ok (list_set v k (fun _ => x)).

(** [v[i] = x] on an array whose stores are counted. *)
Definition store_item {A : Type} (v : list (cell A)) (i : Z) (x : A)
  : result (list (cell A)) :=
  k <- np_index (length v) i ;; Ok (list_set v k (store x)).

(** [np.empty(n)] with the contents [x i] of the fresh memory, as a plain
    array and as an array whose stores are counted. *)
Definition np_empty1 {A : Type} (x : nat -> A) (n : Z) : result (list A) :=
  if n <? 0 then Raise negative_dimensions
  else Ok (map x (seq 0 (Z.to_nat n))).

Definition np_alloc1 {A : Type} (x : nat -> A) (n : Z) : result (list (cell A)) :=
  np_empty1 (fun i => {| val := x i; writes := 0 |}) n.

Definition vals {A : Type} (v : list (cell A)) : list A := map (@val A) v.

(** [v[:] = x] *)
Definition fill {A : Type} (v : list A) (x : A) : list A := map (fun _ => x) v.

(** [a, b, c = t] for a tuple [t]. *)
Definition unpack3 {A : Type} (t : list A) : result (A * A * A) :=
  match t with
  | [a; b; c] => Ok (a, b, c)
  | _ :: _ :: _ :: _ :: _ => Raise too_many_values
  | _ => Raise not_enough_values
  end.

(** [int(abs(x / nfp))] for a float64 [x] holding an integer: the quotient
    truncated towards zero.  A float64 divided by a zero [nfp] is an
    infinity or a NaN, which [int] refuses. *)
Definition int_abs_div (x nfp : Z) : result Z :=
  if nfp =? 0 then Raise (if x =? 0 then nan_to_integer else OverflowError)
  else Ok (Z.abs (Z.quot x nfp)).

(** [int(abs(x) / nfp)] *)
Definition int_div_abs (x nfp : Z) : result Z :=
  if nfp =? 0 then Raise (if x =? 0 then nan_to_integer else OverflowError)
  else Ok (Z.quot (Z.abs x) nfp).

(** [int(x) // nfp]: floor division of Python integers. *)
Definition int_floordiv (x nfp : Z) : result Z :=
  if nfp =? 0 then Raise ZeroDivisionError else Ok (x / nfp).

(** ** The arithmetic of float64 values

    [harfun] is written once against this interface.  [Real_arith] is exact
    real arithmetic; [Binary64_arith] is IEEE-754 binary64, the arithmetic of
    numpy's float64, where a division by zero returns an infinity or a NaN
    instead of raising. *)

Class Arith (T : Type) : Type := {
  add : T -> T -> T;
  sub : T -> T -> T;
  mul : T -> T -> T;
  div : T -> T -> T;
  zero : T;
  one : T;
  is_zero : T -> bool
}.

#[export] Instance Real_arith : Arith R := {|
  add := Rplus; sub := Rminus; mul := Rmult; div := Rdiv;
  zero := 0%R; one := 1%R;
  is_zero := fun x => if Req_dec_T x 0%R then true else false
|}.

#[export] Instance Binary64_arith : Arith PrimFloat.float := {|
  add := PrimFloat.add; sub := PrimFloat.sub; mul := PrimFloat.mul;
  div := PrimFloat.div;
  zero := PrimFloat.zero; one := PrimFloat.one;
  is_zero := fun x => PrimFloat.eqb x PrimFloat.zero
|}.

(** ** harfun *)

Definition jacfac_warning : string := "Something's wrong, jacfac = 0".

Section Harfun.
Context {T : Type} {arith : Arith T}.

(** The value [harfun] returns: [jacfac, uboz, vboz, xjac]. *)
Record harfun_out : Type := mkHarfun {
  h_jacfac : T;
  h_uboz : list T;
  h_vboz : list T;
  h_xjac : list T
}.

(** [harfun(self, gpsi, ipsi, js, xlt, xlz, xl, wt, wz, w)]; of [self] it
    reads [hiota].  The result is paired with the warnings logged.  (The four
    [np.empty(nznt)] scratch arrays the source allocates first are rebound
    before any use and are left out.) *)
Definition harfun (hiota gpsi ipsi : list T) (js : Z)
  (xlt xlz xl wt wz w : list T) : list string * result harfun_out :=
  match
    (g <- item gpsi js zero ;;
     h <- item hiota js zero ;;
     i <- item ipsi js zero ;;
     Ok (g, h, i))
  with
  | Raise e => ([], Raise e)
  | Ok (g, h, i) =>
      let jacfac := add g (mul h i) in
      let log := if is_zero jacfac then [jacfac_warning] else [] in
      let dem := div one jacfac in
      let gpsi1 := mul g dem in
      let hiota1 := mul h dem in
      let ipsi1 := mul i dem in
      (log,
       vboz <- bcast sub (map (mul dem) w) (map (mul ipsi1) xl) ;;
       uboz <- bcast add xl (map (mul h) vboz) ;;
       psubv <- bcast sub (map (mul dem) wz) (map (mul ipsi1) xlz) ;;
       psubu <- bcast sub (map (mul dem) wt) (map (mul ipsi1) xlt) ;;
       let bsupv := map (add one) xlt in
       let bsupu := map (sub h) xlz in
       a <- bcast mul bsupv (map (add one) psubv) ;;
       b <- bcast mul bsupu psubu ;;
       xjac <- bcast add a b ;;
       Ok {| h_jacfac := jacfac; h_uboz := uboz; h_vboz := vboz; h_xjac := xjac |})
  end.
End Harfun.

(** ** More table operations *)

Definition tbl : Type := table (cell R).

(** [np.copy(t)]: a fresh array holding the values of [t]. *)
Definition np_copy (t : tbl) : tbl :=
  {| nrows := nrows t; ncols := ncols t;
     at_ := fun i j => {| val := val (at_ t i j); writes := 1 |} |}.

(** [t[i, i1:i2]] *)
Definition get_row_slice (t : tbl) (i i1 i2 : Z) : result (list R) :=
  r <- np_index (nrows t) i ;;
  let a := slice_bound (ncols t) i1 in
  let b := slice_bound (ncols t) i2 in
  Ok (map (fun j => val (at_ t r j)) (seq a (b - a))).

Definition store_row_slice (t : tbl) (r a b : nat) (x : nat -> R) : tbl :=
  {| nrows := nrows t; ncols := ncols t;
     at_ := fun i j => if ((i =? r) && (a <=? j) && (j <? b))%nat
                       then store (x (j - a)%nat) (at_ t i j) else at_ t i j |}.

(** [t[i, i1:i2] = v] *)
Definition set_row_slice (t : tbl) (i i1 i2 : Z) (v : list R) : result tbl :=
  r <- np_index (nrows t) i ;;
  let a := slice_bound (ncols t) i1 in
  let b := slice_bound (ncols t) i2 in
  if (length v =? b - a)%nat then Ok (store_row_slice t r a b (fun k => nth k v 0%R))
  else match v with
       | [x] => Ok (store_row_slice t r a b (fun _ => x))
       | _ => Raise no_broadcast
       end.

(** [t[a:b, m] = c * t[a:b, m]], the slice bounds already resolved. *)
Definition scale_col_slice (t : tbl) (a b : nat) (m : Z) (c : R) : result tbl :=
  j0 <- np_index (ncols t) m ;;
  Ok {| nrows := nrows t; ncols := ncols t;
        at_ := fun i j => if ((j =? j0) && (a <=? i) && (i <? b))%nat
                          then store (c * val (at_ t i j))%R (at_ t i j)
                          else at_ t i j |}.

(** [t[:, j] *= v] *)
Definition imul_col (t : tbl) (j : Z) (v : list R) : result tbl :=
  col <- get_col t j ;;
  new <- bcast_into Rmult col v ;;
  set_col t j (Ar new).

(** [t[:] = x] *)
Definition fill_table (t : tbl) (x : R) : tbl :=
  {| nrows := nrows t; ncols := ncols t;
     at_ := fun i j => if ((i <? nrows t) && (j <? ncols t))%nat
                       then store x (at_ t i j) else at_ t i j |}.

(** [v[k:] = x] on an array whose stores are counted. *)
Fixpoint store_tail {A : Type} (v : list (cell A)) (k : nat) (x : A)
  : list (cell A) :=
  match v, k with
  | [], _ => []
  | c :: v', O => store x c :: store_tail v' O x
  | c :: v', S k' => c :: store_tail v' k' x
  end.

(** Builtin [sum] over the product of two arrays, one of which may be a
    scalar: a scalar product is not iterable. *)
Definition nd_sum (a : nd) : result R :=
  match a with
  | Sc _ => Raise TypeError
  | Ar v => Ok (py_sum v)
  end.

(** ** setup_xmnb *)

Record xmnb : Type := mkXmnb {
  x_xnb : list (cell Z);
  x_xmb : list (cell Z);
  x_mnboz0 : Z;
  x_returned : bool
}.

(** The body of the inner loop; [x_returned] records that the method has
    executed its [return]. *)
Definition setup_xmnb_n (mnboz nfp m : Z) (st : xmnb) (n : Z) : result xmnb :=
  if x_returned st then Ok st
  else if mnboz <=? x_mnboz0 st then
    Ok {| x_xnb := x_xnb st; x_xmb := x_xmb st;
          x_mnboz0 := x_mnboz0 st; x_returned := true |}
  else
    xnb <- store_item (x_xnb st) (x_mnboz0 st) (n * nfp) ;;
    xmb <- store_item (x_xmb st) (x_mnboz0 st) m ;;
    Ok {| x_xnb := xnb; x_xmb := xmb;
          x_mnboz0 := x_mnboz0 st + 1; x_returned := false |}.

Definition setup_xmnb_m (nboz mnboz nfp : Z) (st : xmnb) (m : Z) : result xmnb :=
  if x_returned st then Ok st
  else
    let n2 := nboz in
    let n1 := if m =? 0 then 0 else - nboz in
    foldM (setup_xmnb_n mnboz nfp m) (py_range n1 (n2 + 1)) st.

(** [setup_xmnb(self)]: reads [nboz], [mboz], [mnboz], [nfp], stores into
    [xnb] and [xmb]. *)
Definition setup_xmnb (mboz nboz mnboz nfp : Z) (xnb xmb : list (cell Z))
  : result (list (cell Z) * list (cell Z)) :=
  st <- foldM (setup_xmnb_m nboz mnboz nfp) (py_range 0 mboz)
          {| x_xnb := xnb; x_xmb := xmb; x_mnboz0 := 0; x_returned := false |} ;;
  Ok (x_xnb st, x_xmb st).

(** The declared capacity, [self.mnboz]. *)
Definition mnboz_of (mboz nboz : Z) : Z :=
  nboz + 1 + (mboz - 1) * (1 + 2 * nboz).

(** Lines 147-150 of [__init__]: the two arrays are allocated with the
    declared capacity and filled by [setup_xmnb]. *)
Definition init_xmnb (junkZ : nat -> Z) (mboz nboz nfp : Z)
  : result (list (cell Z) * list (cell Z)) :=
  let mnboz := mnboz_of mboz nboz in
  xnb <- np_alloc1 junkZ mnboz ;;
  xmb <- np_alloc1 junkZ mnboz ;;
  setup_xmnb mboz nboz mnboz nfp xnb xmb.

(** The mode set as the specification enumerates it: [m] in increasing
    order, and for each [m] the toroidal numbers [n] in increasing order,
    from 0 when [m = 0] and from [-nboz] otherwise, each stored as the pair
    [(m, n * nfp)]. *)
Definition boozer_modes (mboz nboz nfp : Z) : list (Z * Z) :=
  flat_map
    (fun m => map (fun n => (m, n * nfp))
                  (py_range (if m =? 0 then 0 else - nboz) (nboz + 1)))
    (py_range 0 mboz).

(** ** The normalization vector *)

(** Lines 153-161 of [__init__]: [nu_boz], [nv_boz], [nu2_b], [nv2_b],
    [fac] and [scl]. *)
Record normalization : Type := mkNorm {
  n_nu_boz : Z;
  n_nv_boz : Z;
  n_nu2_b : Z;
  n_nv2_b : Z;
  n_fac : R;
  n_scl : list (cell R)
}.

Definition make_scl (junk : nat -> R) (mboz nboz mnboz : Z) : result normalization :=
  let nu_boz := 2 * (2 * mboz + 1) in
  let nv_boz := 2 * (2 * nboz + 1) in
  let nu2_b := nu_boz / 2 + 1 in
  let nv2_b := nv_boz / 2 + 1 in
  let d := (nu2_b - 1) * nv_boz in
  if d =? 0 then Raise ZeroDivisionError
  else
    let fac := (2 / IZR d)%R in
    scl <- np_alloc1 junk mnboz ;;
    let scl := store_tail scl 1 fac in
    scl <- store_item scl 0 (fac / 2)%R ;;
    Ok {| n_nu_boz := nu_boz; n_nv_boz := nv_boz; n_nu2_b := nu2_b;
          n_nv2_b := nv2_b; n_fac := fac; n_scl := scl |}.

(** ** The object

    The attributes of a [VMEC2Booz] object are split in two records:
    [Setup] holds those assigned once by the first part of [__init__]
    (lines 97-211), [Store] those the methods store into afterwards.  The
    scalar metadata copied verbatim from the VMEC data ([aspect], [rmax],
    [pres], ...) and only written out by [write_boozmn] is left out. *)

(** What the scratch attributes [cosmm], [cosnn], [sinmm], [sinnn] hold at
    different times. *)
Inductive scratch : Type :=
| SNone
| STable (t : tbl)
| SVec (v : list R).

(** The VMEC data the constructor reads ([vmecdata]); amplitude tables are
    indexed [surface, mode]. *)
Record VmecData : Type := mkVmecData {
  vd_nfp : Z;
  vd_mpol : Z;
  vd_ntor : Z;
  vd_xmnyq : list Z;
  vd_xnnyq : list Z;
  vd_mnyq : Z;
  vd_nnyq : Z;
  vd_nmnnyq : Z;
  vd_ns : Z;
  vd_rmnc : tbl;
  vd_zmns : tbl;
  vd_lmns : tbl;
  vd_bmnc : tbl;
  vd_xm : list Z;
  vd_xn : list Z;
  vd_nmn : Z;
  vd_hiota : list R;
  vd_s : list R;
  vd_bsubumnc : tbl;
  vd_bsubvmnc : tbl
}.

Record Setup : Type := mkSetup {
  nboz : Z;
  mboz : Z;
  mnboz : Z;
  nfp : Z;
  mpol : Z;
  ntor : Z;
  xmnyq : list Z;
  xnnyq : list Z;
  mnyq : Z;
  nnyq : Z;
  nmnnyq : Z;
  ns : Z;
  lmns : tbl;
  bmodmnc : tbl;
  xm : list Z;
  xn : list Z;
  mnmax : Z;
  hiota : list R;
  xnb : list (cell Z);
  xmb : list (cell Z);
  nu_boz : Z;
  nv_boz : Z;
  nu2_b : Z;
  nv2_b : Z;
  fac : R;
  scl : list (cell R);
  ntorsum : Z * Z;
  ohs : Z;
  hs : R;
  sfull : list R;
  nu3_b : Z;
  nunv : Z;
  thgrid : list R;
  ztgrid : list R;
  cosm_b : tbl;
  sinm_b : tbl;
  cosn_b : tbl;
  sinn_b : tbl;
  cosm_nyq : tbl;
  sinm_nyq : tbl;
  cosn_nyq : tbl;
  sinn_nyq : tbl
}.

Record Store : Type := mkStore {
  rmnc : tbl;
  zmns : tbl;
  bmncb : tbl;
  rmncb : tbl;
  zmnsb : tbl;
  pmnsb : tbl;
  gmncb : tbl;
  cosmm : scratch;
  cosnn : scratch;
  sinmm : scratch;
  sinnn : scratch;
  u_b : list R;
  v_b : list R
}.

Definition with_rmnc_zmns (st : Store) (r z : tbl) : Store :=
  {| rmnc := r; zmns := z;
     bmncb := bmncb st; rmncb := rmncb st; zmnsb := zmnsb st;
     pmnsb := pmnsb st; gmncb := gmncb st;
     cosmm := cosmm st; cosnn := cosnn st; sinmm := sinmm st; sinnn := sinnn st;
     u_b := u_b st; v_b := v_b st |}.

(** The five output tables, in the order [bmncb, rmncb, zmnsb, pmnsb, gmncb]. *)
Record outputs : Type := mkOutputs {
  o_bmncb : tbl;
  o_rmncb : tbl;
  o_zmnsb : tbl;
  o_pmnsb : tbl;
  o_gmncb : tbl
}.

Definition outputs_of (st : Store) : outputs :=
  {| o_bmncb := bmncb st; o_rmncb := rmncb st; o_zmnsb := zmnsb st;
     o_pmnsb := pmnsb st; o_gmncb := gmncb st |}.

Definition with_outputs (st : Store) (o : outputs) (cm cn sm sn : scratch) : Store :=
  {| rmnc := rmnc st; zmns := zmns st;
     bmncb := o_bmncb o; rmncb := o_rmncb o; zmnsb := o_zmnsb o;
     pmnsb := o_pmnsb o; gmncb := o_gmncb o;
     cosmm := cm; cosnn := cn; sinmm := sm; sinnn := sn;
     u_b := u_b st; v_b := v_b st |}.

Definition with_scratch (st : Store) (cm cn sm sn : scratch) : Store :=
  with_outputs st (outputs_of st) cm cn sm sn.

Definition with_angles (st : Store) (u v : list R) : Store :=
  {| rmnc := rmnc st; zmns := zmns st;
     bmncb := bmncb st; rmncb := rmncb st; zmnsb := zmnsb st;
     pmnsb := pmnsb st; gmncb := gmncb st;
     cosmm := cosmm st; cosnn := cosnn st; sinmm := sinmm st; sinnn := sinnn st;
     u_b := u; v_b := v |}.

(** ** transpmn *)

Record pmn_acc : Type := mkPmn {
  p_pmns : list R;
  p_gpsi : list R;
  p_ipsi : list R
}.

Definition transpmn_mode (self : Setup) (bsubtmnc bsubzmnc : list R) (jrad : Z)
  (acc : pmn_acc) (mn : Z) : result pmn_acc :=
  xm_mn <- item (xmnyq self) mn 0 ;;
  if negb (xm_mn =? 0) then
    bt <- item bsubtmnc mn 0%R ;;
    xm_mn <- item (xmnyq self) mn 0 ;;
    pmns <- set_item (p_pmns acc) mn (bt / IZR xm_mn)%R ;;
    Ok {| p_pmns := pmns; p_gpsi := p_gpsi acc; p_ipsi := p_ipsi acc |}
  else
    xn_mn <- item (xnnyq self) mn 0 ;;
    if negb (xn_mn =? 0) then
      bz <- item bsubzmnc mn 0%R ;;
      xn_mn <- item (xnnyq self) mn 0 ;;
      pmns <- set_item (p_pmns acc) mn (- bz / IZR xn_mn)%R ;;
      Ok {| p_pmns := pmns; p_gpsi := p_gpsi acc; p_ipsi := p_ipsi acc |}
    else
      pmns <- set_item (p_pmns acc) mn 0%R ;;
      bz <- item bsubzmnc mn 0%R ;;
      gpsi <- set_item (p_gpsi acc) jrad bz ;;
      bt <- item bsubtmnc mn 0%R ;;
      ipsi <- set_item (p_ipsi acc) jrad bt ;;
      Ok {| p_pmns := pmns; p_gpsi := gpsi; p_ipsi := ipsi |}.

Definition transpmn (self : Setup) (pmns bsubtmnc bsubzmnc gpsi ipsi : list R)
  (jrad : Z) : result pmn_acc :=
  foldM (transpmn_mode self bsubtmnc bsubzmnc jrad) (py_range 0 (nmnnyq self))
    {| p_pmns := pmns; p_gpsi := gpsi; p_ipsi := ipsi |}.

(** ** vcoords_rz *)

(** The basis functions of mode [(m, n)] on the grid:
<<
    tcos = cosm[:, m] * cosn[:, n] + sinm[:, m] * sinn[:, n] * sgn
    tsin = sinm[:, m] * cosn[:, n] - cosm[:, m] * sinn[:, n] * sgn
>> *)
Definition trig_mode (cosm sinm cosn sinn : tbl) (m n : Z) (sgn : R)
  : result (list R * list R) :=
  cm <- get_col cosm m ;;
  cn <- get_col cosn n ;;
  a <- vmul cm cn ;;
  sm <- get_col sinm m ;;
  sn <- get_col sinn n ;;
  b <- vmul sm sn ;;
  tcos <- vadd a (scale b sgn) ;;
  sm <- get_col sinm m ;;
  cn <- get_col cosn n ;;
  a <- vmul sm cn ;;
  cm <- get_col cosm m ;;
  sn <- get_col sinn n ;;
  b <- vmul cm sn ;;
  tsin <- vsub a (scale b sgn) ;;
  Ok (tcos, tsin).

(** The axis correction applied to one amplitude table:
<<
    t[0, i1:i2] = 2 * t[1, i1:i2] / sfull[1] - t[2, i1:i2] / sfull[2]
>> *)
Definition axis_correction (self : Setup) (t : tbl) : result tbl :=
  let i1 := fst (ntorsum self) in
  let i2 := snd (ntorsum self) in
  a <- get_row_slice t 1 i1 i2 ;;
  s1 <- item (sfull self) 1 0%R ;;
  b <- get_row_slice t 2 i1 i2 ;;
  s2 <- item (sfull self) 2 0%R ;;
  rhs <- vsub (map (fun x => 2 * x / s1)%R a) (map (fun x => x / s2)%R b) ;;
  set_row_slice t 0 i1 i2 rhs.

Record rz_acc : Type := mkRz {
  a_r : nd;
  a_z : nd;
  a_lt : list R;
  a_lz : list R;
  a_lam : list R
}.

(** The body of the mode loop of [vcoords_rz]. *)
Definition vcoords_rz_mode (self : Setup) (st : Store) (js js1 nparity : Z)
  (t1 t2 : R) (acc : rz_acc) (mn : Z) : result rz_acc :=
  m <- item (xm self) mn 0 ;;
  if negb (m mod 2 =? nparity) then Ok acc
  else
    xn_mn <- item (xn self) mn 0 ;;
    n <- int_abs_div xn_mn (nfp self) ;;
    let sgn := np_sign xn_mn in
    ' (tcos, tsin) <-
      trig_mode (cosm_b self) (sinm_b self) (cosn_b self) (sinn_b self) m n sgn ;;
    r_js <- get_at (rmnc st) js mn ;;
    r_js1 <- get_at (rmnc st) js1 mn ;;
    let rc := (t1 * r_js + t2 * r_js1)%R in
    z_js <- get_at (zmns st) js mn ;;
    z_js1 <- get_at (zmns st) js1 mn ;;
    let zs := (t1 * z_js + t2 * z_js1)%R in
    r <- nd_op Rplus (a_r acc) (Ar (scale tcos rc)) ;;
    z <- nd_op Rplus (a_z acc) (Ar (scale tsin zs)) ;;
    l <- get_at (lmns self) js mn ;;
    lt <- bcast_into Rplus (a_lt acc) (scale (scale tcos l) (IZR m)) ;;
    l <- get_at (lmns self) js mn ;;
    lz <- bcast_into Rminus (a_lz acc) (scale (scale tcos l) (IZR xn_mn)) ;;
    l <- get_at (lmns self) js mn ;;
    lam <- bcast_into Rplus (a_lam acc) (scale tsin l) ;;
    Ok {| a_r := r; a_z := z; a_lt := lt; a_lz := lz; a_lam := lam |}.

(** [vcoords_rz(self, jrad, r, z, lt, lz, lam, nparity)].  The value is
    [None] when the method returns without a value ([js <= 0]). *)
Definition vcoords_rz (self : Setup) (st : Store) (jrad : Z) (r z : nd)
  (lt lz lam : list R) (nparity : Z) : result (Store * option rz_acc) :=
  let js := jrad in
  let js1 := js - 1 in
  if js <=? 0 then Ok (st, None)
  else
    let r := Sc 0 in
    let z := Sc 0 in
    ' (st, t1, t2, lt, lz, lam) <-
      (if nparity =? 0 then
         Ok (st, 1%R, 1%R, fill lt 0%R, fill lz 0%R, fill lam 0%R)
       else if 1 <? js then
         s_js <- item (sfull self) js 0%R ;;
         s_js1 <- item (sfull self) js1 0%R ;;
         Ok (st, (1 / s_js)%R, (1 / s_js1)%R, lt, lz, lam)
       else
         s_1 <- item (sfull self) 1 0%R ;;
         rm <- axis_correction self (rmnc st) ;;
         zm <- axis_correction self (zmns st) ;;
         Ok (with_rmnc_zmns st rm zm, (1 / s_1)%R, 1%R, lt, lz, lam)) ;;
    let t1 := (t1 / 2)%R in
    let t2 := (t2 / 2)%R in
    acc <- foldM (vcoords_rz_mode self st js js1 nparity t1 t2)
             (py_range 0 (mnmax self))
             {| a_r := r; a_z := z; a_lt := lt; a_lz := lz; a_lam := lam |} ;;
    Ok (st, Some acc).

(** ** vcoords_w *)

Record w_acc : Type := mkW {
  a_wt : list R;
  a_wz : list R;
  a_w : list R;
  a_bmod : list R
}.

Definition vcoords_w_mode (self : Setup) (jrad : Z) (pmns : list R)
  (acc : w_acc) (mn : Z) : result w_acc :=
  m <- item (xmnyq self) mn 0 ;;
  xn_mn <- item (xnnyq self) mn 0 ;;
  n <- int_abs_div xn_mn (nfp self) ;;
  let sgn := np_sign xn_mn in
  ' (tcos, tsin) <-
    trig_mode (cosm_nyq self) (sinm_nyq self) (cosn_nyq self) (sinn_nyq self)
      m n sgn ;;
  p <- item pmns mn 0%R ;;
  w <- bcast_into Rplus (a_w acc) (scale tsin p) ;;
  p <- item pmns mn 0%R ;;
  xm_mn <- item (xmnyq self) mn 0 ;;
  wt <- bcast_into Rplus (a_wt acc) (scale (scale tcos p) (IZR xm_mn)) ;;
  p <- item pmns mn 0%R ;;
  xn_mn <- item (xnnyq self) mn 0 ;;
  wz <- bcast_into Rminus (a_wz acc) (scale (scale tcos p) (IZR xn_mn)) ;;
  b <- get_at (bmodmnc self) jrad mn ;;
  bmod <- bcast_into Rplus (a_bmod acc) (scale tcos b) ;;
  Ok {| a_wt := wt; a_wz := wz; a_w := w; a_bmod := bmod |}.

(** [vcoords_w(self, jrad, pmns, wt, wz, w, bmod)]: the four arrays are
    updated in place and returned as the tuple [(wt, wz, w, bmod)]. *)
Definition vcoords_w (self : Setup) (jrad : Z) (pmns wt wz w bmod : list R)
  : result w_acc :=
  foldM (vcoords_w_mode self jrad pmns) (py_range 0 (nmnnyq self))
    {| a_wt := fill wt 0%R; a_wz := fill wz 0%R; a_w := fill w 0%R;
       a_bmod := fill bmod 0%R |}.

(** The tuple a call of [vcoords_w] evaluates to. *)
Definition w_tuple (a : w_acc) : list (list R) :=
  [a_wt a; a_wz a; a_w a; a_bmod a].

(** ** booz_rzhalf *)

Definition booz_rzhalf (self : Setup) (r z rodd zodd r12 z12 : nd) (js nrep : Z)
  : result (nd * nd) :=
  let shalf := sqrt (hs self * Rabs (IZR js - 1 / 2)) in
  if nrep =? 1 then
    a <- nd_op Rmult (Sc shalf) rodd ;;
    r12 <- nd_op Rplus r a ;;
    b <- nd_op Rmult (Sc shalf) zodd ;;
    z12 <- nd_op Rplus z b ;;
    Ok (r12, z12)
  else Ok (r, z).

(** ** boozerfun *)

Section Boozerfun.
(** Contents of the memory [np.empty] hands out to [trigfunc]. *)
Variable junk : nat -> nat -> nat -> R.

(** The half weights of the rows [theta = 0] and [theta = pi]. *)
Definition half_weights (nv i imax : Z) (cs : tbl * tbl) (m : Z)
  : result (tbl * tbl) :=
  let '(cosmm, sinmm) := cs in
  let stop0 := slice_bound (nrows cosmm) nv in
  let a := slice_bound (nrows cosmm) i in
  let b := slice_bound (nrows cosmm) imax in
  cosmm <- scale_col_slice cosmm 0 stop0 m (1 / 2)%R ;;
  cosmm <- scale_col_slice cosmm a b m (1 / 2)%R ;;
  let stop0 := slice_bound (nrows sinmm) nv in
  let a := slice_bound (nrows sinmm) i in
  let b := slice_bound (nrows sinmm) imax in
  sinmm <- scale_col_slice sinmm 0 stop0 m (1 / 2)%R ;;
  sinmm <- scale_col_slice sinmm a b m (1 / 2)%R ;;
  Ok (cosmm, sinmm).

(** The body of the mode loop of [boozerfun]: the five quadrature sums of
    mode [mn], stored at [mn, jrad]. *)
Definition boozerfun_mode (self : Setup) (cosmm sinmm cosnn sinnn : tbl)
  (bmod_b : list R) (rad zee : nd) (vboz xjac bbjac : list R) (jrad : Z)
  (o : outputs) (mn : Z) : result outputs :=
  xmb_mn <- item (vals (xmb self)) mn 0 ;;
  let m := xmb_mn in
  xnb_mn <- item (vals (xnb self)) mn 0 ;;
  n <- int_div_abs xnb_mn (nfp self) ;;
  xnb_mn <- item (vals (xnb self)) mn 0 ;;
  let sgn := np_sign xnb_mn in
  ' (tcos, tsin) <- trig_mode cosmm sinmm cosnn sinnn m n sgn ;;
  cost <- vmul tcos xjac ;;
  sint <- vmul tsin xjac ;;
  x <- vmul bmod_b cost ;;
  bm <- set_at (o_bmncb o) mn jrad (py_sum x) ;;
  x <- nd_op Rmult rad (Ar cost) ;;
  x <- nd_sum x ;;
  rm <- set_at (o_rmncb o) mn jrad x ;;
  x <- nd_op Rmult zee (Ar sint) ;;
  x <- nd_sum x ;;
  zm <- set_at (o_zmnsb o) mn jrad x ;;
  x <- vmul vboz sint ;;
  pm <- set_at (o_pmnsb o) mn jrad (- py_sum x)%R ;;
  x <- vmul bbjac cost ;;
  gm <- set_at (o_gmncb o) mn jrad (py_sum x) ;;
  Ok {| o_bmncb := bm; o_rmncb := rm; o_zmnsb := zm; o_pmnsb := pm;
        o_gmncb := gm |}.

(** The last five statements of [boozerfun]: each column [jrad] is
    multiplied in place by [scl]. *)
Definition scale_outputs (scl : list R) (jrad : Z) (o : outputs) : result outputs :=
  bm <- imul_col (o_bmncb o) jrad scl ;;
  rm <- imul_col (o_rmncb o) jrad scl ;;
  zm <- imul_col (o_zmnsb o) jrad scl ;;
  pm <- imul_col (o_pmnsb o) jrad scl ;;
  gm <- imul_col (o_gmncb o) jrad scl ;;
  Ok {| o_bmncb := bm; o_rmncb := rm; o_zmnsb := zm; o_pmnsb := pm;
        o_gmncb := gm |}.

(** The first part of [boozerfun], up to the end of the mode loop: the
    weighted tables at the Boozer angles and the unscaled sums. *)
Definition boozerfun_sums (self : Setup) (st : Store) (bmod_b : list R)
  (rad zee : nd) (uboz vboz xjac : list R) (jacfac : R) (jrad : Z)
  : result (outputs * (tbl * tbl * tbl * tbl)) :=
  uang <- vadd (thgrid self) uboz ;;
  vang <- vadd (ztgrid self) vboz ;;
  let nznt := nunv self in
  let nu2 := nu2_b self in
  let nv := nv_boz self in
  ' (cosmmt, sinmmt, cosnnt, sinnnt) <-
    trigfunc junk (nfp self) uang vang (mboz self) (nboz self) nznt ;;
  let cosmm := np_copy cosmmt in
  let cosnn := np_copy cosnnt in
  let sinmm := np_copy sinmmt in
  let sinnn := np_copy sinnnt in
  let i := nv * (nu2 - 1) in
  let imax := i + nv in
  ' (cosmm, sinmm) <-
    foldM (half_weights nv i imax) (py_range 0 (mboz self + 1)) (cosmm, sinmm) ;;
  let bbjac := map (fun b => jacfac / (b * b))%R bmod_b in
  o <- foldM (boozerfun_mode self cosmm sinmm cosnn sinnn bmod_b rad zee vboz
                xjac bbjac jrad)
         (py_range 0 (mnboz self)) (outputs_of st) ;;
  Ok (o, (cosmm, cosnn, sinmm, sinnn)).

(** [boozerfun(self, bmod_b, rad, zee, uboz, vboz, xjac, jacfac, jrad)] *)
Definition boozerfun (self : Setup) (st : Store) (bmod_b : list R)
  (rad zee : nd) (uboz vboz xjac : list R) (jacfac : R) (jrad : Z)
  : result Store :=
  ' (o, (cosmm, cosnn, sinmm, sinnn)) <-
    boozerfun_sums self st bmod_b rad zee uboz vboz xjac jacfac jrad ;;
  o <- scale_outputs (vals (scl self)) jrad o ;;
  Ok (with_outputs st o (STable cosmm) (STable cosnn) (STable sinmm)
        (STable sinnn)).
End Boozerfun.

(** ** modbooz *)

Record mod_acc : Type := mkMod {
  m_cosmm : list R;
  m_sinmm : list R;
  m_cosnn : list R;
  m_sinnn : list R;
  m_bmod : list R
}.

(** The body of both scalar recurrence loops of [modbooz]. *)
Definition harmonic_step1 (cs : list R * list R) (m : Z) : result (list R * list R) :=
  let '(c, s) := cs in
  c_m1 <- item c (m - 1) 0%R ;;
  c_1 <- item c 1 0%R ;;
  s_m1 <- item s (m - 1) 0%R ;;
  s_1 <- item s 1 0%R ;;
  c <- set_item c m (c_m1 * c_1 - s_m1 * s_1)%R ;;
  s_m1 <- item s (m - 1) 0%R ;;
  c_1 <- item c 1 0%R ;;
  c_m1 <- item c (m - 1) 0%R ;;
  s_1 <- item s 1 0%R ;;
  s <- set_item s m (s_m1 * c_1 + c_m1 * s_1)%R ;;
  Ok (c, s).

(** The body of the mode loop of [modbooz], for the angle pair [angles]. *)
Definition modbooz_mode (self : Setup) (bmnc : list R) (angles : Z)
  (acc : mod_acc) (mn : Z) : result mod_acc :=
  m <- item (vals (xmb self)) mn 0 ;;
  xnb_mn <- item (vals (xnb self)) mn 0 ;;
  n <- int_floordiv xnb_mn (nfp self) ;;
  xnb_mn <- item (vals (xnb self)) mn 0 ;;
  let sgn := np_sign xnb_mn in
  cm <- item (m_cosmm acc) m 0%R ;;
  cn <- item (m_cosnn acc) n 0%R ;;
  sm <- item (m_sinmm acc) m 0%R ;;
  sn <- item (m_sinnn acc) n 0%R ;;
  let cost := (cm * cn + sm * sn * sgn)%R in
  old <- item (m_bmod acc) angles 0%R ;;
  b <- item bmnc mn 0%R ;;
  bmod <- set_item (m_bmod acc) angles (old + b * cost)%R ;;
  Ok {| m_cosmm := m_cosmm acc; m_sinmm := m_sinmm acc;
        m_cosnn := m_cosnn acc; m_sinnn := m_sinnn acc; m_bmod := bmod |}.

(** The body of the loop over the four angle pairs. *)
Definition modbooz_angle (self : Setup) (st : Store) (bmnc : list R)
  (acc : mod_acc) (angles : Z) : result mod_acc :=
  cosmm <- set_item (m_cosmm acc) 0 1%R ;;
  sinmm <- set_item (m_sinmm acc) 0 0%R ;;
  u <- item (u_b st) angles 0%R ;;
  cosmm <- set_item cosmm 1 (cos u) ;;
  u <- item (u_b st) angles 0%R ;;
  sinmm <- set_item sinmm 1 (sin u) ;;
  cosnn <- set_item (m_cosnn acc) 0 1%R ;;
  sinnn <- set_item (m_sinnn acc) 0 0%R ;;
  ' (cosnn, sinnn) <-
    (if 1 <=? nboz self then
       v <- item (v_b st) angles 0%R ;;
       cosnn <- set_item cosnn 1 (cos (v * IZR (nfp self))) ;;
       v <- item (v_b st) angles 0%R ;;
       sinnn <- set_item sinnn 1 (sin (v * IZR (nfp self))) ;;
       Ok (cosnn, sinnn)
     else Ok (cosnn, sinnn)) ;;
  ' (cosmm, sinmm) <-
    foldM harmonic_step1 (py_range 2 (mboz self + 1)) (cosmm, sinmm) ;;
  ' (cosnn, sinnn) <-
    foldM harmonic_step1 (py_range 2 (nboz self + 1)) (cosnn, sinnn) ;;
  foldM (modbooz_mode self bmnc angles) (py_range 0 (mnboz self))
    {| m_cosmm := cosmm; m_sinmm := sinmm; m_cosnn := cosnn; m_sinnn := sinnn;
       m_bmod := m_bmod acc |}.

Section Modbooz.
Variable junk1 : nat -> R.

(** [modbooz(self, jrad)]: returns [bmod] and leaves the four scalar
    tables in the scratch attributes. *)
Definition modbooz (self : Setup) (st : Store) (jrad : Z)
  : result (Store * list R) :=
  bmnc <- get_col (bmncb st) jrad ;;
  let bmod := [0; 0; 0; 0]%R in
  cosmm <- np_empty1 junk1 (mboz self + 1) ;;
  sinmm <- np_empty1 junk1 (mboz self + 1) ;;
  cosnn <- np_empty1 junk1 (nboz self + 1) ;;
  sinnn <- np_empty1 junk1 (nboz self + 1) ;;
  acc <- foldM (modbooz_angle self st bmnc) (py_range 0 4)
           {| m_cosmm := cosmm; m_sinmm := sinmm; m_cosnn := cosnn;
              m_sinnn := sinnn; m_bmod := bmod |} ;;
  Ok (with_scratch st (SVec (m_cosmm acc)) (SVec (m_cosnn acc))
        (SVec (m_sinmm acc)) (SVec (m_sinnn acc)),
      m_bmod acc).
End Modbooz.

(** ** The constructor *)

Section Init.
(** Contents of the memory [np.empty] hands out: 2-D float arrays (the
    [b]-th of them holds [junk b]), 1-D float arrays, and the mode-number
    arrays. *)
Variable junk : nat -> nat -> nat -> R.
Variable junk1 : nat -> R.
Variable junkZ : nat -> Z.

(** [t[i, :]] *)
Definition get_row (t : tbl) (i : Z) : result (list R) :=
  r <- np_index (nrows t) i ;;
  Ok (map (fun j => val (at_ t r j)) (seq 0 (ncols t))).

(** The body of the grid loops: the point [lk] of the grid is
    [((lt - 1) * dth, (lz - 1) * dzt)]. *)
Definition grid_point (dth dzt : R) (lt : Z) (g : list R * list R * Z) (lz : Z)
  : result (list R * list R * Z) :=
  let '(th, zt, lk) := g in
  th <- set_item th lk (IZR (lt - 1) * dth)%R ;;
  zt <- set_item zt lk (IZR (lz - 1) * dzt)%R ;;
  Ok (th, zt, lk + 1).

Definition make_grid (nfp nu3_b nv_boz nunv : Z) : result (list R * list R) :=
  if nv_boz * nfp =? 0 then Raise ZeroDivisionError
  else if 2 * (nu3_b - 1) =? 0 then Raise ZeroDivisionError
  else
    let dzt := (2 * PI / IZR (nv_boz * nfp))%R in
    let dth := (2 * PI / IZR (2 * (nu3_b - 1)))%R in
    th <- np_empty1 junk1 nunv ;;
    zt <- np_empty1 junk1 nunv ;;
    ' (th, zt, _) <-
      foldM (fun g lt => foldM (grid_point dth dzt lt) (py_range 1 (nv_boz + 1)) g)
        (py_range 1 (nu3_b + 1)) (th, zt, 0) ;;
    Ok (th, zt).

(** Lines 97-211 of [__init__]: everything before the surface loop; the
    [logging] calls are left out.  ([vmecdata.rmnc] and [vmecdata.zmns] are
    the very arrays the object stores into later; they start the [Store].)
    The integer divisions by [ohs], [nv_boz * nfp] and [2 * (nu3_b - 1)] are
    divisions of a Python float by a Python integer, which raise
    [ZeroDivisionError] at zero.  Each call of [trigfunc] is handed four
    fresh arrays: the arrays 0-3 for the native tables, 4-7 for the Nyquist
    ones. *)
Definition setup (d : VmecData) (nboz mboz : Z) : result (Setup * Store) :=
  let mnboz := mnboz_of mboz nboz in
  let nfp := vd_nfp d in
  let ns := vd_ns d in
  bmncb <- np_alloc2 (fun _ _ => 0%R) mnboz ns ;;
  rmncb <- np_alloc2 (fun _ _ => 0%R) mnboz ns ;;
  zmnsb <- np_alloc2 (fun _ _ => 0%R) mnboz ns ;;
  pmnsb <- np_alloc2 (fun _ _ => 0%R) mnboz ns ;;
  gmncb <- np_alloc2 (fun _ _ => 0%R) mnboz ns ;;
  ' (xnb, xmb) <- init_xmnb junkZ mboz nboz nfp ;;
  norm <- make_scl junk1 mboz nboz mnboz ;;
  let ntorsum := (nboz + 1, 3 * nboz + 2) in
  let ohs := ns - 1 in
  if ohs =? 0 then Raise ZeroDivisionError
  else
    let hs := (1 / IZR ohs)%R in
    let sfull := map sqrt (vd_s d) in
    let nu3_b := n_nu2_b norm in
    let nunv := nu3_b * n_nv_boz norm in
    ' (thgrid, ztgrid) <- make_grid nfp nu3_b (n_nv_boz norm) nunv ;;
    ' (cosm, sinm, cosn, sinn) <-
      trigfunc junk nfp thgrid ztgrid (vd_mpol d - 1) (vd_ntor d) nunv ;;
    ' (cosm', sinm', cosn', sinn') <-
      trigfunc (fun b => junk (4 + b)%nat) nfp thgrid ztgrid (vd_mnyq d) (vd_nnyq d)
        nunv ;;
    Ok ({| nboz := nboz; mboz := mboz; mnboz := mnboz; nfp := nfp;
           mpol := vd_mpol d; ntor := vd_ntor d;
           xmnyq := vd_xmnyq d; xnnyq := vd_xnnyq d;
           mnyq := vd_mnyq d; nnyq := vd_nnyq d; nmnnyq := vd_nmnnyq d;
           ns := ns; lmns := vd_lmns d; bmodmnc := vd_bmnc d;
           xm := vd_xm d; xn := vd_xn d; mnmax := vd_nmn d;
           hiota := vd_hiota d; xnb := xnb; xmb := xmb;
           nu_boz := n_nu_boz norm; nv_boz := n_nv_boz norm;
           nu2_b := n_nu2_b norm; nv2_b := n_nv2_b norm;
           fac := n_fac norm; scl := n_scl norm;
           ntorsum := ntorsum; ohs := ohs; hs := hs; sfull := sfull;
           nu3_b := nu3_b; nunv := nunv; thgrid := thgrid; ztgrid := ztgrid;
           cosm_b := np_copy cosm; sinm_b := np_copy sinm;
           cosn_b := np_copy cosn; sinn_b := np_copy sinn;
           cosm_nyq := np_copy cosm'; sinm_nyq := np_copy sinm';
           cosn_nyq := np_copy cosn'; sinn_nyq := np_copy sinn' |},
        {| rmnc := vd_rmnc d; zmns := vd_zmns d;
           bmncb := bmncb; rmncb := rmncb; zmnsb := zmnsb; pmnsb := pmnsb;
           gmncb := gmncb;
           cosmm := SNone; cosnn := SNone; sinmm := SNone; sinnn := SNone;
           u_b := []; v_b := [] |}).

(** [a, b, c, d, e = self.vcoords_rz(...)]: a call that returned no value
    cannot be unpacked. *)
Definition unpack_rz (x : option rz_acc) : result rz_acc :=
  match x with
  | Some a => Ok a
  | None => Raise TypeError
  end.

(** [self.cosmm[:] = 0.0] *)
Definition zero_scratch (s : scratch) : result scratch :=
  match s with
  | SNone => Raise TypeError
  | STable t => Ok (STable (fill_table t 0%R))
  | SVec v => Ok (SVec (fill v 0%R))
  end.

(** Lines 292-307: the four corner angle pairs. *)
Definition corner_angles (self : Setup) (p1 q1 : list R) : result (list R * list R) :=
  u_b <- np_empty1 junk1 4 ;;
  v_b <- np_empty1 junk1 4 ;;
  piv <- item (ztgrid self) (nv2_b self - 1) 0%R ;;
  x <- item p1 0 0%R ;;
  u_b <- set_item u_b 0 x ;;
  x <- item q1 0 0%R ;;
  v_b <- set_item v_b 0 x ;;
  x <- item p1 (nv2_b self - 1) 0%R ;;
  u_b <- set_item u_b 2 x ;;
  x <- item q1 (nv2_b self - 1) 0%R ;;
  v_b <- set_item v_b 2 (piv + x)%R ;;
  let i1 := nv_boz self * (nu2_b self - 1) in
  piu <- item (thgrid self) i1 0%R ;;
  x <- item p1 i1 0%R ;;
  u_b <- set_item u_b 1 (piu + x)%R ;;
  x <- item q1 i1 0%R ;;
  v_b <- set_item v_b 1 x ;;
  let i1 := nv2_b self - 1 + nv_boz self * (nu2_b self - 1) in
  x <- item p1 i1 0%R ;;
  u_b <- set_item u_b 3 (piu + x)%R ;;
  x <- item q1 i1 0%R ;;
  v_b <- set_item v_b 3 (piv + x)%R ;;
  Ok (u_b, v_b).

(** The body of the surface loop (lines 218-313), for the surface [jrad].
    The [print] statements are left out, and so are the allocations of
    [xjac], [p1] and [q1], which are rebound before any use.  The line
    [wt, wz, wp = self.vcoords_w(...)] unpacks the tuple [vcoords_w]
    returns into three names.  The call of [boozerfun] for the surface
    [jrad] is handed the four fresh arrays from number [4 + 4 * jrad] on. *)
Definition surface_step (d : VmecData) (self : Setup) (st : Store) (jrad : Z)
  : result Store :=
  bsubtmnc <- get_row (vd_bsubumnc d) jrad ;;
  bsubzmnc <- get_row (vd_bsubvmnc d) jrad ;;
  pmns <- np_empty1 junk1 (nmnnyq self) ;;
  gpsi <- np_empty1 (fun _ => 0%R) (ns self) ;;
  ipsi <- np_empty1 (fun _ => 0%R) (ns self) ;;
  pmn <- transpmn self pmns bsubtmnc bsubzmnc gpsi ipsi jrad ;;
  let pmns := p_pmns pmn in
  let gpsi := p_gpsi pmn in
  let ipsi := p_ipsi pmn in
  r1 <- np_empty1 junk1 (nunv self) ;;
  z1 <- np_empty1 junk1 (nunv self) ;;
  rodd <- np_empty1 junk1 (nunv self) ;;
  zodd <- np_empty1 junk1 (nunv self) ;;
  lt <- np_empty1 junk1 (nunv self) ;;
  lz <- np_empty1 junk1 (nunv self) ;;
  wt <- np_empty1 junk1 (nunv self) ;;
  wz <- np_empty1 junk1 (nunv self) ;;
  wp <- np_empty1 junk1 (nunv self) ;;
  lam <- np_empty1 junk1 (nunv self) ;;
  bmod_b <- np_empty1 junk1 (nunv self) ;;
  ' (st, even) <- vcoords_rz self st jrad (Ar r1) (Ar z1) lt lz lam 0 ;;
  even <- unpack_rz even ;;
  let r1 := a_r even in
  let z1 := a_z even in
  ' (st, odd) <-
    vcoords_rz self st jrad (Ar rodd) (Ar zodd) (a_lt even) (a_lz even)
      (a_lam even) 1 ;;
  odd <- unpack_rz odd ;;
  let rodd := a_r odd in
  let zodd := a_z odd in
  let lt := a_lt odd in
  let lz := a_lz odd in
  let lam := a_lam odd in
  w <- vcoords_w self jrad pmns wt wz wp bmod_b ;;
  let bmod_b := a_bmod w in
  ' (wt, wz, wp) <- unpack3 (w_tuple w) ;;
  h <- snd (harfun (hiota self) gpsi ipsi jrad lt lz lam wt wz wp) ;;
  let jacfac := h_jacfac h in
  let p1 := h_uboz h in
  let q1 := h_vboz h in
  let xjac := h_xjac h in
  r12 <- np_empty1 junk1 (nunv self) ;;
  z12 <- np_empty1 junk1 (nunv self) ;;
  ' (r12, z12) <- booz_rzhalf self r1 z1 rodd zodd (Ar r12) (Ar z12) jrad 1 ;;
  let st := with_scratch st SNone SNone SNone SNone in
  st <- boozerfun (fun b => junk (4 + 4 * Z.to_nat jrad + b)%nat) self st bmod_b r12 z12
          p1 q1 xjac jacfac jrad ;;
  cm <- zero_scratch (cosmm st) ;;
  cn <- zero_scratch (cosnn st) ;;
  sm <- zero_scratch (sinmm st) ;;
  sn <- zero_scratch (sinnn st) ;;
  let st := with_scratch st cm cn sm sn in
  ' (u_b, v_b) <- corner_angles self p1 q1 ;;
  let st := with_angles st u_b v_b in
  ' (st, bmodb) <- modbooz junk1 self st jrad ;;
  Ok st.

(** [for jrad in range(1, self.ns)] *)
Definition surface_loop (d : VmecData) (self : Setup) (st : Store) : result Store :=
  foldM (surface_step d self) (py_range 1 (ns self)) st.

(** [VMEC2Booz(vmecdata, nboz, mboz)] *)
Definition init (d : VmecData) (nboz mboz : Z) : result (Setup * Store) :=
  ' (self, st) <- setup d nboz mboz ;;
  st <- surface_loop d self st ;;
  Ok (self, st).
End Init.

(** ** Notions used in the statements *)

(** The values of column [c] of a table. *)
Definition col_vals {A} (t : table (cell A)) (c : nat) : list A :=
  map (fun i => val (at_ t i c)) (seq 0 (nrows t)).

(** The right-hand sides of the two recurrence statements at row [i]. *)
Definition next_cos (c s : table (cell R)) (m i : nat) : R :=
  (val (at_ c i (m - 1)) * val (at_ c i 1) - val (at_ s i (m - 1)) * val (at_ s i 1))%R.

Definition next_sin (c s : table (cell R)) (m i : nat) : R :=
  (val (at_ s i (m - 1)) * val (at_ c i 1) + val (at_ c i (m - 1)) * val (at_ s i 1))%R.

(** Columns [0 .. m-1] of the pair of tables hold the harmonics of the angles
    [ang i], each written once; the other columns were never written and
    hold what the allocation left there. *)
Definition harmonics_upto (junk_c junk_s : nat -> nat -> R) (ang : nat -> R)
  (n M m : nat) (c s : table (cell R)) : Prop :=
  nrows c = n /\ nrows s = n /\ ncols c = M /\ ncols s = M /\
  (forall i j, (i < n)%nat -> (j < m)%nat ->
     at_ c i j = {| val := cos (INR j * ang i); writes := 1 |} /\
     at_ s i j = {| val := sin (INR j * ang i); writes := 1 |}) /\
  (forall i j, (m <= j)%nat ->
     at_ c i j = {| val := junk_c i j; writes := 0 |} /\
     at_ s i j = {| val := junk_s i j; writes := 0 |}).

(** A binary64 value that is an infinity or a NaN. *)
Definition nonfinite (x : PrimFloat.float) : bool :=
  match FloatOps.Prim2SF x with
  | SpecFloat.S754_infinity _ | SpecFloat.S754_nan => true
  | _ => false
  end.

(** The modes of one poloidal number [m]. *)
Definition mode_block (nboz nfp m : Z) : list (Z * Z) :=
  map (fun n => (m, n * nfp)) (py_range (if m =? 0 then 0 else - nboz) (nboz + 1)).

(** The state of [setup_xmnb] after it has stored the modes [L], in arrays
    of capacity [N]. *)
Definition stored_modes (N : nat) (L : list (Z * Z)) (st : xmnb) : Prop :=
  x_returned st = false /\
  x_mnboz0 st = Z.of_nat (length L) /\
  exists rn rm,
    x_xnb st = map (fun p => {| val := snd p; writes := 1 |}) L ++ rn /\
    x_xmb st = map (fun p => {| val := fst p; writes := 1 |}) L ++ rm /\
    (length L + length rn = N)%nat /\ (length L + length rm = N)%nat /\
    Forall (fun c => writes c = 0%nat) rn /\ Forall (fun c => writes c = 0%nat) rm.

(** Column [c] of [t'] is column [c] of [t] multiplied elementwise by [v],
    stored once more, and nothing else of [t] has changed. *)
Definition column_scaled (v : list R) (c : nat) (t t' : tbl) : Prop :=
  nrows t' = nrows t /\ ncols t' = ncols t /\
  forall i k, at_ t' i k =
    if ((k =? c) && (i <? nrows t))%nat
    then store (val (at_ t i c) * nth i v 0)%R (at_ t i k) else at_ t i k.

(** Two tables of the same shape. *)
Definition same_shape (t t' : tbl) : Prop :=
  nrows t' = nrows t /\ ncols t' = ncols t.

Definition same_shapes (o o' : outputs) : Prop :=
  same_shape (o_bmncb o) (o_bmncb o') /\ same_shape (o_rmncb o) (o_rmncb o') /\
  same_shape (o_zmnsb o) (o_zmnsb o') /\ same_shape (o_pmnsb o) (o_pmnsb o') /\
  same_shape (o_gmncb o) (o_gmncb o').

(** *** The sums [vcoords_rz] accumulates *)

(** [t[k, j]] as the column read [t[:, j]] gives it. *)
Definition col_at (t : tbl) (j : Z) (k : nat) : R :=
  match get_col t j with
  | Ok l => nth k l 0%R
  | Raise _ => 0%R
  end.

(** [t[i, j]] *)
Definition entry (t : tbl) (i j : Z) : R :=
  match get_at t i j with
  | Ok x => x
  | Raise _ => 0%R
  end.

(** [v[i]] of a float array. *)
Definition amplitude (v : list R) (i : Z) : R :=
  match item v i 0%R with
  | Ok x => x
  | Raise _ => 0%R
  end.

(** [v[i]] of a mode-number array. *)
Definition mode_number (v : list Z) (i : Z) : Z :=
  match item v i 0 with
  | Ok x => x
  | Raise _ => 0
  end.

(** The basis functions of the native mode [mn] at the grid point [k]. *)
Definition tcos_at (self : Setup) (mn : Z) (k : nat) : R :=
  let m := mode_number (xm self) mn in
  let x := mode_number (xn self) mn in
  let n := Z.abs (Z.quot x (nfp self)) in
  (col_at (cosm_b self) m k * col_at (cosn_b self) n k
   + col_at (sinm_b self) m k * col_at (sinn_b self) n k * np_sign x)%R.

Definition tsin_at (self : Setup) (mn : Z) (k : nat) : R :=
  let m := mode_number (xm self) mn in
  let x := mode_number (xn self) mn in
  let n := Z.abs (Z.quot x (nfp self)) in
  (col_at (sinm_b self) m k * col_at (cosn_b self) n k
   - col_at (cosm_b self) m k * col_at (sinn_b self) n k * np_sign x)%R.

(** What the mode [mn] adds to [lt], [lz], [lam] at the grid point [k], on
    the surface [js]. *)
Definition lt_term (self : Setup) (js : Z) (k : nat) (mn : Z) : R :=
  (tcos_at self mn k * entry (lmns self) js mn * IZR (mode_number (xm self) mn))%R.

Definition lz_term (self : Setup) (js : Z) (k : nat) (mn : Z) : R :=
  (- (tcos_at self mn k * entry (lmns self) js mn * IZR (mode_number (xn self) mn)))%R.

Definition lam_term (self : Setup) (js : Z) (k : nat) (mn : Z) : R :=
  (tsin_at self mn k * entry (lmns self) js mn)%R.

(** The native modes of poloidal parity [p], in index order. *)
Definition parity_modes (self : Setup) (p : Z) : list Z :=
  filter (fun mn => mode_number (xm self) mn mod 2 =? p) (py_range 0 (mnmax self)).

(** The sum of the terms [f mn] over the modes [l]. *)
Definition mode_sum (f : Z -> R) (l : list Z) : R :=
  fold_right Rplus 0%R (map f l).

(** The entry [k] of a value that is a scalar or an array. *)
Definition nd_at (a : nd) (k : nat) : R :=
  match a with
  | Sc x => x
  | Ar v => nth k v 0%R
  end.

(** A value that is a scalar or an array of [n] entries. *)
Definition nd_fits (n : nat) (a : nd) : Prop :=
  match a with
  | Sc _ => True
  | Ar v => length v = n
  end.

(** The accumulators of [vcoords_rz] are arrays over [n] grid points. *)
Definition rz_fits (n : nat) (a : rz_acc) : Prop :=
  nd_fits n (a_r a) /\ nd_fits n (a_z a) /\
  length (a_lt a) = n /\ length (a_lz a) = n /\ length (a_lam a) = n.

(** The four native trigonometric tables have [n] rows. *)
Definition grid_rows (self : Setup) (n : nat) : Prop :=
  nrows (cosm_b self) = n /\ nrows (sinm_b self) = n /\
  nrows (cosn_b self) = n /\ nrows (sinn_b self) = n.

(** The interpolated amplitude of mode [mn] with the weights [t1], [t2]. *)
Definition interp (t : tbl) (t1 t2 : R) (js mn : Z) : R :=
  (t1 * entry t js mn + t2 * entry t (js - 1) mn)%R.

(** ** A small equilibrium

    Three surfaces, [mpol = 2], [ntor = 1], one field period, the five
    native modes in VMEC order [(0,0), (0,1), (1,-1), (1,0), (1,1)], the same
    mode set for the Nyquist data. *)

(** The table with the given rows. *)
Definition table_of (rows : list (list R)) : tbl :=
  {| nrows := length rows;
     ncols := length (hd [] rows);
     at_ := fun i j => {| val := nth j (nth i rows []) 0%R; writes := 0 |} |}.

Definition sample_data : VmecData :=
  {| vd_nfp := 1; vd_mpol := 2; vd_ntor := 1;
     vd_xmnyq := [0; 0; 1; 1; 1]; vd_xnnyq := [0; 1; -1; 0; 1];
     vd_mnyq := 1; vd_nnyq := 1; vd_nmnnyq := 5;
     vd_ns := 3;
     vd_rmnc := table_of [[10; 1; 2; 3; 4]; [10; 2; 4; 6; 8]; [10; 3; 6; 9; 12]]%R;
     vd_zmns := table_of [[0; 1; 1; 1; 1]; [0; 2; 2; 2; 2]; [0; 3; 3; 3; 3]]%R;
     vd_lmns := table_of [[0; 0; 0; 0; 0]; [0; 1; 2; 3; 4]; [0; 2; 4; 6; 8]]%R;
     vd_bmnc := table_of [[5; 0; 0; 0; 0]; [5; 1; 1; 1; 1]; [5; 2; 2; 2; 2]]%R;
     vd_xm := [0; 0; 1; 1; 1]; vd_xn := [0; 1; -1; 0; 1];
     vd_nmn := 5;
     vd_hiota := [1; 1; 1]%R;
     vd_s := [0; 1 / 2; 1]%R;
     vd_bsubumnc := table_of [[0; 0; 0; 0; 0]; [1; 0; 1; 1; 1]; [2; 0; 2; 2; 2]]%R;
     vd_bsubvmnc := table_of [[3; 0; 0; 0; 0]; [3; 1; 1; 1; 1]; [3; 2; 2; 2; 2]]%R |}.

Definition is_ok {A : Type} (r : result A) : bool :=
  match r with
  | Ok _ => true
  | Raise _ => false
  end.

(** The value of a computation that is known to return. *)
Definition ok_value {A : Type} (r : result A) : is_ok r = true -> A :=
  match r as r0 return is_ok r0 = true -> A with
  | Ok a => fun _ => a
  | Raise _ => fun H => match Bool.diff_false_true H with end
  end.

(** The object the first part of the constructor builds for the small
    equilibrium with [nboz = 0] and [mboz = 1] (fresh memory holding 0). *)
Definition sample_setup : result (Setup * Store) :=
  setup (fun _ _ _ => 0%R) (fun _ => 0%R) (fun _ => 0) sample_data 0 1.

Definition sample_object : Setup * Store :=
  ok_value sample_setup (@eq_refl bool true <: is_ok sample_setup = true).

Definition sample_self : Setup := fst sample_object.
Definition sample_store : Store := snd sample_object.

(** The constructor's two calls of [vcoords_rz] for the surface 1 of the
    small equilibrium, on arrays of 8 grid points holding 7. *)
Definition sample_blank : list R := repeat 7%R 8.

Definition no_acc : rz_acc :=
  {| a_r := Sc 0; a_z := Sc 0; a_lt := []; a_lz := []; a_lam := [] |}.

Definition acc_of (r : result (Store * option rz_acc)) : Store * rz_acc :=
  match r with
  | Ok (st, Some a) => (st, a)
  | _ => (sample_store, no_acc)
  end.

Definition sample_even : Store * rz_acc :=
  acc_of (vcoords_rz sample_self sample_store 1 (Ar sample_blank) (Ar sample_blank)
            sample_blank sample_blank sample_blank 0).

Definition sample_odd : Store * rz_acc :=
  acc_of (vcoords_rz sample_self (fst sample_even) 1 (Ar sample_blank)
            (Ar sample_blank) (a_lt (snd sample_even)) (a_lz (snd sample_even))
            (a_lam (snd sample_even)) 1).

(** *** The field-strength series

    The Boozer series of the amplitudes [bmnc] at the angle pair [(u, v)]:
    the sum of [bmnc[mn] * cos(xmb[mn] * u - xnb[mn] * v)] over the modes. *)
Definition boozer_series (xmb xnb : list Z) (bmnc : list R) (u v : R) : R :=
  fold_right Rplus 0%R
    (map (fun p => (fst p * cos (IZR (fst (snd p)) * u - IZR (snd (snd p)) * v))%R)
         (combine bmnc (combine xmb xnb))).

(** The object for the small equilibrium with [nboz = 2] and [mboz = 2]:
    eight Boozer modes, [(0,0), (0,1), (0,2), (1,-2), (1,-1), (1,0), (1,1),
    (1,2)].  Its store holds a unit amplitude of the mode [(1,-1)] on
    surface 1 and the four angle pairs [(0, pi)]. *)
Definition sample_setup22 : result (Setup * Store) :=
  setup (fun _ _ _ => 0%R) (fun _ => 0%R) (fun _ => 0) sample_data 2 2.

Definition sample_object22 : Setup * Store :=
  ok_value sample_setup22 (@eq_refl bool true <: is_ok sample_setup22 = true).

Definition sample_self22 : Setup := fst sample_object22.

Definition sample_store22 : Store :=
  let st := snd sample_object22 in
  let o := outputs_of st in
  with_angles
    (with_outputs st
       {| o_bmncb := store_at (o_bmncb o) 4 1 1%R; o_rmncb := o_rmncb o;
          o_zmnsb := o_zmnsb o; o_pmnsb := o_pmnsb o; o_gmncb := o_gmncb o |}
       SNone SNone SNone SNone)
    [0; 0; 0; 0]%R [PI; PI; PI; PI].

(** A call of [boozerfun] on the object of the small equilibrium, for
    surface 1, with unit fields on the 8 grid points. *)
Definition sample_boozerfun : result Store :=
  boozerfun (fun _ _ _ => 0%R) sample_self sample_store (repeat 1%R 8)
    (Ar (repeat 1%R 8)) (Sc 0) (repeat 0%R 8) (repeat 0%R 8) (repeat 1%R 8) 1%R 1.

(** The mode loop of [boozerfun] has stored once into the entries
    [0 .. m-1] of column [c] of [t0], giving [t], and into nothing else. *)
Definition stored_upto (c m : nat) (t0 t : tbl) : Prop :=
  same_shape t0 t /\
  forall i j,
    ((j <> c \/ m <= i)%nat -> at_ t i j = at_ t0 i j) /\
    (j = c -> (i < m)%nat -> writes (at_ t i j) = S (writes (at_ t0 i j))).

Definition outputs_stored_upto (c m : nat) (o0 o : outputs) : Prop :=
  stored_upto c m (o_bmncb o0) (o_bmncb o) /\
  stored_upto c m (o_rmncb o0) (o_rmncb o) /\
  stored_upto c m (o_zmnsb o0) (o_zmnsb o) /\
  stored_upto c m (o_pmnsb o0) (o_pmnsb o) /\
  stored_upto c m (o_gmncb o0) (o_gmncb o).

(** Column [c] of [t] has been stored into twice in each of its [n]
    entries, and no other cell of [t] has changed. *)
Definition column_stored_twice (c n : nat) (t t' : tbl) : Prop :=
  nrows t' = nrows t /\ ncols t' = ncols t /\
  forall i j,
    (j <> c -> at_ t' i j = at_ t i j) /\
    (j = c -> (i < n)%nat -> writes (at_ t' i j) = S (S (writes (at_ t i j)))).

(** The store that call leaves. *)
Definition sample_boozed : Store :=
  ok_value sample_boozerfun (@eq_refl bool true <: is_ok sample_boozerfun = true).

From Stdlib Require Import DecimalString.

(** *** The angular grid *)

(** The points [0 .. lk-1] of the two grid arrays, of [N] entries each, hold
    their angles: the point [k] lies on the row [k // nv] in [theta] and the
    column [k % nv] in [zeta]. *)
Definition grid_filled (dth dzt : R) (nv : Z) (N : nat) (lk : Z) (th zt : list R)
  : Prop :=
  length th = N /\ length zt = N /\
  forall k : nat, Z.of_nat k < lk ->
    nth k th 0%R = (IZR (Z.of_nat k / nv) * dth)%R /\
    nth k zt 0%R = (IZR (Z.of_nat k mod nv) * dzt)%R.

(** [np.zeros([r, c])] for a shape that is not negative. *)
Definition zeros2 (r c : Z) : tbl :=
  {| nrows := Z.to_nat r; ncols := Z.to_nat c;
     at_ := fun _ _ => {| val := 0%R; writes := 0 |} |}.

(** A table of [r] rows and [c] columns. *)
Definition table_shape (t : tbl) (r c : Z) : Prop :=
  Z.of_nat (nrows t) = r /\ Z.of_nat (ncols t) = c.

(** The five output tables of [st] have [n] rows, one for each Boozer mode,
    and a column [jr]. *)
Definition has_column (n jr : nat) (t : tbl) : Prop :=
  nrows t = n /\ (jr < ncols t)%nat.

Definition outputs_have_column (n jr : nat) (st : Store) : Prop :=
  has_column n jr (bmncb st) /\ has_column n jr (rmncb st) /\
  has_column n jr (zmnsb st) /\ has_column n jr (pmnsb st) /\
  has_column n jr (gmncb st).

(** The basis functions of the Nyquist mode [mn] at the grid point [k]. *)
Definition tcos_nyq_at (self : Setup) (mn : Z) (k : nat) : R :=
  let m := mode_number (xmnyq self) mn in
  let x := mode_number (xnnyq self) mn in
  let n := Z.abs (Z.quot x (nfp self)) in
  (col_at (cosm_nyq self) m k * col_at (cosn_nyq self) n k
   + col_at (sinm_nyq self) m k * col_at (sinn_nyq self) n k * np_sign x)%R.

Definition tsin_nyq_at (self : Setup) (mn : Z) (k : nat) : R :=
  let m := mode_number (xmnyq self) mn in
  let x := mode_number (xnnyq self) mn in
  let n := Z.abs (Z.quot x (nfp self)) in
  (col_at (sinm_nyq self) m k * col_at (cosn_nyq self) n k
   - col_at (cosm_nyq self) m k * col_at (sinn_nyq self) n k * np_sign x)%R.

(** *** transpmn *)

(** The amplitude [transpmn] stores for a Nyquist mode [(xm, xn)] with the
    covariant field amplitudes [bt] (poloidal) and [bz] (toroidal). *)
Definition pmn_value (xm xn : Z) (bt bz : R) : R :=
  if negb (xm =? 0) then (bt / IZR xm)%R
  else if negb (xn =? 0) then (- bz / IZR xn)%R
  else 0%R.

(** The mode [k] is the mode [(0, 0)]. *)
Definition zero_mode (xm xn : list Z) (k : nat) : Prop :=
  nth k xm 0 = 0 /\ nth k xn 0 = 0.

(** *** The sums [vcoords_w] accumulates *)

(** The four Nyquist trigonometric tables have [n] rows. *)
Definition nyq_rows (self : Setup) (n : nat) : Prop :=
  nrows (cosm_nyq self) = n /\ nrows (sinm_nyq self) = n /\
  nrows (cosn_nyq self) = n /\ nrows (sinn_nyq self) = n.

(** The phase [m * theta - x * zeta] of the Nyquist mode [mn] at the grid
    point [k]. *)
Definition nyq_phase (self : Setup) (mn : Z) (k : nat) : R :=
  (IZR (mode_number (xmnyq self) mn) * nth k (thgrid self) 0
   - IZR (mode_number (xnnyq self) mn) * nth k (ztgrid self) 0)%R.

(** A Nyquist mode the tables of the object cover: [0 <= m <= mnyq] and
    [x = q * nfp] with [|q| <= nnyq], where the first toroidal harmonic is
    only there when [nnyq > 1]. *)
Definition nyq_mode_covered (self : Setup) (mn : Z) : Prop :=
  0 <= mode_number (xmnyq self) mn <= mnyq self /\
  exists q, mode_number (xnnyq self) mn = q * nfp self /\
            Z.abs q <= nnyq self /\ (q = 0 \/ 1 < nnyq self).

(** The state of the loop of [transpmn] after the modes [0 .. i-1], started
    with the arrays [pmns0], [gpsi0], [ipsi0]: the first [i] entries of
    [pmns] are set, the others untouched; [gpsi] and [ipsi] have changed at
    most at the index [jr], where they hold the amplitudes of the last mode
    [(0, 0)] met so far. *)
Definition transpmn_state (xm xn : list Z) (bt bz : list R) (jr : nat)
  (pmns0 gpsi0 ipsi0 : list R) (i : nat) (acc : pmn_acc) : Prop :=
  length (p_pmns acc) = length pmns0 /\
  length (p_gpsi acc) = length gpsi0 /\
  length (p_ipsi acc) = length ipsi0 /\
  (forall k, (k < i)%nat ->
     nth k (p_pmns acc) 0%R
       = pmn_value (nth k xm 0) (nth k xn 0) (nth k bt 0%R) (nth k bz 0%R)) /\
  (forall k, (i <= k)%nat -> nth k (p_pmns acc) 0%R = nth k pmns0 0%R) /\
  (forall j, j <> jr ->
     nth j (p_gpsi acc) 0%R = nth j gpsi0 0%R /\
     nth j (p_ipsi acc) 0%R = nth j ipsi0 0%R) /\
  ((forall k, (k < i)%nat -> ~ zero_mode xm xn k) ->
     p_gpsi acc = gpsi0 /\ p_ipsi acc = ipsi0) /\
  (forall k, (k < i)%nat -> zero_mode xm xn k ->
     (forall k', (k < k' < i)%nat -> ~ zero_mode xm xn k') ->
     nth jr (p_gpsi acc) 0%R = nth k bz 0%R /\
     nth jr (p_ipsi acc) 0%R = nth k bt 0%R).

(** What the Nyquist mode [mn] adds to [w], [wt], [wz] and [bmod] at the
    grid point [k]. *)
Definition w_term (self : Setup) (pmns : list R) (k : nat) (mn : Z) : R :=
  (tsin_nyq_at self mn k * amplitude pmns mn)%R.

Definition wt_term (self : Setup) (pmns : list R) (k : nat) (mn : Z) : R :=
  (tcos_nyq_at self mn k * amplitude pmns mn * IZR (mode_number (xmnyq self) mn))%R.

Definition wz_term (self : Setup) (pmns : list R) (k : nat) (mn : Z) : R :=
  (- (tcos_nyq_at self mn k * amplitude pmns mn * IZR (mode_number (xnnyq self) mn)))%R.

Definition bmod_term (self : Setup) (jrad : Z) (k : nat) (mn : Z) : R :=
  (tcos_nyq_at self mn k * entry (bmodmnc self) jrad mn)%R.

(** The four accumulators of [vcoords_w] are arrays over [n] grid points. *)
Definition w_fits (n : nat) (a : w_acc) : Prop :=
  length (a_wt a) = n /\ length (a_wz a) = n /\
  length (a_w a) = n /\ length (a_bmod a) = n.

(** *** modbooz *)

(** The entries [0 .. m-1] of the pair of scalar tables, of [M] entries
    each, hold the harmonics of the angle [ang]. *)
Definition vec_harmonics (ang : R) (M m : nat) (c s : list R) : Prop :=
  length c = M /\ length s = M /\
  forall j, (j < m)%nat ->
    nth j c 0%R = cos (INR j * ang) /\ nth j s 0%R = sin (INR j * ang).

(** A Boozer mode [(m, x)] of the object that [modbooz] evaluates with the
    harmonic it is meant to: [0 <= m <= mboz] and [x = q * nfp] with
    [|q| <= nboz], where [q >= 0] or [nboz = 1] (the index [q = -1] then
    wraps around to the entry 1 of a table of two entries). *)
Definition mode_in_reach (self : Setup) (mn : nat) : Prop :=
  0 <= nth mn (vals (xmb self)) 0 <= mboz self /\
  exists q, nth mn (vals (xnb self)) 0 = q * nfp self /\
            - nboz self <= q <= nboz self /\ (0 <= q \/ nboz self = 1).

(** The term of the mode [i] in the Boozer series at the angle pair
    [(u, v)], and the sum of the first [n] terms of a sequence. *)
Definition series_term (xmb xnb : list Z) (bmnc : list R) (u v : R) (i : nat) : R :=
  (nth i bmnc 0%R * cos (IZR (nth i xmb 0%Z) * u - IZR (nth i xnb 0%Z) * v))%R.

Definition partial_sum (f : nat -> R) (n : nat) : R :=
  fold_right Rplus 0%R (map f (seq 0 n)).

(** *** The quadrature of boozerfun *)

(** The weight of the grid point [k] in the quadrature over [theta]: one
    half on the first row ([theta = 0]) and on the last one ([theta = pi]),
    one elsewhere. *)
Definition theta_weight (self : Setup) (k : nat) : R :=
  if (Z.of_nat k <? nv_boz self) || (nv_boz self * (nu2_b self - 1) <=? Z.of_nat k)
  then (1 / 2)%R else 1%R.

(** The phase [m * u - x * v] of the Boozer mode [mn] at the grid point
    [k], at the Boozer angles [u = theta + uboz] and [v = zeta + vboz]. *)
Definition boozer_phase (self : Setup) (uboz vboz : list R) (mn k : nat) : R :=
  (IZR (nth mn (vals (xmb self)) 0%Z) * (nth k (thgrid self) 0 + nth k uboz 0)
   - IZR (nth mn (vals (xnb self)) 0%Z) * (nth k (ztgrid self) 0 + nth k vboz 0))%R.

(** The two kernels of the quadrature: the weighted basis function times
    the Jacobian. *)
Definition cos_kernel (self : Setup) (uboz vboz xjac : list R) (mn k : nat) : R :=
  (theta_weight self k * cos (boozer_phase self uboz vboz mn k) * nth k xjac 0)%R.

Definition sin_kernel (self : Setup) (uboz vboz xjac : list R) (mn k : nat) : R :=
  (theta_weight self k * sin (boozer_phase self uboz vboz mn k) * nth k xjac 0)%R.

(** Builtin [sum] of the [N] values [f 0 .. f (N-1)]. *)
Definition quadrature (f : nat -> R) (N : nat) : R := py_sum (map f (seq 0 N)).

(** A Boozer mode the tables of [boozerfun] cover: [0 <= m <= mboz] and
    [x = q * nfp] with [|q| <= nboz], where the first toroidal harmonic is
    only there when [nboz > 1]. *)
Definition boozer_mode_covered (self : Setup) (mn : nat) : Prop :=
  0 <= nth mn (vals (xmb self)) 0 <= mboz self /\
  exists q, nth mn (vals (xnb self)) 0 = q * nfp self /\
            Z.abs q <= nboz self /\ (q = 0 \/ 1 < nboz self).

(** The table [t] is [t0] with the rows of its columns [0 .. m-1] weighted
    by [w]. *)
Definition weighted_upto (w : nat -> R) (N : nat) (m : nat) (t0 t : tbl) : Prop :=
  nrows t = nrows t0 /\ ncols t = ncols t0 /\
  forall k j, (k < N)%nat ->
    val (at_ t k j) = ((if (j <? m)%nat then w k else 1) * val (at_ t0 k j))%R.

(** The mode loop of [boozerfun] has stored the sums [vb i], [vr i],
    [vz i], [vp i], [vg i] of the modes [i < m] in column [jr] of the five
    tables. *)
Definition sums_stored (vb vr vz vp vg : nat -> R) (jr m : nat) (o0 o : outputs)
  : Prop :=
  same_shapes o0 o /\
  forall i, (i < m)%nat ->
    val (at_ (o_bmncb o) i jr) = vb i /\
    val (at_ (o_rmncb o) i jr) = vr i /\
    val (at_ (o_zmnsb o) i jr) = vz i /\
    val (at_ (o_pmnsb o) i jr) = vp i /\
    val (at_ (o_gmncb o) i jr) = vg i.

(** The array [a, a + 1, ..., a + n - 1]. *)
Definition sample_ramp (a : R) (n : nat) : list R :=
  map (fun k => (a + INR k)%R) (seq 0 n).

(** *** More small objects

    The small equilibrium with the toroidal bounds [ntor = nnyq = 2], so
    that its tables hold the first toroidal harmonic, and the object built
    from it with [nboz = 0] and [mboz = 1]. *)
Definition sample_data2 : VmecData :=
  {| vd_nfp := 1; vd_mpol := 2; vd_ntor := 2;
     vd_xmnyq := vd_xmnyq sample_data; vd_xnnyq := vd_xnnyq sample_data;
     vd_mnyq := 1; vd_nnyq := 2; vd_nmnnyq := 5;
     vd_ns := 3;
     vd_rmnc := vd_rmnc sample_data; vd_zmns := vd_zmns sample_data;
     vd_lmns := vd_lmns sample_data; vd_bmnc := vd_bmnc sample_data;
     vd_xm := vd_xm sample_data; vd_xn := vd_xn sample_data;
     vd_nmn := 5;
     vd_hiota := vd_hiota sample_data; vd_s := vd_s sample_data;
     vd_bsubumnc := vd_bsubumnc sample_data;
     vd_bsubvmnc := vd_bsubvmnc sample_data |}.

Definition sample_setup2 : result (Setup * Store) :=
  setup (fun _ _ _ => 0%R) (fun _ => 0%R) (fun _ => 0) sample_data2 0 1.

Definition sample_object2 : Setup * Store :=
  ok_value sample_setup2 (@eq_refl bool true <: is_ok sample_setup2 = true).

Definition sample_self2 : Setup := fst sample_object2.
Definition sample_store2 : Store := snd sample_object2.

(** A call of [vcoords_w] on that object, for surface 1. *)
Definition sample_pmns : list R := [1; 2; 3; 4; 5]%R.

Definition sample_vcoords_w : result w_acc :=
  vcoords_w sample_self2 1 sample_pmns sample_blank sample_blank sample_blank
    sample_blank.

Definition sample_w : w_acc :=
  ok_value sample_vcoords_w (@eq_refl bool true <: is_ok sample_vcoords_w = true).

(** The object for the first small equilibrium with [nboz = 2] and
    [mboz = 1]: the three Boozer modes [(0,0), (0,1), (0,2)].  Its store
    holds the amplitudes 2, 3, 5 of the three modes on the surface 1 and the
    four angle pairs [(0, pi)], [(1, 4)], [(2, 5)], [(3, 6)]. *)
Definition sample_setup12 : result (Setup * Store) :=
  setup (fun _ _ _ => 0%R) (fun _ => 0%R) (fun _ => 0) sample_data 2 1.

Definition sample_object12 : Setup * Store :=
  ok_value sample_setup12 (@eq_refl bool true <: is_ok sample_setup12 = true).

Definition sample_self12 : Setup := fst sample_object12.

Definition sample_store12 : Store :=
  let st := snd sample_object12 in
  let o := outputs_of st in
  with_angles
    (with_outputs st
       {| o_bmncb := store_at (store_at (store_at (o_bmncb o) 0 1 2%R) 1 1 3%R) 2 1 5%R;
          o_rmncb := o_rmncb o; o_zmnsb := o_zmnsb o; o_pmnsb := o_pmnsb o;
          o_gmncb := o_gmncb o |}
       SNone SNone SNone SNone)
    [0; 1; 2; 3]%R [PI; 4; 5; 6]%R.

(** Memory whose cells tell the arrays and the rows apart: every cell of the
    row [i] of the array [b] holds [b + 10 i].  The object built from the
    first small equilibrium ([ntor = 1]) in this memory, with [nboz = 0] and
    [mboz = 1]. *)
Definition sample_memory (b i j : nat) : R := INR (b + 10 * i).

Definition sample_setup_mem : result (Setup * Store) :=
  setup sample_memory (fun _ => 0%R) (fun _ => 0) sample_data 0 1.

Definition sample_object_mem : Setup * Store :=
  ok_value sample_setup_mem (@eq_refl bool true <: is_ok sample_setup_mem = true).

Definition sample_self_mem : Setup := fst sample_object_mem.

(** The first small equilibrium with a vanishing Jacobian factor on the
    surface 1: the covariant components of the mode [(0, 0)] are zero there,
    [bsubumnc[1, 0] = bsubvmnc[1, 0] = 0], so that [transpmn] stores
    [gpsi[1] = ipsi[1] = 0].  The object built from it with [nboz = 0] and
    [mboz = 1], and the three lines of the surface loop that fill the
    profiles for the surface 1. *)
Definition singular_data : VmecData :=
  {| vd_nfp := vd_nfp sample_data; vd_mpol := vd_mpol sample_data;
     vd_ntor := vd_ntor sample_data;
     vd_xmnyq := vd_xmnyq sample_data; vd_xnnyq := vd_xnnyq sample_data;
     vd_mnyq := vd_mnyq sample_data; vd_nnyq := vd_nnyq sample_data;
     vd_nmnnyq := vd_nmnnyq sample_data;
     vd_ns := vd_ns sample_data;
     vd_rmnc := vd_rmnc sample_data; vd_zmns := vd_zmns sample_data;
     vd_lmns := vd_lmns sample_data; vd_bmnc := vd_bmnc sample_data;
     vd_xm := vd_xm sample_data; vd_xn := vd_xn sample_data;
     vd_nmn := vd_nmn sample_data;
     vd_hiota := vd_hiota sample_data;
     vd_s := vd_s sample_data;
     vd_bsubumnc := table_of [[0; 0; 0; 0; 0]; [0; 0; 1; 1; 1]; [2; 0; 2; 2; 2]]%R;
     vd_bsubvmnc := table_of [[3; 0; 0; 0; 0]; [0; 1; 1; 1; 1]; [3; 2; 2; 2; 2]]%R |}.

Definition singular_setup : result (Setup * Store) :=
  setup (fun _ _ _ => 0%R) (fun _ => 0%R) (fun _ => 0) singular_data 0 1.

Definition singular_object : Setup * Store :=
  ok_value singular_setup (@eq_refl bool true <: is_ok singular_setup = true).

Definition singular_self : Setup := fst singular_object.
Definition singular_store : Store := snd singular_object.

Definition singular_profiles : result pmn_acc :=
  bsubtmnc <- get_row (vd_bsubumnc singular_data) 1 ;;
  bsubzmnc <- get_row (vd_bsubvmnc singular_data) 1 ;;
  transpmn singular_self (repeat 0%R 5) bsubtmnc bsubzmnc (repeat 0%R 3)
    (repeat 0%R 3) 1.

(** ** ascii_output and printvar

    The text file is the list of the strings written to it, in order;
    [open], [write] and [close] are taken to succeed.  [str] of an integer is
    its decimal numeral ([ns] is an integer: it bounds a [range]); [str] of a
    numpy array is left open. *)

Definition nl : string := String (Ascii.ascii_of_nat 10) EmptyString.

(** [str(z)] of an integer. *)
Definition py_str (z : Z) : string := NilZero.string_of_int (Z.to_int z).

(** [s[1:-1]] *)
Definition strip_ends (s : string) : string :=
  substring 1 (String.length s - 2) s.

(** [wf.write(s)] *)
Definition write (wf : list string) (s : string) : list string := wf ++ [s].

Section Output.
Variable str_ints : list Z -> string.
Variable str_floats : list R -> string.

(** The loop of [printvar] over the surfaces [js]: the file as it is left,
    and the exception that ended the loop, if any. *)
Fixpoint printvar_loop (data : tbl) (js : list Z) (wf : list string)
  : list string * result unit :=
  match js with
  | [] => (wf, Ok tt)
  | j :: js' =>
      let wf := write wf ("jindex: " ++ py_str j ++ nl)%string in
      match get_col data j with
      | Raise e => (wf, Raise e)
      | Ok col =>
          printvar_loop data js' (write wf (strip_ends (str_floats col) ++ nl)%string)
      end
  end.

(** [printvar(self, wf, data, title)] *)
Definition printvar (self : Setup) (wf : list string) (data : tbl) (title : string)
  : list string * result unit :=
  printvar_loop data (py_range 1 (ns self)) (write wf (title ++ nl)%string).

(** [ascii_output(self, fname)]: the name of the file opened, what has
    been written to it, and the outcome. *)
Definition ascii_output (self : Setup) (st : Store) (fname : option string)
  : string * list string * result unit :=
  let fname :=
    match fname with
    | None => "booz_out.txt"%string
    | Some f => f
    end in
  let wf := [] in
  let wf := write wf ("mboz: " ++ py_str (mboz self) ++ nl)%string in
  let wf := write wf ("nboz: " ++ py_str (nboz self) ++ nl)%string in
  let wf := write wf ("mnboz: " ++ py_str (mnboz self) ++ nl)%string in
  let wf := write wf ("xmb: " ++ strip_ends (str_ints (vals (xmb self))) ++ nl)%string in
  let wf := write wf ("xnb: " ++ strip_ends (str_ints (vals (xnb self))) ++ nl)%string in
  let wf := write wf ("ns: " ++ strip_ends (py_str (ns self)) ++ nl)%string in
  let wf := write wf ("s: " ++ strip_ends (str_floats (sfull self)) ++ nl)%string in
  match printvar self wf (bmncb st) "bmnc_b" with
  | (wf, Raise e) => (fname, wf, Raise e)
  | (wf, Ok _) =>
  match printvar self wf (rmncb st) "rmnc_b" with
  | (wf, Raise e) => (fname, wf, Raise e)
  | (wf, Ok _) =>
  match printvar self wf (zmnsb st) "zmns_b" with
  | (wf, Raise e) => (fname, wf, Raise e)
  | (wf, Ok _) =>
  match printvar self wf (pmnsb st) "pmns_b" with
  | (wf, Raise e) => (fname, wf, Raise e)
  | (wf, Ok _) =>
  match printvar self wf (gmncb st) "gmnc_b" with
  | (wf, Raise e) => (fname, wf, Raise e)
  | (wf, Ok _) => (fname, wf, Ok tt)
  end end end end end.
End Output.

(** The lines [printvar] writes for the surface [j]. *)
Definition surface_lines (str_floats : list R -> string) (data : tbl) (j : Z)
  : list string :=
  [("jindex: " ++ py_str j ++ nl)%string;
   (strip_ends (str_floats (col_vals data (Z.to_nat j))) ++ nl)%string].

(** * Properties *)

(** ** Basic facts about the primitives *)

Lemma np_index_ok (len : nat) (i : Z) :
  0 <= i < Z.of_nat len -> np_index len i = Ok (Z.to_nat i).
Proof.
  intros H. unfold np_index.
  replace (0 <=? i) with true by (symmetry; apply Z.leb_le; lia).
  replace (i <? Z.of_nat len) with true by (symmetry; apply Z.ltb_lt; lia).
  reflexivity.
Qed.

Lemma np_index_nat (len k : nat) :
  (k < len)%nat -> np_index len (Z.of_nat k) = Ok k.
Proof.
  intros H. rewrite np_index_ok by lia. now rewrite Nat2Z.id.
Qed.

Lemma np_index_bound (len : nat) (i : Z) (k : nat) :
  np_index len i = Ok k -> (k < len)%nat.
Proof.
  unfold np_index.
  destruct ((0 <=? i) && (i <? Z.of_nat len)) eqn:E1.
  - apply andb_prop in E1 as [H1 H2]. apply Z.leb_le in H1. apply Z.ltb_lt in H2.
    intros [= <-]. lia.
  - destruct ((- Z.of_nat len <=? i) && (i <? 0)) eqn:E2; [|discriminate].
    apply andb_prop in E2 as [H1 H2]. apply Z.leb_le in H1. apply Z.ltb_lt in H2.
    intros [= <-]. lia.
Qed.

Lemma length_map2 {A B C} (f : A -> B -> C) u v :
  length (map2 f u v) = Nat.min (length u) (length v).
Proof.
  revert v. induction u as [|a u IH]; intros [|b v]; simpl; auto.
Qed.

Lemma nth_map2 {A B C} (f : A -> B -> C) u v k da db dc :
  (k < length u)%nat -> (k < length v)%nat ->
  nth k (map2 f u v) dc = f (nth k u da) (nth k v db).
Proof.
  revert v k. induction u as [|a u IH]; intros [|b v] [|k]; simpl; intros; try lia; auto.
  apply IH; lia.
Qed.

Lemma bcast_same {T} (f : T -> T -> T) u v :
  length u = length v -> bcast f u v = Ok (map2 f u v).
Proof. intros H. unfold bcast. now rewrite H, Nat.eqb_refl. Qed.

Lemma bcast_into_same {T} (f : T -> T -> T) u v :
  length u = length v -> bcast_into f u v = Ok (map2 f u v).
Proof. intros H. unfold bcast_into. now rewrite H, Nat.eqb_refl. Qed.

Lemma py_range_length a b : length (py_range a b) = Z.to_nat (b - a).
Proof. unfold py_range. now rewrite length_map, length_seq. Qed.

Lemma py_range_empty a b : b <= a -> py_range a b = [].
Proof.
  intros H. unfold py_range. replace (Z.to_nat (b - a)) with 0%nat by lia. reflexivity.
Qed.

Lemma py_range_cons a b : a < b -> py_range a b = a :: py_range (a + 1) b.
Proof.
  intros H. unfold py_range.
  replace (Z.to_nat (b - a)) with (S (Z.to_nat (b - (a + 1)))) by lia.
  simpl. f_equal; [lia|].
  rewrite <- seq_shift, map_map. apply map_ext. intros i. lia.
Qed.

Lemma py_range_snoc a b : a <= b -> py_range a (b + 1) = py_range a b ++ [b].
Proof.
  intros H. unfold py_range.
  replace (Z.to_nat (b + 1 - a)) with (Z.to_nat (b - a) + 1)%nat by lia.
  rewrite seq_app, map_app. simpl. do 2 f_equal. lia.
Qed.

Lemma in_py_range a b i : In i (py_range a b) <-> a <= i < b.
Proof.
  unfold py_range. rewrite in_map_iff. split.
  - intros (k & <- & Hk). apply in_seq in Hk. lia.
  - intros H. exists (Z.to_nat (i - a)). split; [lia|]. apply in_seq. lia.
Qed.

(** A loop over [range(a, b)] whose body keeps an invariant indexed by the
    loop variable runs to completion and establishes the invariant at [b]. *)
Lemma foldM_range_inv {S} (body : S -> Z -> result S) (Inv : Z -> S -> Prop) a b :
  a <= b ->
  (forall i st, a <= i < b -> Inv i st -> exists st', body st i = Ok st' /\ Inv (i + 1) st') ->
  forall st, Inv a st -> exists st', foldM body (py_range a b) st = Ok st' /\ Inv b st'.
Proof.
  intros Hab Hstep.
  remember (Z.to_nat (b - a)) as n eqn:Hn. revert a Hab Hstep Hn.
  induction n as [|n IH]; intros a Hab Hstep Hn st H0.
  - assert (a = b) by lia. subst. rewrite py_range_empty by lia. simpl. eauto.
  - rewrite py_range_cons by lia. simpl.
    destruct (Hstep a st ltac:(lia) H0) as (st1 & -> & H1). simpl.
    apply IH; try lia; auto. intros i st2 Hi. apply Hstep. lia.
Qed.

Lemma nth_map_in {A B} (f : A -> B) l k da db :
  (k < length l)%nat -> nth k (map f l) db = f (nth k l da).
Proof.
  revert k. induction l as [|a l IH]; intros [|k]; simpl; intros; try lia; auto.
  apply IH. lia.
Qed.

Lemma Forall_map_all {A B} (P : B -> Prop) (f : A -> B) l :
  (forall a, P (f a)) -> Forall P (map f l).
Proof. intros H. induction l; simpl; constructor; auto. Qed.

Lemma Forall_map_in {A B} (P : A -> Prop) (Q : B -> Prop) (f : A -> B) l :
  (forall a, P a -> Q (f a)) -> Forall P l -> Forall Q (map f l).
Proof. intros H HP. induction HP; simpl; constructor; auto. Qed.

Lemma Forall_map2_l {A B C} (P : A -> Prop) (Q : C -> Prop) (f : A -> B -> C) u v :
  (forall a b, P a -> Q (f a b)) -> Forall P u -> Forall Q (map2 f u v).
Proof.
  intros H HP. revert v. induction HP; intros [|b v]; simpl; constructor; auto.
Qed.

Lemma Forall_map2_r {A B C} (P : B -> Prop) (Q : C -> Prop) (f : A -> B -> C) u v :
  (forall a b, P b -> Q (f a b)) -> Forall P v -> Forall Q (map2 f u v).
Proof.
  intros H HP. revert u. induction HP; intros [|a u]; simpl; constructor; auto.
Qed.

(** ** Tables *)

Lemma col_vals_length {A} (t : table (cell A)) c : length (col_vals t c) = nrows t.
Proof. unfold col_vals. now rewrite length_map, length_seq. Qed.

Lemma col_vals_nth {A} (t : table (cell A)) c k d :
  (k < nrows t)%nat -> nth k (col_vals t c) d = val (at_ t k c).
Proof.
  intros H. unfold col_vals.
  rewrite nth_map_in with (da := 0%nat) by (rewrite length_seq; lia).
  now rewrite seq_nth by lia.
Qed.

Lemma get_col_ok {A} (t : table (cell A)) (c : nat) :
  (c < ncols t)%nat -> get_col t (Z.of_nat c) = Ok (col_vals t c).
Proof. intros H. unfold get_col. rewrite np_index_nat by auto. reflexivity. Qed.

Lemma set_col_vec (t : table (cell R)) (c : nat) (l : list R) :
  (c < ncols t)%nat -> length l = nrows t ->
  set_col t (Z.of_nat c) (Ar l) = Ok (store_col t c (fun i => nth i l 0%R)).
Proof.
  intros Hc Hl. unfold set_col. rewrite np_index_nat by auto. simpl.
  now rewrite Hl, Nat.eqb_refl.
Qed.

Lemma set_col_scalar (t : table (cell R)) (c : nat) (x : R) :
  (c < ncols t)%nat -> set_col t (Z.of_nat c) (Sc x) = Ok (store_col t c (fun _ => x)).
Proof. intros Hc. unfold set_col. rewrite np_index_nat by auto. reflexivity. Qed.

(** ** trigfunc *)

Lemma col_vals_store_col_other {A} (t : table (cell A)) c f j :
  j <> c -> col_vals (store_col t c f) j = col_vals t j.
Proof.
  intros H. unfold col_vals. simpl. apply map_ext. intros i.
  destruct (Nat.eqb_spec j c); [contradiction|]. reflexivity.
Qed.

Lemma harmonic_step_ok c s (m : nat) :
  nrows s = nrows c -> ncols s = ncols c -> (2 <= m < ncols c)%nat ->
  exists c' s', harmonic_step (c, s) (Z.of_nat m) = Ok (c', s') /\
    nrows c' = nrows c /\ ncols c' = ncols c /\
    nrows s' = nrows c /\ ncols s' = ncols c /\
    (forall i j, at_ c' i j =
       if ((j =? m) && (i <? nrows c))%nat
       then store (next_cos c s m i) (at_ c i j) else at_ c i j) /\
    (forall i j, at_ s' i j =
       if ((j =? m) && (i <? nrows c))%nat
       then store (next_sin c s m i) (at_ s i j) else at_ s i j).
Proof.
  intros Hr Hc Hm. unfold harmonic_step, vmul, vsub, vadd.
  replace (Z.of_nat m - 1) with (Z.of_nat (m - 1)) by lia.
  change 1 with (Z.of_nat 1).
  rewrite !get_col_ok by lia. cbn [bind].
  rewrite (bcast_same Rmult (col_vals c (m - 1))) by (now rewrite !col_vals_length).
  cbn [bind].
  rewrite (bcast_same Rmult (col_vals s (m - 1))) by (now rewrite !col_vals_length).
  cbn [bind].
  rewrite bcast_same by (rewrite !length_map2, !col_vals_length; lia).
  cbn [bind].
  rewrite set_col_vec; [| lia | rewrite !length_map2, !col_vals_length; lia].
  cbn [bind].
  rewrite !get_col_ok by (simpl; lia). cbn [bind].
  rewrite !col_vals_store_col_other by lia.
  rewrite (bcast_same Rmult (col_vals s (m - 1))) by (now rewrite !col_vals_length).
  cbn [bind].
  rewrite (bcast_same Rmult (col_vals c (m - 1))) by (now rewrite !col_vals_length).
  cbn [bind].
  rewrite bcast_same by (rewrite !length_map2, !col_vals_length; lia).
  cbn [bind].
  rewrite set_col_vec; [| lia | rewrite !length_map2, !col_vals_length; lia].
  cbn [bind].
  do 2 eexists. split; [reflexivity|]. simpl.
  repeat split; auto.
  - intros i j. destruct ((j =? m)%nat && (i <? nrows c)%nat) eqn:E; [|reflexivity].
    apply andb_prop in E as [_ E]. apply Nat.ltb_lt in E.
    f_equal. unfold next_cos.
    rewrite nth_map2 with (da := 0%R) (db := 0%R)
      by (rewrite !length_map2, !col_vals_length; lia).
    rewrite 2!nth_map2 with (da := 0%R) (db := 0%R) by (rewrite !col_vals_length; lia).
    now rewrite !col_vals_nth by lia.
  - intros i j. rewrite Hr.
    destruct ((j =? m)%nat && (i <? nrows c)%nat) eqn:E; [|reflexivity].
    apply andb_prop in E as [_ E]. apply Nat.ltb_lt in E.
    f_equal. unfold next_sin.
    rewrite nth_map2 with (da := 0%R) (db := 0%R)
      by (rewrite !length_map2, !col_vals_length; lia).
    rewrite 2!nth_map2 with (da := 0%R) (db := 0%R) by (rewrite !col_vals_length; lia).
    now rewrite !col_vals_nth by lia.
Qed.

Lemma harmonic_step_inv jc js ang n M m c s :
  harmonics_upto jc js ang n M m c s -> (2 <= m < M)%nat ->
  exists c' s', harmonic_step (c, s) (Z.of_nat m) = Ok (c', s') /\
    harmonics_upto jc js ang n M (S m) c' s'.
Proof.
  intros (Hrc & Hrs & Hcc & Hcs & Hval & Hun) Hm.
  destruct (@harmonic_step_ok c s m) as (c' & s' & E & R1 & C1 & R2 & C2 & Hc' & Hs');
    try congruence; try lia.
  exists c', s'. split; [exact E|].
  unfold harmonics_upto. repeat split; try congruence.
  - rewrite Hc'. rewrite Hrc.
    destruct (Nat.eqb_spec j m) as [->|Hne]; simpl.
    + replace (i <? n)%nat with true by (symmetry; apply Nat.ltb_lt; lia).
      unfold store. destruct (Hun i m (Nat.le_refl _)) as [-> _]. simpl. f_equal.
      unfold next_cos.
      destruct (Hval i (m - 1)%nat) as [-> ->]; try lia.
      destruct (Hval i 1%nat) as [-> ->]; try lia. simpl val.
      replace (INR m) with (INR (m - 1) + 1)%R
        by (rewrite minus_INR by lia; simpl; lra).
      rewrite Rmult_plus_distr_r, !Rmult_1_l, cos_plus. reflexivity.
    + apply Hval; lia.
  - rewrite Hs'. rewrite Hrc.
    destruct (Nat.eqb_spec j m) as [->|Hne]; simpl.
    + replace (i <? n)%nat with true by (symmetry; apply Nat.ltb_lt; lia).
      unfold store. destruct (Hun i m (Nat.le_refl _)) as [_ ->]. simpl. f_equal.
      unfold next_sin.
      destruct (Hval i (m - 1)%nat) as [-> ->]; try lia.
      destruct (Hval i 1%nat) as [-> ->]; try lia. simpl val.
      replace (INR m) with (INR (m - 1) + 1)%R
        by (rewrite minus_INR by lia; simpl; lra).
      rewrite Rmult_plus_distr_r, !Rmult_1_l, sin_plus. reflexivity.
    + apply Hval; lia.
  - rewrite Hc'. destruct (Nat.eqb_spec j m); [lia|]. simpl. apply Hun. lia.
  - rewrite Hs'. destruct (Nat.eqb_spec j m); [lia|]. simpl. apply Hun. lia.
Qed.

Lemma harmonic_loop jc js ang n M c s :
  (2 <= M)%nat -> harmonics_upto jc js ang n M 2 c s ->
  exists c' s', foldM harmonic_step (py_range 2 (Z.of_nat M)) (c, s) = Ok (c', s') /\
    harmonics_upto jc js ang n M M c' s'.
Proof.
  intros HM H0.
  destruct (@foldM_range_inv _ harmonic_step
    (fun i st => exists m, i = Z.of_nat m /\ harmonics_upto jc js ang n M m (fst st) (snd st))
    2 (Z.of_nat M)) with (st := (c, s)) as ([c' s'] & E & m & Hm & Hinv).
  - lia.
  - intros i [c0 s0] Hi (m & -> & Hinv). simpl in Hinv.
    destruct (harmonic_step_inv Hinv) as (c1 & s1 & E & H1); [lia|].
    exists (c1, s1). split; [exact E|]. exists (S m). split; [lia|exact H1].
  - exists 2%nat. split; [reflexivity|exact H0].
  - exists c', s'. split; [exact E|]. apply Nat2Z.inj in Hm. subst m. exact Hinv.
Qed.

Lemma np_alloc2_ok {A} (x : nat -> nat -> A) (r c : Z) :
  0 <= r -> 0 <= c ->
  np_alloc2 x r c = Ok {| nrows := Z.to_nat r; ncols := Z.to_nat c;
                          at_ := fun i j => {| val := x i j; writes := 0 |} |}.
Proof.
  intros Hr Hc. unfold np_alloc2.
  replace (r <? 0) with false by (symmetry; apply Z.ltb_ge; lia).
  replace (c <? 0) with false by (symmetry; apply Z.ltb_ge; lia).
  reflexivity.
Qed.

Lemma set_col_scalar_z (t : table (cell R)) (j : Z) (x : R) :
  0 <= j < Z.of_nat (ncols t) ->
  set_col t j (Sc x) = Ok (store_col t (Z.to_nat j) (fun _ => x)).
Proof.
  intros H. rewrite <- (Z2Nat.id j) at 1 by lia. apply set_col_scalar. lia.
Qed.

Lemma set_col_vec_z (t : table (cell R)) (j : Z) (l : list R) :
  0 <= j < Z.of_nat (ncols t) -> length l = nrows t ->
  set_col t j (Ar l) = Ok (store_col t (Z.to_nat j) (fun i => nth i l 0%R)).
Proof.
  intros H Hl. rewrite <- (Z2Nat.id j) at 1 by lia. apply set_col_vec; auto. lia.
Qed.

(** The first two columns, as both halves of [trigfunc] set them up. *)
Lemma harmonics_base jc js ang (l_cos l_sin : list R) n M :
  (2 <= M)%nat -> length l_cos = n -> length l_sin = n ->
  (forall i, (i < n)%nat -> nth i l_cos 0%R = cos (ang i)) ->
  (forall i, (i < n)%nat -> nth i l_sin 0%R = sin (ang i)) ->
  let t0 (x : nat -> nat -> R) :=
    {| nrows := n; ncols := M;
       at_ := fun i j => {| val := x i j; writes := 0 |} |} in
  harmonics_upto jc js ang n M 2
    (store_col (store_col (t0 jc) 0 (fun _ => 1%R)) 1 (fun i => nth i l_cos 0%R))
    (store_col (store_col (t0 js) 0 (fun _ => 0%R)) 1 (fun i => nth i l_sin 0%R)).
Proof.
  intros HM Hlc Hls Hc Hs t0. unfold harmonics_upto. simpl.
  repeat split; auto.
  - destruct j as [|[|j]]; try lia; simpl.
    + replace (i <? n)%nat with true by (symmetry; apply Nat.ltb_lt; lia).
      unfold store; simpl. now rewrite Rmult_0_l, cos_0.
    + replace (i <? n)%nat with true by (symmetry; apply Nat.ltb_lt; lia).
      unfold store; simpl. now rewrite Rmult_1_l, Hc.
  - destruct j as [|[|j]]; try lia; simpl.
    + replace (i <? n)%nat with true by (symmetry; apply Nat.ltb_lt; lia).
      unfold store; simpl. now rewrite Rmult_0_l, sin_0.
    + replace (i <? n)%nat with true by (symmetry; apply Nat.ltb_lt; lia).
      unfold store; simpl. now rewrite Rmult_1_l, Hs.
  - destruct j as [|[|j]]; try lia; reflexivity.
  - destruct j as [|[|j]]; try lia; reflexivity.
Qed.

(** Only column 0 set: what the toroidal half leaves when [ntor <= 1]. *)
Lemma harmonics_zeroth jc js ang n M :
  let t0 (x : nat -> nat -> R) :=
    {| nrows := n; ncols := M;
       at_ := fun i j => {| val := x i j; writes := 0 |} |} in
  harmonics_upto jc js ang n M 1
    (store_col (t0 jc) 0 (fun _ => 1%R)) (store_col (t0 js) 0 (fun _ => 0%R)).
Proof.
  intros t0. unfold harmonics_upto. simpl. repeat split; auto.
  - destruct j as [|j]; try lia; simpl.
    replace (i <? n)%nat with true by (symmetry; apply Nat.ltb_lt; lia).
    unfold store; simpl. now rewrite Rmult_0_l, cos_0.
  - destruct j as [|j]; try lia; simpl.
    replace (i <? n)%nat with true by (symmetry; apply Nat.ltb_lt; lia).
    unfold store; simpl. now rewrite Rmult_0_l, sin_0.
  - destruct j as [|j]; try lia; reflexivity.
  - destruct j as [|j]; try lia; reflexivity.
Qed.

Lemma trigfunc_spec junk nfp th zt mpol ntor (n : nat) :
  1 <= mpol -> 0 <= ntor -> length th = n -> length zt = n ->
  exists cosm sinm cosn sinn,
    trigfunc junk nfp th zt mpol ntor (Z.of_nat n) = Ok (cosm, sinm, cosn, sinn) /\
    harmonics_upto (junk 0%nat) (junk 1%nat) (fun i => nth i th 0%R) n
      (Z.to_nat (mpol + 1)) (Z.to_nat (mpol + 1)) cosm sinm /\
    harmonics_upto (junk 2%nat) (junk 3%nat) (fun i => (nth i zt 0 * IZR nfp)%R) n
      (Z.to_nat (ntor + 1)) (if 1 <? ntor then Z.to_nat (ntor + 1) else 1%nat) cosn sinn.
Proof.
  intros Hm Hn Hth Hzt. unfold trigfunc.
  rewrite !np_alloc2_ok by lia. cbn [bind]. rewrite Nat2Z.id.
  rewrite !set_col_scalar_z by (simpl; lia). cbn [bind].
  rewrite !set_col_vec_z by (simpl; rewrite ?length_map; lia). cbn [bind].
  change (Z.to_nat 0) with 0%nat. change (Z.to_nat 1) with 1%nat.
  set (M := Z.to_nat (mpol + 1)). set (N := Z.to_nat (ntor + 1)).
  destruct (@harmonic_loop (junk 0%nat) (junk 1%nat) (fun i => nth i th 0%R) n M
              (store_col (store_col {| nrows := n; ncols := M;
                  at_ := fun i j => {| val := junk 0%nat i j; writes := 0 |} |} 0 (fun _ => 1%R)) 1
                  (fun i => nth i (map cos th) 0%R))
              (store_col (store_col {| nrows := n; ncols := M;
                  at_ := fun i j => {| val := junk 1%nat i j; writes := 0 |} |} 0 (fun _ => 0%R)) 1
                  (fun i => nth i (map sin th) 0%R)))
    as (cosm & sinm & Em & Hpol).
  { subst M; lia. }
  { apply harmonics_base; try (subst M; lia); rewrite ?length_map; auto;
      intros i Hi; now rewrite nth_map_in with (da := 0%R) by lia. }
  replace (mpol + 1) with (Z.of_nat M) by (subst M; lia).
  rewrite Em. cbn [bind].
  destruct (Z.ltb_spec 1 ntor) as [Hgt|Hle].
  - rewrite !set_col_vec_z by (simpl; rewrite ?length_map; lia). cbn [bind].
    change (Z.to_nat 1) with 1%nat.
    destruct (@harmonic_loop (junk 2%nat) (junk 3%nat) (fun i => (nth i zt 0 * IZR nfp)%R) n N
              (store_col (store_col {| nrows := n; ncols := N;
                  at_ := fun i j => {| val := junk 2%nat i j; writes := 0 |} |} 0 (fun _ => 1%R)) 1
                  (fun i => nth i (map (fun z => cos (z * IZR nfp)) zt) 0%R))
              (store_col (store_col {| nrows := n; ncols := N;
                  at_ := fun i j => {| val := junk 3%nat i j; writes := 0 |} |} 0 (fun _ => 0%R)) 1
                  (fun i => nth i (map (fun z => sin (z * IZR nfp)) zt) 0%R)))
      as (cosn & sinn & En & Htor).
    { subst N; lia. }
    { apply harmonics_base; try (subst N; lia); rewrite ?length_map; auto;
        intros i Hi; now rewrite nth_map_in with (da := 0%R) by lia. }
    replace (ntor + 1) with (Z.of_nat N) by (subst N; lia).
    rewrite En. cbn [bind].
    exists cosm, sinm, cosn, sinn. split; [reflexivity|]. split; [exact Hpol|exact Htor].
  - cbn [bind]. rewrite py_range_empty by lia. cbn [foldM bind].
    do 4 eexists. split; [reflexivity|]. split; [exact Hpol|].
    apply harmonics_zeroth.
Qed.

(** C3. Over exact real arithmetic, a call of [trigfunc] that can return at
    all ([mpol >= 1], arrays of [nznt] grid angles) returns poloidal tables
    with [cosm[k, m] = cos(m * th[k])] and [sinm[k, m] = sin(m * th[k])] for
    every grid point [k] and every mode [0 <= m <= mpol]: the base columns and
    the angle-addition recurrence reproduce the direct evaluation. *)
Theorem trigfunc_poloidal_harmonics junk nfp th zt mpol ntor (n : nat) :
  1 <= mpol -> 0 <= ntor -> length th = n -> length zt = n ->
  exists cosm sinm cosn sinn,
    trigfunc junk nfp th zt mpol ntor (Z.of_nat n) = Ok (cosm, sinm, cosn, sinn) /\
    forall (k : nat) (m : Z), (k < n)%nat -> 0 <= m <= mpol ->
      val (at_ cosm k (Z.to_nat m)) = cos (IZR m * nth k th 0%R) /\
      val (at_ sinm k (Z.to_nat m)) = sin (IZR m * nth k th 0%R).
Proof.
  intros Hm Hn Hth Hzt.
  destruct (@trigfunc_spec junk nfp th zt mpol ntor n Hm Hn Hth Hzt)
    as (cosm & sinm & cosn & sinn & E & Hpol & _).
  exists cosm, sinm, cosn, sinn. split; [exact E|].
  intros k m Hk Hmm.
  destruct Hpol as (_ & _ & _ & _ & Hval & _).
  destruct (Hval k (Z.to_nat m) Hk ltac:(lia)) as [Hc Hs].
  rewrite Hc, Hs. simpl.
  rewrite INR_IZR_INZ, Z2Nat.id by lia. split; reflexivity.
Qed.

Lemma trigfunc_poloidal_harmonics_witness :
  exists cosm sinm cosn sinn,
    trigfunc (fun _ _ _ => 0%R) 5 [0; 1]%R [0; 2]%R 3 2 (Z.of_nat 2)
      = Ok (cosm, sinm, cosn, sinn) /\
    forall (k : nat) (m : Z), (k < 2)%nat -> 0 <= m <= 3 ->
      val (at_ cosm k (Z.to_nat m)) = cos (IZR m * nth k [0; 1]%R 0%R) /\
      val (at_ sinm k (Z.to_nat m)) = sin (IZR m * nth k [0; 1]%R 0%R).
Proof.
  apply trigfunc_poloidal_harmonics; [lia | lia | reflexivity | reflexivity].
Defined.

(** C8. [trigfunc] stores into the toroidal first-harmonic columns
    [cosn[:, 1]] and [sinn[:, 1]] exactly when [ntor > 1].  So a call with
    [ntor > 1] returns with every cell of the columns [0 .. ntor] of both
    toroidal tables stored, and a call with [ntor = 1] returns with the cells
    of column 1 never stored: they hold what [np.empty] left there. *)
Theorem trigfunc_toroidal_first_harmonic junk nfp th zt mpol ntor (n : nat) :
  1 <= mpol -> 1 <= ntor -> length th = n -> length zt = n ->
  exists cosm sinm cosn sinn,
    trigfunc junk nfp th zt mpol ntor (Z.of_nat n) = Ok (cosm, sinm, cosn, sinn) /\
    (forall k, (k < n)%nat ->
       ((0 < writes (at_ cosn k 1))%nat <-> 1 < ntor) /\
       ((0 < writes (at_ sinn k 1))%nat <-> 1 < ntor)) /\
    (1 < ntor -> forall (k : nat) (j : Z), (k < n)%nat -> 0 <= j <= ntor ->
       writes (at_ cosn k (Z.to_nat j)) = 1%nat /\
       writes (at_ sinn k (Z.to_nat j)) = 1%nat) /\
    (ntor = 1 -> ncols cosn = 2%nat /\ ncols sinn = 2%nat /\
       forall k, at_ cosn k 1 = {| val := junk 2%nat k 1%nat; writes := 0 |} /\
                 at_ sinn k 1 = {| val := junk 3%nat k 1%nat; writes := 0 |}).
Proof.
  intros Hm Hn Hth Hzt.
  destruct (@trigfunc_spec junk nfp th zt mpol ntor n Hm ltac:(lia) Hth Hzt)
    as (cosm & sinm & cosn & sinn & E & _ & Htor).
  exists cosm, sinm, cosn, sinn. split; [exact E|].
  destruct (Z.ltb_spec 1 ntor) as [Hgt|Hle];
    destruct Htor as (_ & _ & Hcc & Hcs & Hval & Hun).
  - split; [|split].
    + intros k Hk. destruct (Hval k 1%nat Hk ltac:(lia)) as [-> ->]. simpl.
      split; split; intros; lia.
    + intros _ k j Hk Hj.
      destruct (Hval k (Z.to_nat j) Hk ltac:(lia)) as [-> ->]. split; reflexivity.
    + intros ->. lia.
  - assert (ntor = 1) by lia. subst ntor. split; [|split].
    + intros k Hk. destruct (Hun k 1%nat ltac:(lia)) as [-> ->]. simpl.
      split; split; intros; lia.
    + intros; lia.
    + intros _. split; [exact Hcc|]. split; [exact Hcs|].
      intros k. apply Hun. lia.
Qed.

Lemma trigfunc_toroidal_first_harmonic_witness :
  exists cosm sinm cosn sinn,
    trigfunc (fun b _ _ => INR b) 5 [0; 1]%R [0; 2]%R 2 1 (Z.of_nat 2)
      = Ok (cosm, sinm, cosn, sinn) /\
    (forall k, (k < 2)%nat ->
       ((0 < writes (at_ cosn k 1))%nat <-> 1 < 1) /\
       ((0 < writes (at_ sinn k 1))%nat <-> 1 < 1)) /\
    (1 < 1 -> forall (k : nat) (j : Z), (k < 2)%nat -> 0 <= j <= 1 ->
       writes (at_ cosn k (Z.to_nat j)) = 1%nat /\
       writes (at_ sinn k (Z.to_nat j)) = 1%nat) /\
    (1 = 1 -> ncols cosn = 2%nat /\ ncols sinn = 2%nat /\
       forall k, at_ cosn k 1 = {| val := INR 2; writes := 0 |} /\
                 at_ sinn k 1 = {| val := INR 3; writes := 0 |}).
Proof.
  apply (@trigfunc_toroidal_first_harmonic (fun b _ _ => INR b) 5 [0; 1]%R [0; 2]%R 2 1 2);
    [lia | lia | reflexivity | reflexivity].
Defined.

(** ** harfun over the reals *)

Lemma is_zero_real_false (x : R) : x <> 0%R -> is_zero x = false.
Proof. intros H. simpl. destruct (Req_dec_T x 0%R); [contradiction|reflexivity]. Qed.

(** C2, as amended.  Over exact real arithmetic, for every input whose
    Jacobian factor
    [jacfac = gpsi[js] + hiota[js] * ipsi[js]] is nonzero, with the six
    fields given on the same [n] grid points, [harfun] returns that
    [jacfac] and, at every grid point [k],
    [vboz = w / jacfac - (ipsi[js] / jacfac) * xl],
    [uboz = xl + hiota[js] * vboz] and
    [xjac = (1 + xlt) * (1 + psubv) + (hiota[js] - xlz) * psubu] with
    [psubv = wz / jacfac - (ipsi[js] / jacfac) * xlz] and
    [psubu = wt / jacfac - (ipsi[js] / jacfac) * xlt]; no warning is logged. *)
Theorem harfun_formulas (hiota gpsi ipsi : list R) (js : Z)
  (xlt xlz xl wt wz w : list R) (n : nat) (g h i : R) :
  item gpsi js 0%R = Ok g -> item hiota js 0%R = Ok h -> item ipsi js 0%R = Ok i ->
  length xlt = n -> length xlz = n -> length xl = n ->
  length wt = n -> length wz = n -> length w = n ->
  (g + h * i <> 0)%R ->
  exists out,
    harfun hiota gpsi ipsi js xlt xlz xl wt wz w = ([], Ok out) /\
    h_jacfac out = (g + h * i)%R /\
    length (h_uboz out) = n /\ length (h_vboz out) = n /\ length (h_xjac out) = n /\
    forall k, (k < n)%nat ->
      let jacfac := (g + h * i)%R in
      let psubv := (nth k wz 0 / jacfac - (i / jacfac) * nth k xlz 0)%R in
      let psubu := (nth k wt 0 / jacfac - (i / jacfac) * nth k xlt 0)%R in
      nth k (h_vboz out) 0%R = (nth k w 0 / jacfac - (i / jacfac) * nth k xl 0)%R /\
      nth k (h_uboz out) 0%R = (nth k xl 0 + h * nth k (h_vboz out) 0)%R /\
      nth k (h_xjac out) 0%R =
        ((1 + nth k xlt 0) * (1 + psubv) + (h - nth k xlz 0) * psubu)%R.
Proof.
  intros Hg Hh Hi Lxlt Lxlz Lxl Lwt Lwz Lw Hj.
  unfold harfun. change (@zero R Real_arith) with 0%R.
  rewrite Hg, Hh, Hi. cbn [bind].
  rewrite is_zero_real_false by exact Hj.
  set (jac := add g (mul h i)).
  rewrite (bcast_same sub (map (mul (div one jac)) w)) by (rewrite !length_map; congruence).
  cbn [bind].
  rewrite (bcast_same add xl) by (rewrite length_map, length_map2, !length_map; lia).
  cbn [bind].
  rewrite (bcast_same sub (map (mul (div one jac)) wz)) by (rewrite !length_map; congruence).
  cbn [bind].
  rewrite (bcast_same sub (map (mul (div one jac)) wt)) by (rewrite !length_map; congruence).
  cbn [bind].
  rewrite (bcast_same mul (map (add one) xlt))
    by (rewrite !length_map, length_map2, !length_map; lia).
  cbn [bind].
  rewrite (bcast_same mul (map (sub h) xlz))
    by (rewrite length_map, length_map2, !length_map; lia).
  cbn [bind].
  rewrite bcast_same
    by (rewrite !length_map2, !length_map, !length_map2, !length_map; lia).
  cbn [bind].
  eexists. split; [reflexivity|]. cbn [h_jacfac h_uboz h_vboz h_xjac].
  split; [reflexivity|].
  split; [rewrite length_map2, length_map, length_map2, !length_map; lia|].
  split; [rewrite length_map2, !length_map; lia|].
  split; [rewrite !length_map2, !length_map, !length_map2, !length_map; lia|].
  intros k Hk.
  assert (Hv : nth k (map2 sub (map (mul (div one jac)) w)
                        (map (mul (mul i (div one jac))) xl)) 0%R
               = (nth k w 0 / (g + h * i) - (i / (g + h * i)) * nth k xl 0)%R).
  { rewrite nth_map2 with (da := 0%R) (db := 0%R) by (rewrite length_map; lia).
    rewrite 2!nth_map_in with (da := 0%R) by lia.
    subst jac. simpl. field. exact Hj. }
  split; [exact Hv|]. split.
  - rewrite nth_map2 with (da := 0%R) (db := 0%R)
      by (rewrite ?length_map, ?length_map2, ?length_map; lia).
    rewrite nth_map_in with (da := 0%R) by (rewrite length_map2, !length_map; lia).
    reflexivity.
  - rewrite nth_map2 with (da := 0%R) (db := 0%R)
      by (rewrite !length_map2, !length_map, ?length_map2, ?length_map; lia).
    rewrite 2!nth_map2 with (da := 0%R) (db := 0%R)
      by (rewrite ?length_map, ?length_map2, ?length_map; lia).
    rewrite 3!nth_map_in with (da := 0%R)
      by (rewrite ?length_map2, ?length_map; lia).
    rewrite 2!nth_map2 with (da := 0%R) (db := 0%R) by (rewrite ?length_map; lia).
    rewrite 4!nth_map_in with (da := 0%R) by lia.
    subst jac. simpl. field. exact Hj.
Qed.

Lemma harfun_formulas_witness :
  exists out,
    harfun [1; 2]%R [0; 3]%R [0; 1]%R 1 [1]%R [2]%R [3]%R [4]%R [5]%R [6]%R
      = ([], Ok out) /\
    h_jacfac out = (3 + 2 * 1)%R /\
    length (h_uboz out) = 1%nat /\ length (h_vboz out) = 1%nat /\
    length (h_xjac out) = 1%nat /\
    forall k, (k < 1)%nat ->
      let jacfac := (3 + 2 * 1)%R in
      let psubv := (nth k [5]%R 0 / jacfac - (1 / jacfac) * nth k [2]%R 0)%R in
      let psubu := (nth k [4]%R 0 / jacfac - (1 / jacfac) * nth k [1]%R 0)%R in
      nth k (h_vboz out) 0%R = (nth k [6]%R 0 / jacfac - (1 / jacfac) * nth k [3]%R 0)%R /\
      nth k (h_uboz out) 0%R = (nth k [3]%R 0 + 2 * nth k (h_vboz out) 0)%R /\
      nth k (h_xjac out) 0%R =
        ((1 + nth k [1]%R 0) * (1 + psubv) + (2 - nth k [2]%R 0) * psubu)%R.
Proof.
  apply (@harfun_formulas [1; 2]%R [0; 3]%R [0; 1]%R 1 [1]%R [2]%R [3]%R [4]%R [5]%R [6]%R
           1%nat 3%R 2%R 1%R);
    try reflexivity.
  lra.
Defined.

(** ** harfun in binary64 arithmetic *)

(** C2 as stated fails in the arithmetic of the code.  [harfun] does not
    divide by [jacfac]: it multiplies by the rounded reciprocal
    [dem = 1.0 / jacfac].  With [gpsi[js] = 49], [hiota[js] = ipsi[js] = 0],
    [w = 49] and [xl = 0] the Jacobian factor is 49, no warning is logged,
    and [vboz] is [(1 / 49) * 49 = 0.99999999999999989], where the claimed
    [w / jacfac - (ipsi[js] / jacfac) * xl] is 1. *)
Lemma harfun_formulas_counterexample :
  exists out,
    harfun [0]%float [49]%float [0]%float 0
      [0]%float [0]%float [0]%float [0]%float [0]%float [49]%float = ([], Ok out) /\
    h_jacfac out = 49%float /\
    PrimFloat.eqb (h_jacfac out) 0%float = false /\
    (49 / h_jacfac out - (0 / h_jacfac out) * 0)%float = 1%float /\
    nth 0 (h_vboz out) 0%float = 0x1.fffffffffffffp-1%float /\
    PrimFloat.eqb (nth 0 (h_vboz out) 0%float)
      (49 / h_jacfac out - (0 / h_jacfac out) * 0)%float = false /\
    nth 0 (h_vboz out) 0%float <> (49 / h_jacfac out - (0 / h_jacfac out) * 0)%float.
Proof.
  eexists. split; [vm_compute; reflexivity|].
  cbn [h_jacfac h_vboz nth].
  split; [reflexivity|]. split; [reflexivity|]. split; [reflexivity|].
  split; [reflexivity|]. split; [reflexivity|].
  intros H.
  apply (f_equal (fun x => PrimFloat.eqb x 1%float)) in H.
  vm_compute in H. discriminate H.
Qed.

Lemma zero_of_eqb (x : float) :
  PrimFloat.eqb x PrimFloat.zero = true -> exists s, Prim2SF x = S754_zero s.
Proof.
  rewrite FloatAxioms.eqb_spec.
  change (Prim2SF PrimFloat.zero) with (S754_zero false).
  destruct (Prim2SF x) as [s| s | | s m e]; simpl.
  - intros _. now exists s.
  - unfold SFeqb, SFcompare. destruct s; discriminate.
  - discriminate.
  - unfold SFeqb, SFcompare. destruct s; discriminate.
Qed.

Lemma nonfinite_inv_zero (x : float) :
  PrimFloat.eqb x PrimFloat.zero = true ->
  nonfinite (PrimFloat.div PrimFloat.one x) = true.
Proof.
  intros H. destruct (zero_of_eqb H) as [s Hs].
  unfold nonfinite. rewrite div_spec, Hs.
  destruct s; vm_compute; reflexivity.
Qed.

Lemma nonfinite_mul_l x y : nonfinite x = true -> nonfinite (PrimFloat.mul x y) = true.
Proof.
  unfold nonfinite. rewrite mul_spec. unfold SF64mul, SFmul.
  destruct (Prim2SF x), (Prim2SF y); simpl; congruence.
Qed.

Lemma nonfinite_mul_r x y : nonfinite y = true -> nonfinite (PrimFloat.mul x y) = true.
Proof.
  unfold nonfinite. rewrite mul_spec. unfold SF64mul, SFmul.
  destruct (Prim2SF x), (Prim2SF y); simpl; congruence.
Qed.

Lemma nonfinite_add_l x y : nonfinite x = true -> nonfinite (PrimFloat.add x y) = true.
Proof.
  unfold nonfinite. rewrite add_spec. unfold SF64add, SFadd.
  destruct (Prim2SF x) as [[]|[]| |], (Prim2SF y) as [[]|[]| |]; simpl; congruence.
Qed.

Lemma nonfinite_add_r x y : nonfinite y = true -> nonfinite (PrimFloat.add x y) = true.
Proof.
  unfold nonfinite. rewrite add_spec. unfold SF64add, SFadd.
  destruct (Prim2SF x) as [[]|[]| |], (Prim2SF y) as [[]|[]| |]; simpl; congruence.
Qed.

Lemma nonfinite_sub_l x y : nonfinite x = true -> nonfinite (PrimFloat.sub x y) = true.
Proof.
  unfold nonfinite. rewrite sub_spec. unfold SF64sub, SFsub.
  destruct (Prim2SF x) as [[]|[]| |], (Prim2SF y) as [[]|[]| |]; simpl; congruence.
Qed.

(** In binary64 arithmetic, when [jacfac = gpsi[js] + hiota[js] * ipsi[js]]
    compares equal to zero, [harfun] logs its warning and still returns
    normally; it computes with the reciprocal of zero, so that every entry of
    the three fields it returns ([uboz], [vboz], [xjac]) is an infinity or a
    NaN. *)
Theorem harfun_zero_jacfac (hiota gpsi ipsi : list float) (js : Z)
  (xlt xlz xl wt wz w : list float) (n : nat) (g h i : float) :
  item gpsi js PrimFloat.zero = Ok g ->
  item hiota js PrimFloat.zero = Ok h ->
  item ipsi js PrimFloat.zero = Ok i ->
  length xlt = n -> length xlz = n -> length xl = n ->
  length wt = n -> length wz = n -> length w = n ->
  PrimFloat.eqb (PrimFloat.add g (PrimFloat.mul h i)) PrimFloat.zero = true ->
  exists out,
    harfun hiota gpsi ipsi js xlt xlz xl wt wz w = ([jacfac_warning], Ok out) /\
    h_jacfac out = PrimFloat.add g (PrimFloat.mul h i) /\
    length (h_uboz out) = n /\ length (h_vboz out) = n /\ length (h_xjac out) = n /\
    Forall (fun x => nonfinite x = true) (h_uboz out) /\
    Forall (fun x => nonfinite x = true) (h_vboz out) /\
    Forall (fun x => nonfinite x = true) (h_xjac out).
Proof.
  intros Hg Hh Hi Lxlt Lxlz Lxl Lwt Lwz Lw Hj.
  unfold harfun. change (@zero float Binary64_arith) with PrimFloat.zero.
  rewrite Hg, Hh, Hi. cbn [bind].
  change (@add float Binary64_arith) with PrimFloat.add.
  change (@sub float Binary64_arith) with PrimFloat.sub.
  change (@mul float Binary64_arith) with PrimFloat.mul.
  change (@div float Binary64_arith) with PrimFloat.div.
  change (@one float Binary64_arith) with PrimFloat.one.
  change (@is_zero float Binary64_arith (PrimFloat.add g (PrimFloat.mul h i)))
    with (PrimFloat.eqb (PrimFloat.add g (PrimFloat.mul h i)) PrimFloat.zero).
  rewrite Hj.
  set (jac := PrimFloat.add g (PrimFloat.mul h i)) in *.
  assert (Hdem : nonfinite (PrimFloat.div PrimFloat.one jac) = true)
    by (apply nonfinite_inv_zero; exact Hj).
  set (dem := PrimFloat.div PrimFloat.one jac) in *.
  rewrite (bcast_same PrimFloat.sub (map (PrimFloat.mul dem) w))
    by (rewrite !length_map; congruence).
  cbn [bind].
  rewrite (bcast_same PrimFloat.add xl)
    by (rewrite length_map, length_map2, !length_map; lia).
  cbn [bind].
  rewrite (bcast_same PrimFloat.sub (map (PrimFloat.mul dem) wz))
    by (rewrite !length_map; congruence).
  cbn [bind].
  rewrite (bcast_same PrimFloat.sub (map (PrimFloat.mul dem) wt))
    by (rewrite !length_map; congruence).
  cbn [bind].
  rewrite (bcast_same PrimFloat.mul (map (PrimFloat.add PrimFloat.one) xlt))
    by (rewrite !length_map, length_map2, !length_map; lia).
  cbn [bind].
  rewrite (bcast_same PrimFloat.mul (map (PrimFloat.sub h) xlz))
    by (rewrite length_map, length_map2, !length_map; lia).
  cbn [bind].
  rewrite bcast_same
    by (rewrite !length_map2, !length_map, !length_map2, !length_map; lia).
  cbn [bind].
  eexists. split; [reflexivity|]. cbn [h_jacfac h_uboz h_vboz h_xjac].
  split; [reflexivity|].
  split; [rewrite length_map2, length_map, length_map2, !length_map; lia|].
  split; [rewrite length_map2, !length_map; lia|].
  split; [rewrite !length_map2, !length_map, !length_map2, !length_map; lia|].
  assert (Hsub : forall u v,
            Forall (fun x => nonfinite x = true)
              (map2 PrimFloat.sub (map (PrimFloat.mul dem) u) v)).
  { intros u v.
    apply Forall_map2_l with (P := fun x => nonfinite x = true).
    - intros a b Ha. now apply nonfinite_sub_l.
    - apply Forall_map_all. intros a. now apply nonfinite_mul_l. }
  split; [|split].
  - apply Forall_map2_r with (P := fun x => nonfinite x = true).
    + intros a b Hb. now apply nonfinite_add_r.
    + apply Forall_map_in with (P := fun x => nonfinite x = true); [|apply Hsub].
      intros a Ha. now apply nonfinite_mul_r.
  - apply Hsub.
  - apply Forall_map2_l with (P := fun x => nonfinite x = true).
    + intros a b Ha. now apply nonfinite_add_l.
    + apply Forall_map2_r with (P := fun x => nonfinite x = true).
      * intros a b Hb. now apply nonfinite_mul_r.
      * apply Forall_map_in with (P := fun x => nonfinite x = true); [|apply Hsub].
        intros a Ha. now apply nonfinite_add_r.
Qed.

Lemma harfun_zero_jacfac_witness :
  exists out,
    harfun [1; 2]%float [0; 6]%float [0; -3]%float 1
      [1]%float [2]%float [3]%float [4]%float [5]%float [6]%float
      = ([jacfac_warning], Ok out) /\
    h_jacfac out = PrimFloat.add 6%float (PrimFloat.mul 2%float (-3)%float) /\
    length (h_uboz out) = 1%nat /\ length (h_vboz out) = 1%nat /\
    length (h_xjac out) = 1%nat /\
    Forall (fun x => nonfinite x = true) (h_uboz out) /\
    Forall (fun x => nonfinite x = true) (h_vboz out) /\
    Forall (fun x => nonfinite x = true) (h_xjac out).
Proof.
  apply (@harfun_zero_jacfac [1; 2]%float [0; 6]%float [0; -3]%float 1
           [1]%float [2]%float [3]%float [4]%float [5]%float [6]%float
           1%nat 6%float 2%float (-3)%float);
    reflexivity.
Defined.

(** ** setup_xmnb *)

Lemma list_set_app {A} (pre post : list A) (x : A) (f : A -> A) (k : nat) :
  length pre = k -> list_set (pre ++ x :: post) k f = pre ++ f x :: post.
Proof.
  intros <-. induction pre as [|a pre IH]; simpl; [reflexivity|]. now rewrite IH.
Qed.

Lemma NoDup_map_inj_in {A B} (f : A -> B) (l : list A) :
  (forall x y, In x l -> In y l -> f x = f y -> x = y) ->
  NoDup l -> NoDup (map f l).
Proof.
  intros Hinj Hl. induction Hl as [|a l Hna Hl IH]; simpl; constructor.
  - intros Hin. apply in_map_iff in Hin as (y & Hy & Hin).
    apply Hna. rewrite (Hinj a y); auto; [left; reflexivity | right; exact Hin].
  - apply IH. intros x y Hx Hy. apply Hinj; right; assumption.
Qed.

Lemma py_range_NoDup a b : NoDup (py_range a b).
Proof.
  unfold py_range. apply NoDup_map_inj_in; [|apply seq_NoDup].
  intros x y _ _ H. lia.
Qed.

Lemma StronglySorted_app_le (l1 l2 : list Z) :
  StronglySorted Z.le l1 -> StronglySorted Z.le l2 ->
  (forall a b, In a l1 -> In b l2 -> a <= b) ->
  StronglySorted Z.le (l1 ++ l2).
Proof.
  intros H1 H2 H. induction H1 as [|a l1 H1 IH Ha]; simpl; [exact H2|].
  constructor.
  - apply IH. intros x y Hx Hy. apply H; [right; exact Hx|exact Hy].
  - apply Forall_app. split; [exact Ha|].
    apply Forall_forall. intros b Hb. apply H; [left; reflexivity|exact Hb].
Qed.

Lemma StronglySorted_repeat (m : Z) (k : nat) : StronglySorted Z.le (repeat m k).
Proof.
  induction k as [|k IH]; simpl; constructor; [exact IH|].
  apply Forall_forall. intros x Hx. apply repeat_spec in Hx. lia.
Qed.

Lemma boozer_modes_snoc mboz nboz nfp :
  0 <= mboz ->
  boozer_modes (mboz + 1) nboz nfp = boozer_modes mboz nboz nfp ++ mode_block nboz nfp mboz.
Proof.
  intros H. unfold boozer_modes. rewrite py_range_snoc by lia.
  rewrite flat_map_app. simpl. now rewrite app_nil_r.
Qed.

Lemma boozer_modes_zero nboz nfp : boozer_modes 0 nboz nfp = [].
Proof. reflexivity. Qed.

Lemma in_mode_block nboz nfp m p :
  In p (mode_block nboz nfp m) <->
  exists n, p = (m, n * nfp) /\ (if m =? 0 then 0 else - nboz) <= n <= nboz.
Proof.
  unfold mode_block. rewrite in_map_iff. split.
  - intros (n & <- & Hn). apply in_py_range in Hn. exists n. split; [reflexivity|lia].
  - intros (n & -> & Hn). exists n. split; [reflexivity|]. apply in_py_range. lia.
Qed.

Lemma in_boozer_modes mboz nboz nfp p :
  0 <= mboz ->
  (In p (boozer_modes mboz nboz nfp) <->
   exists m n, p = (m, n * nfp) /\ 0 <= m < mboz /\
               (if m =? 0 then 0 else - nboz) <= n <= nboz).
Proof.
  intros H. unfold boozer_modes. rewrite in_flat_map. split.
  - intros (m & Hm & Hp). apply in_py_range in Hm.
    apply in_mode_block in Hp as (n & -> & Hn).
    exists m, n. repeat split; lia.
  - intros (m & n & -> & Hm & Hn). exists m. split; [apply in_py_range; lia|].
    apply in_mode_block. exists n. split; [reflexivity|lia].
Qed.

Lemma mode_block_length nboz nfp m :
  0 <= nboz ->
  Z.of_nat (length (mode_block nboz nfp m)) = if m =? 0 then nboz + 1 else 2 * nboz + 1.
Proof.
  intros H. unfold mode_block. rewrite length_map, py_range_length.
  destruct (m =? 0); lia.
Qed.

Lemma boozer_modes_length mboz nboz nfp :
  1 <= mboz -> 0 <= nboz ->
  Z.of_nat (length (boozer_modes mboz nboz nfp)) = mnboz_of mboz nboz.
Proof.
  intros Hm Hn. unfold mnboz_of.
  replace mboz with (Z.of_nat (Z.to_nat (mboz - 1)) + 1) by lia.
  generalize (Z.to_nat (mboz - 1)). clear Hm mboz. intros k.
  induction k as [|k IH].
  - change (Z.of_nat 0 + 1) with (0 + 1). rewrite boozer_modes_snoc by lia.
    rewrite boozer_modes_zero. simpl app. rewrite mode_block_length by lia.
    simpl. lia.
  - replace (Z.of_nat (S k)) with (Z.of_nat k + 1) by lia.
    rewrite boozer_modes_snoc by lia. rewrite length_app, Nat2Z.inj_add, IH.
    rewrite mode_block_length by lia.
    replace (Z.of_nat k + 1 =? 0) with false by (symmetry; apply Z.eqb_neq; lia).
    nia.
Qed.

Lemma boozer_modes_sorted mboz nboz nfp :
  0 <= mboz -> StronglySorted Z.le (map fst (boozer_modes mboz nboz nfp)).
Proof.
  intros Hm.
  replace mboz with (Z.of_nat (Z.to_nat mboz)) by lia.
  generalize (Z.to_nat mboz). clear Hm mboz. intros k.
  induction k as [|k IH]; [constructor|].
  rewrite Nat2Z.inj_succ, <- Z.add_1_r, boozer_modes_snoc, map_app by lia.
  apply StronglySorted_app_le; [exact IH| |].
  - unfold mode_block. rewrite map_map. simpl.
    rewrite map_const. apply StronglySorted_repeat.
  - intros a b Ha Hb.
    apply in_map_iff in Ha as ([m x] & <- & Ha).
    apply in_map_iff in Hb as ([m' x'] & <- & Hb).
    apply in_boozer_modes in Ha as (m0 & n & [= -> ->] & Hm0 & _); [|lia].
    apply in_mode_block in Hb as (n' & [= -> ->] & _). simpl. lia.
Qed.

Lemma boozer_modes_NoDup mboz nboz nfp :
  0 <= mboz -> nfp <> 0 -> NoDup (boozer_modes mboz nboz nfp).
Proof.
  intros Hm Hnfp.
  replace mboz with (Z.of_nat (Z.to_nat mboz)) by lia.
  generalize (Z.to_nat mboz). clear Hm mboz. intros k.
  induction k as [|k IH]; [constructor|].
  rewrite Nat2Z.inj_succ, <- Z.add_1_r, boozer_modes_snoc by lia.
  apply NoDup_app; [exact IH| |].
  - unfold mode_block. apply NoDup_map_inj_in; [|apply py_range_NoDup].
    intros x y _ _ [= H]. nia.
  - intros [m x] Ha Hb.
    apply in_boozer_modes in Ha as (m0 & n & [= -> ->] & Hm0 & _); [|lia].
    apply in_mode_block in Hb as (n' & [= E _] & _). lia.
Qed.

Lemma setup_xmnb_n_ok (N : nat) nfp m L st n :
  stored_modes N L st -> (length L < N)%nat ->
  exists st', setup_xmnb_n (Z.of_nat N) nfp m st n = Ok st' /\
              stored_modes N (L ++ [(m, n * nfp)]) st'.
Proof.
  intros (Hret & Hcnt & rn & rm & En & Em & Ln & Lm & Wn & Wm) Hlt.
  unfold setup_xmnb_n. rewrite Hret, Hcnt.
  replace (Z.of_nat N <=? Z.of_nat (length L)) with false
    by (symmetry; apply Z.leb_gt; lia).
  destruct rn as [|cn rn]; [simpl in Ln; lia|].
  destruct rm as [|cm rm]; [simpl in Lm; lia|].
  unfold store_item. rewrite En, Em.
  rewrite !np_index_nat by (rewrite length_app, length_map; simpl; lia).
  cbn [bind].
  rewrite !list_set_app by (now rewrite length_map).
  eexists. split; [reflexivity|].
  inversion Wn as [|? ? Wcn Wn']; subst. inversion Wm as [|? ? Wcm Wm']; subst.
  unfold stored_modes. simpl.
  repeat split.
  - rewrite length_app. simpl. lia.
  - exists rn, rm. rewrite !map_app, <- !app_assoc. simpl.
    unfold store. rewrite Wcn, Wcm. simpl.
    repeat split; auto; rewrite length_app; simpl in *; lia.
Qed.

Lemma setup_xmnb_m_ok (N : nat) nboz nfp m st :
  0 <= nboz ->
  stored_modes N (boozer_modes m nboz nfp) st -> 0 <= m ->
  (length (boozer_modes (m + 1) nboz nfp) <= N)%nat ->
  exists st', setup_xmnb_m nboz (Z.of_nat N) nfp st m = Ok st' /\
              stored_modes N (boozer_modes (m + 1) nboz nfp) st'.
Proof.
  intros Hn Hst Hm Hcap. unfold setup_xmnb_m.
  destruct Hst as (Hret & Hrest). rewrite Hret.
  assert (Hst : stored_modes N (boozer_modes m nboz nfp) st) by (split; assumption).
  rewrite boozer_modes_snoc in * by lia. unfold mode_block in *.
  set (n1 := if m =? 0 then 0 else - nboz) in *.
  assert (Hn1 : n1 <= nboz + 1) by (subst n1; destruct (m =? 0); lia).
  destruct (@foldM_range_inv _ (setup_xmnb_n (Z.of_nat N) nfp m)
    (fun n st => stored_modes N
       (boozer_modes m nboz nfp ++ map (fun n => (m, n * nfp)) (py_range n1 n)) st)
    n1 (nboz + 1) Hn1) with (st := st) as (st' & E & Hst').
  - intros n st0 Hn0 Hst0.
    rewrite (py_range_snoc (a := n1) (b := n)) by lia.
    rewrite map_app, app_assoc. simpl.
    apply setup_xmnb_n_ok; [exact Hst0|].
    rewrite length_app, length_map, py_range_length in *. lia.
  - rewrite py_range_empty by lia. simpl. rewrite app_nil_r. exact Hst.
  - exists st'. split; assumption.
Qed.

Lemma boozer_modes_length_mono m mboz nboz nfp :
  0 <= nboz -> 0 <= m -> m + 1 <= mboz ->
  (length (boozer_modes (m + 1) nboz nfp) <= length (boozer_modes mboz nboz nfp))%nat.
Proof.
  intros Hn Hm Hle.
  pose proof (@boozer_modes_length (m + 1) nboz nfp ltac:(lia) Hn) as H1.
  pose proof (@boozer_modes_length mboz nboz nfp ltac:(lia) Hn) as H2.
  unfold mnboz_of in *. nia.
Qed.

Lemma init_xmnb_spec junkZ mboz nboz nfp :
  1 <= mboz -> 0 <= nboz ->
  init_xmnb junkZ mboz nboz nfp =
    Ok (map (fun p => {| val := snd p; writes := 1 |}) (boozer_modes mboz nboz nfp),
        map (fun p => {| val := fst p; writes := 1 |}) (boozer_modes mboz nboz nfp)).
Proof.
  intros Hm Hn. unfold init_xmnb, np_alloc1, np_empty1.
  pose proof (@boozer_modes_length mboz nboz nfp Hm Hn) as Hlen.
  set (N := length (boozer_modes mboz nboz nfp)) in *.
  rewrite <- Hlen.
  replace (Z.of_nat N <? 0) with false by (symmetry; apply Z.ltb_ge; lia).
  cbn [bind]. rewrite Nat2Z.id. unfold setup_xmnb.
  destruct (@foldM_range_inv _ (setup_xmnb_m nboz (Z.of_nat N) nfp)
    (fun m st => stored_modes N (boozer_modes m nboz nfp) st) 0 mboz ltac:(lia))
    with (st := {| x_xnb := map (fun i => {| val := junkZ i; writes := 0 |}) (seq 0 N);
                   x_xmb := map (fun i => {| val := junkZ i; writes := 0 |}) (seq 0 N);
                   x_mnboz0 := 0; x_returned := false |})
    as (st' & E & Hst').
  - intros m st Hmm Hst. apply setup_xmnb_m_ok; auto; try lia.
    subst N. apply boozer_modes_length_mono; lia.
  - unfold stored_modes. simpl. repeat split.
    do 2 eexists. repeat split; try reflexivity;
      rewrite ?length_map, ?length_seq; auto;
      apply Forall_map_all; reflexivity.
  - rewrite E. cbn [bind].
    destruct Hst' as (_ & _ & rn & rm & -> & -> & Ln & Lm & _).
    fold N in Ln, Lm.
    destruct rn; [|simpl in Ln; lia]. destruct rm; [|simpl in Lm; lia].
    now rewrite !app_nil_r.
Qed.

Lemma combine_fst_snd {A B} (l : list (A * B)) :
  combine (map fst l) (map snd l) = l.
Proof. induction l as [|[a b] l IH]; simpl; [reflexivity|]. now rewrite IH. Qed.

(** C1, as amended.  For every [mboz >= 1], [nboz >= 0] and [nfp], the
    arrays allocated with capacity [mnboz] and filled by [setup_xmnb] hold
    exactly [mnboz = nboz + 1 + (mboz - 1) * (1 + 2 * nboz)] pairs
    [(m, n * nfp)], every cell stored once: [m] runs over [0 .. mboz - 1] (the
    loop is [range(mboz)]), with [n] over [0 .. nboz] when [m = 0] and over
    [-nboz .. nboz] otherwise, in that order; [m] is nondecreasing along the
    index, for [m = 0] all [n >= 0], and the pairs are pairwise distinct
    whenever [nfp <> 0]. *)
Theorem setup_xmnb_enumeration junkZ mboz nboz nfp :
  1 <= mboz -> 0 <= nboz ->
  exists xnb xmb,
    init_xmnb junkZ mboz nboz nfp = Ok (xnb, xmb) /\
    Z.of_nat (length xmb) = mnboz_of mboz nboz /\
    Z.of_nat (length xnb) = mnboz_of mboz nboz /\
    Forall (fun c => writes c = 1%nat) xmb /\
    Forall (fun c => writes c = 1%nat) xnb /\
    combine (vals xmb) (vals xnb) = boozer_modes mboz nboz nfp /\
    StronglySorted Z.le (vals xmb) /\
    (forall m x, In (m, x) (combine (vals xmb) (vals xnb)) ->
       0 <= m < mboz /\
       exists n, x = n * nfp /\ - nboz <= n <= nboz /\ (m = 0 -> 0 <= n)) /\
    (nfp <> 0 -> NoDup (combine (vals xmb) (vals xnb))).
Proof.
  intros Hm Hn. do 2 eexists. split; [apply init_xmnb_spec; assumption|].
  unfold vals. rewrite !map_map. simpl.
  change (map (fun x : Z * Z => fst x)) with (map (@fst Z Z)).
  change (map (fun x : Z * Z => snd x)) with (map (@snd Z Z)).
  rewrite combine_fst_snd, !length_map.
  rewrite boozer_modes_length by assumption.
  repeat split.
  - apply Forall_map_all. reflexivity.
  - apply Forall_map_all. reflexivity.
  - apply boozer_modes_sorted. lia.
  - apply in_boozer_modes in H as (m0 & n & [= -> ->] & Hm0 & _); lia.
  - apply in_boozer_modes in H as (m0 & n & [= -> ->] & Hm0 & _); lia.
  - apply in_boozer_modes in H as (m0 & n & [= -> ->] & Hm0 & Hn0); [|lia].
    exists n. split; [reflexivity|].
    destruct (Z.eqb_spec m0 0); split; try lia.
  - intros Hnfp. apply boozer_modes_NoDup; [lia|assumption].
Qed.

Lemma setup_xmnb_enumeration_witness :
  exists xnb xmb,
    init_xmnb (fun _ => 0) 3 2 5 = Ok (xnb, xmb) /\
    Z.of_nat (length xmb) = mnboz_of 3 2 /\
    Z.of_nat (length xnb) = mnboz_of 3 2 /\
    Forall (fun c => writes c = 1%nat) xmb /\
    Forall (fun c => writes c = 1%nat) xnb /\
    combine (vals xmb) (vals xnb) = boozer_modes 3 2 5 /\
    StronglySorted Z.le (vals xmb) /\
    (forall m x, In (m, x) (combine (vals xmb) (vals xnb)) ->
       0 <= m < 3 /\
       exists n, x = n * 5 /\ - 2 <= n <= 2 /\ (m = 0 -> 0 <= n)) /\
    (5 <> 0 -> NoDup (combine (vals xmb) (vals xnb))).
Proof.
  apply (@setup_xmnb_enumeration (fun _ => 0) 3 2 5); lia.
Defined.

(** C1 as stated fails: with [nfp = 0] the stored pairs are not distinct,
    and no pair has [m = mboz]. *)
Lemma setup_xmnb_counterexample :
  exists xnb xmb,
    init_xmnb (fun _ => 7) 1 1 0 = Ok (xnb, xmb) /\
    vals xmb = [0; 0] /\ vals xnb = [0; 0] /\
    ~ NoDup (combine (vals xmb) (vals xnb)) /\
    ~ In 1 (vals xmb).
Proof.
  do 2 eexists. split; [reflexivity|]. simpl.
  split; [reflexivity|]. split; [reflexivity|]. split.
  - intros H. inversion H as [|? ? Hin _]; subst. apply Hin. left. reflexivity.
  - intros [H|[H|[]]]; discriminate.
Qed.

(** ** Inversion of the result monad *)

Lemma bind_ok {A B} (m : result A) (k : A -> result B) (y : B) :
  bind m k = Ok y -> exists x, m = Ok x /\ k x = Ok y.
Proof. destruct m as [x|e]; simpl; [eauto|discriminate]. Qed.

(** Splits a hypothesis [x <- m ;; k = Ok y] into its two steps. *)
Ltac bind_inv H x Hx :=
  apply bind_ok in H; destruct H as (x & Hx & H).

(** A loop that returns establishes whatever its body maintains. *)
Lemma foldM_preserves {S A} (body : S -> A -> result S) (P : S -> Prop) xs :
  (forall s x s', P s -> body s x = Ok s' -> P s') ->
  forall s s', P s -> foldM body xs s = Ok s' -> P s'.
Proof.
  intros Hb. induction xs as [|x xs IH]; simpl; intros s s' Hs H.
  - now inversion H; subst.
  - bind_inv H s1 H1. eapply IH; [|exact H]. eapply Hb; eauto.
Qed.

(** ** The normalization vector *)

Lemma nth_list_set {A} (l : list A) (k j : nat) (f : A -> A) (d : A) :
  (j < length l)%nat ->
  nth j (list_set l k f) d = if (j =? k)%nat then f (nth j l d) else nth j l d.
Proof.
  revert k j. induction l as [|a l IH]; intros [|k] [|j]; simpl; intros H; try lia; auto.
  apply IH. lia.
Qed.

Lemma length_list_set {A} (l : list A) (k : nat) (f : A -> A) :
  length (list_set l k f) = length l.
Proof. revert k. induction l as [|a l IH]; intros [|k]; simpl; auto. Qed.

Lemma nth_store_tail {A} (v : list (cell A)) (k j : nat) (x : A) (d : cell A) :
  (j < length v)%nat ->
  nth j (store_tail v k x) d = if (k <=? j)%nat then store x (nth j v d) else nth j v d.
Proof.
  revert k j. induction v as [|c v IH]; intros k j H; simpl in H; [lia|].
  destruct k as [|k], j as [|j]; simpl; auto.
  - apply (IH 0%nat j). lia.
  - apply (IH k j). lia.
Qed.

Lemma length_store_tail {A} (v : list (cell A)) (k : nat) (x : A) :
  length (store_tail v k x) = length v.
Proof. revert k. induction v as [|c v IH]; intros [|k]; simpl; auto. Qed.

Lemma make_scl_spec junk mboz nboz mnboz :
  1 <= mnboz ->
  exists norm,
    make_scl junk mboz nboz mnboz = Ok norm /\
    n_nu2_b norm = 2 * mboz + 2 /\ n_nv_boz norm = 2 * (2 * nboz + 1) /\
    n_fac norm = (2 / IZR ((n_nu2_b norm - 1) * n_nv_boz norm))%R /\
    Z.of_nat (length (n_scl norm)) = mnboz /\
    nth 0 (n_scl norm) {| val := 0%R; writes := 0 |}
      = {| val := (n_fac norm / 2)%R; writes := 1 |} /\
    forall k, (1 <= k < length (n_scl norm))%nat ->
      nth k (n_scl norm) {| val := 0%R; writes := 0 |}
        = {| val := n_fac norm; writes := 1 |}.
Proof.
  intros HN. unfold make_scl.
  assert (Hnu : 2 * (2 * mboz + 1) / 2 + 1 = 2 * mboz + 2).
  { rewrite (Z.mul_comm 2 (2 * mboz + 1)), Z.div_mul by lia. lia. }
  rewrite Hnu.
  replace ((2 * mboz + 2 - 1) * (2 * (2 * nboz + 1)) =? 0) with false
    by (symmetry; apply Z.eqb_neq; nia).
  unfold np_alloc1, np_empty1.
  replace (mnboz <? 0) with false by (symmetry; apply Z.ltb_ge; lia).
  cbn [bind]. unfold store_item.
  rewrite np_index_ok
    by (rewrite length_store_tail, length_map, length_seq; lia).
  cbn [bind]. eexists. split; [reflexivity|].
  cbn [n_nu2_b n_nv_boz n_fac n_scl]. change (Z.to_nat 0) with 0%nat.
  split; [reflexivity|]. split; [reflexivity|]. split; [reflexivity|].
  split; [rewrite length_list_set, length_store_tail, length_map, length_seq; lia|].
  set (d := {| val := 0%R; writes := 0 |}).
  set (l := map (fun i => {| val := junk i; writes := 0 |}) (seq 0 (Z.to_nat mnboz))).
  assert (Hl : length l = Z.to_nat mnboz) by (subst l; now rewrite length_map, length_seq).
  assert (Hnth : forall k, (k < length l)%nat -> nth k l d = {| val := junk k; writes := 0 |}).
  { intros k Hk. subst l. rewrite nth_map_in with (da := 0%nat) by (rewrite length_seq; lia).
    rewrite seq_nth by lia. reflexivity. }
  split.
  - rewrite nth_list_set by (rewrite length_store_tail; lia).
    rewrite nth_store_tail by lia. cbn [Nat.eqb Nat.leb]. rewrite Hnth by lia. reflexivity.
  - intros k Hk. rewrite length_list_set, length_store_tail in Hk.
    rewrite nth_list_set by (rewrite length_store_tail; lia).
    destruct (Nat.eqb_spec k 0); [lia|].
    rewrite nth_store_tail by lia.
    replace (1 <=? k)%nat with true by (symmetry; apply Nat.leb_le; lia).
    rewrite Hnth by lia. reflexivity.
Qed.

(** ** Scaling of the output columns *)

Lemma bcast_into_length {T} (f : T -> T -> T) u v r :
  bcast_into f u v = Ok r -> length r = length u.
Proof.
  unfold bcast_into. destruct (Nat.eqb_spec (length u) (length v)) as [E|E].
  - intros [= <-]. rewrite length_map2. lia.
  - destruct v as [|y [|? ?]]; try discriminate. intros [= <-]. now rewrite length_map.
Qed.

Lemma imul_col_spec (t : tbl) (j : Z) (v : list R) (t' : tbl) :
  imul_col t j v = Ok t' -> length v = nrows t ->
  exists c, np_index (ncols t) j = Ok c /\
    nrows t' = nrows t /\ ncols t' = ncols t /\
    forall i k, at_ t' i k =
      if ((k =? c) && (i <? nrows t))%nat
      then store (val (at_ t i c) * nth i v 0)%R (at_ t i k) else at_ t i k.
Proof.
  unfold imul_col. intros H Hv.
  bind_inv H col Hcol. bind_inv H new Hnew.
  unfold get_col in Hcol. bind_inv Hcol c Hc. inversion Hcol; subst col; clear Hcol.
  fold (col_vals t c) in Hnew.
  rewrite bcast_into_same in Hnew by (now rewrite col_vals_length).
  inversion Hnew; subst new; clear Hnew.
  unfold set_col in H. rewrite Hc in H. cbn [bind] in H.
  rewrite length_map2, col_vals_length, Hv, Nat.min_id, Nat.eqb_refl in H.
  inversion H; subst t'; clear H.
  exists c. split; [exact Hc|]. simpl. repeat split.
  intros i k. destruct ((k =? c)%nat && (i <? nrows t)%nat) eqn:E; [|reflexivity].
  apply andb_prop in E as [_ E]. apply Nat.ltb_lt in E. f_equal.
  rewrite nth_map2 with (da := 0%R) (db := 0%R) by (rewrite ?col_vals_length; lia).
  now rewrite col_vals_nth by lia.
Qed.

Lemma scale_outputs_spec (v : list R) (jrad : Z) (o o' : outputs) (n : nat) :
  scale_outputs v jrad o = Ok o' ->
  length v = n ->
  nrows (o_bmncb o) = n -> nrows (o_rmncb o) = n -> nrows (o_zmnsb o) = n ->
  nrows (o_pmnsb o) = n -> nrows (o_gmncb o) = n ->
  exists cb cr cz cp cg,
    np_index (ncols (o_bmncb o)) jrad = Ok cb /\ column_scaled v cb (o_bmncb o) (o_bmncb o') /\
    np_index (ncols (o_rmncb o)) jrad = Ok cr /\ column_scaled v cr (o_rmncb o) (o_rmncb o') /\
    np_index (ncols (o_zmnsb o)) jrad = Ok cz /\ column_scaled v cz (o_zmnsb o) (o_zmnsb o') /\
    np_index (ncols (o_pmnsb o)) jrad = Ok cp /\ column_scaled v cp (o_pmnsb o) (o_pmnsb o') /\
    np_index (ncols (o_gmncb o)) jrad = Ok cg /\ column_scaled v cg (o_gmncb o) (o_gmncb o').
Proof.
  unfold scale_outputs. intros H Hv Hb Hr Hz Hp Hg.
  bind_inv H bm Hbm. bind_inv H rm Hrm. bind_inv H zm Hzm.
  bind_inv H pm Hpm. bind_inv H gm Hgm. inversion H; subst o'; clear H. simpl.
  apply imul_col_spec in Hbm as (cb & ? & ?); [|congruence].
  apply imul_col_spec in Hrm as (cr & ? & ?); [|congruence].
  apply imul_col_spec in Hzm as (cz & ? & ?); [|congruence].
  apply imul_col_spec in Hpm as (cp & ? & ?); [|congruence].
  apply imul_col_spec in Hgm as (cg & ? & ?); [|congruence].
  exists cb, cr, cz, cp, cg. unfold column_scaled. auto 20.
Qed.

(** Inverts a whole chain of binds in [H]. *)
Ltac bind_steps H :=
  repeat first
    [ match type of H with
      | bind _ _ = Ok _ =>
          let x := fresh "x" in
          let Hx := fresh "Hx" in
          apply bind_ok in H; destruct H as (x & Hx & H)
      | (let (_, _) := ?x in _) = Ok _ => destruct x
      end
    | progress cbn beta iota zeta in H ].

Lemma set_at_shape (t t' : tbl) i j x :
  set_at t i j x = Ok t' -> same_shape t t'.
Proof.
  unfold set_at. intros H. bind_steps H. inversion H; subst. split; reflexivity.
Qed.

Lemma same_shape_refl t : same_shape t t.
Proof. split; reflexivity. Qed.

Lemma same_shape_trans t1 t2 t3 :
  same_shape t1 t2 -> same_shape t2 t3 -> same_shape t1 t3.
Proof. intros [? ?] [? ?]. split; congruence. Qed.

Lemma same_shapes_refl o : same_shapes o o.
Proof. repeat split. Qed.

Lemma same_shapes_trans o1 o2 o3 :
  same_shapes o1 o2 -> same_shapes o2 o3 -> same_shapes o1 o3.
Proof.
  intros (A1 & A2 & A3 & A4 & A5) (B1 & B2 & B3 & B4 & B5).
  repeat split; eapply eq_trans; try apply B1; try apply B2; try apply B3;
    try apply B4; try apply B5; try apply A1; try apply A2; try apply A3;
    try apply A4; try apply A5.
Qed.

Lemma boozerfun_mode_shape self cosmm sinmm cosnn sinnn bmod_b rad zee vboz
  xjac bbjac jrad o mn o' :
  boozerfun_mode self cosmm sinmm cosnn sinnn bmod_b rad zee vboz xjac bbjac
    jrad o mn = Ok o' ->
  same_shapes o o'.
Proof.
  unfold boozerfun_mode. intros H. bind_steps H.
  inversion H; subst o'; clear H. unfold same_shapes. simpl.
  repeat match goal with
  | Hs : set_at _ _ _ _ = Ok _ |- _ => apply set_at_shape in Hs
  end.
  auto 10.
Qed.

Lemma boozerfun_sums_shape junk self st bmod_b rad zee uboz vboz xjac jacfac jrad o cs :
  boozerfun_sums junk self st bmod_b rad zee uboz vboz xjac jacfac jrad = Ok (o, cs) ->
  same_shapes (outputs_of st) o.
Proof.
  unfold boozerfun_sums. intros H. bind_steps H.
  inversion H; subst; clear H.
  match goal with
  | Hf : foldM (boozerfun_mode _ _ _ _ _ _ _ _ _ _ _ _) _ _ = Ok _ |- _ =>
      revert Hf; apply foldM_preserves; [|apply same_shapes_refl]
  end.
  intros s0 mn0 s1 Hs Hb. eapply same_shapes_trans; [exact Hs|].
  eapply boozerfun_mode_shape; exact Hb.
Qed.

Lemma np_index_nonneg len j c : np_index len j = Ok c -> 0 <= j -> c = Z.to_nat j.
Proof.
  unfold np_index. intros H Hj.
  destruct ((0 <=? j) && (j <? Z.of_nat len)); [now inversion H|].
  destruct ((- Z.of_nat len <=? j) && (j <? 0)) eqn:E; [|discriminate].
  apply andb_prop in E as [_ E]. apply Z.ltb_lt in E. lia.
Qed.

(** A call of [boozerfun] that returns is its mode loop followed by the
    in-place product of column [jrad] of the five tables with [self.scl]. *)
Lemma boozerfun_scales junk self st bmod_b rad zee uboz vboz xjac jacfac jrad st'
  (n : nat) :
  length (scl self) = n ->
  nrows (bmncb st) = n -> nrows (rmncb st) = n -> nrows (zmnsb st) = n ->
  nrows (pmnsb st) = n -> nrows (gmncb st) = n ->
  0 <= jrad ->
  boozerfun junk self st bmod_b rad zee uboz vboz xjac jacfac jrad = Ok st' ->
  exists o cs,
    boozerfun_sums junk self st bmod_b rad zee uboz vboz xjac jacfac jrad
      = Ok (o, cs) /\
    column_scaled (vals (scl self)) (Z.to_nat jrad) (o_bmncb o) (bmncb st') /\
    column_scaled (vals (scl self)) (Z.to_nat jrad) (o_rmncb o) (rmncb st') /\
    column_scaled (vals (scl self)) (Z.to_nat jrad) (o_zmnsb o) (zmnsb st') /\
    column_scaled (vals (scl self)) (Z.to_nat jrad) (o_pmnsb o) (pmnsb st') /\
    column_scaled (vals (scl self)) (Z.to_nat jrad) (o_gmncb o) (gmncb st').
Proof.
  intros Hscl Hb Hr Hz Hp Hg Hj H.
  unfold boozerfun in H. apply bind_ok in H as ([o cs] & Hsums & H).
  destruct cs as [[[cosmm cosnn] sinmm] sinnn]. cbn beta iota in H.
  apply bind_ok in H as (o' & Hscale & H). inversion H; subst st'; clear H.
  exists o, (cosmm, cosnn, sinmm, sinnn). split; [exact Hsums|].
  pose proof (boozerfun_sums_shape _ _ _ _ _ _ _ _ _ _ _ Hsums)
    as ((S1 & _) & (S2 & _) & (S3 & _) & (S4 & _) & (S5 & _)).
  simpl in S1, S2, S3, S4, S5.
  destruct (@scale_outputs_spec (vals (scl self)) jrad o o' n Hscale)
    as (cb & cr & cz & cp & cg & I1 & C1 & I2 & C2 & I3 & C3 & I4 & C4 & I5 & C5);
    try congruence.
  { unfold vals. now rewrite length_map. }
  apply np_index_nonneg in I1, I2, I3, I4, I5; try assumption. subst.
  simpl. auto.
Qed.

(** ** vcoords_rz *)

Lemma get_col_length (t : tbl) j l : get_col t j = Ok l -> length l = nrows t.
Proof.
  unfold get_col. intros H. bind_steps H. inversion H; subst.
  now rewrite length_map, length_seq.
Qed.

Lemma col_at_of_get (t : tbl) j l k : get_col t j = Ok l -> nth k l 0%R = col_at t j k.
Proof. intros H. unfold col_at. now rewrite H. Qed.

Lemma entry_of_get (t : tbl) i j x : get_at t i j = Ok x -> entry t i j = x.
Proof. intros H. unfold entry. now rewrite H. Qed.

Lemma mode_number_of_item v i x : item v i 0 = Ok x -> mode_number v i = x.
Proof. intros H. unfold mode_number. now rewrite H. Qed.

Lemma int_abs_div_ok x nfp n : int_abs_div x nfp = Ok n -> n = Z.abs (Z.quot x nfp).
Proof. unfold int_abs_div. destruct (nfp =? 0); [discriminate|]. now intros [= <-]. Qed.

Lemma bcast_ok_same {T} (f : T -> T -> T) u v r :
  bcast f u v = Ok r -> length u = length v -> r = map2 f u v.
Proof. intros H E. rewrite bcast_same in H by exact E. now inversion H. Qed.

Lemma bcast_into_ok_same {T} (f : T -> T -> T) u v r :
  bcast_into f u v = Ok r -> length u = length v -> r = map2 f u v.
Proof. intros H E. rewrite bcast_into_same in H by exact E. now inversion H. Qed.

Lemma nth_scale v c k : (k < length v)%nat -> nth k (scale v c) 0%R = (nth k v 0 * c)%R.
Proof. intros H. unfold scale. now rewrite nth_map_in with (da := 0%R). Qed.

Lemma length_scale v c : length (scale v c) = length v.
Proof. unfold scale. apply length_map. Qed.

Lemma trig_mode_spec (cosm sinm cosn sinn : tbl) m n sgn tcos tsin (N : nat) :
  nrows cosm = N -> nrows sinm = N -> nrows cosn = N -> nrows sinn = N ->
  trig_mode cosm sinm cosn sinn m n sgn = Ok (tcos, tsin) ->
  length tcos = N /\ length tsin = N /\
  forall k, (k < N)%nat ->
    nth k tcos 0%R = (col_at cosm m k * col_at cosn n k
                      + col_at sinm m k * col_at sinn n k * sgn)%R /\
    nth k tsin 0%R = (col_at sinm m k * col_at cosn n k
                      - col_at cosm m k * col_at sinn n k * sgn)%R.
Proof.
  intros R1 R2 R3 R4 H. unfold trig_mode, vmul, vadd, vsub in H.
  bind_steps H. inversion H; subst; clear H.
  repeat match goal with
  | Hg : get_col _ _ = Ok ?l |- _ =>
      let L := fresh "L" in
      pose proof (get_col_length _ _ Hg) as L;
      let C := fresh "C" in
      pose proof (fun k => col_at_of_get _ _ k Hg) as C;
      clear Hg
  end.
  repeat match goal with
  | Hb : bcast _ ?u ?v = Ok ?r |- _ =>
      apply bcast_ok_same in Hb;
      [subst r | rewrite ?length_scale, ?length_map2; lia]
  end.
  split; [rewrite length_map2, length_scale, !length_map2; lia|].
  split; [rewrite length_map2, length_scale, !length_map2; lia|].
  intros k Hk. split.
  - rewrite nth_map2 with (da := 0%R) (db := 0%R)
      by (rewrite ?length_scale, ?length_map2; lia).
    rewrite nth_scale by (rewrite length_map2; lia).
    rewrite 2!nth_map2 with (da := 0%R) (db := 0%R) by lia.
    congruence.
  - rewrite nth_map2 with (da := 0%R) (db := 0%R)
      by (rewrite ?length_scale, ?length_map2; lia).
    rewrite nth_scale by (rewrite length_map2; lia).
    rewrite 2!nth_map2 with (da := 0%R) (db := 0%R) by lia.
    congruence.
Qed.

Lemma nd_add_spec (a : nd) (v : list R) (r : nd) (n : nat) :
  nd_fits n a -> length v = n -> nd_op Rplus a (Ar v) = Ok r ->
  nd_fits n r /\ forall k, (k < n)%nat -> nd_at r k = (nd_at a k + nth k v 0)%R.
Proof.
  intros Ha Hv H. destruct a as [x|u]; simpl in *.
  - inversion H; subst; clear H. simpl. split; [now rewrite length_map|].
    intros k Hk. now rewrite nth_map_in with (da := 0%R) by lia.
  - bind_steps H. inversion H; subst; clear H.
    apply bcast_ok_same in Hx; [|lia]. subst. simpl.
    split; [rewrite length_map2; lia|].
    intros k Hk. now rewrite nth_map2 with (da := 0%R) (db := 0%R) by lia.
Qed.

Lemma vcoords_rz_mode_spec self st js nparity t1 t2 acc mn acc' (n : nat) :
  grid_rows self n -> rz_fits n acc ->
  vcoords_rz_mode self st js (js - 1) nparity t1 t2 acc mn = Ok acc' ->
  rz_fits n acc' /\
  forall k, (k < n)%nat ->
    let on := mode_number (xm self) mn mod 2 =? nparity in
    nd_at (a_r acc') k =
      (nd_at (a_r acc) k
       + if on then tcos_at self mn k * interp (rmnc st) t1 t2 js mn else 0)%R /\
    nd_at (a_z acc') k =
      (nd_at (a_z acc) k
       + if on then tsin_at self mn k * interp (zmns st) t1 t2 js mn else 0)%R /\
    nth k (a_lt acc') 0%R =
      (nth k (a_lt acc) 0 + if on then lt_term self js k mn else 0)%R /\
    nth k (a_lz acc') 0%R =
      (nth k (a_lz acc) 0 + if on then lz_term self js k mn else 0)%R /\
    nth k (a_lam acc') 0%R =
      (nth k (a_lam acc) 0 + if on then lam_term self js k mn else 0)%R.
Proof.
  intros (G1 & G2 & G3 & G4) (Fr & Fz & Flt & Flz & Flam) H.
  unfold vcoords_rz_mode in H.
  apply bind_ok in H as (m & Hm & H).
  rewrite (mode_number_of_item _ _ Hm).
  destruct (m mod 2 =? nparity) eqn:Epar; cbn [negb] in H.
  2:{ inversion H; subst acc'; clear H. split; [repeat split; assumption|].
      intros k Hk. cbn zeta. repeat split; lra. }
  bind_steps H. inversion H; subst acc'; clear H.
  match goal with
  | Ht : trig_mode _ _ _ _ _ _ _ = Ok _ |- _ =>
      apply (@trig_mode_spec _ _ _ _ _ _ _ _ _ n G1 G2 G3 G4) in Ht;
      destruct Ht as (Ltc & Lts & Htrig)
  end.
  match goal with
  | Hd : int_abs_div _ _ = Ok ?z |- _ => apply int_abs_div_ok in Hd; subst z
  end.
  repeat match goal with
  | Hb : bcast_into _ _ _ = Ok ?r |- _ =>
      apply bcast_into_ok_same in Hb; [subst r | rewrite ?length_scale; lia]
  end.
  repeat match goal with
  | Hg : get_at _ _ _ = Ok ?z |- _ => apply entry_of_get in Hg; subst z
  end.
  repeat match goal with
  | Hn : nd_op Rplus _ (Ar _) = Ok _ |- _ =>
      eapply nd_add_spec in Hn; [| eassumption | rewrite length_scale; eassumption];
      let F := fresh "F" in let V := fresh "V" in destruct Hn as (F & V)
  end.
  match goal with
  | Hi : item (xn self) mn 0 = Ok ?z |- _ => apply mode_number_of_item in Hi; subst z
  end.
  split.
  - unfold rz_fits. cbn [a_r a_z a_lt a_lz a_lam].
    repeat split; try assumption; rewrite length_map2, ?length_scale; lia.
  - intros k Hk. cbn zeta. cbn [a_r a_z a_lt a_lz a_lam].
    destruct (Htrig k Hk) as (Hc & Hs).
    unfold lt_term, lz_term, lam_term, tcos_at, tsin_at, interp.
    rewrite (mode_number_of_item _ _ Hm).
    repeat match goal with
    | Hv : forall k, (k < n)%nat -> nd_at _ k = _ |- _ => rewrite (Hv k Hk); clear Hv
    end.
    rewrite !nth_map2 with (da := 0%R) (db := 0%R)
      by (rewrite ?length_scale; lia).
    rewrite !nth_scale by (rewrite ?length_scale; lia).
    rewrite Hc, Hs.
    repeat split; try reflexivity; try lra.
Qed.

Lemma mode_sum_filter_cons (f : Z -> R) (p : Z -> bool) x xs :
  mode_sum f (filter p (x :: xs)) =
  ((if p x then f x else 0) + mode_sum f (filter p xs))%R.
Proof. unfold mode_sum. simpl. destruct (p x); simpl; lra. Qed.

Lemma vcoords_rz_loop_spec self st js nparity t1 t2 xs acc acc' (n : nat) :
  grid_rows self n -> rz_fits n acc ->
  foldM (vcoords_rz_mode self st js (js - 1) nparity t1 t2) xs acc = Ok acc' ->
  rz_fits n acc' /\
  forall k, (k < n)%nat ->
    let on := fun mn => mode_number (xm self) mn mod 2 =? nparity in
    nd_at (a_r acc') k =
      (nd_at (a_r acc) k
       + mode_sum (fun mn => tcos_at self mn k * interp (rmnc st) t1 t2 js mn)
           (filter on xs))%R /\
    nd_at (a_z acc') k =
      (nd_at (a_z acc) k
       + mode_sum (fun mn => tsin_at self mn k * interp (zmns st) t1 t2 js mn)
           (filter on xs))%R /\
    nth k (a_lt acc') 0%R =
      (nth k (a_lt acc) 0 + mode_sum (lt_term self js k) (filter on xs))%R /\
    nth k (a_lz acc') 0%R =
      (nth k (a_lz acc) 0 + mode_sum (lz_term self js k) (filter on xs))%R /\
    nth k (a_lam acc') 0%R =
      (nth k (a_lam acc) 0 + mode_sum (lam_term self js k) (filter on xs))%R.
Proof.
  intros G. revert acc. induction xs as [|mn xs IH]; intros acc F H; simpl in H.
  - inversion H; subst acc'; clear H. split; [exact F|].
    intros k Hk. cbn zeta. unfold mode_sum. simpl. repeat split; lra.
  - apply bind_ok in H as (acc1 & H1 & H).
    destruct (@vcoords_rz_mode_spec self st js nparity t1 t2 acc mn acc1 n G F H1) as (F1 & V1).
    destruct (IH acc1 F1 H) as (F' & V').
    split; [exact F'|].
    intros k Hk. cbn zeta.
    destruct (V1 k Hk) as (A1 & A2 & A3 & A4 & A5).
    destruct (V' k Hk) as (B1 & B2 & B3 & B4 & B5).
    cbn zeta in *.
    rewrite !mode_sum_filter_cons.
    rewrite B1, B2, B3, B4, B5, A1, A2, A3, A4, A5.
    repeat split; lra.
Qed.

Lemma nth_fill (v : list R) x k : (k < length v)%nat -> nth k (fill v x) 0%R = x.
Proof. intros H. unfold fill. now rewrite nth_map_in with (da := 0%R). Qed.

Lemma length_fill {A} (v : list A) x : length (fill v x) = length v.
Proof. unfold fill. apply length_map. Qed.

(** What a call of [vcoords_rz] that returns a value has computed. *)
Lemma vcoords_rz_spec self st jrad r z lt lz lam nparity st' acc (n : nat) :
  grid_rows self n -> length lt = n -> length lz = n -> length lam = n ->
  vcoords_rz self st jrad r z lt lz lam nparity = Ok (st', Some acc) ->
  rz_fits n acc /\
  (nparity = 0 \/ 1 < jrad -> st' = st) /\
  let t1 := (if nparity =? 0 then 1 / 2
             else 1 / amplitude (sfull self) jrad / 2)%R in
  let t2 := (if nparity =? 0 then 1 / 2
             else if 1 <? jrad then 1 / amplitude (sfull self) (jrad - 1) / 2
             else 1 / 2)%R in
    forall k, (k < n)%nat ->
      nd_at (a_r acc) k =
        mode_sum (fun mn => (tcos_at self mn k * interp (rmnc st') t1 t2 jrad mn)%R)
          (parity_modes self nparity) /\
      nd_at (a_z acc) k =
        mode_sum (fun mn => (tsin_at self mn k * interp (zmns st') t1 t2 jrad mn)%R)
          (parity_modes self nparity) /\
      nth k (a_lt acc) 0%R =
        ((if nparity =? 0 then 0 else nth k lt 0)
         + mode_sum (lt_term self jrad k) (parity_modes self nparity))%R /\
      nth k (a_lz acc) 0%R =
        ((if nparity =? 0 then 0 else nth k lz 0)
         + mode_sum (lz_term self jrad k) (parity_modes self nparity))%R /\
      nth k (a_lam acc) 0%R =
        ((if nparity =? 0 then 0 else nth k lam 0)
         + mode_sum (lam_term self jrad k) (parity_modes self nparity))%R.
Proof.
  intros G Llt Llz Llam H. unfold vcoords_rz in H.
  destruct (jrad <=? 0) eqn:Ejs; [discriminate|].
  apply Z.leb_gt in Ejs.
  apply bind_ok in H as (x & Hpre & H).
  destruct x as [[[[[st0 t1] t2] lt0] lz0] lam0]. cbn beta iota zeta in H.
  apply bind_ok in H as (acc0 & Hloop & H).
  inversion H; subst st0 acc0; clear H.
  assert (Hin : length lt0 = n /\ length lz0 = n /\ length lam0 = n /\
                (nparity = 0 \/ 1 < jrad -> st' = st) /\
                (t1 / 2 = if nparity =? 0 then 1 / 2
                          else 1 / amplitude (sfull self) jrad / 2)%R /\
                (t2 / 2 = if nparity =? 0 then 1 / 2
                          else if 1 <? jrad
                               then 1 / amplitude (sfull self) (jrad - 1) / 2
                               else 1 / 2)%R /\
                forall k, (k < n)%nat ->
                  nth k lt0 0%R = (if nparity =? 0 then 0 else nth k lt 0)%R /\
                  nth k lz0 0%R = (if nparity =? 0 then 0 else nth k lz 0)%R /\
                  nth k lam0 0%R = (if nparity =? 0 then 0 else nth k lam 0)%R).
  { destruct (Z.eqb_spec nparity 0) as [E0|E0].
    - inversion Hpre; subst; clear Hpre.
      rewrite !length_fill. repeat split; auto.
      all: intros; rewrite nth_fill by lia; reflexivity.
    - destruct (Z.ltb_spec 1 jrad) as [Egt|Ele].
      + bind_steps Hpre. inversion Hpre; subst; clear Hpre.
        unfold amplitude.
        repeat match goal with
        | Hi : item (sfull self) _ _ = Ok _ |- _ => rewrite Hi; clear Hi
        end.
        repeat split; auto.
      + bind_steps Hpre. inversion Hpre; subst; clear Hpre.
        assert (jrad = 1) by lia. subst jrad.
        unfold amplitude.
        repeat match goal with
        | Hi : item (sfull self) _ _ = Ok _ |- _ => rewrite Hi; clear Hi
        end.
        repeat split; auto.
        intros [?|?]; [contradiction|lia]. }
  destruct Hin as (L1 & L2 & L3 & Hst & Ht1 & Ht2 & Hzero).
  destruct (@vcoords_rz_loop_spec self st' jrad nparity (t1 / 2)%R (t2 / 2)%R
              (py_range 0 (mnmax self))
              {| a_r := Sc 0; a_z := Sc 0; a_lt := lt0; a_lz := lz0; a_lam := lam0 |}
              acc n G) as (F & V).
  { unfold rz_fits. simpl. auto. }
  { exact Hloop. }
  split; [exact F|]. split; [exact Hst|].
  cbv zeta. rewrite <- Ht1, <- Ht2. intros k Hk.
  destruct (V k Hk) as (A1 & A2 & A3 & A4 & A5). cbn zeta in *.
  destruct (Hzero k Hk) as (Z1 & Z2 & Z3).
  unfold parity_modes. simpl in A1, A2, A3, A4, A5.
  rewrite A1, A2, A3, A4, A5, Z1, Z2, Z3.
  repeat split; lra.
Qed.

Lemma mode_sum_parity_split (f : Z -> R) (m : Z -> Z) (xs : list Z) :
  (mode_sum f (filter (fun mn => m mn mod 2 =? 0) xs)
   + mode_sum f (filter (fun mn => m mn mod 2 =? 1) xs))%R
  = mode_sum f xs.
Proof.
  induction xs as [|x xs IH].
  - unfold mode_sum. simpl. lra.
  - rewrite !mode_sum_filter_cons.
    assert (Hm : m x mod 2 = 0 \/ m x mod 2 = 1)
      by (pose proof (Z.mod_pos_bound (m x) 2); lia).
    unfold mode_sum at 3. simpl. fold (mode_sum f xs). rewrite <- IH.
    destruct Hm as [-> | ->]; simpl; lra.
Qed.

(** C10. [vcoords_rz] zeroes [lt], [lz], [lam] only when [nparity = 0]: that
    call returns the sums over the even native modes, whatever the arrays
    held; a call with [nparity = 1] returns the incoming values plus the sums
    over the odd native modes.  Hence after the two back-to-back calls of the
    constructor, the second one fed with the arrays of the first, [lt], [lz]
    and [lam] hold the sums over all native modes.  [r] and [z] are rebuilt
    in each call from zero: the result does not depend on the [r], [z]
    passed in, and is the sum over the modes of that call's parity alone, of
    the harmonic times [t1 * x[js, mn] + t2 * x[js - 1, mn]] ([x] being
    [rmnc] for [r] and [zmns] for [z]) with the weights of the code:
    [t1 = t2 = 1/2] in the even call, [t1 = 1 / sfull[js] / 2] and
    [t2 = 1 / sfull[js - 1] / 2] ([1/2] on the surface 1) in the odd call.
    The even call leaves the amplitude tables alone; so does the odd call
    on a surface [js > 1]. *)
Theorem vcoords_rz_accumulators self st jrad (r z rodd zodd : nd)
  (lt lz lam lt1 lz1 lam1 : list R) st1 even st2 odd (n : nat) :
  grid_rows self n ->
  length lt = n -> length lz = n -> length lam = n ->
  length lt1 = n -> length lz1 = n -> length lam1 = n ->
  vcoords_rz self st jrad r z lt lz lam 0 = Ok (st1, Some even) ->
  vcoords_rz self st1 jrad rodd zodd lt1 lz1 lam1 1 = Ok (st2, Some odd) ->
  (forall k, (k < n)%nat ->
     nth k (a_lt even) 0%R = mode_sum (lt_term self jrad k) (parity_modes self 0) /\
     nth k (a_lz even) 0%R = mode_sum (lz_term self jrad k) (parity_modes self 0) /\
     nth k (a_lam even) 0%R = mode_sum (lam_term self jrad k) (parity_modes self 0)) /\
  (forall k, (k < n)%nat ->
     nth k (a_lt odd) 0%R
       = (nth k lt1 0 + mode_sum (lt_term self jrad k) (parity_modes self 1))%R /\
     nth k (a_lz odd) 0%R
       = (nth k lz1 0 + mode_sum (lz_term self jrad k) (parity_modes self 1))%R /\
     nth k (a_lam odd) 0%R
       = (nth k lam1 0 + mode_sum (lam_term self jrad k) (parity_modes self 1))%R) /\
  (lt1 = a_lt even -> lz1 = a_lz even -> lam1 = a_lam even ->
   forall k, (k < n)%nat ->
     nth k (a_lt odd) 0%R = mode_sum (lt_term self jrad k) (py_range 0 (mnmax self)) /\
     nth k (a_lz odd) 0%R = mode_sum (lz_term self jrad k) (py_range 0 (mnmax self)) /\
     nth k (a_lam odd) 0%R = mode_sum (lam_term self jrad k) (py_range 0 (mnmax self))) /\
  (forall (r' z' : nd) l1 l2 l3 p,
     vcoords_rz self st jrad r' z' l1 l2 l3 p = vcoords_rz self st jrad r z l1 l2 l3 p) /\
  st1 = st /\ (1 < jrad -> st2 = st) /\
  (forall k, (k < n)%nat ->
     nd_at (a_r even) k
       = mode_sum (fun mn => (tcos_at self mn k
                              * interp (rmnc st1) (1 / 2) (1 / 2) jrad mn)%R)
           (parity_modes self 0) /\
     nd_at (a_z even) k
       = mode_sum (fun mn => (tsin_at self mn k
                              * interp (zmns st1) (1 / 2) (1 / 2) jrad mn)%R)
           (parity_modes self 0)) /\
  (forall k, (k < n)%nat ->
     let t1 := (1 / amplitude (sfull self) jrad / 2)%R in
     let t2 := (if 1 <? jrad then 1 / amplitude (sfull self) (jrad - 1) / 2
                else 1 / 2)%R in
     nd_at (a_r odd) k
       = mode_sum (fun mn => (tcos_at self mn k * interp (rmnc st2) t1 t2 jrad mn)%R)
           (parity_modes self 1) /\
     nd_at (a_z odd) k
       = mode_sum (fun mn => (tsin_at self mn k * interp (zmns st2) t1 t2 jrad mn)%R)
           (parity_modes self 1)).
Proof.
  intros G L1 L2 L3 M1 M2 M3 HA HB.
  destruct (@vcoords_rz_spec self st jrad r z lt lz lam 0 st1 even n G L1 L2 L3 HA)
    as (_ & SA & VA).
  destruct (@vcoords_rz_spec self st1 jrad rodd zodd lt1 lz1 lam1 1 st2 odd n
              G M1 M2 M3 HB)
    as (_ & SB & VB).
  cbv zeta in VA, VB.
  change (0 =? 0) with true in VA. change (1 =? 0) with false in VB.
  cbv iota in VA, VB.
  assert (E1 : st1 = st) by (apply SA; left; reflexivity). clear SA.
  assert (EA : forall k, (k < n)%nat ->
     nth k (a_lt even) 0%R = mode_sum (lt_term self jrad k) (parity_modes self 0) /\
     nth k (a_lz even) 0%R = mode_sum (lz_term self jrad k) (parity_modes self 0) /\
     nth k (a_lam even) 0%R = mode_sum (lam_term self jrad k) (parity_modes self 0)).
  { intros k Hk. destruct (VA k Hk) as (_ & _ & A3 & A4 & A5).
    rewrite A3, A4, A5. repeat split; lra. }
  assert (EB : forall k, (k < n)%nat ->
     nth k (a_lt odd) 0%R
       = (nth k lt1 0 + mode_sum (lt_term self jrad k) (parity_modes self 1))%R /\
     nth k (a_lz odd) 0%R
       = (nth k lz1 0 + mode_sum (lz_term self jrad k) (parity_modes self 1))%R /\
     nth k (a_lam odd) 0%R
       = (nth k lam1 0 + mode_sum (lam_term self jrad k) (parity_modes self 1))%R).
  { intros k Hk. destruct (VB k Hk) as (_ & _ & B3 & B4 & B5).
    auto. }
  split; [exact EA|]. split; [exact EB|]. split; [|split; [|split; [|split; [|split]]]].
  - intros -> -> -> k Hk.
    destruct (EA k Hk) as (A3 & A4 & A5). destruct (EB k Hk) as (B3 & B4 & B5).
    rewrite B3, B4, B5, A3, A4, A5. unfold parity_modes.
    rewrite !mode_sum_parity_split. auto.
  - reflexivity.
  - exact E1.
  - intros Hj. rewrite <- E1. apply SB. right. exact Hj.
  - intros k Hk. destruct (VA k Hk) as (A1 & A2 & _). auto.
  - intros k Hk. cbv zeta. destruct (VB k Hk) as (B1 & B2 & _). auto.
Qed.

Lemma vcoords_rz_accumulators_witness :
  (forall k, (k < 8)%nat ->
     nth k (a_lt (snd sample_even)) 0%R = mode_sum (lt_term sample_self 1 k) (parity_modes sample_self 0) /\
     nth k (a_lz (snd sample_even)) 0%R = mode_sum (lz_term sample_self 1 k) (parity_modes sample_self 0) /\
     nth k (a_lam (snd sample_even)) 0%R = mode_sum (lam_term sample_self 1 k) (parity_modes sample_self 0)) /\
  (forall k, (k < 8)%nat ->
     nth k (a_lt (snd sample_odd)) 0%R
       = (nth k (a_lt (snd sample_even)) 0 + mode_sum (lt_term sample_self 1 k) (parity_modes sample_self 1))%R /\
     nth k (a_lz (snd sample_odd)) 0%R
       = (nth k (a_lz (snd sample_even)) 0 + mode_sum (lz_term sample_self 1 k) (parity_modes sample_self 1))%R /\
     nth k (a_lam (snd sample_odd)) 0%R
       = (nth k (a_lam (snd sample_even)) 0 + mode_sum (lam_term sample_self 1 k) (parity_modes sample_self 1))%R) /\
  ((a_lt (snd sample_even)) = a_lt (snd sample_even) -> (a_lz (snd sample_even)) = a_lz (snd sample_even) -> (a_lam (snd sample_even)) = a_lam (snd sample_even) ->
   forall k, (k < 8)%nat ->
     nth k (a_lt (snd sample_odd)) 0%R = mode_sum (lt_term sample_self 1 k) (py_range 0 (mnmax sample_self)) /\
     nth k (a_lz (snd sample_odd)) 0%R = mode_sum (lz_term sample_self 1 k) (py_range 0 (mnmax sample_self)) /\
     nth k (a_lam (snd sample_odd)) 0%R = mode_sum (lam_term sample_self 1 k) (py_range 0 (mnmax sample_self))) /\
  (forall (r' z' : nd) l1 l2 l3 p,
     vcoords_rz sample_self sample_store 1 r' z' l1 l2 l3 p
       = vcoords_rz sample_self sample_store 1 (Ar sample_blank) (Ar sample_blank) l1 l2 l3 p) /\
  (fst sample_even) = sample_store /\ (1 < 1 -> (fst sample_odd) = sample_store) /\
  (forall k, (k < 8)%nat ->
     nd_at (a_r (snd sample_even)) k
       = mode_sum (fun mn => (tcos_at sample_self mn k
                              * interp (rmnc (fst sample_even)) (1 / 2) (1 / 2) 1 mn)%R)
           (parity_modes sample_self 0) /\
     nd_at (a_z (snd sample_even)) k
       = mode_sum (fun mn => (tsin_at sample_self mn k
                              * interp (zmns (fst sample_even)) (1 / 2) (1 / 2) 1 mn)%R)
           (parity_modes sample_self 0)) /\
  (forall k, (k < 8)%nat ->
     let t1 := (1 / amplitude (sfull sample_self) 1 / 2)%R in
     let t2 := (if 1 <? 1 then 1 / amplitude (sfull sample_self) (1 - 1) / 2
                else 1 / 2)%R in
     nd_at (a_r (snd sample_odd)) k
       = mode_sum (fun mn => (tcos_at sample_self mn k * interp (rmnc (fst sample_odd)) t1 t2 1 mn)%R)
           (parity_modes sample_self 1) /\
     nd_at (a_z (snd sample_odd)) k
       = mode_sum (fun mn => (tsin_at sample_self mn k * interp (zmns (fst sample_odd)) t1 t2 1 mn)%R)
           (parity_modes sample_self 1)).
Proof.
  apply (@vcoords_rz_accumulators sample_self sample_store 1
    (Ar sample_blank) (Ar sample_blank) (Ar sample_blank) (Ar sample_blank)
    sample_blank sample_blank sample_blank
    (a_lt (snd sample_even)) (a_lz (snd sample_even)) (a_lam (snd sample_even))
    (fst sample_even) (snd sample_even) (fst sample_odd) (snd sample_odd) 8).
  - vm_compute. repeat split.
  - reflexivity.
  - reflexivity.
  - reflexivity.
  - vm_compute. reflexivity.
  - vm_compute. reflexivity.
  - vm_compute. reflexivity.
  - vm_compute. reflexivity.
  - vm_compute. reflexivity.
Defined.

(** C5 fails on the code.  The slice the axis correction stores into is
    [ntorsum = (nboz + 1, 3 * nboz + 2)], computed from the Boozer bound
    [nboz] and not from the native modes.  For the small equilibrium (native
    modes [(0,0), (0,1), (1,-1), (1,0), (1,1)]) and [nboz = 0], the call with
    [nparity = 1] on surface 1 overwrites entry 1 of row 0 of [rmnc] and
    [zmns], which is the mode [(0,1)] with [m = 0], and leaves the three
    modes with [m = 1] (entries 2, 3, 4) as they were.  A call with
    [nparity = 0] or on a surface [jrad > 1] changes nothing. *)
Theorem axis_correction_overwrites_ntorsum_slice :
  xm sample_self = [0; 0; 1; 1; 1] /\
  ntorsum sample_self = (1, 2) /\
  vcoords_rz sample_self (fst sample_even) 1 (Ar sample_blank) (Ar sample_blank)
    (a_lt (snd sample_even)) (a_lz (snd sample_even)) (a_lam (snd sample_even)) 1
    = Ok (fst sample_odd, Some (snd sample_odd)) /\
  at_ (rmnc (fst sample_odd)) 0 1
    = {| val := (2 * 2 / sqrt (1 / 2) - 3 / sqrt 1)%R; writes := 1 |} /\
  at_ (zmns (fst sample_odd)) 0 1
    = {| val := (2 * 2 / sqrt (1 / 2) - 3 / sqrt 1)%R; writes := 1 |} /\
  (forall j, (2 <= j <= 4)%nat ->
     at_ (rmnc (fst sample_odd)) 0 j = at_ (rmnc sample_store) 0 j /\
     at_ (zmns (fst sample_odd)) 0 j = at_ (zmns sample_store) 0 j /\
     writes (at_ (rmnc (fst sample_odd)) 0 j) = 0%nat /\
     writes (at_ (zmns (fst sample_odd)) 0 j) = 0%nat) /\
  (forall self st jrad r z lt lz lam nparity st' acc,
     vcoords_rz self st jrad r z lt lz lam nparity = Ok (st', acc) ->
     nparity = 0 \/ jrad <> 1 -> st' = st).
Proof.
  split; [reflexivity|]. split; [reflexivity|].
  split; [vm_compute; reflexivity|].
  split; [vm_compute; reflexivity|].
  split; [vm_compute; reflexivity|].
  split.
  - intros j Hj.
    assert (E : j = 2%nat \/ j = 3%nat \/ j = 4%nat) by lia.
    destruct E as [-> | [-> | ->]]; vm_compute; repeat split; reflexivity.
  - intros self st jrad r z lt lz lam nparity st' acc H Hcase.
    unfold vcoords_rz in H.
    destruct (jrad <=? 0) eqn:Ejs; [now inversion H|].
    apply bind_ok in H as (x & Hpre & H).
    destruct x as [[[[[st0 t1] t2] lt0] lz0] lam0]. cbn beta iota zeta in H.
    apply bind_ok in H as (acc0 & _ & H). inversion H; subst st0; clear H.
    destruct (Z.eqb_spec nparity 0) as [E0|E0]; [now inversion Hpre|].
    destruct (Z.ltb_spec 1 jrad) as [Egt|Ele].
    + bind_steps Hpre. now inversion Hpre.
    + apply Z.leb_gt in Ejs. destruct Hcase; [contradiction|lia].
Qed.

(** ** modbooz *)

(** Evaluates the program, leaving the real operations alone. *)
Ltac run :=
  lazy -[cos sin PI Rplus Rmult Rminus Ropp Rinv IZR sqrt].

(** C9 fails on the code.  [modbooz] takes the toroidal index as
    [int(xnb[mn]) // nfp], without the absolute value that [boozerfun] takes,
    so for a mode with [n < 0] the index counts from the end of the table:
    with [nboz = 2] the mode [(1,-1)] is evaluated with the second toroidal
    harmonic.  For a unit amplitude of that mode and the angle pair
    [(0, pi)], [modbooz] returns [bmod[0] = cos(0 + 2 pi) = 1], while the
    series is [cos(0 + pi) = -1]. *)
Theorem modbooz_negative_toroidal_mode :
  vals (xmb sample_self22) = [0; 0; 0; 1; 1; 1; 1; 1] /\
  vals (xnb sample_self22) = [0; 1; 2; -2; -1; 0; 1; 2] /\
  col_vals (bmncb sample_store22) 1 = [0; 0; 0; 0; 1; 0; 0; 0]%R /\
  (exists st bmod,
     modbooz (fun _ => 0%R) sample_self22 sample_store22 1 = Ok (st, bmod) /\
     nth 0 bmod 0%R = 1%R) /\
  boozer_series (vals (xmb sample_self22)) (vals (xnb sample_self22))
    (col_vals (bmncb sample_store22) 1)
    (nth 0 (u_b sample_store22) 0%R) (nth 0 (v_b sample_store22) 0%R) = (-1)%R.
Proof.
  split; [reflexivity|]. split; [reflexivity|]. split; [run; reflexivity|]. split.
  - do 2 eexists. split; [run; reflexivity|].
    run. replace (PI * 1)%R with PI by lra.
    rewrite cos_PI, sin_PI, cos_0, sin_0. lra.
  - run.
    replace (1 * 0 - -1 * PI)%R with PI by lra.
    rewrite cos_PI. lra.
Qed.

(** ** The surface loop *)

(** The tuple [vcoords_w] returns has four components. *)
Lemma unpack3_w_tuple (w : w_acc) : unpack3 (w_tuple w) = Raise too_many_values.
Proof. reflexivity. Qed.

(** One step through a chain of binds whose outcome is claimed to be an
    exception. *)
Ltac raise_step :=
  match goal with
  | |- exists e, bind (unpack3 (w_tuple ?w)) _ = Raise e =>
      rewrite unpack3_w_tuple; eexists; reflexivity
  | |- exists e, bind ?m _ = Raise e =>
      destruct m as [?|?]; [cbn [bind] | eexists; reflexivity]
  | |- exists e, (let (_, _) := ?x in _) = Raise e => destruct x
  end.

(** C6 fails on the code.  The constructor unpacks the four values
    [vcoords_w] returns into three names ([wt, wz, wp = self.vcoords_w(...)]),
    which raises [ValueError]: no iteration of the surface loop completes, on
    any input, and [boozerfun] is never reached.  On the small equilibrium
    the first part of the constructor succeeds and the construction then
    fails in the iteration [jrad = 1] with exactly this error, for
    [(nboz, mboz) = (0, 1)] as for [(2, 3)].  So the tables keep their initial
    zeros in every column, column [jrad] included. *)
Theorem surface_loop_unpack_error :
  (forall junk junk1 d self st jrad,
     exists e, surface_step junk junk1 d self st jrad = Raise e) /\
  is_ok sample_setup = true /\
  init (fun _ _ _ => 0%R) (fun _ => 0%R) (fun _ => 0) sample_data 0 1
    = Raise too_many_values /\
  init (fun _ _ _ => 0%R) (fun _ => 0%R) (fun _ => 0) sample_data 2 3
    = Raise too_many_values /\
  (forall i j, at_ (bmncb sample_store) i j = {| val := 0%R; writes := 0 |} /\
               at_ (rmncb sample_store) i j = {| val := 0%R; writes := 0 |} /\
               at_ (zmnsb sample_store) i j = {| val := 0%R; writes := 0 |} /\
               at_ (pmnsb sample_store) i j = {| val := 0%R; writes := 0 |} /\
               at_ (gmncb sample_store) i j = {| val := 0%R; writes := 0 |}).
Proof.
  split.
  - intros junk junk1 d self st jrad. unfold surface_step.
    repeat raise_step.
  - split; [vm_compute; reflexivity|].
    split; [vm_compute; reflexivity|].
    split; [vm_compute; reflexivity|].
    intros i j. vm_compute. repeat split.
Qed.

(** [boozerfun] itself returns on the object of the small equilibrium; it
    leaves column 0 of the five tables untouched and has stored twice into
    each entry of column 1: the quadrature sum, then its product with
    [scl]. *)
Example boozerfun_sample_run :
  exists st',
    sample_boozerfun = Ok st' /\
    mnboz sample_self = 1 /\
    at_ (bmncb st') 0 0 = {| val := 0%R; writes := 0 |} /\
    at_ (gmncb st') 0 0 = {| val := 0%R; writes := 0 |} /\
    writes (at_ (bmncb st') 0 1) = 2%nat /\
    writes (at_ (rmncb st') 0 1) = 2%nat /\
    writes (at_ (zmnsb st') 0 1) = 2%nat /\
    writes (at_ (pmnsb st') 0 1) = 2%nat /\
    writes (at_ (gmncb st') 0 1) = 2%nat /\
    writes (at_ (bmncb st') 0 2) = 0%nat.
Proof.
  eexists. split; [vm_compute; reflexivity|].
  vm_compute. repeat split.
Qed.

Lemma np_index_out (len : nat) (i : Z) :
  Z.of_nat len <= i -> np_index len i = Raise IndexError.
Proof.
  intros H. unfold np_index.
  replace (i <? Z.of_nat len) with false by (symmetry; apply Z.ltb_ge; lia).
  replace (i <? 0) with false by (symmetry; apply Z.ltb_ge; lia).
  now rewrite !andb_false_r.
Qed.

Lemma set_col_ncols t j v t' : set_col t j v = Ok t' -> ncols t' = ncols t.
Proof.
  unfold set_col. intros H. apply bind_ok in H as (c & _ & H).
  destruct v as [x|l].
  - now inversion H.
  - destruct (length l =? nrows t)%nat; [now inversion H|].
    destruct l as [|x [|? ?]]; try discriminate. now inversion H.
Qed.

(** A call of [trigfunc] with [mpol < 1] does not return: the table has no
    column 1 for the first harmonic (or cannot be allocated at all). *)
Lemma trigfunc_needs_first_harmonic junk nfp th zt mpol ntor nznt :
  mpol < 1 -> exists e, trigfunc junk nfp th zt mpol ntor nznt = Raise e.
Proof.
  intros Hm. unfold trigfunc.
  destruct (np_alloc2 (junk 0%nat) nznt (mpol + 1)) as [cosm|e] eqn:Ea;
    [|eexists; reflexivity].
  cbn [bind].
  assert (Hc : (ncols cosm <= 1)%nat).
  { unfold np_alloc2 in Ea. destruct ((nznt <? 0) || (mpol + 1 <? 0)); [discriminate|].
    inversion Ea; subst; simpl. lia. }
  destruct (np_alloc2 (junk 1%nat) nznt (mpol + 1)) as [sinm|e];
    [|eexists; reflexivity].
  cbn [bind].
  destruct (np_alloc2 (junk 2%nat) nznt (ntor + 1)) as [cosn|e];
    [|eexists; reflexivity].
  cbn [bind].
  destruct (np_alloc2 (junk 3%nat) nznt (ntor + 1)) as [sinn|e];
    [|eexists; reflexivity].
  cbn [bind].
  destruct (set_col cosm 0 (Sc 1)) as [cosm1|e] eqn:E1; [|eexists; reflexivity].
  cbn [bind].
  destruct (set_col sinm 0 (Sc 0)) as [sinm1|e] eqn:E2; [|eexists; reflexivity].
  cbn [bind].
  apply set_col_ncols in E1.
  unfold set_col at 1. rewrite np_index_out by lia. eexists. reflexivity.
Qed.

(** What the axis correction does to a table: it stores, in row 0, exactly
    the entries of the slice [ntorsum[0] : ntorsum[1]] (clipped to the number
    of modes), each with the one-sided extrapolation from rows 1 and 2, and
    changes nothing else. *)
Lemma axis_correction_spec (self : Setup) (t t' : tbl) :
  axis_correction self t = Ok t' ->
  let a := slice_bound (ncols t) (fst (ntorsum self)) in
  let b := slice_bound (ncols t) (snd (ntorsum self)) in
  exists s1 s2,
    item (sfull self) 1 0%R = Ok s1 /\ item (sfull self) 2 0%R = Ok s2 /\
    nrows t' = nrows t /\ ncols t' = ncols t /\
    forall i j, at_ t' i j =
      if ((i =? 0) && (a <=? j) && (j <? b))%nat
      then store (2 * val (at_ t 1 j) / s1 - val (at_ t 2 j) / s2)%R (at_ t i j)
      else at_ t i j.
Proof.
  intros H. cbv zeta.
  unfold axis_correction, get_row_slice, set_row_slice, vsub in H. cbv zeta in H.
  set (a := slice_bound (ncols t) (fst (ntorsum self))) in *.
  set (b := slice_bound (ncols t) (snd (ntorsum self))) in *.
  apply bind_ok in H as (ra & Hra & H). apply bind_ok in Hra as (r1 & Hr1 & Hra).
  inversion Hra; subst ra; clear Hra.
  apply bind_ok in H as (s1 & Hs1 & H).
  apply bind_ok in H as (rb & Hrb & H). apply bind_ok in Hrb as (r2 & Hr2 & Hrb).
  inversion Hrb; subst rb; clear Hrb.
  apply bind_ok in H as (s2 & Hs2 & H).
  apply bind_ok in H as (rhs & Hrhs & H).
  apply bind_ok in H as (r0 & Hr0 & H).
  apply np_index_nonneg in Hr1, Hr2, Hr0; try lia.
  change (Z.to_nat 1) with 1%nat in Hr1. change (Z.to_nat 2) with 2%nat in Hr2.
  change (Z.to_nat 0) with 0%nat in Hr0. subst r1 r2 r0.
  apply bcast_ok_same in Hrhs; [|now rewrite !length_map].
  assert (Hlen : length rhs = (b - a)%nat).
  { subst rhs. rewrite length_map2, !length_map, length_seq. lia. }
  rewrite Hlen, Nat.eqb_refl in H. inversion H; subst t'; clear H.
  exists s1, s2. split; [exact Hs1|]. split; [exact Hs2|].
  simpl. split; [reflexivity|]. split; [reflexivity|].
  intros i j.
  destruct ((i =? 0)%nat && (a <=? j)%nat && (j <? b)%nat) eqn:E; [|reflexivity].
  apply andb_prop in E as [E Eb]. apply andb_prop in E as [_ Ea].
  apply Nat.leb_le in Ea. apply Nat.ltb_lt in Eb.
  f_equal. subst rhs.
  rewrite nth_map2 with (da := 0%R) (db := 0%R)
    by (rewrite !length_map, length_seq; lia).
  rewrite 2!nth_map_in with (da := 0%R) by (rewrite length_map, length_seq; lia).
  rewrite 2!nth_map_in with (da := 0%nat) by (rewrite length_seq; lia).
  rewrite seq_nth by lia.
  replace (a + (j - a))%nat with j by lia. reflexivity.
Qed.

(** ** The stores of boozerfun *)

(** A loop over [range(a, b)] that returns has established the invariant
    at [b], when each step that returns carries it one index further. *)
Lemma foldM_range_post {S} (body : S -> Z -> result S) (Inv : Z -> S -> Prop) a b :
  a <= b ->
  (forall i st st', a <= i < b -> Inv i st -> body st i = Ok st' -> Inv (i + 1) st') ->
  forall st st', Inv a st -> foldM body (py_range a b) st = Ok st' -> Inv b st'.
Proof.
  intros Hab Hstep.
  remember (Z.to_nat (b - a)) as n eqn:Hn. revert a Hab Hstep Hn.
  induction n as [|n IH]; intros a Hab Hstep Hn st st' H0 H.
  - assert (a = b) by lia. subst. rewrite py_range_empty in H by lia.
    simpl in H. now inversion H; subst.
  - rewrite py_range_cons in H by lia. simpl in H.
    apply bind_ok in H as (st1 & H1 & H).
    apply (IH (a + 1)) with (st := st1); try lia; auto.
    + intros i s s' Hi. apply Hstep. lia.
    + eapply Hstep; eauto. lia.
Qed.

Lemma set_at_spec (t t' : tbl) i j x :
  set_at t i j x = Ok t' -> 0 <= i -> 0 <= j ->
  t' = store_at t (Z.to_nat i) (Z.to_nat j) x /\ (Z.to_nat i < nrows t)%nat.
Proof.
  unfold set_at. intros H Hi Hj.
  apply bind_ok in H as (r & Hr & H). apply bind_ok in H as (c & Hc & H).
  pose proof (np_index_bound _ _ Hr) as Hb.
  apply np_index_nonneg in Hr, Hc; try assumption. subst r c.
  inversion H. split; [reflexivity|assumption].
Qed.

Lemma stored_upto_refl c t : stored_upto c 0 t t.
Proof.
  split; [apply same_shape_refl|]. intros i j. split; [reflexivity|lia].
Qed.

Lemma stored_upto_step c m t0 t x :
  stored_upto c m t0 t -> stored_upto c (S m) t0 (store_at t m c x).
Proof.
  intros ((Hr & Hc) & H). split; [split; simpl; assumption|].
  intros i j. simpl. destruct (H i j) as (Hsame & Hw). split.
  - intros Hcase.
    destruct (Nat.eqb_spec i m) as [->|Hi]; destruct (Nat.eqb_spec j c) as [->|Hj];
      simpl; try (apply Hsame; lia). lia.
  - intros -> Hi.
    destruct (Nat.eqb_spec i m) as [->|Hne]; rewrite Nat.eqb_refl; simpl.
    + destruct (H m c) as (Hsame' & _). rewrite Hsame' by lia. reflexivity.
    + apply Hw; [reflexivity|lia].
Qed.

Lemma boozerfun_mode_stores self cosmm sinmm cosnn sinnn bmod_b rad zee vboz
  xjac bbjac jrad o0 o mn o' :
  0 <= mn -> 0 <= jrad ->
  outputs_stored_upto (Z.to_nat jrad) (Z.to_nat mn) o0 o ->
  boozerfun_mode self cosmm sinmm cosnn sinnn bmod_b rad zee vboz xjac bbjac
    jrad o mn = Ok o' ->
  outputs_stored_upto (Z.to_nat jrad) (Z.to_nat (mn + 1)) o0 o'.
Proof.
  intros Hmn Hj (S1 & S2 & S3 & S4 & S5) H. unfold boozerfun_mode in H.
  bind_steps H. inversion H; subst o'; clear H.
  repeat match goal with
  | Hs : set_at _ mn jrad _ = Ok ?t |- _ =>
      apply set_at_spec in Hs; [destruct Hs as (Hs & _); subst t | assumption..]
  end.
  replace (Z.to_nat (mn + 1)) with (S (Z.to_nat mn)) by lia.
  unfold outputs_stored_upto. simpl.
  repeat split; apply stored_upto_step; assumption.
Qed.

Lemma boozerfun_sums_stores junk self st bmod_b rad zee uboz vboz xjac jacfac jrad o cs :
  0 <= jrad -> 0 <= mnboz self ->
  boozerfun_sums junk self st bmod_b rad zee uboz vboz xjac jacfac jrad = Ok (o, cs) ->
  outputs_stored_upto (Z.to_nat jrad) (Z.to_nat (mnboz self)) (outputs_of st) o.
Proof.
  intros Hj HN H. unfold boozerfun_sums in H. bind_steps H.
  inversion H; subst; clear H.
  match goal with
  | Hf : foldM (boozerfun_mode _ _ _ _ _ _ _ _ _ _ _ _) _ _ = Ok _ |- _ =>
      revert Hf;
      apply (@foldM_range_post _ _
               (fun i s => outputs_stored_upto (Z.to_nat jrad) (Z.to_nat i)
                             (outputs_of st) s) 0 (mnboz self) HN)
  end.
  - intros i s s' Hi Hinv Hb. eapply boozerfun_mode_stores; eauto; lia.
  - repeat split; try reflexivity; lia.
Qed.

Lemma stored_then_scaled c n v t0 t t' :
  nrows t0 = n -> stored_upto c n t0 t -> column_scaled v c t t' ->
  column_stored_twice c n t0 t'.
Proof.
  intros Hn ((Hr & Hc) & H) (Hr' & Hc' & H').
  split; [congruence|]. split; [congruence|].
  intros i j. rewrite H'. destruct (H i j) as (Hsame & Hw). split.
  - intros Hne. destruct (Nat.eqb_spec j c); [contradiction|]. simpl.
    apply Hsame. left. assumption.
  - intros -> Hi. rewrite Nat.eqb_refl. simpl.
    replace (i <? nrows t)%nat with true by (symmetry; apply Nat.ltb_lt; lia).
    simpl. f_equal. apply Hw; [reflexivity|assumption].
Qed.

(** What a call of [boozerfun] that returns has stored: in each of the five
    tables, two stores into every entry of column [jrad] (the quadrature sum,
    then its product with [scl]), and nothing in any other column. *)
Theorem boozerfun_stores junk self st bmod_b rad zee uboz vboz xjac jacfac jrad st'
  (n : nat) :
  Z.of_nat n = mnboz self -> length (scl self) = n ->
  nrows (bmncb st) = n -> nrows (rmncb st) = n -> nrows (zmnsb st) = n ->
  nrows (pmnsb st) = n -> nrows (gmncb st) = n ->
  0 <= jrad ->
  boozerfun junk self st bmod_b rad zee uboz vboz xjac jacfac jrad = Ok st' ->
  column_stored_twice (Z.to_nat jrad) n (bmncb st) (bmncb st') /\
  column_stored_twice (Z.to_nat jrad) n (rmncb st) (rmncb st') /\
  column_stored_twice (Z.to_nat jrad) n (zmnsb st) (zmnsb st') /\
  column_stored_twice (Z.to_nat jrad) n (pmnsb st) (pmnsb st') /\
  column_stored_twice (Z.to_nat jrad) n (gmncb st) (gmncb st').
Proof.
  intros HN Hscl Hb Hr Hz Hp Hg Hj H.
  destruct (@boozerfun_scales junk self st bmod_b rad zee uboz vboz xjac
              jacfac jrad st' n Hscl Hb Hr Hz Hp Hg Hj H)
    as (o & cs & Hsums & C1 & C2 & C3 & C4 & C5).
  apply boozerfun_sums_stores in Hsums; [|assumption|lia].
  replace (Z.to_nat (mnboz self)) with n in Hsums by lia.
  destruct Hsums as (S1 & S2 & S3 & S4 & S5). simpl in S1, S2, S3, S4, S5.
  repeat split;
    first [ eapply (@stored_then_scaled _ _ _ _ _ _ Hb); eassumption
          | eapply (@stored_then_scaled _ _ _ _ _ _ Hr); eassumption
          | eapply (@stored_then_scaled _ _ _ _ _ _ Hz); eassumption
          | eapply (@stored_then_scaled _ _ _ _ _ _ Hp); eassumption
          | eapply (@stored_then_scaled _ _ _ _ _ _ Hg); eassumption ].
Qed.

Lemma trigfunc_needs_first_harmonic_witness :
  exists e, trigfunc (fun _ _ _ => 0%R) 1 [0]%R [0]%R 0 0 1 = Raise e.
Proof.
  apply (@trigfunc_needs_first_harmonic (fun _ _ _ => 0%R) 1 [0]%R [0]%R 0 0 1). lia.
Defined.

Lemma axis_correction_spec_witness :
  exists s1 s2,
    item (sfull sample_self) 1 0%R = Ok s1 /\ item (sfull sample_self) 2 0%R = Ok s2 /\
    nrows (rmnc (fst sample_odd)) = nrows (rmnc sample_store) /\
    ncols (rmnc (fst sample_odd)) = ncols (rmnc sample_store) /\
    forall i j, at_ (rmnc (fst sample_odd)) i j =
      if ((i =? 0)
          && (slice_bound (ncols (rmnc sample_store)) (fst (ntorsum sample_self)) <=? j)
          && (j <? slice_bound (ncols (rmnc sample_store)) (snd (ntorsum sample_self))))%nat
      then store (2 * val (at_ (rmnc sample_store) 1 j) / s1
                  - val (at_ (rmnc sample_store) 2 j) / s2)%R
             (at_ (rmnc sample_store) i j)
      else at_ (rmnc sample_store) i j.
Proof.
  apply (@axis_correction_spec sample_self (rmnc sample_store) (rmnc (fst sample_odd))).
  vm_compute. reflexivity.
Defined.

Lemma boozerfun_stores_witness :
  column_stored_twice 1 1 (bmncb sample_store) (bmncb sample_boozed) /\
  column_stored_twice 1 1 (rmncb sample_store) (rmncb sample_boozed) /\
  column_stored_twice 1 1 (zmnsb sample_store) (zmnsb sample_boozed) /\
  column_stored_twice 1 1 (pmnsb sample_store) (pmnsb sample_boozed) /\
  column_stored_twice 1 1 (gmncb sample_store) (gmncb sample_boozed).
Proof.
  apply (@boozerfun_stores (fun _ _ _ => 0%R) sample_self sample_store (repeat 1%R 8)
           (Ar (repeat 1%R 8)) (Sc 0) (repeat 0%R 8) (repeat 0%R 8) (repeat 1%R 8)
           1%R 1 sample_boozed 1%nat);
    first [lia | vm_compute; reflexivity].
Defined.

(** The mode table of the end-to-end scenario of the specification
    ([mboz = 3], [nboz = 2], [nfp = 5]), as [setup_xmnb] stores it. *)
Example setup_xmnb_scenario :
  exists xnb xmb,
    init_xmnb (fun _ => 0) 3 2 5 = Ok (xnb, xmb) /\
    combine (vals xmb) (vals xnb) =
      [(0, 0); (0, 5); (0, 10);
       (1, -10); (1, -5); (1, 0); (1, 5); (1, 10);
       (2, -10); (2, -5); (2, 0); (2, 5); (2, 10)].
Proof. do 2 eexists. split; [vm_compute; reflexivity | reflexivity]. Qed.

(** ** The angular grid *)

Lemma set_item_ok {A} (v : list A) (i : Z) (x : A) :
  0 <= i < Z.of_nat (length v) ->
  set_item v i x = Ok (list_set v (Z.to_nat i) (fun _ => x)).
Proof. intros H. unfold set_item. now rewrite np_index_ok. Qed.

Lemma item_ok {A} (v : list A) (i : Z) (d : A) :
  0 <= i < Z.of_nat (length v) -> item v i d = Ok (nth (Z.to_nat i) v d).
Proof. intros H. unfold item. now rewrite np_index_ok. Qed.

Lemma np_empty1_ok {A} (x : nat -> A) (n : Z) :
  0 <= n -> np_empty1 x n = Ok (map x (seq 0 (Z.to_nat n))).
Proof.
  intros H. unfold np_empty1.
  now replace (n <? 0) with false by (symmetry; apply Z.ltb_ge; lia).
Qed.

Lemma grid_point_ok (dth dzt : R) (nv : Z) (N : nat) lt lz th zt :
  0 < nv -> 1 <= lz <= nv -> 1 <= lt ->
  (lt - 1) * nv + (lz - 1) < Z.of_nat N ->
  grid_filled dth dzt nv N ((lt - 1) * nv + (lz - 1)) th zt ->
  exists th' zt',
    grid_point dth dzt lt (th, zt, (lt - 1) * nv + (lz - 1)) lz
      = Ok (th', zt', (lt - 1) * nv + (lz - 1) + 1) /\
    grid_filled dth dzt nv N ((lt - 1) * nv + (lz - 1) + 1) th' zt'.
Proof.
  intros Hnv Hlz Hlt Hlk (Lth & Lzt & Hval).
  set (lk := (lt - 1) * nv + (lz - 1)) in *.
  assert (H0 : 0 <= lk) by (subst lk; nia).
  unfold grid_point. rewrite !set_item_ok by lia. cbn [bind].
  do 2 eexists. split; [reflexivity|].
  unfold grid_filled. rewrite !length_list_set. repeat split; auto.
  - rewrite nth_list_set by lia.
    destruct (Nat.eqb_spec k (Z.to_nat lk)) as [->|Hne].
    + rewrite Z2Nat.id by lia. do 2 f_equal.
      apply Z.div_unique with (r := lz - 1); subst lk; lia.
    + apply Hval. lia.
  - rewrite nth_list_set by lia.
    destruct (Nat.eqb_spec k (Z.to_nat lk)) as [->|Hne].
    + rewrite Z2Nat.id by lia. do 2 f_equal.
      apply Z.mod_unique with (q := lt - 1); subst lk; lia.
    + apply Hval. lia.
Qed.

Lemma grid_row_ok (dth dzt : R) (nv nu : Z) (N : nat) lt th zt :
  0 < nv -> 1 <= lt <= nu -> Z.of_nat N = nu * nv ->
  grid_filled dth dzt nv N ((lt - 1) * nv) th zt ->
  exists th' zt',
    foldM (grid_point dth dzt lt) (py_range 1 (nv + 1)) (th, zt, (lt - 1) * nv)
      = Ok (th', zt', lt * nv) /\
    grid_filled dth dzt nv N (lt * nv) th' zt'.
Proof.
  intros Hnv Hlt HN H0.
  destruct (@foldM_range_inv _ (grid_point dth dzt lt)
    (fun lz g => snd g = (lt - 1) * nv + (lz - 1) /\
                 grid_filled dth dzt nv N (snd g) (fst (fst g)) (snd (fst g)))
    1 (nv + 1)) with (st := (th, zt, (lt - 1) * nv))
    as ([[th' zt'] lk] & E & Hlk & HG).
  - lia.
  - intros lz [[th0 zt0] lk0] Hlz [Hlk0 HG0]. simpl in Hlk0, HG0. subst lk0.
    destruct (@grid_point_ok dth dzt nv N lt lz th0 zt0) as (th1 & zt1 & E1 & HG1);
      try lia; auto.
    { nia. }
    exists (th1, zt1, (lt - 1) * nv + (lz - 1) + 1). split; [exact E1|].
    simpl. split; [lia|exact HG1].
  - simpl. split; [lia|]. exact H0.
  - simpl in Hlk, HG. exists th', zt'. split.
    + rewrite E. do 2 f_equal. lia.
    + replace (lt * nv) with lk by lia. exact HG.
Qed.

(** The two grid loops fill all [nunv = nu3_b * nv_boz] points: the point
    [k] has [theta = (k // nv_boz) * dth] and [zeta = (k % nv_boz) * dzt]. *)
Lemma make_grid_spec junk1 nfp nu nv :
  nfp <> 0 -> 2 <= nu -> 1 <= nv ->
  exists th zt,
    make_grid junk1 nfp nu nv (nu * nv) = Ok (th, zt) /\
    grid_filled (2 * PI / IZR (2 * (nu - 1))) (2 * PI / IZR (nv * nfp)) nv
      (Z.to_nat (nu * nv)) (nu * nv) th zt.
Proof.
  intros Hnfp Hnu Hnv. unfold make_grid.
  replace (nv * nfp =? 0) with false by (symmetry; apply Z.eqb_neq; nia).
  replace (2 * (nu - 1) =? 0) with false by (symmetry; apply Z.eqb_neq; lia).
  rewrite !np_empty1_ok by nia. cbn [bind].
  set (dth := (2 * PI / IZR (2 * (nu - 1)))%R).
  set (dzt := (2 * PI / IZR (nv * nfp))%R).
  set (N := Z.to_nat (nu * nv)).
  destruct (@foldM_range_inv _
    (fun g lt => foldM (grid_point dth dzt lt) (py_range 1 (nv + 1)) g)
    (fun lt g => snd g = (lt - 1) * nv /\
                 grid_filled dth dzt nv N (snd g) (fst (fst g)) (snd (fst g)))
    1 (nu + 1)) with (st := (map junk1 (seq 0 N), map junk1 (seq 0 N), 0))
    as ([[th zt] lk] & E & Hlk & HG).
  - lia.
  - intros lt [[th0 zt0] lk0] Hlt [Hlk0 HG0]. simpl in Hlk0, HG0. subst lk0.
    destruct (@grid_row_ok dth dzt nv nu N lt th0 zt0) as (th1 & zt1 & E1 & HG1);
      try lia; auto.
    exists (th1, zt1, lt * nv). split; [exact E1|]. simpl. split; [lia|exact HG1].
  - simpl. split; [lia|]. unfold grid_filled.
    rewrite !length_map, !length_seq. repeat split; auto; lia.
  - rewrite E. cbn [bind]. exists th, zt. split; [reflexivity|].
    simpl in Hlk, HG. replace (nu * nv) with lk by lia. exact HG.
Qed.

(** ** The first part of the constructor *)

Lemma mnboz_of_pos mboz nboz : 1 <= mboz -> 0 <= nboz -> 1 <= mnboz_of mboz nboz.
Proof. intros. unfold mnboz_of. nia. Qed.

(** Under the conditions a VMEC equilibrium and a Boozer resolution
    normally satisfy, the first part of the constructor returns, and this is
    the object it builds. *)
Lemma setup_run junk junk1 junkZ d nboz mboz :
  1 <= mboz -> 0 <= nboz -> vd_nfp d <> 0 -> 0 <= vd_ns d -> vd_ns d <> 1 ->
  2 <= vd_mpol d -> 0 <= vd_ntor d -> 1 <= vd_mnyq d -> 0 <= vd_nnyq d ->
  exists norm th zt cosm sinm cosn sinn cosm' sinm' cosn' sinn',
    let N := Z.to_nat (n_nu2_b norm * n_nv_boz norm) in
    make_scl junk1 mboz nboz (mnboz_of mboz nboz) = Ok norm /\
    n_nu2_b norm = 2 * mboz + 2 /\ n_nv_boz norm = 2 * (2 * nboz + 1) /\
    grid_filled (2 * PI / IZR (2 * (n_nu2_b norm - 1)))
      (2 * PI / IZR (n_nv_boz norm * vd_nfp d)) (n_nv_boz norm) N
      (n_nu2_b norm * n_nv_boz norm) th zt /\
    harmonics_upto (junk 0%nat) (junk 1%nat) (fun i => nth i th 0%R) N
      (Z.to_nat (vd_mpol d)) (Z.to_nat (vd_mpol d)) cosm sinm /\
    harmonics_upto (junk 2%nat) (junk 3%nat) (fun i => (nth i zt 0 * IZR (vd_nfp d))%R) N
      (Z.to_nat (vd_ntor d + 1))
      (if 1 <? vd_ntor d then Z.to_nat (vd_ntor d + 1) else 1%nat) cosn sinn /\
    harmonics_upto (junk 4%nat) (junk 5%nat) (fun i => nth i th 0%R) N
      (Z.to_nat (vd_mnyq d + 1)) (Z.to_nat (vd_mnyq d + 1)) cosm' sinm' /\
    harmonics_upto (junk 6%nat) (junk 7%nat) (fun i => (nth i zt 0 * IZR (vd_nfp d))%R) N
      (Z.to_nat (vd_nnyq d + 1))
      (if 1 <? vd_nnyq d then Z.to_nat (vd_nnyq d + 1) else 1%nat) cosn' sinn' /\
    setup junk junk1 junkZ d nboz mboz =
    Ok ({| nboz := nboz; mboz := mboz; mnboz := mnboz_of mboz nboz; nfp := vd_nfp d;
           mpol := vd_mpol d; ntor := vd_ntor d;
           xmnyq := vd_xmnyq d; xnnyq := vd_xnnyq d;
           mnyq := vd_mnyq d; nnyq := vd_nnyq d; nmnnyq := vd_nmnnyq d;
           ns := vd_ns d; lmns := vd_lmns d; bmodmnc := vd_bmnc d;
           xm := vd_xm d; xn := vd_xn d; mnmax := vd_nmn d;
           hiota := vd_hiota d;
           xnb := map (fun p => {| val := snd p; writes := 1 |})
                    (boozer_modes mboz nboz (vd_nfp d));
           xmb := map (fun p => {| val := fst p; writes := 1 |})
                    (boozer_modes mboz nboz (vd_nfp d));
           nu_boz := n_nu_boz norm; nv_boz := n_nv_boz norm;
           nu2_b := n_nu2_b norm; nv2_b := n_nv2_b norm;
           fac := n_fac norm; scl := n_scl norm;
           ntorsum := (nboz + 1, 3 * nboz + 2); ohs := vd_ns d - 1;
           hs := (1 / IZR (vd_ns d - 1))%R; sfull := map sqrt (vd_s d);
           nu3_b := n_nu2_b norm; nunv := n_nu2_b norm * n_nv_boz norm;
           thgrid := th; ztgrid := zt;
           cosm_b := np_copy cosm; sinm_b := np_copy sinm;
           cosn_b := np_copy cosn; sinn_b := np_copy sinn;
           cosm_nyq := np_copy cosm'; sinm_nyq := np_copy sinm';
           cosn_nyq := np_copy cosn'; sinn_nyq := np_copy sinn' |},
        {| rmnc := vd_rmnc d; zmns := vd_zmns d;
           bmncb := zeros2 (mnboz_of mboz nboz) (vd_ns d);
           rmncb := zeros2 (mnboz_of mboz nboz) (vd_ns d);
           zmnsb := zeros2 (mnboz_of mboz nboz) (vd_ns d);
           pmnsb := zeros2 (mnboz_of mboz nboz) (vd_ns d);
           gmncb := zeros2 (mnboz_of mboz nboz) (vd_ns d);
           cosmm := SNone; cosnn := SNone; sinmm := SNone; sinnn := SNone;
           u_b := []; v_b := [] |}).
Proof.
  intros Hm Hn Hnfp Hns Hns1 Hmpol Hntor Hmnyq Hnnyq.
  pose proof (mnboz_of_pos Hm Hn) as Hmn.
  destruct (@make_scl_spec junk1 mboz nboz (mnboz_of mboz nboz) Hmn)
    as (norm & Enorm & Hnu2 & Hnv & _).
  destruct (@make_grid_spec junk1 (vd_nfp d) (n_nu2_b norm) (n_nv_boz norm))
    as (th & zt & Egrid & HG); try lia.
  set (N := Z.to_nat (n_nu2_b norm * n_nv_boz norm)) in *.
  assert (HN : n_nu2_b norm * n_nv_boz norm = Z.of_nat N) by (subst N; nia).
  pose proof HG as (Lth & Lzt & _).
  destruct (@trigfunc_spec junk (vd_nfp d) th zt (vd_mpol d - 1) (vd_ntor d) N)
    as (cosm & sinm & cosn & sinn & E1 & Hpol & Htor); try lia.
  destruct (@trigfunc_spec (fun b => junk (4 + b)%nat) (vd_nfp d) th zt (vd_mnyq d)
              (vd_nnyq d) N)
    as (cosm' & sinm' & cosn' & sinn' & E2 & Hpol' & Htor'); try lia.
  exists norm, th, zt, cosm, sinm, cosn, sinn, cosm', sinm', cosn', sinn'.
  cbv zeta. split; [exact Enorm|]. split; [exact Hnu2|]. split; [exact Hnv|].
  split; [exact HG|].
  split; [replace (vd_mpol d) with (vd_mpol d - 1 + 1) by lia; exact Hpol|].
  split; [exact Htor|]. split; [exact Hpol'|]. split; [exact Htor'|].
  unfold setup.
  rewrite !np_alloc2_ok by lia. cbn [bind].
  rewrite init_xmnb_spec by lia. cbn [bind].
  rewrite Enorm. cbn [bind].
  replace (vd_ns d - 1 =? 0) with false by (symmetry; apply Z.eqb_neq; lia).
  rewrite Egrid. cbn [bind].
  rewrite HN, E1. cbn [bind]. rewrite E2. cbn [bind].
  reflexivity.
Qed.

(** ** What a constructor call that returns has required *)

Lemma np_alloc2_inv {A} (x : nat -> nat -> A) r c t :
  np_alloc2 x r c = Ok t ->
  0 <= r /\ 0 <= c /\ nrows t = Z.to_nat r /\ ncols t = Z.to_nat c.
Proof.
  unfold np_alloc2. destruct (r <? 0) eqn:Er; [discriminate|].
  destruct (c <? 0) eqn:Ec; [discriminate|]. simpl.
  apply Z.ltb_ge in Er. apply Z.ltb_ge in Ec. intros [= <-]. simpl. auto.
Qed.

Lemma np_empty1_inv {A} (x : nat -> A) n v :
  np_empty1 x n = Ok v -> 0 <= n /\ length v = Z.to_nat n.
Proof.
  unfold np_empty1. destruct (n <? 0) eqn:E; [discriminate|].
  apply Z.ltb_ge in E. intros [= <-]. now rewrite length_map, length_seq.
Qed.

Lemma np_index_in (len : nat) (i : Z) (k : nat) :
  np_index len i = Ok k -> - Z.of_nat len <= i < Z.of_nat len.
Proof.
  unfold np_index.
  destruct ((0 <=? i) && (i <? Z.of_nat len)) eqn:Q1.
  - apply andb_prop in Q1 as [H1 H2]. apply Z.leb_le in H1. apply Z.ltb_lt in H2. lia.
  - destruct ((- Z.of_nat len <=? i) && (i <? 0)) eqn:Q2; [|discriminate].
    apply andb_prop in Q2 as [H1 H2]. apply Z.leb_le in H1. apply Z.ltb_lt in H2. lia.
Qed.

Lemma set_col_index t j v t' :
  set_col t j v = Ok t' -> - Z.of_nat (ncols t) <= j < Z.of_nat (ncols t).
Proof.
  unfold set_col. intros H. apply bind_ok in H as (c & Hc & _).
  now apply np_index_in in Hc.
Qed.

(** A call of [trigfunc] that returns was given bounds with a first
    poloidal harmonic and a zeroth toroidal one. *)
Lemma trigfunc_inv junk nfp th zt mpol ntor nznt r :
  trigfunc junk nfp th zt mpol ntor nznt = Ok r ->
  1 <= mpol /\ 0 <= ntor /\ 0 <= nznt.
Proof.
  unfold trigfunc. intros H.
  bind_inv H cosm0 Ea. bind_inv H sinm0 Eb. bind_inv H cosn0 Ec. bind_inv H sinn0 Ed.
  bind_inv H cosm1 Q1. bind_inv H sinm1 Q2. bind_inv H cosm2 Q3.
  bind_inv H sinm2 Q4. bind_inv H cs Q5. destruct cs as [cosm3 sinm3].
  bind_inv H cosn1 Q6.
  apply np_alloc2_inv in Ea as (Hr & _ & _ & Ca).
  apply np_alloc2_inv in Ec as (_ & _ & _ & Cc).
  apply set_col_ncols in Q1 as C1. apply set_col_index in Q3.
  apply set_col_index in Q6. lia.
Qed.

Lemma make_scl_inv junk mboz nboz mnboz norm :
  make_scl junk mboz nboz mnboz = Ok norm -> 1 <= mnboz.
Proof.
  unfold make_scl.
  destruct ((2 * (2 * mboz + 1) / 2 + 1 - 1) * (2 * (2 * nboz + 1)) =? 0);
    [discriminate|].
  intros H. bind_inv H scl0 Q0. bind_inv H scl1 Q1.
  apply np_empty1_inv in Q0 as (H0 & L0).
  unfold store_item in Q1. bind_inv Q1 k Ek.
  apply np_index_in in Ek. rewrite length_store_tail in Ek. lia.
Qed.

Lemma make_grid_inv junk1 nfp nu nv nunv r :
  make_grid junk1 nfp nu nv nunv = Ok r -> nv * nfp <> 0 /\ 0 <= nunv.
Proof.
  unfold make_grid.
  destruct (Z.eqb_spec (nv * nfp) 0); [discriminate|].
  destruct (2 * (nu - 1) =? 0); [discriminate|].
  intros H. bind_inv H th E. apply np_empty1_inv in E as (H0 & _). auto.
Qed.

Lemma setup_inv junk junk1 junkZ d nboz mboz r :
  setup junk junk1 junkZ d nboz mboz = Ok r ->
  1 <= mnboz_of mboz nboz /\ 0 <= vd_ns d /\ vd_ns d <> 1 /\ vd_nfp d <> 0 /\
  2 <= vd_mpol d /\ 0 <= vd_ntor d /\ 1 <= vd_mnyq d /\ 0 <= vd_nnyq d.
Proof.
  unfold setup. intros H.
  bind_inv H t1 Q1. bind_inv H t2 Q2. bind_inv H t3 Q3. bind_inv H t4 Q4.
  bind_inv H t5 Q5. bind_inv H xs Q6. destruct xs as [xnb0 xmb0].
  bind_inv H norm Q7.
  destruct (Z.eqb_spec (vd_ns d - 1) 0) as [|Hns]; [discriminate|].
  bind_inv H g Q8. destruct g as [th zt].
  bind_inv H a Q9. destruct a as [[[cosm sinm] cosn] sinn].
  bind_inv H b Q10.
  apply np_alloc2_inv in Q1 as (_ & Hns0 & _).
  apply make_scl_inv in Q7. apply make_grid_inv in Q8 as (Hnf & _).
  apply trigfunc_inv in Q9 as (? & ? & _). apply trigfunc_inv in Q10 as (? & ? & _).
  repeat split; lia.
Qed.

Lemma make_scl_halves junk mboz nboz mnboz norm :
  make_scl junk mboz nboz mnboz = Ok norm ->
  n_nu_boz norm = 4 * mboz + 2 /\ n_nv2_b norm = 2 * nboz + 2.
Proof.
  unfold make_scl.
  remember (2 * (2 * mboz + 1)) as a eqn:Ha.
  remember (2 * (2 * nboz + 1)) as b eqn:Hb.
  destruct ((a / 2 + 1 - 1) * b =? 0); [discriminate|].
  intros H. bind_inv H scl0 Hs0. bind_inv H scl1 Hs1. injection H as <-.
  cbn [n_nu_boz n_nv2_b]. split; [lia|].
  replace b with ((2 * nboz + 1) * 2) by lia.
  rewrite Z.div_mul by lia. lia.
Qed.

Lemma np_copy_shape (t : tbl) r c :
  nrows t = r -> ncols t = c ->
  table_shape (np_copy t) (Z.of_nat r) (Z.of_nat c).
Proof. intros <- <-. split; reflexivity. Qed.

(** The first part of the constructor (everything before the surface
    loop) returns for every Boozer resolution [mboz >= 1], [nboz >= 0] and
    every equilibrium with at least two surfaces, a nonzero number of field
    periods, [mpol >= 2], [ntor >= 0] and Nyquist bounds [mnyq >= 1],
    [nnyq >= 0].  The object it builds has [mnboz] Boozer modes, a grid of
    [nunv = (2 mboz + 2) * (4 nboz + 2)] points, trigonometric tables of
    [nunv] rows with one column per harmonic, five output tables of shape
    [mnboz x ns] holding zeros that were never stored into, and it shares
    [rmnc] and [zmns] with the VMEC data. *)
Theorem setup_returns junk junk1 junkZ d nboz mboz :
  1 <= mboz -> 0 <= nboz -> vd_nfp d <> 0 -> 2 <= vd_ns d ->
  2 <= vd_mpol d -> 0 <= vd_ntor d -> 1 <= vd_mnyq d -> 0 <= vd_nnyq d ->
  exists self st,
    setup junk junk1 junkZ d nboz mboz = Ok (self, st) /\
    mnboz self = mnboz_of mboz nboz /\
    combine (vals (xmb self)) (vals (xnb self)) = boozer_modes mboz nboz (vd_nfp d) /\
    Z.of_nat (length (scl self)) = mnboz self /\
    nu2_b self = 2 * mboz + 2 /\ nv_boz self = 4 * nboz + 2 /\
    nv2_b self = 2 * nboz + 2 /\
    nunv self = (2 * mboz + 2) * (4 * nboz + 2) /\
    Z.of_nat (length (thgrid self)) = nunv self /\
    Z.of_nat (length (ztgrid self)) = nunv self /\
    table_shape (cosm_b self) (nunv self) (vd_mpol d) /\
    table_shape (sinm_b self) (nunv self) (vd_mpol d) /\
    table_shape (cosn_b self) (nunv self) (vd_ntor d + 1) /\
    table_shape (sinn_b self) (nunv self) (vd_ntor d + 1) /\
    table_shape (cosm_nyq self) (nunv self) (vd_mnyq d + 1) /\
    table_shape (sinm_nyq self) (nunv self) (vd_mnyq d + 1) /\
    table_shape (cosn_nyq self) (nunv self) (vd_nnyq d + 1) /\
    table_shape (sinn_nyq self) (nunv self) (vd_nnyq d + 1) /\
    bmncb st = zeros2 (mnboz self) (vd_ns d) /\
    rmncb st = zeros2 (mnboz self) (vd_ns d) /\
    zmnsb st = zeros2 (mnboz self) (vd_ns d) /\
    pmnsb st = zeros2 (mnboz self) (vd_ns d) /\
    gmncb st = zeros2 (mnboz self) (vd_ns d) /\
    rmnc st = vd_rmnc d /\ zmns st = vd_zmns d.
Proof.
  intros Hm Hn Hnfp Hns Hmpol Hntor Hmnyq Hnnyq.
  destruct (@setup_run junk junk1 junkZ d nboz mboz)
    as (norm & th & zt & cosm & sinm & cosn & sinn & cosm' & sinm' & cosn' & sinn'
        & Enorm & Hnu2 & Hnv & HG & Hpol & Htor & Hpol' & Htor' & E); try lia.
  cbv zeta in HG, Hpol, Htor, Hpol', Htor'.
  destruct (@make_scl_halves _ _ _ _ _ Enorm) as (_ & Hnv2).
  destruct (@make_scl_spec junk1 mboz nboz (mnboz_of mboz nboz)
              (mnboz_of_pos Hm Hn)) as (norm0 & Enorm0 & _ & _ & _ & Hlen & _).
  rewrite Enorm in Enorm0. injection Enorm0 as <-.
  destruct HG as (Lth & Lzt & _).
  destruct Hpol as (R1 & R2 & C1 & C2 & _). destruct Htor as (R3 & R4 & C3 & C4 & _).
  destruct Hpol' as (R5 & R6 & C5 & C6 & _). destruct Htor' as (R7 & R8 & C7 & C8 & _).
  set (N := Z.to_nat (n_nu2_b norm * n_nv_boz norm)) in *.
  assert (HN : Z.of_nat N = n_nu2_b norm * n_nv_boz norm) by (subst N; nia).
  eexists _, _. split; [exact E|]. cbn [mnboz xmb xnb scl nu2_b nv_boz nv2_b nunv
    thgrid ztgrid cosm_b sinm_b cosn_b sinn_b cosm_nyq sinm_nyq cosn_nyq sinn_nyq
    bmncb rmncb zmnsb pmnsb gmncb rmnc zmns].
  split; [reflexivity|].
  split.
  { unfold vals. rewrite !map_map. cbn [val]. apply combine_fst_snd. }
  split; [exact Hlen|].
  split; [exact Hnu2|]. split; [lia|]. split; [exact Hnv2|].
  split; [rewrite Hnu2, Hnv; lia|].
  split; [lia|]. split; [lia|].
  rewrite <- HN.
  replace (vd_mpol d) with (Z.of_nat (Z.to_nat (vd_mpol d))) at 1 2 by lia.
  replace (vd_ntor d + 1) with (Z.of_nat (Z.to_nat (vd_ntor d + 1))) by lia.
  replace (vd_mnyq d + 1) with (Z.of_nat (Z.to_nat (vd_mnyq d + 1))) by lia.
  replace (vd_nnyq d + 1) with (Z.of_nat (Z.to_nat (vd_nnyq d + 1))) by lia.
  repeat (split; [apply np_copy_shape; assumption|]).
  repeat split; reflexivity.
Qed.

(** The smallest setting the theorem covers. *)
Lemma setup_returns_witness :
  exists self st,
    setup (fun _ _ _ => 0%R) (fun _ => 0%R) (fun _ => 0) sample_data 0 1 = Ok (self, st) /\
    mnboz self = mnboz_of 1 0 /\
    combine (vals (xmb self)) (vals (xnb self)) = boozer_modes 1 0 (vd_nfp sample_data) /\
    Z.of_nat (length (scl self)) = mnboz self /\
    nu2_b self = 2 * 1 + 2 /\ nv_boz self = 4 * 0 + 2 /\
    nv2_b self = 2 * 0 + 2 /\
    nunv self = (2 * 1 + 2) * (4 * 0 + 2) /\
    Z.of_nat (length (thgrid self)) = nunv self /\
    Z.of_nat (length (ztgrid self)) = nunv self /\
    table_shape (cosm_b self) (nunv self) (vd_mpol sample_data) /\
    table_shape (sinm_b self) (nunv self) (vd_mpol sample_data) /\
    table_shape (cosn_b self) (nunv self) (vd_ntor sample_data + 1) /\
    table_shape (sinn_b self) (nunv self) (vd_ntor sample_data + 1) /\
    table_shape (cosm_nyq self) (nunv self) (vd_mnyq sample_data + 1) /\
    table_shape (sinm_nyq self) (nunv self) (vd_mnyq sample_data + 1) /\
    table_shape (cosn_nyq self) (nunv self) (vd_nnyq sample_data + 1) /\
    table_shape (sinn_nyq self) (nunv self) (vd_nnyq sample_data + 1) /\
    bmncb st = zeros2 (mnboz self) (vd_ns sample_data) /\
    rmncb st = zeros2 (mnboz self) (vd_ns sample_data) /\
    zmnsb st = zeros2 (mnboz self) (vd_ns sample_data) /\
    pmnsb st = zeros2 (mnboz self) (vd_ns sample_data) /\
    gmncb st = zeros2 (mnboz self) (vd_ns sample_data) /\
    rmnc st = vd_rmnc sample_data /\ zmns st = vd_zmns sample_data.
Proof.
  apply (@setup_returns (fun _ _ _ => 0%R) (fun _ => 0%R) (fun _ => 0) sample_data 0 1);
    simpl; lia.
Defined.

(** A constructor call that gets past its first part was given an
    equilibrium with [mpol >= 2] (the native tables are built for
    [mpol - 1], and [trigfunc] needs a first harmonic), [ntor >= 0], Nyquist
    bounds [mnyq >= 1] and [nnyq >= 0], a number of surfaces that is not
    negative, and a resolution with at least one Boozer mode ([scl[0]] is
    stored).  Anything else raises. *)
Theorem setup_requires junk junk1 junkZ d nboz mboz r :
  setup junk junk1 junkZ d nboz mboz = Ok r ->
  2 <= vd_mpol d /\ 0 <= vd_ntor d /\ 1 <= vd_mnyq d /\ 0 <= vd_nnyq d /\
  0 <= vd_ns d /\ 1 <= mnboz_of mboz nboz.
Proof.
  intros H. apply setup_inv in H. lia.
Qed.

(** ** The object the constructor builds *)

Lemma setup_facts junk junk1 junkZ d nboz mboz self st :
  setup junk junk1 junkZ d nboz mboz = Ok (self, st) -> 1 <= mboz -> 0 <= nboz ->
  exists norm th zt cosm sinm cosn sinn cosm' sinm' cosn' sinn',
    let N := Z.to_nat (n_nu2_b norm * n_nv_boz norm) in
    make_scl junk1 mboz nboz (mnboz_of mboz nboz) = Ok norm /\
    n_nu2_b norm = 2 * mboz + 2 /\ n_nv_boz norm = 2 * (2 * nboz + 1) /\
    grid_filled (2 * PI / IZR (2 * (n_nu2_b norm - 1)))
      (2 * PI / IZR (n_nv_boz norm * vd_nfp d)) (n_nv_boz norm) N
      (n_nu2_b norm * n_nv_boz norm) th zt /\
    harmonics_upto (junk 0%nat) (junk 1%nat) (fun i => nth i th 0%R) N
      (Z.to_nat (vd_mpol d)) (Z.to_nat (vd_mpol d)) cosm sinm /\
    harmonics_upto (junk 2%nat) (junk 3%nat) (fun i => (nth i zt 0 * IZR (vd_nfp d))%R) N
      (Z.to_nat (vd_ntor d + 1))
      (if 1 <? vd_ntor d then Z.to_nat (vd_ntor d + 1) else 1%nat) cosn sinn /\
    harmonics_upto (junk 4%nat) (junk 5%nat) (fun i => nth i th 0%R) N
      (Z.to_nat (vd_mnyq d + 1)) (Z.to_nat (vd_mnyq d + 1)) cosm' sinm' /\
    harmonics_upto (junk 6%nat) (junk 7%nat) (fun i => (nth i zt 0 * IZR (vd_nfp d))%R) N
      (Z.to_nat (vd_nnyq d + 1))
      (if 1 <? vd_nnyq d then Z.to_nat (vd_nnyq d + 1) else 1%nat) cosn' sinn' /\
    (self, st) =
       ({| nboz := nboz; mboz := mboz; mnboz := mnboz_of mboz nboz; nfp := vd_nfp d;
           mpol := vd_mpol d; ntor := vd_ntor d;
           xmnyq := vd_xmnyq d; xnnyq := vd_xnnyq d;
           mnyq := vd_mnyq d; nnyq := vd_nnyq d; nmnnyq := vd_nmnnyq d;
           ns := vd_ns d; lmns := vd_lmns d; bmodmnc := vd_bmnc d;
           xm := vd_xm d; xn := vd_xn d; mnmax := vd_nmn d;
           hiota := vd_hiota d;
           xnb := map (fun p => {| val := snd p; writes := 1 |})
                    (boozer_modes mboz nboz (vd_nfp d));
           xmb := map (fun p => {| val := fst p; writes := 1 |})
                    (boozer_modes mboz nboz (vd_nfp d));
           nu_boz := n_nu_boz norm; nv_boz := n_nv_boz norm;
           nu2_b := n_nu2_b norm; nv2_b := n_nv2_b norm;
           fac := n_fac norm; scl := n_scl norm;
           ntorsum := (nboz + 1, 3 * nboz + 2); ohs := vd_ns d - 1;
           hs := (1 / IZR (vd_ns d - 1))%R; sfull := map sqrt (vd_s d);
           nu3_b := n_nu2_b norm; nunv := n_nu2_b norm * n_nv_boz norm;
           thgrid := th; ztgrid := zt;
           cosm_b := np_copy cosm; sinm_b := np_copy sinm;
           cosn_b := np_copy cosn; sinn_b := np_copy sinn;
           cosm_nyq := np_copy cosm'; sinm_nyq := np_copy sinm';
           cosn_nyq := np_copy cosn'; sinn_nyq := np_copy sinn' |},
        {| rmnc := vd_rmnc d; zmns := vd_zmns d;
           bmncb := zeros2 (mnboz_of mboz nboz) (vd_ns d);
           rmncb := zeros2 (mnboz_of mboz nboz) (vd_ns d);
           zmnsb := zeros2 (mnboz_of mboz nboz) (vd_ns d);
           pmnsb := zeros2 (mnboz_of mboz nboz) (vd_ns d);
           gmncb := zeros2 (mnboz_of mboz nboz) (vd_ns d);
           cosmm := SNone; cosnn := SNone; sinmm := SNone; sinnn := SNone;
           u_b := []; v_b := [] |}).
Proof.
  intros H Hm Hn. pose proof (@setup_inv _ _ _ _ _ _ _ H) as Hpre.
  destruct (@setup_run junk junk1 junkZ d nboz mboz)
    as (norm & th & zt & cosm & sinm & cosn & sinn & cosm' & sinm' & cosn' & sinn'
        & F1 & F2 & F3 & F4 & F5 & F6 & F7 & F8 & E); try lia.
  exists norm, th, zt, cosm, sinm, cosn, sinn, cosm', sinm', cosn', sinn'.
  cbv zeta. repeat (split; [assumption|]).
  rewrite E in H. now injection H as <- <-.
Qed.

Lemma grid_facts junk junk1 junkZ d nboz mboz self st :
  setup junk junk1 junkZ d nboz mboz = Ok (self, st) -> 1 <= mboz -> 0 <= nboz ->
  nunv self = (2 * mboz + 2) * (4 * nboz + 2) /\
  nu2_b self = 2 * mboz + 2 /\ nv_boz self = 4 * nboz + 2 /\
  nv2_b self = 2 * nboz + 2 /\ nfp self = vd_nfp d /\ vd_nfp d <> 0 /\
  Z.of_nat (length (thgrid self)) = nunv self /\
  Z.of_nat (length (ztgrid self)) = nunv self /\
  forall k : nat, Z.of_nat k < nunv self ->
    nth k (thgrid self) 0%R
      = (IZR (Z.of_nat k / nv_boz self) * (PI / IZR (2 * mboz + 1)))%R /\
    nth k (ztgrid self) 0%R
      = (IZR (Z.of_nat k mod nv_boz self)
         * (2 * PI / IZR (nv_boz self * nfp self)))%R.
Proof.
  intros H Hm Hn. pose proof (@setup_inv _ _ _ _ _ _ _ H) as Hpre.
  destruct (@setup_facts _ _ _ _ _ _ _ _ H Hm Hn)
    as (norm & th & zt & cosm & sinm & cosn & sinn & cosm' & sinm' & cosn' & sinn'
        & F1 & F2 & F3 & F4 & F5 & F6 & F7 & F8 & E).
  cbv zeta in F4. injection E as -> ->.
  cbn [nunv nu2_b nv_boz nv2_b nfp thgrid ztgrid].
  destruct (@make_scl_halves _ _ _ _ _ F1) as (_ & Hnv2).
  destruct F4 as (Lth & Lzt & HG).
  split; [rewrite F2, F3; lia|]. split; [exact F2|]. split; [lia|].
  split; [exact Hnv2|]. split; [reflexivity|]. split; [lia|].
  split; [nia|]. split; [nia|].
  intros k Hk. destruct (HG k Hk) as [-> ->]. split; [|reflexivity].
  f_equal. rewrite F2. replace (2 * (2 * mboz + 2 - 1)) with (2 * (2 * mboz + 1)) by lia.
  rewrite mult_IZR.
  assert (IZR (2 * mboz + 1) <> 0%R) by (apply not_0_IZR; lia).
  simpl (IZR 2). field. assumption.
Qed.

Lemma corner_facts junk junk1 junkZ d nboz mboz self st :
  setup junk junk1 junkZ d nboz mboz = Ok (self, st) -> 1 <= mboz -> 0 <= nboz ->
  nth (Z.to_nat (nv_boz self * (nu2_b self - 1))) (thgrid self) 0%R = PI /\
  nth (Z.to_nat (nv2_b self - 1)) (ztgrid self) 0%R = (PI / IZR (nfp self))%R.
Proof.
  intros H Hm Hn.
  destruct (@grid_facts _ _ _ _ _ _ _ _ H Hm Hn) as (Hnunv & Hnu2 & Hnv & Hnv2 & Hnfp & Hnz & _ & _ & HG).
  split.
  - destruct (HG (Z.to_nat (nv_boz self * (nu2_b self - 1)))) as [-> _].
    { rewrite Z2Nat.id by nia. nia. }
    rewrite Z2Nat.id by nia.
    rewrite Z.mul_comm, Z.div_mul by lia. rewrite Hnu2.
    replace (2 * mboz + 2 - 1) with (2 * mboz + 1) by lia.
    assert (IZR (2 * mboz + 1) <> 0%R) by (apply not_0_IZR; lia).
    field. assumption.
  - destruct (HG (Z.to_nat (nv2_b self - 1))) as [_ ->].
    { rewrite Z2Nat.id by nia. nia. }
    rewrite Z2Nat.id by nia. rewrite Z.mod_small by lia.
    rewrite Hnv2, Hnv, Hnfp.
    replace (2 * nboz + 2 - 1) with (2 * nboz + 1) by lia.
    replace ((4 * nboz + 2) * vd_nfp d) with (2 * ((2 * nboz + 1) * vd_nfp d)) by lia.
    rewrite !mult_IZR.
    assert (IZR (2 * nboz + 1) <> 0%R) by (apply not_0_IZR; lia).
    assert (IZR (vd_nfp d) <> 0%R) by (apply not_0_IZR; lia).
    simpl (IZR 2). field. split; assumption.
Qed.

(** The grid as the code computes it: [(lt - 1) * dth] and [(lz - 1) * dzt]
    with [dth = 2 pi / (2 (nu3_b - 1))] and [dzt = 2 pi / (nv_boz nfp)]. *)
Lemma grid_code_facts junk junk1 junkZ d nboz mboz self st :
  setup junk junk1 junkZ d nboz mboz = Ok (self, st) -> 1 <= mboz -> 0 <= nboz ->
  nu3_b self = nu2_b self /\
  forall k : nat, Z.of_nat k < nunv self ->
    nth k (thgrid self) 0%R
      = (IZR (Z.of_nat k / nv_boz self) * (2 * PI / IZR (2 * (nu3_b self - 1))))%R /\
    nth k (ztgrid self) 0%R
      = (IZR (Z.of_nat k mod nv_boz self)
         * (2 * PI / IZR (nv_boz self * nfp self)))%R.
Proof.
  intros H Hm Hn.
  destruct (@setup_facts _ _ _ _ _ _ _ _ H Hm Hn)
    as (norm & th & zt & cosm & sinm & cosn & sinn & cosm' & sinm' & cosn' & sinn'
        & F1 & F2 & F3 & F4 & F5 & F6 & F7 & F8 & E).
  cbv zeta in F4. injection E as -> ->.
  cbn [nunv nu2_b nu3_b nv_boz nv2_b nfp thgrid ztgrid].
  destruct F4 as (_ & _ & HG). split; [reflexivity|]. exact HG.
Qed.

(** The two grid entries the constructor reads back as [piu] and [piv], as
    the code computed them. *)
Lemma corner_code_facts junk junk1 junkZ d nboz mboz self st :
  setup junk junk1 junkZ d nboz mboz = Ok (self, st) -> 1 <= mboz -> 0 <= nboz ->
  nth (Z.to_nat (nv_boz self * (nu2_b self - 1))) (thgrid self) 0%R
    = (IZR (nu2_b self - 1) * (2 * PI / IZR (2 * (nu3_b self - 1))))%R /\
  nth (Z.to_nat (nv2_b self - 1)) (ztgrid self) 0%R
    = (IZR (nv2_b self - 1) * (2 * PI / IZR (nv_boz self * nfp self)))%R.
Proof.
  intros H Hm Hn.
  destruct (@grid_facts _ _ _ _ _ _ _ _ H Hm Hn)
    as (Hnunv & Hnu2 & Hnv & Hnv2 & Hnfp & Hnz & _ & _ & _).
  destruct (@grid_code_facts _ _ _ _ _ _ _ _ H Hm Hn) as (_ & HG).
  split.
  - destruct (HG (Z.to_nat (nv_boz self * (nu2_b self - 1)))) as [-> _].
    { rewrite Z2Nat.id by nia. nia. }
    rewrite Z2Nat.id by nia.
    rewrite Z.mul_comm, Z.div_mul by lia. reflexivity.
  - destruct (HG (Z.to_nat (nv2_b self - 1))) as [_ ->].
    { rewrite Z2Nat.id by nia. nia. }
    rewrite Z2Nat.id by nia. rewrite Z.mod_small by lia. reflexivity.
Qed.

(** The grid the constructor builds has [nu2_b = nu3_b = 2 mboz + 2] rows in
    [theta] and [nv_boz = 4 nboz + 2] columns in [zeta], and every one of
    the [nunv = nu2_b * nv_boz] entries of [thgrid] and [ztgrid] is assigned:
    the point [k] holds, as the code computes them,
    [theta = (k // nv_boz) * dth] with [dth = 2 pi / (2 (nu3_b - 1))] and
    [zeta = (k % nv_boz) * dzt] with [dzt = 2 pi / (nv_boz * nfp)].  The two
    entries the constructor later reads back as [piu] and [piv] are
    [thgrid[nv_boz * (nu2_b - 1)] = (nu2_b - 1) * dth] and
    [ztgrid[nv2_b - 1] = (nv2_b - 1) * dzt].  Over exact real arithmetic
    (last two conjuncts) these two products are [pi] and [pi / nfp]; in
    binary64 they are those values up to rounding only. *)
Theorem grid_angles junk junk1 junkZ d nboz mboz self st :
  setup junk junk1 junkZ d nboz mboz = Ok (self, st) -> 1 <= mboz -> 0 <= nboz ->
  let dth := (2 * PI / IZR (2 * (nu3_b self - 1)))%R in
  let dzt := (2 * PI / IZR (nv_boz self * nfp self))%R in
  nunv self = (2 * mboz + 2) * (4 * nboz + 2) /\
  nu2_b self = 2 * mboz + 2 /\ nu3_b self = 2 * mboz + 2 /\
  nv_boz self = 4 * nboz + 2 /\ nv2_b self = 2 * nboz + 2 /\
  Z.of_nat (length (thgrid self)) = nunv self /\
  Z.of_nat (length (ztgrid self)) = nunv self /\
  (forall k : nat, Z.of_nat k < nunv self ->
     nth k (thgrid self) 0%R = (IZR (Z.of_nat k / nv_boz self) * dth)%R /\
     nth k (ztgrid self) 0%R = (IZR (Z.of_nat k mod nv_boz self) * dzt)%R) /\
  item (thgrid self) (nv_boz self * (nu2_b self - 1)) 0%R
    = Ok (IZR (nu2_b self - 1) * dth)%R /\
  item (ztgrid self) (nv2_b self - 1) 0%R = Ok (IZR (nv2_b self - 1) * dzt)%R /\
  (IZR (nu2_b self - 1) * dth)%R = PI /\
  (IZR (nv2_b self - 1) * dzt)%R = (PI / IZR (nfp self))%R.
Proof.
  intros H Hm Hn dth dzt.
  destruct (@grid_facts _ _ _ _ _ _ _ _ H Hm Hn)
    as (Hnunv & Hnu2 & Hnv & Hnv2 & Hnfp & Hnz & Lth & Lzt & _).
  destruct (@grid_code_facts _ _ _ _ _ _ _ _ H Hm Hn) as (Hnu3 & HG).
  destruct (@corner_code_facts _ _ _ _ _ _ _ _ H Hm Hn) as (Cpiu & Cpiv).
  destruct (@corner_facts _ _ _ _ _ _ _ _ H Hm Hn) as (Hpiu & Hpiv).
  split; [exact Hnunv|]. split; [exact Hnu2|]. split; [congruence|].
  split; [exact Hnv|]. split; [exact Hnv2|]. split; [exact Lth|]. split; [exact Lzt|].
  split; [exact HG|].
  split; [rewrite item_ok by nia; now rewrite Cpiu|].
  split; [rewrite item_ok by nia; now rewrite Cpiv|].
  subst dth dzt. split; [now rewrite <- Cpiu|now rewrite <- Cpiv].
Qed.

(** The four angle pairs the constructor stores in [u_b] and [v_b] are the
    Boozer angle corrections [p1], [q1] taken at the grid points
    [0], [i1 = nv_boz * (nu2_b - 1)], [i0 = nv2_b - 1] and [i0 + i1] (the
    corners [(theta, zeta) = (0, 0)], [(pi, 0)], [(0, pi / nfp)] and
    [(pi, pi / nfp)] of the half period), with [piu = thgrid[i1]] added to
    [u] at the two points of the last [theta] row and [piv = ztgrid[i0]]
    added to [v] at the two points of the middle [zeta] column; all four
    entries of both arrays are assigned.  [piu] and [piv] are the products
    [(2 mboz + 1) * dth] and [(2 nboz + 1) * dzt] the grid loop stored; over
    exact real arithmetic (last two conjuncts) they are [pi] and
    [pi / nfp]. *)
Theorem corner_angles_spec junk junk1 junkZ d nboz mboz self st (p1 q1 : list R) :
  setup junk junk1 junkZ d nboz mboz = Ok (self, st) -> 1 <= mboz -> 0 <= nboz ->
  Z.of_nat (length p1) = nunv self -> Z.of_nat (length q1) = nunv self ->
  let i0 := Z.to_nat (2 * nboz + 1) in
  let i1 := Z.to_nat ((4 * nboz + 2) * (2 * mboz + 1)) in
  let piu := (IZR (2 * mboz + 1) * (2 * PI / IZR (2 * (2 * mboz + 1))))%R in
  let piv := (IZR (2 * nboz + 1) * (2 * PI / IZR ((4 * nboz + 2) * nfp self)))%R in
  nth i1 (thgrid self) 0%R = piu /\ nth i0 (ztgrid self) 0%R = piv /\
  corner_angles junk1 self p1 q1 =
    Ok ([nth 0 p1 0; piu + nth i1 p1 0; nth i0 p1 0; piu + nth (i0 + i1) p1 0]%R,
        [nth 0 q1 0; nth i1 q1 0; piv + nth i0 q1 0; piv + nth (i0 + i1) q1 0]%R) /\
  piu = PI /\ piv = (PI / IZR (nfp self))%R.
Proof.
  intros H Hm Hn Lp Lq i0 i1 piu piv.
  destruct (@grid_facts _ _ _ _ _ _ _ _ H Hm Hn)
    as (Hnunv & Hnu2 & Hnv & Hnv2 & Hnfp & Hnz & Lth & Lzt & HG).
  destruct (@grid_code_facts _ _ _ _ _ _ _ _ H Hm Hn) as (Hnu3 & _).
  destruct (@corner_code_facts _ _ _ _ _ _ _ _ H Hm Hn) as (Cpiu & Cpiv).
  destruct (@corner_facts _ _ _ _ _ _ _ _ H Hm Hn) as (Hpiu & Hpiv).
  assert (Ei0 : Z.to_nat (nv2_b self - 1) = i0) by (subst i0; f_equal; lia).
  assert (Ei1 : Z.to_nat (nv_boz self * (nu2_b self - 1)) = i1)
    by (subst i1; rewrite Hnv, Hnu2; f_equal; lia).
  assert (Epiu : (IZR (nu2_b self - 1) * (2 * PI / IZR (2 * (nu3_b self - 1))))%R = piu).
  { subst piu. rewrite Hnu3, Hnu2.
    replace (2 * mboz + 2 - 1) with (2 * mboz + 1) by lia. reflexivity. }
  assert (Epiv : (IZR (nv2_b self - 1) * (2 * PI / IZR (nv_boz self * nfp self)))%R
                 = piv).
  { subst piv. rewrite Hnv2, Hnv.
    replace (2 * nboz + 2 - 1) with (2 * nboz + 1) by lia. reflexivity. }
  rewrite Ei1, Epiu in Cpiu. rewrite Ei0, Epiv in Cpiv.
  split; [exact Cpiu|]. split; [exact Cpiv|].
  split; [|split; [rewrite <- Cpiu, <- Ei1; exact Hpiu
                  |rewrite <- Cpiv, <- Ei0; exact Hpiv]].
  unfold corner_angles. rewrite !np_empty1_ok by lia. cbn [bind].
  change (Z.to_nat 4) with 4%nat. cbn [seq map].
  rewrite (item_ok (ztgrid self)) by nia. cbn [bind]. rewrite Ei0, Cpiv.
  rewrite !(item_ok p1), !(item_ok q1) by nia. cbn [bind].
  rewrite (item_ok (thgrid self)) by nia. cbn [bind]. rewrite Ei1, Cpiu.
  rewrite Hnv, Hnu2, Hnv2.
  replace (Z.to_nat (2 * nboz + 2 - 1)) with i0 by (subst i0; lia).
  replace (Z.to_nat ((4 * nboz + 2) * (2 * mboz + 2 - 1))) with i1 by (subst i1; f_equal; lia).
  replace (Z.to_nat (2 * nboz + 2 - 1 + (4 * nboz + 2) * (2 * mboz + 2 - 1)))
    with (i0 + i1)%nat by (subst i0 i1; nia).
  reflexivity.
Qed.

(** ** The basis functions read from the tables *)

Lemma col_at_copy (t : tbl) (j : Z) (k : nat) :
  0 <= j < Z.of_nat (ncols t) -> (k < nrows t)%nat ->
  col_at (np_copy t) j k = val (at_ t k (Z.to_nat j)).
Proof.
  intros Hj Hk. unfold col_at, get_col. cbn [ncols nrows np_copy].
  rewrite np_index_ok by lia. cbn [bind].
  rewrite nth_map_in with (da := 0%nat) by (rewrite length_seq; lia).
  rewrite seq_nth by lia. reflexivity.
Qed.

Lemma harmonics_col jc js ang (N M K : nat) c s (j : Z) (k : nat) :
  harmonics_upto jc js ang N M K c s -> (K <= M)%nat ->
  0 <= j < Z.of_nat K -> (k < N)%nat ->
  col_at (np_copy c) j k = cos (IZR j * ang k) /\
  col_at (np_copy s) j k = sin (IZR j * ang k).
Proof.
  intros (Rc & Rs & Cc & Cs & Hval & _) HK Hj Hk.
  rewrite !col_at_copy by lia.
  destruct (Hval k (Z.to_nat j)) as [-> ->]; try lia.
  cbn [val]. rewrite INR_IZR_INZ, Z2Nat.id by lia. auto.
Qed.

Lemma np_sign_mul_pos q nfp : 0 < nfp -> np_sign (q * nfp) = IZR (Z.sgn q).
Proof.
  intros H. unfold np_sign. f_equal. rewrite Z.sgn_mul.
  rewrite (Z.sgn_pos nfp) by lia. lia.
Qed.

(** Tables of harmonics give, for the mode [(m, q * nfp)], the cosine and
    the sine of the phase [m * theta - q * nfp * zeta]. *)
Lemma basis_phase jcm jsm jcn jsn (a b : nat -> R) nfp (N M Mn Kn : nat)
  cosm sinm cosn sinn (m q : Z) (k : nat) :
  harmonics_upto jcm jsm a N M M cosm sinm ->
  harmonics_upto jcn jsn (fun i => (b i * IZR nfp)%R) N Mn Kn cosn sinn ->
  (Kn <= Mn)%nat -> 0 <= m < Z.of_nat M -> 0 < nfp -> Z.abs q < Z.of_nat Kn ->
  (k < N)%nat ->
  let x := q * nfp in
  let n := Z.abs (Z.quot x nfp) in
  (col_at (np_copy cosm) m k * col_at (np_copy cosn) n k
   + col_at (np_copy sinm) m k * col_at (np_copy sinn) n k * np_sign x
   = cos (IZR m * a k - IZR x * b k))%R /\
  (col_at (np_copy sinm) m k * col_at (np_copy cosn) n k
   - col_at (np_copy cosm) m k * col_at (np_copy sinn) n k * np_sign x
   = sin (IZR m * a k - IZR x * b k))%R.
Proof.
  intros Hp Ht HK Hm Hnfp Hq Hk x n.
  assert (Hn : n = Z.abs q) by (subst n x; rewrite Z.quot_mul by lia; reflexivity).
  rewrite Hn.
  destruct (@harmonics_col jcm jsm a N M M cosm sinm m k Hp) as [-> ->]; try lia.
  destruct (@harmonics_col jcn jsn (fun i => (b i * IZR nfp)%R) N Mn Kn cosn sinn
              (Z.abs q) k Ht) as [-> ->]; try lia.
  subst x. rewrite np_sign_mul_pos by lia. rewrite mult_IZR.
  set (A := (IZR m * a k)%R). set (B := (b k * IZR nfp)%R).
  replace (IZR q * IZR nfp * b k)%R with (IZR q * B)%R by (subst B; ring).
  rewrite cos_minus, sin_minus.
  destruct (Z.lt_trichotomy q 0) as [Hneg|[->|Hpos]].
  - rewrite Z.abs_neq, Z.sgn_neg by lia. rewrite opp_IZR.
    replace (- IZR q * B)%R with (- (IZR q * B))%R by ring.
    rewrite cos_neg, sin_neg. simpl (IZR (-1)). split; ring.
  - simpl (Z.abs 0). simpl (Z.sgn 0). rewrite !Rmult_0_l, cos_0, sin_0. split; ring.
  - rewrite Z.abs_eq, Z.sgn_pos by lia. split; ring.
Qed.

Lemma native_basis_facts junk junk1 junkZ d nboz mboz self st (mn q : Z) (k : nat) :
  setup junk junk1 junkZ d nboz mboz = Ok (self, st) -> 1 <= mboz -> 0 <= nboz ->
  0 < vd_nfp d ->
  0 <= mode_number (xm self) mn < vd_mpol d ->
  mode_number (xn self) mn = q * nfp self ->
  Z.abs q <= vd_ntor d -> q = 0 \/ 1 < vd_ntor d ->
  Z.of_nat k < nunv self ->
  let phase := (IZR (mode_number (xm self) mn) * nth k (thgrid self) 0
                - IZR (mode_number (xn self) mn) * nth k (ztgrid self) 0)%R in
  tcos_at self mn k = cos phase /\ tsin_at self mn k = sin phase.
Proof.
  intros H Hm Hn Hnfp Hmm Hx Hq Hq1 Hk.
  destruct (@setup_facts _ _ _ _ _ _ _ _ H Hm Hn)
    as (norm & th & zt & cosm & sinm & cosn & sinn & cosm' & sinm' & cosn' & sinn'
        & F1 & F2 & F3 & F4 & F5 & F6 & F7 & F8 & E).
  cbv zeta in F4, F5, F6. injection E as -> ->.
  cbn [nunv xm xn nfp thgrid ztgrid] in *.
  unfold tcos_at, tsin_at. cbn [xm xn nfp cosm_b sinm_b cosn_b sinn_b].
  rewrite Hx. cbv zeta.
  apply (@basis_phase _ _ _ _ (fun i => nth i th 0%R) (fun i => nth i zt 0%R)
           (vd_nfp d) _ _ _ _ cosm sinm cosn sinn _ q k F5 F6); try lia.
  - destruct (1 <? vd_ntor d); lia.
  - destruct (Z.ltb_spec 1 (vd_ntor d)); lia.
Qed.

(** With the tables the constructor builds, the basis functions
    [vcoords_rz] uses for a native mode [(m, x)], with [0 <= m < mpol] and
    [x = q * nfp] a multiple of the number of field periods within the
    toroidal bound, are the cosine and the sine of the phase
    [m * theta - x * zeta] at every grid point, provided [ntor > 1] or the
    mode has [x = 0]. *)
Theorem native_basis_functions junk junk1 junkZ d nboz mboz self st (mn q : Z) (k : nat) :
  setup junk junk1 junkZ d nboz mboz = Ok (self, st) -> 1 <= mboz -> 0 <= nboz ->
  0 < vd_nfp d ->
  0 <= mode_number (xm self) mn < vd_mpol d ->
  mode_number (xn self) mn = q * nfp self ->
  Z.abs q <= vd_ntor d -> q = 0 \/ 1 < vd_ntor d ->
  Z.of_nat k < nunv self ->
  let phase := (IZR (mode_number (xm self) mn) * nth k (thgrid self) 0
                - IZR (mode_number (xn self) mn) * nth k (ztgrid self) 0)%R in
  tcos_at self mn k = cos phase /\ tsin_at self mn k = sin phase.
Proof. exact (@native_basis_facts junk junk1 junkZ d nboz mboz self st mn q k). Qed.

Lemma nyquist_basis_facts junk junk1 junkZ d nboz mboz self st (mn q : Z) (k : nat) :
  setup junk junk1 junkZ d nboz mboz = Ok (self, st) -> 1 <= mboz -> 0 <= nboz ->
  0 < vd_nfp d ->
  0 <= mode_number (xmnyq self) mn <= vd_mnyq d ->
  mode_number (xnnyq self) mn = q * nfp self ->
  Z.abs q <= vd_nnyq d -> q = 0 \/ 1 < vd_nnyq d ->
  Z.of_nat k < nunv self ->
  let phase := (IZR (mode_number (xmnyq self) mn) * nth k (thgrid self) 0
                - IZR (mode_number (xnnyq self) mn) * nth k (ztgrid self) 0)%R in
  tcos_nyq_at self mn k = cos phase /\ tsin_nyq_at self mn k = sin phase.
Proof.
  intros H Hm Hn Hnfp Hmm Hx Hq Hq1 Hk.
  destruct (@setup_facts _ _ _ _ _ _ _ _ H Hm Hn)
    as (norm & th & zt & cosm & sinm & cosn & sinn & cosm' & sinm' & cosn' & sinn'
        & F1 & F2 & F3 & F4 & F5 & F6 & F7 & F8 & E).
  cbv zeta in F4, F7, F8. injection E as -> ->.
  cbn [nunv xmnyq xnnyq nfp thgrid ztgrid] in *.
  unfold tcos_nyq_at, tsin_nyq_at.
  cbn [xmnyq xnnyq nfp cosm_nyq sinm_nyq cosn_nyq sinn_nyq].
  rewrite Hx. cbv zeta.
  apply (@basis_phase _ _ _ _ (fun i => nth i th 0%R) (fun i => nth i zt 0%R)
           (vd_nfp d) _ _ _ _ cosm' sinm' cosn' sinn' _ q k F7 F8); try lia.
  - destruct (1 <? vd_nnyq d); lia.
  - destruct (Z.ltb_spec 1 (vd_nnyq d)); lia.
Qed.

(** When the equilibrium has [ntor = 1], column 1 of the native toroidal
    tables [cosn_b] and [sinn_b] of the object holds what [np.empty] left in
    the two arrays [trigfunc] allocated for them: [trigfunc] never stored it,
    and the copy the constructor takes only hides that.  The basis functions
    of every native mode with [|xn| = nfp] are then computed from that
    memory. *)
Theorem native_first_harmonic_unset junk junk1 junkZ d nboz mboz self st :
  setup junk junk1 junkZ d nboz mboz = Ok (self, st) -> 1 <= mboz -> 0 <= nboz ->
  vd_ntor d = 1 ->
  forall k : nat,
    at_ (cosn_b self) k 1 = {| val := junk 2%nat k 1%nat; writes := 1 |} /\
    at_ (sinn_b self) k 1 = {| val := junk 3%nat k 1%nat; writes := 1 |} /\
    forall mn, Z.of_nat k < nunv self ->
      0 <= mode_number (xm self) mn < vd_mpol d ->
      Z.abs (Z.quot (mode_number (xn self) mn) (nfp self)) = 1 ->
      let m := IZR (mode_number (xm self) mn) in
      let sgn := np_sign (mode_number (xn self) mn) in
      let theta := nth k (thgrid self) 0%R in
      tcos_at self mn k
        = (cos (m * theta) * junk 2%nat k 1%nat
           + sin (m * theta) * junk 3%nat k 1%nat * sgn)%R /\
      tsin_at self mn k
        = (sin (m * theta) * junk 2%nat k 1%nat
           - cos (m * theta) * junk 3%nat k 1%nat * sgn)%R.
Proof.
  intros H Hm Hn Hntor k.
  destruct (@setup_facts _ _ _ _ _ _ _ _ H Hm Hn)
    as (norm & th & zt & cosm & sinm & cosn & sinn & cosm' & sinm' & cosn' & sinn'
        & F1 & F2 & F3 & F4 & F5 & F6 & F7 & F8 & E).
  cbv zeta in F4, F5, F6. injection E as -> ->.
  cbn [nunv xm xn nfp thgrid ztgrid cosn_b sinn_b] in *.
  rewrite Hntor in F6. change (1 <? 1) with false in F6.
  change (Z.to_nat (1 + 1)) with 2%nat in F6.
  pose proof F6 as (Rc & Rs & Cc & Cs & _ & Hun).
  destruct (Hun k 1%nat (Nat.le_refl _)) as [Jc Js].
  split; [cbn [np_copy at_]; now rewrite Jc|].
  split; [cbn [np_copy at_]; now rewrite Js|].
  intros mn Hk Hmm Hq.
  unfold tcos_at, tsin_at. cbn [xm xn nfp cosm_b sinm_b cosn_b sinn_b].
  rewrite Hq.
  assert (HN : (k < Z.to_nat (n_nu2_b norm * n_nv_boz norm))%nat) by lia.
  destruct (@harmonics_col _ _ (fun i => nth i th 0%R) _ _ _ cosm sinm
              (mode_number (vd_xm d) mn) k F5) as [-> ->]; try lia.
  rewrite !col_at_copy by lia. change (Z.to_nat 1) with 1%nat.
  rewrite Jc, Js. cbn [val]. split; reflexivity.
Qed.

(** ** transpmn *)

Lemma item_nat {A} (v : list A) (k : nat) (d : A) :
  (k < length v)%nat -> item v (Z.of_nat k) d = Ok (nth k v d).
Proof. intros H. rewrite item_ok by lia. now rewrite Nat2Z.id. Qed.

Lemma set_item_nat {A} (v : list A) (k : nat) (x : A) :
  (k < length v)%nat -> set_item v (Z.of_nat k) x = Ok (list_set v k (fun _ => x)).
Proof. intros H. rewrite set_item_ok by lia. now rewrite Nat2Z.id. Qed.

Lemma nth_list_set_ne {A} (l : list A) (k j : nat) (f : A -> A) (d : A) :
  j <> k -> nth j (list_set l k f) d = nth j l d.
Proof.
  revert k j. induction l as [|a l IH]; intros [|k] [|j] H; simpl; auto; try lia.
Qed.

(** The state of the loop of [transpmn] after the modes [0 .. i-1]. *)
Lemma transpmn_mode_ok self bt bz (jr : nat) pmns0 gpsi0 ipsi0 (i : nat) acc :
  (i < length (xmnyq self))%nat -> (i < length (xnnyq self))%nat ->
  (i < length bt)%nat -> (i < length bz)%nat -> (i < length pmns0)%nat ->
  (jr < length gpsi0)%nat -> (jr < length ipsi0)%nat ->
  transpmn_state (xmnyq self) (xnnyq self) bt bz jr pmns0 gpsi0 ipsi0 i acc ->
  exists acc',
    transpmn_mode self bt bz (Z.of_nat jr) acc (Z.of_nat i) = Ok acc' /\
    transpmn_state (xmnyq self) (xnnyq self) bt bz jr pmns0 gpsi0 ipsi0 (S i) acc'.
Proof.
  intros L1 L2 L3 L4 L5 L6 L7 (Lp & Lg & Li & Hdone & Hrest & Hoth & Hnone & Hlast).
  unfold transpmn_mode. rewrite !item_nat by assumption. cbn [bind].
  destruct (Z.eqb_spec (nth i (xmnyq self) 0) 0) as [Hm0|Hm0]; cbn [negb].
  2:{ rewrite set_item_nat by lia. cbn [bind]. eexists. split; [reflexivity|].
      unfold transpmn_state. cbn [p_pmns p_gpsi p_ipsi]. rewrite length_list_set.
      repeat split; auto.
      - intros k Hk. rewrite nth_list_set by lia.
        destruct (Nat.eqb_spec k i) as [->|Hne].
        + unfold pmn_value. destruct (Z.eqb_spec (nth i (xmnyq self) 0) 0); [contradiction|].
          reflexivity.
        + apply Hdone. lia.
      - intros k Hk. rewrite nth_list_set_ne by lia. apply Hrest. lia.
      - apply Hoth; assumption.
      - apply Hoth; assumption.
      - apply Hnone. intros k Hk. apply H. lia.
      - apply Hnone. intros k Hk. apply H. lia.
      - destruct (Nat.eq_dec k i) as [->|Hne]; [destruct H0; lia|].
        apply (Hlast k); auto; try lia. intros k' Hk'. apply H1. lia.
      - destruct (Nat.eq_dec k i) as [->|Hne]; [destruct H0; lia|].
        apply (Hlast k); auto; try lia. intros k' Hk'. apply H1. lia. }
  destruct (Z.eqb_spec (nth i (xnnyq self) 0) 0) as [Hn0|Hn0]; cbn [negb].
  2:{ rewrite set_item_nat by lia. cbn [bind]. eexists. split; [reflexivity|].
      unfold transpmn_state. cbn [p_pmns p_gpsi p_ipsi]. rewrite length_list_set.
      repeat split; auto.
      - intros k Hk. rewrite nth_list_set by lia.
        destruct (Nat.eqb_spec k i) as [->|Hne].
        + unfold pmn_value. rewrite Hm0. cbn [Z.eqb negb].
          destruct (Z.eqb_spec (nth i (xnnyq self) 0) 0); [contradiction|]. reflexivity.
        + apply Hdone. lia.
      - intros k Hk. rewrite nth_list_set_ne by lia. apply Hrest. lia.
      - apply Hoth; assumption.
      - apply Hoth; assumption.
      - apply Hnone. intros k Hk. apply H. lia.
      - apply Hnone. intros k Hk. apply H. lia.
      - destruct (Nat.eq_dec k i) as [->|Hne]; [destruct H0; lia|].
        apply (Hlast k); auto; try lia. intros k' Hk'. apply H1. lia.
      - destruct (Nat.eq_dec k i) as [->|Hne]; [destruct H0; lia|].
        apply (Hlast k); auto; try lia. intros k' Hk'. apply H1. lia. }
  rewrite !set_item_nat by lia. cbn [bind]. eexists. split; [reflexivity|].
  unfold transpmn_state. cbn [p_pmns p_gpsi p_ipsi]. rewrite !length_list_set.
  repeat split; auto.
  - intros k Hk. rewrite nth_list_set by lia.
    destruct (Nat.eqb_spec k i) as [->|Hne].
    + unfold pmn_value. rewrite Hm0, Hn0. reflexivity.
    + apply Hdone. lia.
  - intros k Hk. rewrite nth_list_set_ne by lia. apply Hrest. lia.
  - rewrite nth_list_set_ne by assumption. apply Hoth; assumption.
  - rewrite nth_list_set_ne by assumption. apply Hoth; assumption.
  - exfalso. apply (H i); [lia|]. split; assumption.
  - exfalso. apply (H i); [lia|]. split; assumption.
  - destruct (Nat.eq_dec k i) as [->|Hne].
    + rewrite nth_list_set by lia. now rewrite Nat.eqb_refl.
    + exfalso. apply (H1 i); [lia|]. split; assumption.
  - destruct (Nat.eq_dec k i) as [->|Hne].
    + rewrite nth_list_set by lia. now rewrite Nat.eqb_refl.
    + exfalso. apply (H1 i); [lia|]. split; assumption.
Qed.

Lemma transpmn_run self pmns bt bz gpsi ipsi (jr n : nat) :
  Z.of_nat n = nmnnyq self ->
  (n <= length (xmnyq self))%nat -> (n <= length (xnnyq self))%nat ->
  (n <= length bt)%nat -> (n <= length bz)%nat -> (n <= length pmns)%nat ->
  (jr < length gpsi)%nat -> (jr < length ipsi)%nat ->
  exists acc,
    transpmn self pmns bt bz gpsi ipsi (Z.of_nat jr) = Ok acc /\
    transpmn_state (xmnyq self) (xnnyq self) bt bz jr pmns gpsi ipsi n acc.
Proof.
  intros Hn L1 L2 L3 L4 L5 L6 L7. unfold transpmn. rewrite <- Hn.
  destruct (@foldM_range_inv _ (transpmn_mode self bt bz (Z.of_nat jr))
    (fun i acc => exists k, i = Z.of_nat k /\
       transpmn_state (xmnyq self) (xnnyq self) bt bz jr pmns gpsi ipsi k acc)
    0 (Z.of_nat n)) with (st := {| p_pmns := pmns; p_gpsi := gpsi; p_ipsi := ipsi |})
    as (acc & E & k & Hk & Hst).
  - lia.
  - intros i acc Hi (k & -> & Hst).
    destruct (@transpmn_mode_ok self bt bz jr pmns gpsi ipsi k acc) as (acc' & E' & Hst');
      try lia; auto.
    exists acc'. split; [exact E'|]. exists (S k). split; [lia|exact Hst'].
  - exists 0%nat. split; [reflexivity|]. unfold transpmn_state.
    cbn [p_pmns p_gpsi p_ipsi]. repeat split; auto; lia.
  - exists acc. split; [exact E|]. apply Nat2Z.inj in Hk. now subst k.
Qed.

(** [transpmn] fills [pmns] for every Nyquist mode: [bsubt / m] when
    [m <> 0], [- bsubz / n] when [m = 0] and [n <> 0], and 0 for a mode
    [(0, 0)]; each division is guarded by the test of its divisor, so no
    mode divides by zero.  Entries of [pmns] past [nmnnyq] keep what they
    held.  Of [gpsi] and [Ipsi] only the entry [jrad] can change: it receives
    the toroidal and poloidal amplitudes of the mode [(0, 0)], of the last
    such mode when there are several, and stays as it was when there is
    none. *)
Theorem transpmn_amplitudes self pmns bt bz gpsi ipsi (jr n : nat) :
  Z.of_nat n = nmnnyq self ->
  (n <= length (xmnyq self))%nat -> (n <= length (xnnyq self))%nat ->
  (n <= length bt)%nat -> (n <= length bz)%nat -> (n <= length pmns)%nat ->
  (jr < length gpsi)%nat -> (jr < length ipsi)%nat ->
  exists acc,
    transpmn self pmns bt bz gpsi ipsi (Z.of_nat jr) = Ok acc /\
    length (p_pmns acc) = length pmns /\
    length (p_gpsi acc) = length gpsi /\
    length (p_ipsi acc) = length ipsi /\
    (forall k, (k < n)%nat ->
       nth k (p_pmns acc) 0%R
         = pmn_value (nth k (xmnyq self) 0) (nth k (xnnyq self) 0)
             (nth k bt 0%R) (nth k bz 0%R)) /\
    (forall k, (n <= k)%nat -> nth k (p_pmns acc) 0%R = nth k pmns 0%R) /\
    (forall j, j <> jr ->
       nth j (p_gpsi acc) 0%R = nth j gpsi 0%R /\
       nth j (p_ipsi acc) 0%R = nth j ipsi 0%R) /\
    ((forall k, (k < n)%nat -> ~ zero_mode (xmnyq self) (xnnyq self) k) ->
       p_gpsi acc = gpsi /\ p_ipsi acc = ipsi) /\
    (forall k, (k < n)%nat -> zero_mode (xmnyq self) (xnnyq self) k ->
       (forall k', (k < k' < n)%nat -> ~ zero_mode (xmnyq self) (xnnyq self) k') ->
       nth jr (p_gpsi acc) 0%R = nth k bz 0%R /\
       nth jr (p_ipsi acc) 0%R = nth k bt 0%R).
Proof.
  intros Hn L1 L2 L3 L4 L5 L6 L7.
  destruct (@transpmn_run self pmns bt bz gpsi ipsi jr n) as (acc & E & Hst); auto.
  exists acc. split; [exact E|]. exact Hst.
Qed.

(** ** vcoords_w *)

Lemma amplitude_of_item v i x : item v i 0%R = Ok x -> amplitude v i = x.
Proof. unfold amplitude. now intros ->. Qed.

Lemma vcoords_w_mode_spec self jrad pmns acc mn acc' (n : nat) :
  nyq_rows self n -> w_fits n acc ->
  vcoords_w_mode self jrad pmns acc mn = Ok acc' ->
  w_fits n acc' /\
  forall k, (k < n)%nat ->
    nth k (a_w acc') 0%R = (nth k (a_w acc) 0 + w_term self pmns k mn)%R /\
    nth k (a_wt acc') 0%R = (nth k (a_wt acc) 0 + wt_term self pmns k mn)%R /\
    nth k (a_wz acc') 0%R = (nth k (a_wz acc) 0 + wz_term self pmns k mn)%R /\
    nth k (a_bmod acc') 0%R = (nth k (a_bmod acc) 0 + bmod_term self jrad k mn)%R.
Proof.
  intros (G1 & G2 & G3 & G4) (Fwt & Fwz & Fw & Fb) H.
  unfold vcoords_w_mode in H.
  bind_steps H. inversion H; subst acc'; clear H.
  match goal with
  | Ht : trig_mode _ _ _ _ _ _ _ = Ok _ |- _ =>
      apply (@trig_mode_spec _ _ _ _ _ _ _ _ _ n G1 G2 G3 G4) in Ht;
      destruct Ht as (Ltc & Lts & Htrig)
  end.
  match goal with
  | Hd : int_abs_div _ _ = Ok ?z |- _ => apply int_abs_div_ok in Hd; subst z
  end.
  repeat match goal with
  | Hb : bcast_into _ _ _ = Ok ?r |- _ =>
      apply bcast_into_ok_same in Hb; [subst r | rewrite ?length_scale; lia]
  end.
  repeat match goal with
  | Hg : get_at _ _ _ = Ok ?z |- _ => apply entry_of_get in Hg; subst z
  end.
  repeat match goal with
  | Hi : item pmns mn 0%R = Ok ?z |- _ => apply amplitude_of_item in Hi; subst z
  end.
  repeat match goal with
  | Hi : item _ mn 0 = Ok ?z |- _ => apply mode_number_of_item in Hi; subst z
  end.
  split.
  - unfold w_fits. cbn [a_wt a_wz a_w a_bmod].
    repeat split; rewrite length_map2, ?length_scale; lia.
  - intros k Hk. cbn [a_wt a_wz a_w a_bmod].
    destruct (Htrig k Hk) as (Hc & Hs).
    unfold w_term, wt_term, wz_term, bmod_term, tcos_nyq_at, tsin_nyq_at.
    rewrite !nth_map2 with (da := 0%R) (db := 0%R)
      by (rewrite ?length_scale; lia).
    rewrite !nth_scale by (rewrite ?length_scale; lia).
    rewrite Hc, Hs.
    repeat split; try reflexivity; try lra.
Qed.

Lemma vcoords_w_loop_spec self jrad pmns xs acc acc' (n : nat) :
  nyq_rows self n -> w_fits n acc ->
  foldM (vcoords_w_mode self jrad pmns) xs acc = Ok acc' ->
  w_fits n acc' /\
  forall k, (k < n)%nat ->
    nth k (a_w acc') 0%R = (nth k (a_w acc) 0 + mode_sum (w_term self pmns k) xs)%R /\
    nth k (a_wt acc') 0%R = (nth k (a_wt acc) 0 + mode_sum (wt_term self pmns k) xs)%R /\
    nth k (a_wz acc') 0%R = (nth k (a_wz acc) 0 + mode_sum (wz_term self pmns k) xs)%R /\
    nth k (a_bmod acc') 0%R
      = (nth k (a_bmod acc) 0 + mode_sum (bmod_term self jrad k) xs)%R.
Proof.
  intros G. revert acc. induction xs as [|mn xs IH]; intros acc F H; simpl in H.
  - inversion H; subst acc'; clear H. split; [exact F|].
    intros k Hk. unfold mode_sum. simpl. repeat split; lra.
  - apply bind_ok in H as (acc1 & H1 & H).
    destruct (@vcoords_w_mode_spec self jrad pmns acc mn acc1 n G F H1) as (F1 & V1).
    destruct (IH acc1 F1 H) as (F' & V').
    split; [exact F'|].
    intros k Hk.
    destruct (V1 k Hk) as (A1 & A2 & A3 & A4).
    destruct (V' k Hk) as (B1 & B2 & B3 & B4).
    rewrite B1, B2, B3, B4, A1, A2, A3, A4.
    unfold mode_sum. simpl. repeat split; lra.
Qed.

(** What a call of [vcoords_w] that returns has computed. *)
Lemma vcoords_w_spec self jrad pmns wt wz w bmod acc (n : nat) :
  nyq_rows self n ->
  length wt = n -> length wz = n -> length w = n -> length bmod = n ->
  vcoords_w self jrad pmns wt wz w bmod = Ok acc ->
  w_fits n acc /\
  forall k, (k < n)%nat ->
    nth k (a_w acc) 0%R = mode_sum (w_term self pmns k) (py_range 0 (nmnnyq self)) /\
    nth k (a_wt acc) 0%R = mode_sum (wt_term self pmns k) (py_range 0 (nmnnyq self)) /\
    nth k (a_wz acc) 0%R = mode_sum (wz_term self pmns k) (py_range 0 (nmnnyq self)) /\
    nth k (a_bmod acc) 0%R
      = mode_sum (bmod_term self jrad k) (py_range 0 (nmnnyq self)).
Proof.
  intros G Lwt Lwz Lw Lb H. unfold vcoords_w in H.
  apply (@vcoords_w_loop_spec self jrad pmns _ _ acc n G) in H.
  2:{ unfold w_fits. cbn [a_wt a_wz a_w a_bmod]. now rewrite !length_fill. }
  destruct H as (F & V). split; [exact F|].
  intros k Hk. destruct (V k Hk) as (A1 & A2 & A3 & A4).
  cbn [a_wt a_wz a_w a_bmod] in A1, A2, A3, A4.
  rewrite !nth_fill in A1, A2, A3, A4 by lia.
  rewrite A1, A2, A3, A4. repeat split; lra.
Qed.

Lemma mode_sum_ext (f g : Z -> R) xs :
  (forall x, In x xs -> f x = g x) -> mode_sum f xs = mode_sum g xs.
Proof.
  intros H. unfold mode_sum. induction xs as [|x xs IH]; simpl; [reflexivity|].
  rewrite H by (now left). rewrite IH; [reflexivity|].
  intros y Hy. apply H. now right.
Qed.

Lemma mode_sum_opp (f : Z -> R) xs :
  mode_sum (fun x => (- f x)%R) xs = (- mode_sum f xs)%R.
Proof.
  unfold mode_sum. induction xs as [|x xs IH]; simpl; [ring|]. rewrite IH. ring.
Qed.

Lemma setup_nyq_shapes junk junk1 junkZ d nboz mboz self st :
  setup junk junk1 junkZ d nboz mboz = Ok (self, st) -> 1 <= mboz -> 0 <= nboz ->
  mnyq self = vd_mnyq d /\ nnyq self = vd_nnyq d /\
  table_shape (cosm_nyq self) (nunv self) (vd_mnyq d + 1) /\
  table_shape (sinm_nyq self) (nunv self) (vd_mnyq d + 1) /\
  table_shape (cosn_nyq self) (nunv self) (vd_nnyq d + 1) /\
  table_shape (sinn_nyq self) (nunv self) (vd_nnyq d + 1).
Proof.
  intros H Hm Hn. pose proof (@setup_inv _ _ _ _ _ _ _ H) as Hpre.
  destruct (@setup_facts _ _ _ _ _ _ _ _ H Hm Hn)
    as (norm & th & zt & cosm & sinm & cosn & sinn & cosm' & sinm' & cosn' & sinn'
        & F1 & F2 & F3 & F4 & F5 & F6 & F7 & F8 & E).
  cbv zeta in F4, F7, F8. injection E as -> ->.
  cbn [mnyq nnyq nunv cosm_nyq sinm_nyq cosn_nyq sinn_nyq].
  destruct F7 as (R5 & R6 & C5 & C6 & _). destruct F8 as (R7 & R8 & C7 & C8 & _).
  split; [reflexivity|]. split; [reflexivity|].
  set (N := Z.to_nat (n_nu2_b norm * n_nv_boz norm)) in *.
  assert (HN : Z.of_nat N = n_nu2_b norm * n_nv_boz norm) by (subst N; nia).
  rewrite <- HN.
  replace (vd_mnyq d + 1) with (Z.of_nat (Z.to_nat (vd_mnyq d + 1))) by lia.
  replace (vd_nnyq d + 1) with (Z.of_nat (Z.to_nat (vd_nnyq d + 1))) by lia.
  repeat split; cbn [np_copy nrows ncols]; congruence.
Qed.

(** The sums a call of [vcoords_w] that returns has left in its arrays. *)
Lemma vcoords_w_values junk junk1 junkZ d nboz mboz self st jrad pmns wt wz w bmod acc :
  setup junk junk1 junkZ d nboz mboz = Ok (self, st) -> 1 <= mboz -> 0 <= nboz ->
  0 < vd_nfp d ->
  (forall mn, 0 <= mn < nmnnyq self -> nyq_mode_covered self mn) ->
  Z.of_nat (length wt) = nunv self -> Z.of_nat (length wz) = nunv self ->
  Z.of_nat (length w) = nunv self -> Z.of_nat (length bmod) = nunv self ->
  vcoords_w self jrad pmns wt wz w bmod = Ok acc ->
  forall k : nat, Z.of_nat k < nunv self ->
    nth k (a_w acc) 0%R
      = mode_sum (fun mn => amplitude pmns mn * sin (nyq_phase self mn k))%R
          (py_range 0 (nmnnyq self)) /\
    nth k (a_wt acc) 0%R
      = mode_sum (fun mn => amplitude pmns mn * IZR (mode_number (xmnyq self) mn)
                            * cos (nyq_phase self mn k))%R
          (py_range 0 (nmnnyq self)) /\
    nth k (a_wz acc) 0%R
      = (- mode_sum (fun mn => amplitude pmns mn * IZR (mode_number (xnnyq self) mn)
                               * cos (nyq_phase self mn k))
             (py_range 0 (nmnnyq self)))%R /\
    nth k (a_bmod acc) 0%R
      = mode_sum (fun mn => entry (bmodmnc self) jrad mn * cos (nyq_phase self mn k))%R
          (py_range 0 (nmnnyq self)).
Proof.
  intros H Hm Hn Hnfp Hcov Lwt Lwz Lw Lb Hw k Hk.
  destruct (@setup_nyq_shapes junk junk1 junkZ d nboz mboz self st H Hm Hn)
    as (S1 & S2 & S3 & S4 & S5 & S6).
  assert (G : nyq_rows self (Z.to_nat (nunv self))).
  { unfold nyq_rows. destruct S3 as [? _], S4 as [? _], S5 as [? _], S6 as [? _].
    repeat split; lia. }
  destruct (@vcoords_w_spec self jrad pmns wt wz w bmod acc _ G) as (_ & V);
    try lia; auto.
  destruct (V k) as (A1 & A2 & A3 & A4); [lia|].
  assert (B : forall mn, In mn (py_range 0 (nmnnyq self)) ->
            tcos_nyq_at self mn k = cos (nyq_phase self mn k) /\
            tsin_nyq_at self mn k = sin (nyq_phase self mn k)).
  { intros mn Hin. apply in_py_range in Hin.
    destruct (Hcov mn Hin) as (Hmm & q & Hx & Hq & Hq1).
    rewrite S1 in Hmm. rewrite S2 in Hq, Hq1.
    apply (@nyquist_basis_facts junk junk1 junkZ d nboz mboz self st mn q k); auto. }
  rewrite A1, A2, A3, A4. repeat split.
  - apply mode_sum_ext. intros mn Hin. unfold w_term.
    destruct (B mn Hin) as [_ ->]. ring.
  - apply mode_sum_ext. intros mn Hin. unfold wt_term.
    destruct (B mn Hin) as [-> _]. ring.
  - rewrite <- mode_sum_opp. apply mode_sum_ext. intros mn Hin. unfold wz_term.
    destruct (B mn Hin) as [-> _]. ring.
  - apply mode_sum_ext. intros mn Hin. unfold bmod_term.
    destruct (B mn Hin) as [-> _]. ring.
Qed.

(** ** modbooz *)

(** The phase identity behind every basis function of the program. *)
Lemma phase_identity (A B : R) (q : Z) :
  (cos A * cos (IZR (Z.abs q) * B) + sin A * sin (IZR (Z.abs q) * B) * IZR (Z.sgn q)
   = cos (A - IZR q * B))%R /\
  (sin A * cos (IZR (Z.abs q) * B) - cos A * sin (IZR (Z.abs q) * B) * IZR (Z.sgn q)
   = sin (A - IZR q * B))%R.
Proof.
  rewrite cos_minus, sin_minus.
  destruct (Z.lt_trichotomy q 0) as [Hneg|[->|Hpos]].
  - rewrite Z.abs_neq, Z.sgn_neg by lia. rewrite opp_IZR.
    replace (- IZR q * B)%R with (- (IZR q * B))%R by ring.
    rewrite cos_neg, sin_neg. simpl (IZR (-1)). split; ring.
  - simpl (Z.abs 0). simpl (Z.sgn 0). rewrite !Rmult_0_l, cos_0, sin_0. split; ring.
  - rewrite Z.abs_eq, Z.sgn_pos by lia. split; ring.
Qed.

Lemma harmonic_step1_ok ang (M m : nat) c s :
  vec_harmonics ang M m c s -> (2 <= m < M)%nat ->
  exists c' s',
    harmonic_step1 (c, s) (Z.of_nat m) = Ok (c', s') /\
    vec_harmonics ang M (S m) c' s'.
Proof.
  intros (Lc & Ls & Hval) Hm. unfold harmonic_step1.
  replace (Z.of_nat m - 1) with (Z.of_nat (m - 1)) by lia.
  change 1 with (Z.of_nat 1).
  rewrite !(item_nat c), !(item_nat s) by lia. cbn [bind].
  rewrite (set_item_nat c) by lia. cbn [bind].
  rewrite !item_nat by (rewrite ?length_list_set; lia). cbn [bind].
  rewrite (set_item_nat s) by lia. cbn [bind].
  do 2 eexists. split; [reflexivity|].
  unfold vec_harmonics. rewrite !length_list_set. repeat split; auto.
  - rewrite nth_list_set by lia.
    destruct (Nat.eqb_spec j m) as [->|Hne].
    + destruct (Hval (m - 1)%nat) as [-> ->]; [lia|].
      destruct (Hval 1%nat) as [-> ->]; [lia|].
      replace (INR m) with (INR (m - 1) + 1)%R
        by (rewrite minus_INR by lia; simpl; lra).
      rewrite Rmult_plus_distr_r, !Rmult_1_l, cos_plus. reflexivity.
    + apply Hval. lia.
  - rewrite nth_list_set by lia.
    destruct (Nat.eqb_spec j m) as [->|Hne].
    + rewrite !nth_list_set_ne by lia.
      destruct (Hval (m - 1)%nat) as [-> ->]; [lia|].
      destruct (Hval 1%nat) as [-> ->]; [lia|].
      replace (INR m) with (INR (m - 1) + 1)%R
        by (rewrite minus_INR by lia; simpl; lra).
      rewrite Rmult_plus_distr_r, !Rmult_1_l, sin_plus. reflexivity.
    + apply Hval. lia.
Qed.

Lemma harmonic_loop1 ang (M : nat) c s :
  (2 <= M)%nat -> vec_harmonics ang M 2 c s ->
  exists c' s',
    foldM harmonic_step1 (py_range 2 (Z.of_nat M)) (c, s) = Ok (c', s') /\
    vec_harmonics ang M M c' s'.
Proof.
  intros HM H0.
  destruct (@foldM_range_inv _ harmonic_step1
    (fun i cs => exists m, i = Z.of_nat m /\ vec_harmonics ang M m (fst cs) (snd cs))
    2 (Z.of_nat M)) with (st := (c, s)) as ([c' s'] & E & m & Hm' & Hinv).
  - lia.
  - intros i [c0 s0] Hi (m & -> & Hinv). simpl in Hinv.
    destruct (harmonic_step1_ok Hinv) as (c1 & s1 & E & H1); [lia|].
    exists (c1, s1). split; [exact E|]. exists (S m). split; [lia|exact H1].
  - exists 2%nat. split; [reflexivity|exact H0].
  - exists c', s'. split; [exact E|]. apply Nat2Z.inj in Hm'. subst m. exact Hinv.
Qed.

(** The scalar tables of one angle, as [modbooz] sets them up before the
    recurrence: entries 0 and 1, or entry 0 alone. *)
Lemma vec_base2 ang (M : nat) c s :
  (2 <= M)%nat -> length c = M -> length s = M ->
  vec_harmonics ang M 2
    (list_set (list_set c 0 (fun _ => 1%R)) 1 (fun _ => cos ang))
    (list_set (list_set s 0 (fun _ => 0%R)) 1 (fun _ => sin ang)).
Proof.
  intros HM Lc Ls.
  unfold vec_harmonics. rewrite !length_list_set. repeat split; auto.
  - destruct j as [|[|j]]; try lia.
    + rewrite nth_list_set_ne by (simpl; lia). rewrite nth_list_set by lia.
      simpl. now rewrite Rmult_0_l, cos_0.
    + rewrite nth_list_set by (rewrite length_list_set; lia).
      simpl. now rewrite Rmult_1_l.
  - destruct j as [|[|j]]; try lia.
    + rewrite nth_list_set_ne by (simpl; lia). rewrite nth_list_set by lia.
      simpl. now rewrite Rmult_0_l, sin_0.
    + rewrite nth_list_set by (rewrite length_list_set; lia).
      simpl. now rewrite Rmult_1_l.
Qed.

Lemma vec_base1 ang c s :
  length c = 1%nat -> length s = 1%nat ->
  vec_harmonics ang 1 1 (list_set c 0 (fun _ => 1%R)) (list_set s 0 (fun _ => 0%R)).
Proof.
  intros Lc Ls.
  unfold vec_harmonics. rewrite !length_list_set. repeat split; auto.
  - destruct j as [|j]; try lia. rewrite nth_list_set by lia.
    simpl. now rewrite Rmult_0_l, cos_0.
  - destruct j as [|j]; try lia. rewrite nth_list_set by lia.
    simpl. now rewrite Rmult_0_l, sin_0.
Qed.

Lemma partial_sum_S (f : nat -> R) (n : nat) :
  partial_sum f (S n) = (partial_sum f n + f n)%R.
Proof.
  unfold partial_sum. rewrite seq_S, map_app. simpl.
  generalize (map f (seq 0 n)). intros l. induction l as [|x l IH]; simpl; [ring|].
  rewrite IH. ring.
Qed.

Lemma map_nth_seq {A B} (g : A -> B) (l : list A) (d : A) :
  map g l = map (fun i => g (nth i l d)) (seq 0 (length l)).
Proof.
  induction l as [|a l IH]; simpl; [reflexivity|].
  f_equal. rewrite <- seq_shift, map_map. exact IH.
Qed.

Lemma boozer_series_partial_sum xmb xnb bmnc u v (n : nat) :
  length xmb = n -> length xnb = n -> length bmnc = n ->
  boozer_series xmb xnb bmnc u v = partial_sum (series_term xmb xnb bmnc u v) n.
Proof.
  intros L1 L2 L3. unfold boozer_series, partial_sum.
  rewrite (map_nth_seq _ _ (0%R, (0, 0))).
  rewrite !length_combine, L1, L2, L3, !Nat.min_id. f_equal.
  apply map_ext_in. intros i Hi. apply in_seq in Hi.
  rewrite combine_nth by (rewrite length_combine; lia).
  rewrite combine_nth by lia. reflexivity.
Qed.

Lemma int_floordiv_mul q nfp : nfp <> 0 -> int_floordiv (q * nfp) nfp = Ok q.
Proof.
  intros H. unfold int_floordiv. destruct (Z.eqb_spec nfp 0); [contradiction|].
  now rewrite Z.div_mul.
Qed.

(** An index [q >= 0], or the index [-1] into a table of two entries. *)
Lemma item_reach (v : list R) (nboz q : Z) :
  Z.of_nat (length v) = nboz + 1 ->
  - nboz <= q <= nboz -> 0 <= q \/ nboz = 1 ->
  item v q 0%R = Ok (nth (Z.to_nat (Z.abs q)) v 0%R).
Proof.
  intros L Hq Hr. destruct (Z_lt_le_dec q 0) as [Hneg|Hpos].
  - assert (nboz = 1) by lia. assert (q = -1) by lia. subst.
    unfold item, np_index. destruct (length v) as [|[|[|n]]]; try lia. reflexivity.
  - rewrite item_ok by lia. now rewrite Z.abs_eq.
Qed.

Lemma length_vals {A} (v : list (cell A)) : length (vals v) = length v.
Proof. unfold vals. apply length_map. Qed.

Lemma modbooz_mode_ok self bmnc (a : nat) u v cm sm cn sn bmod (i : nat) :
  0 < nfp self -> 0 <= nboz self -> 0 <= mboz self ->
  vec_harmonics u (Z.to_nat (mboz self + 1)) (Z.to_nat (mboz self + 1)) cm sm ->
  vec_harmonics (v * IZR (nfp self)) (Z.to_nat (nboz self + 1))
    (Z.to_nat (nboz self + 1)) cn sn ->
  (i < length (xmb self))%nat -> (i < length (xnb self))%nat ->
  (i < length bmnc)%nat -> (a < length bmod)%nat ->
  mode_in_reach self i ->
  modbooz_mode self bmnc (Z.of_nat a)
    {| m_cosmm := cm; m_sinmm := sm; m_cosnn := cn; m_sinnn := sn; m_bmod := bmod |}
    (Z.of_nat i)
  = Ok {| m_cosmm := cm; m_sinmm := sm; m_cosnn := cn; m_sinnn := sn;
          m_bmod := list_set bmod a
            (fun _ => (nth a bmod 0
                       + series_term (vals (xmb self)) (vals (xnb self)) bmnc u v i)%R) |}.
Proof.
  intros Hnfp Hnb Hmb (Lcm & Lsm & Hm) (Lcn & Lsn & Hn) L1 L2 L3 L4
    (Hmm & q & Hx & Hq & Hr).
  unfold modbooz_mode. cbn [m_cosmm m_sinmm m_cosnn m_sinnn m_bmod].
  rewrite !item_nat by (rewrite ?length_vals; lia). cbn [bind].
  rewrite Hx, int_floordiv_mul by lia. cbn [bind].
  rewrite (item_ok cm), (item_ok sm) by lia. cbn [bind].
  rewrite (@item_reach cn (nboz self) q), (@item_reach sn (nboz self) q) by lia.
  cbn [bind]. rewrite set_item_nat by lia. cbn [bind].
  destruct (Hm (Z.to_nat (nth i (vals (xmb self)) 0))) as [-> ->]; [lia|].
  destruct (Hn (Z.to_nat (Z.abs q))) as [-> ->]; [lia|].
  rewrite !INR_IZR_INZ, !Z2Nat.id by lia.
  rewrite np_sign_mul_pos by lia.
  unfold series_term. rewrite Hx, mult_IZR.
  destruct (phase_identity (IZR (nth i (vals (xmb self)) 0) * u)
              (v * IZR (nfp self)) q) as [-> _].
  replace (IZR q * (v * IZR (nfp self)))%R with (IZR q * IZR (nfp self) * v)%R by ring.
  reflexivity.
Qed.

Lemma modbooz_modes_loop self bmnc (a : nat) u v cm sm cn sn bmod (n : nat) :
  0 < nfp self -> 0 <= nboz self -> 0 <= mboz self ->
  vec_harmonics u (Z.to_nat (mboz self + 1)) (Z.to_nat (mboz self + 1)) cm sm ->
  vec_harmonics (v * IZR (nfp self)) (Z.to_nat (nboz self + 1))
    (Z.to_nat (nboz self + 1)) cn sn ->
  length (xmb self) = n -> length (xnb self) = n -> length bmnc = n ->
  (a < length bmod)%nat ->
  (forall i, (i < n)%nat -> mode_in_reach self i) ->
  exists bmod',
    foldM (modbooz_mode self bmnc (Z.of_nat a)) (py_range 0 (Z.of_nat n))
      {| m_cosmm := cm; m_sinmm := sm; m_cosnn := cn; m_sinnn := sn; m_bmod := bmod |}
    = Ok {| m_cosmm := cm; m_sinmm := sm; m_cosnn := cn; m_sinnn := sn;
            m_bmod := bmod' |} /\
    length bmod' = length bmod /\
    nth a bmod' 0%R
      = (nth a bmod 0
         + boozer_series (vals (xmb self)) (vals (xnb self)) bmnc u v)%R /\
    forall a', a' <> a -> nth a' bmod' 0%R = nth a' bmod 0%R.
Proof.
  intros Hnfp Hnb Hmb Vm Vn L1 L2 L3 La Hreach.
  set (term := series_term (vals (xmb self)) (vals (xnb self)) bmnc u v).
  destruct (@foldM_range_inv _ (modbooz_mode self bmnc (Z.of_nat a))
    (fun i acc => exists (k : nat) bm,
       i = Z.of_nat k /\
       acc = {| m_cosmm := cm; m_sinmm := sm; m_cosnn := cn; m_sinnn := sn;
                m_bmod := bm |} /\
       length bm = length bmod /\
       nth a bm 0%R = (nth a bmod 0 + partial_sum term k)%R /\
       forall a', a' <> a -> nth a' bm 0%R = nth a' bmod 0%R)
    0 (Z.of_nat n))
    with (st := {| m_cosmm := cm; m_sinmm := sm; m_cosnn := cn; m_sinnn := sn;
                   m_bmod := bmod |})
    as (acc & E & k & bm & Hk & -> & Lb & Ha & Hoth).
  - lia.
  - intros i acc Hi (k & bm & -> & -> & Lb & Ha & Hoth).
    eexists. split.
    + apply modbooz_mode_ok with (u := u) (v := v); auto; try lia. apply Hreach. lia.
    + exists (S k), (list_set bm a
        (fun _ => (nth a bm 0 + series_term (vals (xmb self)) (vals (xnb self)) bmnc u v k)%R)).
      split; [lia|]. split; [reflexivity|].
      rewrite length_list_set. split; [exact Lb|]. split.
      * rewrite nth_list_set by lia. rewrite Nat.eqb_refl.
        rewrite partial_sum_S, Ha. subst term. ring.
      * intros a' Hne. rewrite nth_list_set_ne by assumption. now apply Hoth.
  - exists 0%nat, bmod. split; [reflexivity|]. split; [reflexivity|].
    split; [reflexivity|]. split; [|auto].
    unfold partial_sum. simpl. ring.
  - apply Nat2Z.inj in Hk. subst k. exists bm. split; [exact E|].
    split; [exact Lb|]. split; [|exact Hoth].
    rewrite Ha. f_equal. symmetry.
    apply boozer_series_partial_sum; rewrite ?length_vals; assumption.
Qed.

(** One pass of the loop over the angle pairs. *)
Lemma modbooz_angle_ok self st bmnc (a : nat) cm sm cn sn bmod (n : nat) :
  0 < nfp self -> 0 <= nboz self -> 1 <= mboz self ->
  length cm = Z.to_nat (mboz self + 1) -> length sm = Z.to_nat (mboz self + 1) ->
  length cn = Z.to_nat (nboz self + 1) -> length sn = Z.to_nat (nboz self + 1) ->
  length (xmb self) = n -> length (xnb self) = n -> length bmnc = n ->
  Z.of_nat n = mnboz self ->
  (a < length bmod)%nat -> (a < length (u_b st))%nat -> (a < length (v_b st))%nat ->
  (forall i, (i < n)%nat -> mode_in_reach self i) ->
  exists cm' sm' cn' sn' bmod',
    modbooz_angle self st bmnc
      {| m_cosmm := cm; m_sinmm := sm; m_cosnn := cn; m_sinnn := sn; m_bmod := bmod |}
      (Z.of_nat a)
    = Ok {| m_cosmm := cm'; m_sinmm := sm'; m_cosnn := cn'; m_sinnn := sn';
            m_bmod := bmod' |} /\
    length cm' = length cm /\ length sm' = length sm /\
    length cn' = length cn /\ length sn' = length sn /\
    length bmod' = length bmod /\
    nth a bmod' 0%R
      = (nth a bmod 0
         + boozer_series (vals (xmb self)) (vals (xnb self)) bmnc
             (nth a (u_b st) 0) (nth a (v_b st) 0))%R /\
    forall a', a' <> a -> nth a' bmod' 0%R = nth a' bmod 0%R.
Proof.
  intros Hnfp Hnb Hmb Lcm Lsm Lcn Lsn L1 L2 L3 Hn La Lu Lv Hreach.
  unfold modbooz_angle. cbn [m_cosmm m_sinmm m_cosnn m_sinnn m_bmod].
  rewrite !set_item_ok by lia. cbn [bind].
  rewrite !item_nat by lia. cbn [bind].
  rewrite !set_item_ok by (rewrite length_list_set; lia). cbn [bind].
  change (Z.to_nat 0) with 0%nat. change (Z.to_nat 1) with 1%nat.
  set (u := nth a (u_b st) 0%R). set (v := nth a (v_b st) 0%R).
  pose proof (@vec_base2 u (Z.to_nat (mboz self + 1)) cm sm) as Bm.
  destruct (@harmonic_loop1 u (Z.to_nat (mboz self + 1)) _ _ ltac:(lia)
              (Bm ltac:(lia) Lcm Lsm)) as (cm' & sm' & Em & Vm).
  assert (Tor : exists cn1 sn1 cn' sn',
    (if 1 <=? nboz self
     then
      cosnn <- set_item (list_set cn 0 (fun _ => 1%R)) 1 (cos (v * IZR (nfp self))) ;;
      sinnn <- set_item (list_set sn 0 (fun _ => 0%R)) 1 (sin (v * IZR (nfp self))) ;;
      Ok (cosnn, sinnn)
     else Ok (list_set cn 0 (fun _ => 1%R), list_set sn 0 (fun _ => 0%R)))
    = Ok (cn1, sn1) /\
    foldM harmonic_step1 (py_range 2 (nboz self + 1)) (cn1, sn1) = Ok (cn', sn') /\
    vec_harmonics (v * IZR (nfp self)) (Z.to_nat (nboz self + 1))
      (Z.to_nat (nboz self + 1)) cn' sn').
  { destruct (Z.leb_spec 1 (nboz self)) as [H1|H0].
    - rewrite !set_item_ok by (rewrite length_list_set; lia). cbn [bind].
      change (Z.to_nat 1) with 1%nat.
      pose proof (@vec_base2 (v * IZR (nfp self)) (Z.to_nat (nboz self + 1)) cn sn) as Bn.
      destruct (@harmonic_loop1 (v * IZR (nfp self)) (Z.to_nat (nboz self + 1)) _ _
                  ltac:(lia) (Bn ltac:(lia) Lcn Lsn)) as (cn' & sn' & En & Vn).
      do 2 eexists. exists cn', sn'. split; [reflexivity|]. split; [|exact Vn].
      replace (nboz self + 1) with (Z.of_nat (Z.to_nat (nboz self + 1))) at 1 by lia.
      exact En.
    - rewrite py_range_empty by lia. cbn [foldM].
      do 4 eexists. split; [reflexivity|]. split; [reflexivity|].
      replace (Z.to_nat (nboz self + 1)) with 1%nat in * by lia.
      now apply vec_base1. }
  destruct Tor as (cn1 & sn1 & cn' & sn' & Eif & En & Vn).
  rewrite Z2Nat.id in Em by lia.
  destruct (@modbooz_modes_loop self bmnc a u v cm' sm' cn' sn' bmod n)
    as (bmod' & E & Lb & Ha & Hoth); auto; try lia.
  exists cm', sm', cn', sn', bmod'.
  rewrite Eif. cbn [bind]. rewrite Em. cbn [bind]. rewrite En. cbn [bind].
  destruct Vm as (Lcm' & Lsm' & _). destruct Vn as (Lcn' & Lsn' & _).
  rewrite <- Hn. split; [exact E|].
  do 5 (split; [congruence|]). split; [exact Ha|exact Hoth].
Qed.

Lemma get_col_ok_z {A} (t : table (cell A)) (j : Z) :
  0 <= j < Z.of_nat (ncols t) -> get_col t j = Ok (col_vals t (Z.to_nat j)).
Proof.
  intros H. rewrite <- (Z2Nat.id j) at 1 by lia. apply get_col_ok. lia.
Qed.

Lemma modbooz_run junk1 self st jrad (n : nat) :
  0 < nfp self -> 0 <= nboz self -> 1 <= mboz self ->
  Z.of_nat n = mnboz self ->
  length (xmb self) = n -> length (xnb self) = n -> nrows (bmncb st) = n ->
  0 <= jrad < Z.of_nat (ncols (bmncb st)) ->
  (4 <= length (u_b st))%nat -> (4 <= length (v_b st))%nat ->
  (forall i, (i < n)%nat -> mode_in_reach self i) ->
  exists st' bmod,
    modbooz junk1 self st jrad = Ok (st', bmod) /\
    length bmod = 4%nat /\
    outputs_of st' = outputs_of st /\
    u_b st' = u_b st /\ v_b st' = v_b st /\
    forall a, (a < 4)%nat ->
      nth a bmod 0%R
        = boozer_series (vals (xmb self)) (vals (xnb self))
            (col_vals (bmncb st) (Z.to_nat jrad))
            (nth a (u_b st) 0%R) (nth a (v_b st) 0%R).
Proof.
  intros Hnfp Hnb Hmb Hn L1 L2 L3 Hj Lu Lv Hreach.
  unfold modbooz. rewrite get_col_ok_z by assumption. cbn [bind].
  rewrite !np_empty1_ok by lia. cbn [bind].
  set (bmnc := col_vals (bmncb st) (Z.to_nat jrad)).
  assert (Lb : length bmnc = n) by (subst bmnc; now rewrite col_vals_length).
  set (series := fun a =>
    boozer_series (vals (xmb self)) (vals (xnb self)) bmnc
      (nth a (u_b st) 0%R) (nth a (v_b st) 0%R)).
  destruct (@foldM_range_inv _ (modbooz_angle self st bmnc)
    (fun i acc => exists (k : nat) cm sm cn sn bm,
       i = Z.of_nat k /\
       acc = {| m_cosmm := cm; m_sinmm := sm; m_cosnn := cn; m_sinnn := sn;
                m_bmod := bm |} /\
       length cm = Z.to_nat (mboz self + 1) /\ length sm = Z.to_nat (mboz self + 1) /\
       length cn = Z.to_nat (nboz self + 1) /\ length sn = Z.to_nat (nboz self + 1) /\
       length bm = 4%nat /\
       (forall a, (a < k)%nat -> nth a bm 0%R = series a) /\
       (forall a, (k <= a)%nat -> nth a bm 0%R = 0%R))
    0 4)
    with (st := {| m_cosmm := map junk1 (seq 0 (Z.to_nat (mboz self + 1)));
                   m_sinmm := map junk1 (seq 0 (Z.to_nat (mboz self + 1)));
                   m_cosnn := map junk1 (seq 0 (Z.to_nat (nboz self + 1)));
                   m_sinnn := map junk1 (seq 0 (Z.to_nat (nboz self + 1)));
                   m_bmod := [0; 0; 0; 0]%R |})
    as (acc & E & k & cm & sm & cn & sn & bm & Hk & -> & _ & _ & _ & _ & Lbm & Hdone & _).
  - lia.
  - intros i acc Hi (k & cm & sm & cn & sn & bm & -> & -> & Lcm & Lsm & Lcn & Lsn
                     & Lbm & Hdone & Hrest).
    destruct (@modbooz_angle_ok self st bmnc k cm sm cn sn bm n)
      as (cm' & sm' & cn' & sn' & bm' & E' & Lcm' & Lsm' & Lcn' & Lsn' & Lbm' & Ha & Hoth);
      auto; try lia.
    eexists. split; [exact E'|].
    exists (S k), cm', sm', cn', sn', bm'.
    split; [lia|]. split; [reflexivity|].
    do 5 (split; [congruence|]). split.
    + intros a Ha'. destruct (Nat.eq_dec a k) as [->|Hne].
      * rewrite Ha, Hrest by lia. subst series. cbv beta. ring.
      * rewrite Hoth by assumption. apply Hdone. lia.
    + intros a Ha'. rewrite Hoth by lia. apply Hrest. lia.
  - exists 0%nat. do 5 eexists. split; [reflexivity|]. split; [reflexivity|].
    rewrite !length_map, !length_seq.
    do 4 (split; [reflexivity|]). split; [reflexivity|]. split; [lia|].
    intros a _. destruct a as [|[|[|[|[|a]]]]]; reflexivity.
  - rewrite E. cbn [bind m_cosmm m_sinmm m_cosnn m_sinnn m_bmod].
    do 2 eexists. split; [reflexivity|]. split; [exact Lbm|].
    split; [reflexivity|]. split; [reflexivity|]. split; [reflexivity|].
    intros a Ha'. apply Hdone.
    assert (k = 4%nat) by lia. lia.
Qed.

(** [modbooz] returns the Boozer series of the field strength,
    [sum bmncb[mn, jrad] * cos(xmb[mn] * u - xnb[mn] * v)] over all modes, at
    each of the four stored angle pairs, whenever no mode is looked up with a
    wrapped index: every mode has a toroidal number [n >= 0] (as for
    [mboz = 1]), or [nboz = 1].  It leaves the five output tables and the
    stored angles as they were. *)
Theorem modbooz_series junk1 self st jrad (n : nat) :
  0 < nfp self -> 0 <= nboz self -> 1 <= mboz self ->
  Z.of_nat n = mnboz self ->
  length (xmb self) = n -> length (xnb self) = n -> nrows (bmncb st) = n ->
  0 <= jrad < Z.of_nat (ncols (bmncb st)) ->
  (4 <= length (u_b st))%nat -> (4 <= length (v_b st))%nat ->
  (forall i, (i < n)%nat -> mode_in_reach self i) ->
  exists st' bmod,
    modbooz junk1 self st jrad = Ok (st', bmod) /\
    length bmod = 4%nat /\
    outputs_of st' = outputs_of st /\
    u_b st' = u_b st /\ v_b st' = v_b st /\
    forall a, (a < 4)%nat ->
      nth a bmod 0%R
        = boozer_series (vals (xmb self)) (vals (xnb self))
            (col_vals (bmncb st) (Z.to_nat jrad))
            (nth a (u_b st) 0%R) (nth a (v_b st) 0%R).
Proof. exact (@modbooz_run junk1 self st jrad n). Qed.

(** ** The values boozerfun stores *)

Lemma trig_mode_ok (cosm sinm cosn sinn : tbl) m n sgn (N : nat) :
  nrows cosm = N -> nrows sinm = N -> nrows cosn = N -> nrows sinn = N ->
  0 <= m < Z.of_nat (ncols cosm) -> 0 <= m < Z.of_nat (ncols sinm) ->
  0 <= n < Z.of_nat (ncols cosn) -> 0 <= n < Z.of_nat (ncols sinn) ->
  exists tcos tsin, trig_mode cosm sinm cosn sinn m n sgn = Ok (tcos, tsin).
Proof.
  intros R1 R2 R3 R4 C1 C2 C3 C4. unfold trig_mode, vmul, vadd, vsub.
  rewrite !get_col_ok_z by assumption. cbn [bind].
  rewrite (bcast_same Rmult (col_vals cosm _) (col_vals cosn _))
    by (rewrite !col_vals_length; congruence).
  cbn [bind].
  rewrite (bcast_same Rmult (col_vals sinm _) (col_vals sinn _))
    by (rewrite !col_vals_length; congruence).
  cbn [bind].
  rewrite bcast_same
    by (rewrite length_scale, !length_map2, !col_vals_length; lia).
  cbn [bind].
  rewrite (bcast_same Rmult (col_vals sinm _) (col_vals cosn _))
    by (rewrite !col_vals_length; congruence).
  cbn [bind].
  rewrite (bcast_same Rmult (col_vals cosm _) (col_vals sinn _))
    by (rewrite !col_vals_length; congruence).
  cbn [bind].
  rewrite bcast_same
    by (rewrite length_scale, !length_map2, !col_vals_length; lia).
  cbn [bind]. eauto.
Qed.

Lemma scale_col_slice_ok (t : tbl) (a b : nat) (m : Z) (c : R) :
  0 <= m < Z.of_nat (ncols t) ->
  scale_col_slice t a b m c =
    Ok {| nrows := nrows t; ncols := ncols t;
          at_ := fun i j => if ((j =? Z.to_nat m) && (a <=? i) && (i <? b))%nat
                            then store (c * val (at_ t i j))%R (at_ t i j)
                            else at_ t i j |}.
Proof. intros H. unfold scale_col_slice. now rewrite np_index_ok. Qed.

Lemma slice_bound_in (len : nat) (i : Z) :
  0 <= i <= Z.of_nat len -> slice_bound len i = Z.to_nat i.
Proof.
  intros H. unfold slice_bound.
  replace (i <? 0) with false by (symmetry; apply Z.ltb_ge; lia).
  f_equal. lia.
Qed.

(** The effect of the two statements that weight one column. *)
Lemma weighted_column (w : nat -> R) (N : nat) (nv i : Z) (m : nat) t0 t :
  0 < nv -> nv <= i -> i + nv = Z.of_nat N ->
  (forall k, (k < N)%nat ->
     w k = if (Z.of_nat k <? nv) || (i <=? Z.of_nat k) then (1 / 2)%R else 1%R) ->
  nrows t0 = N -> weighted_upto w N m t0 t ->
  weighted_upto w N (S m) t0
    {| nrows := nrows t; ncols := ncols t;
       at_ := fun r j =>
         if ((j =? m) && (Z.to_nat i <=? r) && (r <? N))%nat
         then store (1 / 2 *
                val (if ((j =? m) && (0 <=? r) && (r <? Z.to_nat nv))%nat
                     then store (1 / 2 * val (at_ t r j))%R (at_ t r j)
                     else at_ t r j))%R
                (if ((j =? m) && (0 <=? r) && (r <? Z.to_nat nv))%nat
                 then store (1 / 2 * val (at_ t r j))%R (at_ t r j)
                 else at_ t r j)
         else if ((j =? m) && (0 <=? r) && (r <? Z.to_nat nv))%nat
              then store (1 / 2 * val (at_ t r j))%R (at_ t r j)
              else at_ t r j |}.
Proof.
  intros Hnv Hi HN Hw R0 (Rt & Ct & V).
  unfold weighted_upto. cbn [nrows ncols at_]. split; [assumption|]. split; [assumption|].
  intros k j Hk. change (0 <=? k)%nat with true.
  destruct (Nat.eqb_spec j m) as [->|Hne]; cbn [andb].
  - rewrite (Hw k Hk).
    replace (m <? S m)%nat with true by (symmetry; apply Nat.ltb_lt; lia).
    pose proof (V k m Hk) as Vm. rewrite Nat.ltb_irrefl in Vm.
    destruct (Z.ltb_spec (Z.of_nat k) nv) as [H1|H1];
      destruct (Z.leb_spec i (Z.of_nat k)) as [H2|H2]; try lia; cbn [orb].
    + replace (Z.to_nat i <=? k)%nat with false by (symmetry; apply Nat.leb_gt; lia).
      cbn [andb]. replace (k <? Z.to_nat nv)%nat with true
        by (symmetry; apply Nat.ltb_lt; lia).
      cbn [val store]. rewrite Vm. ring.
    + replace (Z.to_nat i <=? k)%nat with true by (symmetry; apply Nat.leb_le; lia).
      replace (k <? N)%nat with true by (symmetry; apply Nat.ltb_lt; lia).
      cbn [andb]. replace (k <? Z.to_nat nv)%nat with false
        by (symmetry; apply Nat.ltb_ge; lia).
      cbn [val store]. rewrite Vm. ring.
    + replace (Z.to_nat i <=? k)%nat with false by (symmetry; apply Nat.leb_gt; lia).
      cbn [andb]. replace (k <? Z.to_nat nv)%nat with false
        by (symmetry; apply Nat.ltb_ge; lia).
      rewrite Vm. ring.
  - rewrite (V k j Hk).
    replace (j <? S m)%nat with (j <? m)%nat; [reflexivity|].
    destruct (Nat.ltb_spec j m), (Nat.ltb_spec j (S m)); auto; lia.
Qed.

(** One pass of the weighting loop: the column [m] of both tables gets the
    half weights on the first and on the last row of the grid. *)
Lemma half_weights_ok (w : nat -> R) (N : nat) (nv i : Z) (m : nat) c0 s0 c s :
  0 < nv -> nv <= i -> i + nv = Z.of_nat N ->
  (forall k, (k < N)%nat ->
     w k = if (Z.of_nat k <? nv) || (i <=? Z.of_nat k) then (1 / 2)%R else 1%R) ->
  nrows c0 = N -> nrows s0 = N -> (m < ncols c0)%nat -> (m < ncols s0)%nat ->
  weighted_upto w N m c0 c -> weighted_upto w N m s0 s ->
  exists c' s',
    half_weights nv i (i + nv) (c, s) (Z.of_nat m) = Ok (c', s') /\
    weighted_upto w N (S m) c0 c' /\ weighted_upto w N (S m) s0 s'.
Proof.
  intros Hnv Hi HN Hw Rc Rs Hmc Hms Wc Ws.
  pose proof Wc as (Rc' & Cc' & _). pose proof Ws as (Rs' & Cs' & _).
  unfold half_weights.
  do 4 (rewrite scale_col_slice_ok by (cbn [ncols]; lia); cbn [bind nrows ncols at_]).
  do 2 eexists. split; [reflexivity|].
  rewrite !slice_bound_in by lia. rewrite !Nat2Z.id.
  replace (Z.to_nat (i + nv)) with N by lia.
  split.
  - exact (@weighted_column w N nv i m c0 c Hnv Hi HN Hw Rc Wc).
  - exact (@weighted_column w N nv i m s0 s Hnv Hi HN Hw Rs Ws).
Qed.

Lemma weighted_upto_refl (w : nat -> R) (N : nat) (t : tbl) : weighted_upto w N 0 t t.
Proof.
  unfold weighted_upto. repeat split; auto. intros k j _. simpl. ring.
Qed.

Lemma half_weights_loop (w : nat -> R) (N : nat) (nv i : Z) (M : nat) c0 s0 :
  0 < nv -> nv <= i -> i + nv = Z.of_nat N ->
  (forall k, (k < N)%nat ->
     w k = if (Z.of_nat k <? nv) || (i <=? Z.of_nat k) then (1 / 2)%R else 1%R) ->
  nrows c0 = N -> nrows s0 = N -> ncols c0 = M -> ncols s0 = M ->
  exists c s,
    foldM (half_weights nv i (i + nv)) (py_range 0 (Z.of_nat M)) (c0, s0) = Ok (c, s) /\
    weighted_upto w N M c0 c /\ weighted_upto w N M s0 s.
Proof.
  intros Hnv Hi HN Hw Rc Rs Cc Cs.
  destruct (@foldM_range_inv _ (half_weights nv i (i + nv))
    (fun j cs => exists m, j = Z.of_nat m /\
       weighted_upto w N m c0 (fst cs) /\ weighted_upto w N m s0 (snd cs))
    0 (Z.of_nat M)) with (st := (c0, s0)) as ([c s] & E & m & Hm & Wc & Ws).
  - lia.
  - intros j [c s] Hj (m & -> & Wc & Ws). simpl in Wc, Ws.
    destruct (@half_weights_ok w N nv i m c0 s0 c s) as (c' & s' & E & Wc' & Ws');
      auto; try lia.
    exists (c', s'). split; [exact E|]. exists (S m). split; [lia|]. split; assumption.
  - exists 0%nat. split; [reflexivity|]. split; apply weighted_upto_refl.
  - apply Nat2Z.inj in Hm. subst m. exists c, s. auto.
Qed.

Lemma py_sum_quadrature (l : list R) (f : nat -> R) (N : nat) :
  length l = N -> (forall k, (k < N)%nat -> nth k l 0%R = f k) ->
  py_sum l = quadrature f N.
Proof.
  intros L H. unfold quadrature. f_equal.
  rewrite <- (map_id l) at 1. rewrite (map_nth_seq (fun x => x) l 0%R), L.
  apply map_ext_in. intros k Hk. apply in_seq in Hk. apply H. lia.
Qed.

Lemma col_at_val (t : tbl) (j : Z) (k : nat) :
  0 <= j < Z.of_nat (ncols t) -> (k < nrows t)%nat ->
  col_at t j k = val (at_ t k (Z.to_nat j)).
Proof.
  intros Hj Hk. unfold col_at. rewrite get_col_ok_z by assumption.
  now rewrite col_vals_nth.
Qed.

Lemma int_div_abs_mul q nfp : 0 < nfp -> int_div_abs (q * nfp) nfp = Ok (Z.abs q).
Proof.
  intros H. unfold int_div_abs. destruct (Z.eqb_spec nfp 0); [lia|].
  rewrite Z.abs_mul, (Z.abs_eq nfp) by lia. now rewrite Z.quot_mul by lia.
Qed.

Lemma set_at_ok (t : tbl) (i j : nat) (x : R) :
  (i < nrows t)%nat -> (j < ncols t)%nat ->
  set_at t (Z.of_nat i) (Z.of_nat j) x = Ok (store_at t i j x).
Proof. intros Hi Hj. unfold set_at. now rewrite !np_index_nat. Qed.

Lemma nd_mul_ok (a : nd) (v : list R) (N : nat) :
  nd_fits N a -> length v = N ->
  exists l, nd_op Rmult a (Ar v) = Ok (Ar l) /\ length l = N /\
            forall k, (k < N)%nat -> nth k l 0%R = (nd_at a k * nth k v 0)%R.
Proof.
  intros Ha Lv. destruct a as [x|u]; simpl in *.
  - eexists. split; [reflexivity|]. split; [now rewrite length_map|].
    intros k Hk. now rewrite nth_map_in with (da := 0%R) by lia.
  - rewrite bcast_same by lia. cbn [bind]. eexists. split; [reflexivity|].
    split; [rewrite length_map2; lia|].
    intros k Hk. now rewrite nth_map2 with (da := 0%R) (db := 0%R) by lia.
Qed.

(** One pass of the mode loop: the five sums of the mode [i], stored at
    [i, jr]; [wc] and [ws] are the basis functions of the mode as the tables
    give them. *)
Lemma boozerfun_mode_ok self cosmm sinmm cosnn sinnn bmod_b rad zee vboz xjac bbjac
  (jr i N : nat) o (wc ws : nat -> R) (m q : Z) :
  0 < nfp self ->
  nrows cosmm = N -> nrows sinmm = N -> nrows cosnn = N -> nrows sinnn = N ->
  (i < length (xmb self))%nat -> (i < length (xnb self))%nat ->
  nth i (vals (xmb self)) 0 = m ->
  0 <= m < Z.of_nat (ncols cosmm) -> 0 <= m < Z.of_nat (ncols sinmm) ->
  nth i (vals (xnb self)) 0 = q * nfp self ->
  Z.abs q < Z.of_nat (ncols cosnn) -> Z.abs q < Z.of_nat (ncols sinnn) ->
  (forall k, (k < N)%nat ->
     (col_at cosmm m k * col_at cosnn (Z.abs q) k
      + col_at sinmm m k * col_at sinnn (Z.abs q) k * np_sign (q * nfp self)
      = wc k)%R /\
     (col_at sinmm m k * col_at cosnn (Z.abs q) k
      - col_at cosmm m k * col_at sinnn (Z.abs q) k * np_sign (q * nfp self)
      = ws k)%R) ->
  length bmod_b = N -> nd_fits N rad -> nd_fits N zee ->
  length vboz = N -> length xjac = N -> length bbjac = N ->
  (i < nrows (o_bmncb o))%nat -> (i < nrows (o_rmncb o))%nat ->
  (i < nrows (o_zmnsb o))%nat -> (i < nrows (o_pmnsb o))%nat ->
  (i < nrows (o_gmncb o))%nat ->
  (jr < ncols (o_bmncb o))%nat -> (jr < ncols (o_rmncb o))%nat ->
  (jr < ncols (o_zmnsb o))%nat -> (jr < ncols (o_pmnsb o))%nat ->
  (jr < ncols (o_gmncb o))%nat ->
  boozerfun_mode self cosmm sinmm cosnn sinnn bmod_b rad zee vboz xjac bbjac
    (Z.of_nat jr) o (Z.of_nat i)
  = Ok {| o_bmncb := store_at (o_bmncb o) i jr
            (quadrature (fun k => nth k bmod_b 0 * (wc k * nth k xjac 0))%R N);
          o_rmncb := store_at (o_rmncb o) i jr
            (quadrature (fun k => nd_at rad k * (wc k * nth k xjac 0))%R N);
          o_zmnsb := store_at (o_zmnsb o) i jr
            (quadrature (fun k => nd_at zee k * (ws k * nth k xjac 0))%R N);
          o_pmnsb := store_at (o_pmnsb o) i jr
            (- quadrature (fun k => nth k vboz 0 * (ws k * nth k xjac 0))%R N)%R;
          o_gmncb := store_at (o_gmncb o) i jr
            (quadrature (fun k => nth k bbjac 0 * (wc k * nth k xjac 0))%R N) |}.
Proof.
  intros Hnfp R1 R2 R3 R4 L1 L2 Hm Cm1 Cm2 Hx Cn1 Cn2 Hbasis Lb Frad Fzee Lv Lx Lbb
    Hb Hr Hz Hp Hg Jb Jr Jz Jp Jg.
  unfold boozerfun_mode.
  rewrite !item_nat by (rewrite ?length_vals; lia). cbn [bind].
  rewrite Hm, Hx, int_div_abs_mul by lia. cbn [bind].
  destruct (@trig_mode_ok cosmm sinmm cosnn sinnn m
              (Z.abs q) (np_sign (q * nfp self)) N)
    as (tcos & tsin & Et); auto; try lia.
  rewrite Et. cbn [bind].
  destruct (@trig_mode_spec cosmm sinmm cosnn sinnn _ _ _ tcos tsin N R1 R2 R3 R4 Et)
    as (Ltc & Lts & Htrig).
  unfold vmul.
  rewrite (bcast_same Rmult tcos xjac) by lia. cbn [bind].
  rewrite (bcast_same Rmult tsin xjac) by lia. cbn [bind].
  set (cost := map2 Rmult tcos xjac). set (sint := map2 Rmult tsin xjac).
  assert (Lc : length cost = N) by (subst cost; rewrite length_map2; lia).
  assert (Ls : length sint = N) by (subst sint; rewrite length_map2; lia).
  assert (Vc : forall k, (k < N)%nat -> nth k cost 0%R = (wc k * nth k xjac 0)%R).
  { intros k Hk. subst cost. rewrite nth_map2 with (da := 0%R) (db := 0%R) by lia.
    destruct (Htrig k Hk) as [-> _]. now destruct (Hbasis k Hk) as [-> _]. }
  assert (Vs : forall k, (k < N)%nat -> nth k sint 0%R = (ws k * nth k xjac 0)%R).
  { intros k Hk. subst sint. rewrite nth_map2 with (da := 0%R) (db := 0%R) by lia.
    destruct (Htrig k Hk) as [_ ->]. now destruct (Hbasis k Hk) as [_ ->]. }
  rewrite (bcast_same Rmult bmod_b cost) by lia. cbn [bind].
  rewrite set_at_ok by assumption. cbn [bind].
  destruct (@nd_mul_ok rad cost N Frad Lc) as (lr & Er & Llr & Vr).
  rewrite Er. cbn [bind nd_sum]. rewrite set_at_ok by assumption. cbn [bind].
  destruct (@nd_mul_ok zee sint N Fzee Ls) as (lz & Ez & Llz & Vz).
  rewrite Ez. cbn [bind nd_sum]. rewrite set_at_ok by assumption. cbn [bind].
  rewrite (bcast_same Rmult vboz sint) by lia. cbn [bind].
  rewrite set_at_ok by assumption. cbn [bind].
  rewrite (bcast_same Rmult bbjac cost) by lia. cbn [bind].
  rewrite set_at_ok by assumption. cbn [bind].
  rewrite (@py_sum_quadrature (map2 Rmult bmod_b cost)
             (fun k => (nth k bmod_b 0 * (wc k * nth k xjac 0))%R) N).
  2:{ rewrite length_map2; lia. }
  2:{ intros k Hk. rewrite nth_map2 with (da := 0%R) (db := 0%R) by lia.
      now rewrite Vc. }
  rewrite (@py_sum_quadrature lr (fun k => (nd_at rad k * (wc k * nth k xjac 0))%R) N).
  2:{ exact Llr. }
  2:{ intros k Hk. rewrite Vr by assumption. now rewrite Vc. }
  rewrite (@py_sum_quadrature lz (fun k => (nd_at zee k * (ws k * nth k xjac 0))%R) N).
  2:{ exact Llz. }
  2:{ intros k Hk. rewrite Vz by assumption. now rewrite Vs. }
  rewrite (@py_sum_quadrature (map2 Rmult vboz sint)
             (fun k => (nth k vboz 0 * (ws k * nth k xjac 0))%R) N).
  2:{ rewrite length_map2; lia. }
  2:{ intros k Hk. rewrite nth_map2 with (da := 0%R) (db := 0%R) by lia.
      now rewrite Vs. }
  rewrite (@py_sum_quadrature (map2 Rmult bbjac cost)
             (fun k => (nth k bbjac 0 * (wc k * nth k xjac 0))%R) N).
  2:{ rewrite length_map2; lia. }
  2:{ intros k Hk. rewrite nth_map2 with (da := 0%R) (db := 0%R) by lia.
      now rewrite Vc. }
  reflexivity.
Qed.

Lemma quadrature_ext (f g : nat -> R) (N : nat) :
  (forall k, (k < N)%nat -> f k = g k) -> quadrature f N = quadrature g N.
Proof.
  intros H. unfold quadrature. f_equal. apply map_ext_in.
  intros k Hk. apply in_seq in Hk. apply H. lia.
Qed.

Lemma store_at_same (t : tbl) (i j : nat) (x : R) : val (at_ (store_at t i j x) i j) = x.
Proof. cbn [store_at at_]. now rewrite !Nat.eqb_refl. Qed.

Lemma store_at_other_row (t : tbl) (i j i' : nat) (x : R) :
  i' <> i -> at_ (store_at t i j x) i' j = at_ t i' j.
Proof.
  intros H. cbn [store_at at_]. destruct (Nat.eqb_spec i' i); [contradiction|]. reflexivity.
Qed.

Lemma sums_stored_step vb vr vz vp vg (jr m : nat) o0 o :
  sums_stored vb vr vz vp vg jr m o0 o ->
  sums_stored vb vr vz vp vg jr (S m) o0
    {| o_bmncb := store_at (o_bmncb o) m jr (vb m);
       o_rmncb := store_at (o_rmncb o) m jr (vr m);
       o_zmnsb := store_at (o_zmnsb o) m jr (vz m);
       o_pmnsb := store_at (o_pmnsb o) m jr (vp m);
       o_gmncb := store_at (o_gmncb o) m jr (vg m) |}.
Proof.
  intros (Hs & Hv). split.
  - destruct Hs as (S1 & S2 & S3 & S4 & S5).
    unfold same_shapes, same_shape in *. cbn [o_bmncb o_rmncb o_zmnsb o_pmnsb o_gmncb].
    cbn [store_at nrows ncols]. tauto.
  - intros i Hi. cbn [o_bmncb o_rmncb o_zmnsb o_pmnsb o_gmncb].
    destruct (Nat.eq_dec i m) as [->|Hne].
    + rewrite !store_at_same. auto.
    + rewrite !store_at_other_row by assumption. apply Hv. lia.
Qed.

(** The first part of [boozerfun] returns, with the quadrature sums of all
    modes in column [jr]. *)
Lemma boozerfun_sums_ok junk self st bmod_b rad zee uboz vboz xjac jacfac (jr n N : nat) :
  0 < nfp self -> 1 <= mboz self -> 0 <= nboz self ->
  Z.of_nat N = nunv self -> 0 < nv_boz self -> 2 <= nu2_b self ->
  nunv self = nu2_b self * nv_boz self ->
  length (thgrid self) = N -> length (ztgrid self) = N ->
  length uboz = N -> length vboz = N -> length xjac = N -> length bmod_b = N ->
  nd_fits N rad -> nd_fits N zee ->
  Z.of_nat n = mnboz self -> length (xmb self) = n -> length (xnb self) = n ->
  (forall i, (i < n)%nat -> boozer_mode_covered self i) ->
  nrows (bmncb st) = n -> nrows (rmncb st) = n -> nrows (zmnsb st) = n ->
  nrows (pmnsb st) = n -> nrows (gmncb st) = n ->
  (jr < ncols (bmncb st))%nat -> (jr < ncols (rmncb st))%nat ->
  (jr < ncols (zmnsb st))%nat -> (jr < ncols (pmnsb st))%nat ->
  (jr < ncols (gmncb st))%nat ->
  exists o cs,
    boozerfun_sums junk self st bmod_b rad zee uboz vboz xjac jacfac (Z.of_nat jr)
      = Ok (o, cs) /\
    sums_stored
      (fun i => quadrature
         (fun k => nth k bmod_b 0 * cos_kernel self uboz vboz xjac i k)%R N)
      (fun i => quadrature
         (fun k => nd_at rad k * cos_kernel self uboz vboz xjac i k)%R N)
      (fun i => quadrature
         (fun k => nd_at zee k * sin_kernel self uboz vboz xjac i k)%R N)
      (fun i => (- quadrature
         (fun k => nth k vboz 0 * sin_kernel self uboz vboz xjac i k)%R N)%R)
      (fun i => quadrature
         (fun k => jacfac / (nth k bmod_b 0 * nth k bmod_b 0)
                   * cos_kernel self uboz vboz xjac i k)%R N)
      jr n (outputs_of st) o.
Proof.
  intros Hnfp Hmb Hnb HN Hnv Hnu Hnunv Lth Lzt Lu Lv Lx Lb Frad Fzee Hn L1 L2 Hcov
    Rb Rr Rz Rp Rg Jb Jr Jz Jp Jg.
  unfold boozerfun_sums, vadd.
  rewrite (bcast_same Rplus (thgrid self) uboz) by lia. cbn [bind].
  rewrite (bcast_same Rplus (ztgrid self) vboz) by lia. cbn [bind].
  set (uang := map2 Rplus (thgrid self) uboz).
  set (vang := map2 Rplus (ztgrid self) vboz).
  assert (Lua : length uang = N) by (subst uang; rewrite length_map2; lia).
  assert (Lva : length vang = N) by (subst vang; rewrite length_map2; lia).
  destruct (@trigfunc_spec junk (nfp self) uang vang (mboz self) (nboz self) N)
    as (cosmmt & sinmmt & cosnnt & sinnnt & Et & Hpol & Htor); try lia.
  rewrite <- HN, Et. cbn [bind].
  set (M := Z.to_nat (mboz self + 1)) in *.
  pose proof Hpol as (Rc & Rs & Cc & Cs & _).
  pose proof Htor as (Rcn & Rsn & Ccn & Csn & _).
  destruct (@half_weights_loop (theta_weight self) N (nv_boz self)
              (nv_boz self * (nu2_b self - 1)) M (np_copy cosmmt) (np_copy sinmmt))
    as (cosmm & sinmm & Ew & Wc & Ws); auto; try nia.
  replace (mboz self + 1) with (Z.of_nat M) by (subst M; lia).
  match goal with
  | |- context [bind ?x _] => replace x with (Ok (cosmm, sinmm)) by (symmetry; exact Ew)
  end.
  cbn [bind].
  pose proof Wc as (Rwc & Cwc & Vwc). pose proof Ws as (Rws & Cws & Vws).
  cbn [np_copy nrows ncols] in Rwc, Cwc, Rws, Cws.
  set (bbjac := map (fun b => (jacfac / (b * b))%R) bmod_b).
  set (wc := fun (i k : nat) =>
    (theta_weight self k * cos (boozer_phase self uboz vboz i k))%R).
  set (ws := fun (i k : nat) =>
    (theta_weight self k * sin (boozer_phase self uboz vboz i k))%R).
  set (vb := fun i => quadrature (fun k => nth k bmod_b 0 * (wc i k * nth k xjac 0))%R N).
  set (vr := fun i => quadrature (fun k => nd_at rad k * (wc i k * nth k xjac 0))%R N).
  set (vz := fun i => quadrature (fun k => nd_at zee k * (ws i k * nth k xjac 0))%R N).
  set (vp := fun i =>
    (- quadrature (fun k => nth k vboz 0 * (ws i k * nth k xjac 0))%R N)%R).
  set (vg := fun i => quadrature (fun k => nth k bbjac 0 * (wc i k * nth k xjac 0))%R N).
  destruct (@foldM_range_inv _
    (boozerfun_mode self cosmm sinmm (np_copy cosnnt) (np_copy sinnnt) bmod_b rad zee
       vboz xjac bbjac (Z.of_nat jr))
    (fun j o => exists m, j = Z.of_nat m /\
       sums_stored vb vr vz vp vg jr m (outputs_of st) o)
    0 (Z.of_nat n)) with (st := outputs_of st) as (o & Eo & m & Hm & Hst).
  - lia.
  - intros j o Hj (i & -> & Hst).
    destruct (Hcov i ltac:(lia)) as (Hmm & q & Hx & Hq & Hq1).
    set (mm := nth i (vals (xmb self)) 0) in *.
    pose proof Hst as ((S1 & S2 & S3 & S4 & S5) & _).
    unfold same_shape in S1, S2, S3, S4, S5. cbn [outputs_of o_bmncb o_rmncb o_zmnsb
      o_pmnsb o_gmncb] in S1, S2, S3, S4, S5.
    eexists. split.
    + apply (@boozerfun_mode_ok self cosmm sinmm (np_copy cosnnt) (np_copy sinnnt)
               bmod_b rad zee vboz xjac bbjac jr i N o (wc i) (ws i)
               mm q); auto;
        cbn [np_copy nrows ncols]; try lia.
      * intros k Hk.
        rewrite (@col_at_val cosmm mm k),
                (@col_at_val sinmm mm k)
          by (rewrite ?Rwc, ?Rws, ?Cwc, ?Cws; subst M; lia).
        rewrite (Vwc k _ Hk), (Vws k _ Hk).
        replace (Z.to_nat mm <? M)%nat with true
          by (symmetry; apply Nat.ltb_lt; subst M; lia).
        cbn [np_copy at_ val].
        destruct Hpol as (_ & _ & _ & _ & Hval & _).
        destruct (Hval k (Z.to_nat mm)) as [-> ->];
          [lia | subst M; lia |].
        cbn [val]. rewrite INR_IZR_INZ, Z2Nat.id by lia.
        destruct (@harmonics_col _ _ (fun i0 => (nth i0 vang 0 * IZR (nfp self))%R) N _ _
                    cosnnt sinnnt (Z.abs q) k Htor) as [-> ->]; try lia.
        { destruct (1 <? nboz self); lia. }
        { destruct (Z.ltb_spec 1 (nboz self)); lia. }
        rewrite np_sign_mul_pos by lia.
        destruct (phase_identity (IZR mm * nth k uang 0)%R
                    (nth k vang 0 * IZR (nfp self))%R q) as [Pc Ps].
        assert (Hph : boozer_phase self uboz vboz i k
                      = (IZR mm * nth k uang 0
                         - IZR q * (nth k vang 0 * IZR (nfp self)))%R).
        { unfold boozer_phase. rewrite Hx, mult_IZR. subst uang vang mm.
          rewrite !nth_map2 with (da := 0%R) (db := 0%R) by lia. ring. }
        subst wc ws. cbv beta. rewrite Hph, <- Pc, <- Ps. split; ring.
      * subst bbjac. now rewrite length_map.
    + exists (S i). split; [lia|]. exact (sums_stored_step Hst).
  - exists 0%nat. split; [reflexivity|]. split; [apply same_shapes_refl|].
    intros i Hi. lia.
  - apply Nat2Z.inj in Hm. subst m. rewrite <- Hn, Eo. cbn [bind].
    do 2 eexists. split; [reflexivity|].
    destruct Hst as (Hs & Hv). split; [exact Hs|].
    intros i Hi. destruct (Hv i Hi) as (V1 & V2 & V3 & V4 & V5).
    rewrite V1, V2, V3, V4, V5. subst vb vr vz vp vg wc ws. cbv beta.
    unfold cos_kernel, sin_kernel.
    repeat split; try reflexivity.
    apply quadrature_ext. intros k Hk. subst bbjac.
    now rewrite nth_map_in with (da := 0%R) by lia.
Qed.

Lemma imul_col_ok (t : tbl) (j : nat) (v : list R) :
  (j < ncols t)%nat -> length v = nrows t ->
  exists t', imul_col t (Z.of_nat j) v = Ok t' /\ column_scaled v j t t'.
Proof.
  intros Hj Hv.
  assert (E : exists t', imul_col t (Z.of_nat j) v = Ok t').
  { unfold imul_col. rewrite get_col_ok by assumption. cbn [bind].
    rewrite bcast_into_same by (now rewrite col_vals_length). cbn [bind].
    rewrite set_col_vec by (rewrite ?length_map2, ?col_vals_length; lia).
    eexists. reflexivity. }
  destruct E as (t' & E). exists t'. split; [exact E|].
  destruct (imul_col_spec _ _ _ E Hv) as (c & Hc & Hspec).
  rewrite np_index_nat in Hc by assumption. inversion Hc; subst c. exact Hspec.
Qed.

Lemma column_scaled_val (v : list R) (c : nat) (t t' : tbl) (i : nat) :
  column_scaled v c t t' -> (i < nrows t)%nat ->
  val (at_ t' i c) = (val (at_ t i c) * nth i v 0)%R.
Proof.
  intros (_ & _ & H) Hi. rewrite H, Nat.eqb_refl.
  replace (i <? nrows t)%nat with true by (symmetry; now apply Nat.ltb_lt).
  reflexivity.
Qed.

Lemma boozerfun_run junk self st bmod_b rad zee uboz vboz xjac jacfac (jr n N : nat) :
  0 < nfp self -> 1 <= mboz self -> 0 <= nboz self ->
  Z.of_nat N = nunv self -> 0 < nv_boz self -> 2 <= nu2_b self ->
  nunv self = nu2_b self * nv_boz self ->
  length (thgrid self) = N -> length (ztgrid self) = N ->
  length uboz = N -> length vboz = N -> length xjac = N -> length bmod_b = N ->
  nd_fits N rad -> nd_fits N zee ->
  Z.of_nat n = mnboz self -> length (xmb self) = n -> length (xnb self) = n ->
  length (scl self) = n ->
  (forall i, (i < n)%nat -> boozer_mode_covered self i) ->
  nrows (bmncb st) = n -> nrows (rmncb st) = n -> nrows (zmnsb st) = n ->
  nrows (pmnsb st) = n -> nrows (gmncb st) = n ->
  (jr < ncols (bmncb st))%nat -> (jr < ncols (rmncb st))%nat ->
  (jr < ncols (zmnsb st))%nat -> (jr < ncols (pmnsb st))%nat ->
  (jr < ncols (gmncb st))%nat ->
  exists st',
    boozerfun junk self st bmod_b rad zee uboz vboz xjac jacfac (Z.of_nat jr) = Ok st' /\
    forall mn, (mn < n)%nat ->
      val (at_ (bmncb st') mn jr)
        = (quadrature (fun k => nth k bmod_b 0 * cos_kernel self uboz vboz xjac mn k) N
           * nth mn (vals (scl self)) 0)%R /\
      val (at_ (rmncb st') mn jr)
        = (quadrature (fun k => nd_at rad k * cos_kernel self uboz vboz xjac mn k) N
           * nth mn (vals (scl self)) 0)%R /\
      val (at_ (zmnsb st') mn jr)
        = (quadrature (fun k => nd_at zee k * sin_kernel self uboz vboz xjac mn k) N
           * nth mn (vals (scl self)) 0)%R /\
      val (at_ (pmnsb st') mn jr)
        = (- quadrature (fun k => nth k vboz 0 * sin_kernel self uboz vboz xjac mn k) N
           * nth mn (vals (scl self)) 0)%R /\
      val (at_ (gmncb st') mn jr)
        = (quadrature (fun k => jacfac / (nth k bmod_b 0 * nth k bmod_b 0)
                                * cos_kernel self uboz vboz xjac mn k) N
           * nth mn (vals (scl self)) 0)%R.
Proof.
  intros Hnfp Hmb Hnb HN Hnv Hnu Hnunv Lth Lzt Lu Lv Lx Lb Frad Fzee Hn L1 L2 Ls Hcov
    Rb Rr Rz Rp Rg Jb Jr Jz Jp Jg.
  destruct (@boozerfun_sums_ok junk self st bmod_b rad zee uboz vboz xjac jacfac jr n N)
    as (o & cs & Es & Hs & Hv); auto.
  destruct Hs as ((S1 & C1) & (S2 & C2) & (S3 & C3) & (S4 & C4) & (S5 & C5)).
  cbn [outputs_of o_bmncb o_rmncb o_zmnsb o_pmnsb o_gmncb] in S1, C1, S2, C2, S3, C3,
    S4, C4, S5, C5.
  assert (Lsv : length (vals (scl self)) = n) by (now rewrite length_vals).
  destruct (@imul_col_ok (o_bmncb o) jr (vals (scl self))) as (bm & Eb & Hb); try lia.
  destruct (@imul_col_ok (o_rmncb o) jr (vals (scl self))) as (rm & Er & Hr); try lia.
  destruct (@imul_col_ok (o_zmnsb o) jr (vals (scl self))) as (zm & Ez & Hz); try lia.
  destruct (@imul_col_ok (o_pmnsb o) jr (vals (scl self))) as (pm & Ep & Hp); try lia.
  destruct (@imul_col_ok (o_gmncb o) jr (vals (scl self))) as (gm & Eg & Hg); try lia.
  unfold boozerfun. rewrite Es. cbn [bind].
  destruct cs as [[[cm cn] sm] sn].
  unfold scale_outputs. rewrite Eb, Er, Ez, Ep, Eg. cbn [bind].
  eexists. split; [reflexivity|].
  intros mn Hmn. destruct (Hv mn Hmn) as (V1 & V2 & V3 & V4 & V5).
  cbn [with_outputs bmncb rmncb zmnsb pmnsb gmncb o_bmncb o_rmncb o_zmnsb o_pmnsb
    o_gmncb].
  rewrite (@column_scaled_val _ _ _ _ mn Hb), (@column_scaled_val _ _ _ _ mn Hr),
    (@column_scaled_val _ _ _ _ mn Hz), (@column_scaled_val _ _ _ _ mn Hp),
    (@column_scaled_val _ _ _ _ mn Hg) by lia.
  rewrite V1, V2, V3, V4, V5. repeat split; reflexivity.
Qed.

(** [boozerfun] returns, and stores in column [jrad] of the five output
    tables, for each Boozer mode, the quadrature sum over the angle grid times
    the mode's normalisation [scl]: the integrand is the signal ([bmod_b],
    [rad], [zee], [- vboz], [jacfac / bmod_b**2]) times the Jacobian, the
    theta weight (1/2 on the first and on the last theta row, 1 elsewhere) and
    the cosine or the sine of the mode's phase at the Boozer angles.  It holds
    for a field strength [bmod_b] that vanishes nowhere on the grid and for
    the modes the tables cover: with [nboz = 1] only the modes of toroidal
    number 0. *)
Theorem boozerfun_quadrature junk self st bmod_b rad zee uboz vboz xjac jacfac
  (jr n N : nat) :
  0 < nfp self -> 1 <= mboz self -> 0 <= nboz self ->
  Z.of_nat N = nunv self -> 0 < nv_boz self -> 2 <= nu2_b self ->
  nunv self = nu2_b self * nv_boz self ->
  length (thgrid self) = N -> length (ztgrid self) = N ->
  length uboz = N -> length vboz = N -> length xjac = N -> length bmod_b = N ->
  (forall k, (k < N)%nat -> nth k bmod_b 0%R <> 0%R) ->
  nd_fits N rad -> nd_fits N zee ->
  Z.of_nat n = mnboz self -> length (xmb self) = n -> length (xnb self) = n ->
  length (scl self) = n ->
  (forall i, (i < n)%nat -> boozer_mode_covered self i) ->
  nrows (bmncb st) = n -> nrows (rmncb st) = n -> nrows (zmnsb st) = n ->
  nrows (pmnsb st) = n -> nrows (gmncb st) = n ->
  (jr < ncols (bmncb st))%nat -> (jr < ncols (rmncb st))%nat ->
  (jr < ncols (zmnsb st))%nat -> (jr < ncols (pmnsb st))%nat ->
  (jr < ncols (gmncb st))%nat ->
  exists st',
    boozerfun junk self st bmod_b rad zee uboz vboz xjac jacfac (Z.of_nat jr) = Ok st' /\
    forall mn, (mn < n)%nat ->
      val (at_ (bmncb st') mn jr)
        = (quadrature (fun k => nth k bmod_b 0 * cos_kernel self uboz vboz xjac mn k) N
           * nth mn (vals (scl self)) 0)%R /\
      val (at_ (rmncb st') mn jr)
        = (quadrature (fun k => nd_at rad k * cos_kernel self uboz vboz xjac mn k) N
           * nth mn (vals (scl self)) 0)%R /\
      val (at_ (zmnsb st') mn jr)
        = (quadrature (fun k => nd_at zee k * sin_kernel self uboz vboz xjac mn k) N
           * nth mn (vals (scl self)) 0)%R /\
      val (at_ (pmnsb st') mn jr)
        = (- quadrature (fun k => nth k vboz 0 * sin_kernel self uboz vboz xjac mn k) N
           * nth mn (vals (scl self)) 0)%R /\
      val (at_ (gmncb st') mn jr)
        = (quadrature (fun k => jacfac / (nth k bmod_b 0 * nth k bmod_b 0)
                                * cos_kernel self uboz vboz xjac mn k) N
           * nth mn (vals (scl self)) 0)%R.
Proof.
  intros Hnfp Hmb Hnb HN Hnv Hnu Hnunv Lth Lzt Lu Lv Lx Lb _.
  exact (@boozerfun_run junk self st bmod_b rad zee uboz vboz xjac jacfac jr n N
           Hnfp Hmb Hnb HN Hnv Hnu Hnunv Lth Lzt Lu Lv Lx Lb).
Qed.

(** Settles a closed side condition on one of the small objects by
    evaluation. *)
Ltac by_evaluation :=
  lazymatch goal with
  | |- forall _, _ => fail
  | |- exists _, _ => fail
  | _ => idtac
  end;
  first [ lia
        | vm_compute;
          first [ reflexivity | exact I | discriminate | lia | easy
                | solve [repeat constructor] ] ].

(** A mode of a small object lies within the tables: its toroidal number is
    [q] field periods. *)
Ltac mode_with q :=
  split;
  [ by_evaluation
  | exists q; split;
    [ by_evaluation
    | split; [ by_evaluation | first [ left; by_evaluation | right; by_evaluation ] ] ] ].

Lemma setup_requires_witness :
  2 <= vd_mpol sample_data /\ 0 <= vd_ntor sample_data /\ 1 <= vd_mnyq sample_data /\
  0 <= vd_nnyq sample_data /\ 0 <= vd_ns sample_data /\ 1 <= mnboz_of 1 0.
Proof.
  apply (@setup_requires (fun _ _ _ => 0%R) (fun _ => 0%R) (fun _ => 0) sample_data 0 1
           sample_object).
  by_evaluation.
Defined.

Lemma grid_angles_witness :
  nunv sample_self = (2 * 1 + 2) * (4 * 0 + 2) /\
  (forall k : nat, Z.of_nat k < nunv sample_self ->
     nth k (thgrid sample_self) 0%R
       = (IZR (Z.of_nat k / nv_boz sample_self)
          * (2 * PI / IZR (2 * (nu3_b sample_self - 1))))%R /\
     nth k (ztgrid sample_self) 0%R
       = (IZR (Z.of_nat k mod nv_boz sample_self)
          * (2 * PI / IZR (nv_boz sample_self * nfp sample_self)))%R) /\
  item (thgrid sample_self) (nv_boz sample_self * (nu2_b sample_self - 1)) 0%R
    = Ok (IZR (nu2_b sample_self - 1) * (2 * PI / IZR (2 * (nu3_b sample_self - 1))))%R /\
  item (ztgrid sample_self) (nv2_b sample_self - 1) 0%R
    = Ok (IZR (nv2_b sample_self - 1)
          * (2 * PI / IZR (nv_boz sample_self * nfp sample_self)))%R.
Proof.
  destruct (@grid_angles (fun _ _ _ => 0%R) (fun _ => 0%R) (fun _ => 0)
              sample_data 0 1 sample_self sample_store)
    as (H1 & _ & _ & _ & _ & _ & _ & H8 & H9 & H10 & _); [by_evaluation ..|].
  exact (conj H1 (conj H8 (conj H9 H10))).
Defined.

Lemma corner_angles_spec_witness :
  corner_angles (fun _ => 0%R) sample_self [10; 11; 12; 13; 14; 15; 16; 17]%R
    [20; 21; 22; 23; 24; 25; 26; 27]%R =
    Ok ([10; IZR (2 * 1 + 1) * (2 * PI / IZR (2 * (2 * 1 + 1))) + 16; 11;
         IZR (2 * 1 + 1) * (2 * PI / IZR (2 * (2 * 1 + 1))) + 17]%R,
        [20; 26;
         IZR (2 * 0 + 1) * (2 * PI / IZR ((4 * 0 + 2) * nfp sample_self)) + 21;
         IZR (2 * 0 + 1) * (2 * PI / IZR ((4 * 0 + 2) * nfp sample_self)) + 27]%R).
Proof.
  destruct (@corner_angles_spec (fun _ _ _ => 0%R) (fun _ => 0%R) (fun _ => 0)
              sample_data 0 1 sample_self sample_store
              [10; 11; 12; 13; 14; 15; 16; 17]%R
              [20; 21; 22; 23; 24; 25; 26; 27]%R)
    as (_ & _ & H & _); [by_evaluation ..|].
  exact H.
Defined.

Lemma native_basis_functions_witness :
  tcos_at sample_self2 2 3
    = cos (IZR (mode_number (xm sample_self2) 2%Z) * nth 3 (thgrid sample_self2) 0
           - IZR (mode_number (xn sample_self2) 2%Z) * nth 3 (ztgrid sample_self2) 0)%R /\
  tsin_at sample_self2 2 3
    = sin (IZR (mode_number (xm sample_self2) 2%Z) * nth 3 (thgrid sample_self2) 0
           - IZR (mode_number (xn sample_self2) 2%Z) * nth 3 (ztgrid sample_self2) 0)%R.
Proof.
  refine (@native_basis_functions (fun _ _ _ => 0%R) (fun _ => 0%R) (fun _ => 0)
            sample_data2 0 1 sample_self2 sample_store2 2 (-1) 3 _ _ _ _ _ _ _ _ _);
    first [ by_evaluation | right; by_evaluation ].
Defined.

Lemma native_first_harmonic_unset_witness :
  at_ (cosn_b sample_self_mem) 3 1 = {| val := sample_memory 2 3 1; writes := 1 |} /\
  at_ (sinn_b sample_self_mem) 3 1 = {| val := sample_memory 3 3 1; writes := 1 |} /\
  tcos_at sample_self_mem 2 3
    = (cos (IZR (mode_number (xm sample_self_mem) 2%Z) * nth 3 (thgrid sample_self_mem) 0)
       * sample_memory 2 3 1
       + sin (IZR (mode_number (xm sample_self_mem) 2%Z)
              * nth 3 (thgrid sample_self_mem) 0)
         * sample_memory 3 3 1 * np_sign (mode_number (xn sample_self_mem) 2%Z))%R /\
  tsin_at sample_self_mem 2 3
    = (sin (IZR (mode_number (xm sample_self_mem) 2%Z) * nth 3 (thgrid sample_self_mem) 0)
       * sample_memory 2 3 1
       - cos (IZR (mode_number (xm sample_self_mem) 2%Z)
              * nth 3 (thgrid sample_self_mem) 0)
         * sample_memory 3 3 1 * np_sign (mode_number (xn sample_self_mem) 2%Z))%R.
Proof.
  destruct (@native_first_harmonic_unset sample_memory (fun _ => 0%R)
              (fun _ => 0) sample_data 0 1 sample_self_mem (snd sample_object_mem))
    with (k := 3%nat) as (Hc & Hs & Hb); [by_evaluation ..|].
  refine (conj Hc (conj Hs (Hb 2%Z _ _ _))); by_evaluation.
Defined.

Lemma transpmn_amplitudes_witness :
  exists acc,
    transpmn sample_self [0; 0; 0; 0; 0]%R [1; 2; 3; 4; 5]%R [6; 7; 8; 9; 10]%R
      [0; 0; 0]%R [0; 0; 0]%R (Z.of_nat 1) = Ok acc /\
    nth 1 (p_gpsi acc) 0%R = 6%R /\ nth 1 (p_ipsi acc) 0%R = 1%R /\
    nth 2 (p_pmns acc) 0%R
      = pmn_value (nth 2 (xmnyq sample_self) 0) (nth 2 (xnnyq sample_self) 0) 3%R 8%R.
Proof.
  destruct (@transpmn_amplitudes sample_self [0; 0; 0; 0; 0]%R [1; 2; 3; 4; 5]%R
              [6; 7; 8; 9; 10]%R [0; 0; 0]%R [0; 0; 0]%R 1 5)
    as (acc & E & _ & _ & _ & Hp & _ & _ & _ & Hz); try by_evaluation.
  exists acc. split; [exact E|].
  destruct (Hz 0%nat) as [Hg Hi].
  - lia.
  - split; by_evaluation.
  - intros k' Hk' [Hm Hn].
    assert (Hk : k' = 1%nat \/ k' = 2%nat \/ k' = 3%nat \/ k' = 4%nat) by lia.
    destruct Hk as [-> | [-> | [-> | ->]]]; vm_compute in Hm, Hn;
      first [discriminate Hm | discriminate Hn].
  - split; [exact Hg|]. split; [exact Hi|]. apply (Hp 2%nat). lia.
Defined.

Lemma modbooz_series_witness :
  exists st' bmod,
    modbooz (fun _ => 0%R) sample_self12 sample_store12 1 = Ok (st', bmod) /\
    vals (xmb sample_self12) = [0; 0; 0] /\ vals (xnb sample_self12) = [0; 1; 2] /\
    col_vals (bmncb sample_store12) (Z.to_nat 1) = [2; 3; 5]%R /\
    nth 1 (u_b sample_store12) 0%R = 1%R /\ nth 1 (v_b sample_store12) 0%R = 4%R /\
    nth 1 bmod 0%R
      = boozer_series (vals (xmb sample_self12)) (vals (xnb sample_self12))
          (col_vals (bmncb sample_store12) (Z.to_nat 1))
          (nth 1 (u_b sample_store12) 0%R) (nth 1 (v_b sample_store12) 0%R).
Proof.
  destruct (@modbooz_series (fun _ => 0%R) sample_self12 sample_store12 1 3)
    as (st' & bmod & E & _ & _ & _ & _ & Hv); try by_evaluation.
  - intros i Hi.
    destruct i as [|[|[|i]]]; [mode_with 0 | mode_with 1 | mode_with 2 | lia].
  - exists st', bmod. split; [exact E|].
    split; [reflexivity|]. split; [reflexivity|]. split; [reflexivity|].
    split; [reflexivity|]. split; [reflexivity|].
    apply (Hv 1%nat). lia.
Defined.

Lemma boozerfun_quadrature_witness :
  exists st',
    boozerfun (fun _ _ _ => 0%R) sample_self22 sample_store22 (repeat 1%R 60)
      (Ar (repeat 1%R 60)) (Sc 0) (repeat 0%R 60) (repeat 0%R 60) (repeat 1%R 60) 1%R
      (Z.of_nat 1) = Ok st' /\
    val (at_ (bmncb st') 4 1)
      = (quadrature
           (fun k => nth k (repeat 1%R 60) 0
                     * cos_kernel sample_self22 (repeat 0%R 60) (repeat 0%R 60)
                         (repeat 1%R 60) 4 k) 60
         * nth 4 (vals (scl sample_self22)) 0)%R.
Proof.
  destruct (@boozerfun_quadrature (fun _ _ _ => 0%R) sample_self22 sample_store22
              (repeat 1%R 60) (Ar (repeat 1%R 60)) (Sc 0) (repeat 0%R 60) (repeat 0%R 60)
              (repeat 1%R 60) 1%R 1 8 60)
    as (st' & E & Hv); try by_evaluation.
  - intros k Hk Hz.
    assert (Hin : In (nth k (repeat 1%R 60) 0%R) (repeat 1%R 60))
      by (apply nth_In; rewrite repeat_length; exact Hk).
    apply repeat_spec in Hin. rewrite Hin in Hz. lra.
  - intros i Hi.
    destruct i as [|[|[|[|[|[|[|[|i]]]]]]]];
      [ mode_with 0 | mode_with 1 | mode_with 2 | mode_with (-2) | mode_with (-1)
      | mode_with 0 | mode_with 1 | mode_with 2 | lia ].
  - exists st'. split; [exact E|]. apply (Hv 4%nat). lia.
Defined.

Lemma item_out {A} (v : list A) (i : Z) (d : A) :
  i < - Z.of_nat (length v) \/ Z.of_nat (length v) <= i ->
  item v i d = Raise IndexError.
Proof.
  intros H. unfold item, np_index.
  destruct (Z.leb_spec 0 i), (Z.ltb_spec i (Z.of_nat (length v))),
    (Z.leb_spec (- Z.of_nat (length v)) i), (Z.ltb_spec i 0);
    cbn [andb bind]; try reflexivity; lia.
Qed.

Lemma item_cases {A} (v : list A) (i : Z) (d : A) :
  (exists x, item v i d = Ok x) \/ item v i d = Raise IndexError.
Proof.
  unfold item, np_index.
  destruct ((0 <=? i) && (i <? Z.of_nat (length v))); cbn [bind]; eauto.
  destruct ((- Z.of_nat (length v) <=? i) && (i <? 0)); cbn [bind]; eauto.
Qed.

(** [harfun] raises IndexError, and logs no warning, when the surface index
    [js] lies outside [-len, len) for one of the three profiles [gpsi],
    [hiota], [ipsi] it reads at [js]. *)
Theorem harfun_surface_out_of_range {T} {arith : Arith T} (hiota gpsi ipsi : list T)
  (js : Z) (xlt xlz xl wt wz w : list T) :
  (js < - Z.of_nat (length gpsi) \/ Z.of_nat (length gpsi) <= js) \/
  (js < - Z.of_nat (length hiota) \/ Z.of_nat (length hiota) <= js) \/
  (js < - Z.of_nat (length ipsi) \/ Z.of_nat (length ipsi) <= js) ->
  harfun hiota gpsi ipsi js xlt xlz xl wt wz w = ([], Raise IndexError).
Proof.
  intros H. unfold harfun.
  destruct (item_cases gpsi js zero) as [[g Hg] | Hg]; rewrite Hg; cbn [bind];
    [|reflexivity].
  destruct (item_cases hiota js zero) as [[h Hh] | Hh]; rewrite Hh; cbn [bind];
    [|reflexivity].
  destruct (item_cases ipsi js zero) as [[i Hi] | Hi]; rewrite Hi; cbn [bind];
    [|reflexivity].
  exfalso.
  destruct H as [H | [H | H]]; apply item_out with (d := zero) in H; congruence.
Qed.

Lemma harfun_surface_out_of_range_witness :
  harfun [1; 1; 1]%R [2; 2; 2]%R [3; 3; 3]%R 3 [0]%R [0]%R [0]%R [0]%R [0]%R [0]%R
    = ([], Raise IndexError).
Proof.
  apply (@harfun_surface_out_of_range R Real_arith [1; 1; 1]%R [2; 2; 2]%R [3; 3; 3]%R 3).
  left. right. simpl. lia.
Defined.

Lemma nd_mul_scalar (c : R) (a : nd) :
  exists b, nd_op Rmult (Sc c) a = Ok b /\
    (forall n, nd_fits n a -> nd_fits n b) /\
    forall n k, nd_fits n a -> (k < n)%nat -> nd_at b k = (c * nd_at a k)%R.
Proof.
  destruct a as [x | v]; cbn [nd_op]; eexists; (split; [reflexivity|]); split.
  - auto.
  - intros. reflexivity.
  - intros n Hn. cbn [nd_fits] in *. now rewrite length_map.
  - intros n k Hn Hk. cbn [nd_fits nd_at] in *.
    rewrite nth_map_in with (da := 0%R) by lia. reflexivity.
Qed.

Lemma nd_add_fits (a b : nd) (n : nat) :
  nd_fits n a -> nd_fits n b ->
  exists c, nd_op Rplus a b = Ok c /\ nd_fits n c /\
    forall k, (k < n)%nat -> nd_at c k = (nd_at a k + nd_at b k)%R.
Proof.
  intros Ha Hb. destruct a as [x | u], b as [y | v]; cbn [nd_op nd_fits] in *.
  - eexists. split; [reflexivity|]. split; [exact I|]. reflexivity.
  - eexists. split; [reflexivity|]. cbn [nd_fits nd_at]. split; [now rewrite length_map|].
    intros k Hk. rewrite nth_map_in with (da := 0%R) by lia. reflexivity.
  - eexists. split; [reflexivity|]. cbn [nd_fits nd_at]. split; [now rewrite length_map|].
    intros k Hk. rewrite nth_map_in with (da := 0%R) by lia. reflexivity.
  - rewrite bcast_same by congruence. cbn [bind]. eexists. split; [reflexivity|].
    cbn [nd_fits nd_at]. split; [rewrite length_map2; lia|].
    intros k Hk. rewrite nth_map2 with (da := 0%R) (db := 0%R) by lia. reflexivity.
Qed.

Lemma booz_rzhalf_run self (r z rodd zodd r12 z12 : nd) (js : Z) (n : nat) :
  (0 <= hs self)%R -> 1 <= js ->
  nd_fits n r -> nd_fits n z -> nd_fits n rodd -> nd_fits n zodd ->
  exists r' z',
    booz_rzhalf self r z rodd zodd r12 z12 js 1 = Ok (r', z') /\
    nd_fits n r' /\ nd_fits n z' /\
    forall k, (k < n)%nat ->
      nd_at r' k = (nd_at r k + sqrt (hs self * (IZR js - 1 / 2)) * nd_at rodd k)%R /\
      nd_at z' k = (nd_at z k + sqrt (hs self * (IZR js - 1 / 2)) * nd_at zodd k)%R.
Proof.
  intros _ Hjs Fr Fz Fro Fzo. unfold booz_rzhalf. cbn [Z.eqb Pos.eqb].
  assert (Habs : Rabs (IZR js - 1 / 2) = (IZR js - 1 / 2)%R).
  { apply Rabs_pos_eq. apply IZR_le in Hjs. lra. }
  rewrite Habs. set (shalf := sqrt (hs self * (IZR js - 1 / 2))).
  destruct (nd_mul_scalar shalf rodd) as (a & -> & Fa & Va). cbn [bind].
  destruct (@nd_add_fits r a n Fr (Fa n Fro)) as (r' & -> & Fr' & Vr). cbn [bind].
  destruct (nd_mul_scalar shalf zodd) as (b & -> & Fb & Vb). cbn [bind].
  destruct (@nd_add_fits z b n Fz (Fb n Fzo)) as (z' & -> & Fz' & Vz). cbn [bind].
  exists r', z'. split; [reflexivity|]. split; [exact Fr'|]. split; [exact Fz'|].
  intros k Hk. rewrite (Vr k Hk), (Vz k Hk), (Va n k Fro Hk), (Vb n k Fzo Hk). auto.
Qed.

(** With [nrep = 1], a surface index [js >= 1] and a radial step
    [hs >= 0], [booz_rzhalf] returns the half-grid values [r + shalf * rodd]
    and [z + shalf * zodd], pointwise, with [shalf = sqrt(hs * (js - 1/2))];
    each operand may be a scalar or an array over the grid.  The arguments
    [r12] and [z12] play no part. *)
Theorem booz_rzhalf_half_grid self (r z rodd zodd r12 z12 : nd) (js : Z) (n : nat) :
  (0 <= hs self)%R -> 1 <= js ->
  nd_fits n r -> nd_fits n z -> nd_fits n rodd -> nd_fits n zodd ->
  exists r' z',
    booz_rzhalf self r z rodd zodd r12 z12 js 1 = Ok (r', z') /\
    nd_fits n r' /\ nd_fits n z' /\
    forall k, (k < n)%nat ->
      nd_at r' k = (nd_at r k + sqrt (hs self * (IZR js - 1 / 2)) * nd_at rodd k)%R /\
      nd_at z' k = (nd_at z k + sqrt (hs self * (IZR js - 1 / 2)) * nd_at zodd k)%R.
Proof. exact (@booz_rzhalf_run self r z rodd zodd r12 z12 js n). Qed.

Lemma booz_rzhalf_half_grid_witness :
  exists r' z',
    booz_rzhalf sample_self (Ar [1; 2]%R) (Sc 3) (Ar [4; 5]%R) (Ar [6; 7]%R)
      (Sc 0) (Sc 0) 1 1 = Ok (r', z') /\
    nd_at r' 1 = (2 + sqrt (hs sample_self * (IZR 1 - 1 / 2)) * 5)%R.
Proof.
  destruct (@booz_rzhalf_half_grid sample_self (Ar [1; 2]%R) (Sc 3) (Ar [4; 5]%R)
              (Ar [6; 7]%R) (Sc 0) (Sc 0) 1 2)
    as (r' & z' & E & _ & _ & Hv); try first [lia | reflexivity | exact I].
  - replace (hs sample_self) with (1 / IZR 2)%R by (vm_compute; reflexivity). lra.
  - exists r', z'. split; [exact E|]. apply (Hv 1%nat). lia.
Defined.

Lemma printvar_loop_ok str_floats (data : tbl) (js : list Z) (wf : list string) :
  (forall j, In j js -> 0 <= j < Z.of_nat (ncols data)) ->
  printvar_loop str_floats data js wf
    = (wf ++ flat_map (surface_lines str_floats data) js, Ok tt).
Proof.
  revert wf. induction js as [|j js IH]; intros wf H; cbn [printvar_loop flat_map].
  - now rewrite app_nil_r.
  - rewrite get_col_ok_z by (apply H; now left).
    rewrite IH by (intros j' Hj'; apply H; now right).
    unfold write, surface_lines. rewrite <- !app_assoc. reflexivity.
Qed.

Lemma printvar_loop_extends str_floats (data : tbl) (js : list Z) (wf : list string) :
  exists more, fst (printvar_loop str_floats data js wf) = wf ++ more.
Proof.
  revert wf. induction js as [|j js IH]; intros wf; cbn [printvar_loop].
  - exists []. now rewrite app_nil_r.
  - destruct (get_col data j) as [col|e].
    + destruct (IH (write (write wf ("jindex: " ++ py_str j ++ nl)%string)
                      (strip_ends (str_floats col) ++ nl)%string)) as (more & ->).
      unfold write. rewrite <- !app_assoc. eexists. reflexivity.
    + unfold write. eexists. reflexivity.
Qed.

Lemma printvar_extends str_floats self (wf : list string) data title :
  exists more, fst (printvar str_floats self wf data title) = wf ++ more.
Proof.
  unfold printvar.
  destruct (printvar_loop_extends str_floats data (py_range 1 (ns self))
              (write wf (title ++ nl)%string)) as (more & ->).
  unfold write. rewrite <- app_assoc. eexists. reflexivity.
Qed.

Lemma printvar_run str_floats self (wf : list string) data title :
  ns self <= Z.of_nat (ncols data) ->
  printvar str_floats self wf data title
    = (wf ++ (title ++ nl)%string
          :: flat_map (surface_lines str_floats data) (py_range 1 (ns self)),
       Ok tt) /\
  length (flat_map (surface_lines str_floats data) (py_range 1 (ns self)))
    = (2 * Z.to_nat (ns self - 1))%nat.
Proof.
  intros H. split.
  - unfold printvar. rewrite printvar_loop_ok.
    + unfold write. rewrite <- app_assoc. reflexivity.
    + intros j Hj. apply in_py_range in Hj. lia.
  - generalize (py_range_length 1 (ns self)).
    generalize (py_range 1 (ns self)). intros l <-.
    induction l as [|j l IH]; cbn [flat_map length app surface_lines]; lia.
Qed.

(** [printvar] on a table with at least [ns] columns returns, having
    written the title line and then, for each surface [j] from 1 to [ns - 1]
    in turn, the line [jindex: j] and the line of column [j]: [2 * (ns - 1)]
    lines after the title (none for [ns <= 1]).  Column 0, the magnetic
    axis, is never written. *)
Theorem printvar_writes str_floats self (wf : list string) data title :
  ns self <= Z.of_nat (ncols data) ->
  printvar str_floats self wf data title
    = (wf ++ (title ++ nl)%string
          :: flat_map (surface_lines str_floats data) (py_range 1 (ns self)),
       Ok tt) /\
  length (flat_map (surface_lines str_floats data) (py_range 1 (ns self)))
    = (2 * Z.to_nat (ns self - 1))%nat.
Proof. exact (@printvar_run str_floats self wf data title). Qed.

Lemma printvar_writes_witness :
  printvar (fun _ => "[0. 0.]"%string) sample_self [] (bmncb sample_store) "bmnc_b"
    = ([] ++ ("bmnc_b" ++ nl)%string
          :: flat_map (surface_lines (fun _ => "[0. 0.]"%string) (bmncb sample_store))
               (py_range 1 (ns sample_self)),
       Ok tt) /\
  length (flat_map (surface_lines (fun _ => "[0. 0.]"%string) (bmncb sample_store))
            (py_range 1 (ns sample_self)))
    = (2 * Z.to_nat (ns sample_self - 1))%nat.
Proof.
  apply (@printvar_writes (fun _ => "[0. 0.]"%string) sample_self [] (bmncb sample_store)
           "bmnc_b").
  vm_compute. discriminate.
Defined.

Lemma strip_ends_short (n : nat) :
  (n < 100)%nat -> strip_ends (py_str (Z.of_nat n)) = EmptyString.
Proof.
  intros H.
  do 100 (destruct n as [|n]; [vm_compute; reflexivity|]).
  lia.
Qed.

Lemma ascii_output_header str_ints str_floats self st fname :
  exists more r,
    ascii_output str_ints str_floats self st fname
      = (match fname with None => "booz_out.txt"%string | Some f => f end,
         [("mboz: " ++ py_str (mboz self) ++ nl)%string;
          ("nboz: " ++ py_str (nboz self) ++ nl)%string;
          ("mnboz: " ++ py_str (mnboz self) ++ nl)%string;
          ("xmb: " ++ strip_ends (str_ints (vals (xmb self))) ++ nl)%string;
          ("xnb: " ++ strip_ends (str_ints (vals (xnb self))) ++ nl)%string;
          ("ns: " ++ strip_ends (py_str (ns self)) ++ nl)%string;
          ("s: " ++ strip_ends (str_floats (sfull self)) ++ nl)%string] ++ more,
         r).
Proof.
  unfold ascii_output. cbn [write app].
  set (hd := [_; _; _; _; _; _; _]).
  destruct (printvar_extends str_floats self hd (bmncb st) "bmnc_b") as (m1 & E1).
  destruct (printvar str_floats self hd (bmncb st) "bmnc_b") as [w1 [u1|e1]];
    cbn [fst] in E1; subst w1; [|do 2 eexists; reflexivity].
  destruct (printvar_extends str_floats self (hd ++ m1) (rmncb st) "rmnc_b") as (m2 & E2).
  destruct (printvar str_floats self (hd ++ m1) (rmncb st) "rmnc_b") as [w2 [u2|e2]];
    cbn [fst] in E2; subst w2; rewrite <- ?app_assoc; [|do 2 eexists; reflexivity].
  destruct (printvar_extends str_floats self (hd ++ m1 ++ m2) (zmnsb st) "zmns_b")
    as (m3 & E3).
  destruct (printvar str_floats self (hd ++ m1 ++ m2) (zmnsb st) "zmns_b")
    as [w3 [u3|e3]];
    cbn [fst] in E3; subst w3; rewrite <- ?app_assoc; [|do 2 eexists; reflexivity].
  destruct (printvar_extends str_floats self (hd ++ m1 ++ m2 ++ m3) (pmnsb st) "pmns_b")
    as (m4 & E4).
  destruct (printvar str_floats self (hd ++ m1 ++ m2 ++ m3) (pmnsb st) "pmns_b")
    as [w4 [u4|e4]];
    cbn [fst] in E4; subst w4; rewrite <- ?app_assoc; [|do 2 eexists; reflexivity].
  destruct (printvar_extends str_floats self (hd ++ m1 ++ m2 ++ m3 ++ m4) (gmncb st)
              "gmnc_b") as (m5 & E5).
  destruct (printvar str_floats self (hd ++ m1 ++ m2 ++ m3 ++ m4) (gmncb st) "gmnc_b")
    as [w5 [u5|e5]];
    cbn [fst] in E5; subst w5; rewrite <- ?app_assoc; do 2 eexists; reflexivity.
Qed.

(** [ascii_output] writes seven header lines before the tables, to the file
    [booz_out.txt] when no name is given.  The sixth is meant to carry the
    number of surfaces, but is stripped of its first and last character like
    the array lines: for [ns] below 100 it is [ns: ] and nothing more. *)
Theorem ascii_output_ns_line str_ints str_floats self st fname :
  0 <= ns self < 100 ->
  exists lines r,
    ascii_output str_ints str_floats self st fname
      = (match fname with None => "booz_out.txt"%string | Some f => f end, lines, r) /\
    (7 <= length lines)%nat /\
    nth 5 lines EmptyString = ("ns: " ++ nl)%string.
Proof.
  intros H.
  destruct (ascii_output_header str_ints str_floats self st fname) as (more & r & E).
  eexists. exists r. split; [exact E|]. split.
  - rewrite length_app. cbn [length]. lia.
  - cbn [app nth].
    replace (ns self) with (Z.of_nat (Z.to_nat (ns self))) by lia.
    rewrite strip_ends_short by lia. reflexivity.
Qed.

Lemma ascii_output_ns_line_witness :
  exists lines r,
    ascii_output (fun _ => "[0]"%string) (fun _ => "[0. 0.]"%string) sample_self
      sample_store None
      = ("booz_out.txt"%string, lines, r) /\
    (7 <= length lines)%nat /\
    nth 5 lines EmptyString = ("ns: " ++ nl)%string.
Proof.
  apply (@ascii_output_ns_line (fun _ => "[0]"%string) (fun _ => "[0. 0.]"%string)
           sample_self sample_store None).
  vm_compute. split; [discriminate | reflexivity].
Defined.

Lemma mode_number_nth (v : list Z) (i : Z) :
  0 <= i < Z.of_nat (length v) -> mode_number v i = nth (Z.to_nat i) v 0.
Proof. intros H. apply mode_number_of_item. now apply item_ok. Qed.

Lemma get_at_ok {A} (t : table (cell A)) (i j : Z) :
  0 <= i < Z.of_nat (nrows t) -> 0 <= j < Z.of_nat (ncols t) ->
  get_at t i j = Ok (val (at_ t (Z.to_nat i) (Z.to_nat j))).
Proof. intros Hi Hj. unfold get_at. now rewrite !np_index_ok by assumption. Qed.

(** One mode of [vcoords_w] goes through when its indices are in range. *)
Lemma vcoords_w_mode_ok self jrad pmns acc (mn : Z) (N : nat) :
  nyq_rows self N -> w_fits N acc ->
  nfp self <> 0 ->
  0 <= mn < Z.of_nat (length (xmnyq self)) ->
  0 <= mn < Z.of_nat (length (xnnyq self)) ->
  0 <= mn < Z.of_nat (length pmns) ->
  0 <= mode_number (xmnyq self) mn < Z.of_nat (ncols (cosm_nyq self)) ->
  0 <= mode_number (xmnyq self) mn < Z.of_nat (ncols (sinm_nyq self)) ->
  Z.abs (Z.quot (mode_number (xnnyq self) mn) (nfp self))
    < Z.of_nat (ncols (cosn_nyq self)) ->
  Z.abs (Z.quot (mode_number (xnnyq self) mn) (nfp self))
    < Z.of_nat (ncols (sinn_nyq self)) ->
  0 <= jrad < Z.of_nat (nrows (bmodmnc self)) ->
  mn < Z.of_nat (ncols (bmodmnc self)) ->
  exists acc', vcoords_w_mode self jrad pmns acc mn = Ok acc' /\ w_fits N acc'.
Proof.
  intros G F Hnfp L1 L2 L3 C1 C2 C3 C4 Hj Hb.
  assert (E : exists acc', vcoords_w_mode self jrad pmns acc mn = Ok acc').
  { destruct G as (G1 & G2 & G3 & G4). destruct F as (Fwt & Fwz & Fw & Fb).
    rewrite (@mode_number_nth (xmnyq self) mn) in C1, C2 by assumption.
    rewrite (@mode_number_nth (xnnyq self) mn) in C3, C4 by assumption.
    unfold vcoords_w_mode.
    rewrite (@item_ok _ (xmnyq self) mn 0) by assumption. cbn [bind].
    rewrite (@item_ok _ (xnnyq self) mn 0) by assumption. cbn [bind].
    unfold int_abs_div. destruct (Z.eqb_spec (nfp self) 0) as [E0|_]; [contradiction|].
    cbn [bind].
    destruct (@trig_mode_ok (cosm_nyq self) (sinm_nyq self) (cosn_nyq self)
                (sinn_nyq self) (nth (Z.to_nat mn) (xmnyq self) 0)
                (Z.abs (Z.quot (nth (Z.to_nat mn) (xnnyq self) 0) (nfp self)))
                (np_sign (nth (Z.to_nat mn) (xnnyq self) 0)) N)
      as (tcos & tsin & Et); auto; try lia.
    rewrite Et. cbn [bind].
    destruct (@trig_mode_spec _ _ _ _ _ _ _ _ _ N G1 G2 G3 G4 Et) as (Lc & Ls & _).
    rewrite (@item_ok _ pmns mn 0%R) by assumption. cbn [bind].
    rewrite bcast_into_same by (rewrite ?length_scale; lia). cbn [bind].
    rewrite bcast_into_same by (rewrite ?length_scale; lia). cbn [bind].
    rewrite bcast_into_same by (rewrite ?length_scale; lia). cbn [bind].
    rewrite get_at_ok by lia. cbn [bind].
    rewrite bcast_into_same by (rewrite ?length_scale; lia). cbn [bind].
    eexists. reflexivity. }
  destruct E as (acc' & E). exists acc'. split; [exact E|].
  exact (proj1 (@vcoords_w_mode_spec self jrad pmns acc mn acc' N G F E)).
Qed.

Lemma vcoords_w_returns self jrad pmns wt wz w bmod (N : nat) :
  nyq_rows self N ->
  length wt = N -> length wz = N -> length w = N -> length bmod = N ->
  nfp self <> 0 -> 0 <= nmnnyq self ->
  nmnnyq self <= Z.of_nat (length (xmnyq self)) ->
  nmnnyq self <= Z.of_nat (length (xnnyq self)) ->
  nmnnyq self <= Z.of_nat (length pmns) ->
  0 <= jrad < Z.of_nat (nrows (bmodmnc self)) ->
  nmnnyq self <= Z.of_nat (ncols (bmodmnc self)) ->
  (forall mn, 0 <= mn < nmnnyq self ->
     0 <= mode_number (xmnyq self) mn < Z.of_nat (ncols (cosm_nyq self)) /\
     0 <= mode_number (xmnyq self) mn < Z.of_nat (ncols (sinm_nyq self)) /\
     Z.abs (Z.quot (mode_number (xnnyq self) mn) (nfp self))
       < Z.of_nat (ncols (cosn_nyq self)) /\
     Z.abs (Z.quot (mode_number (xnnyq self) mn) (nfp self))
       < Z.of_nat (ncols (sinn_nyq self))) ->
  exists acc, vcoords_w self jrad pmns wt wz w bmod = Ok acc.
Proof.
  intros G Lwt Lwz Lw Lb Hnfp Hn L1 L2 L3 Hj Hc Hcols. unfold vcoords_w.
  destruct (@foldM_range_inv _ (vcoords_w_mode self jrad pmns)
              (fun _ acc => w_fits N acc) 0 (nmnnyq self)) with
    (st := {| a_wt := fill wt 0%R; a_wz := fill wz 0%R; a_w := fill w 0%R;
              a_bmod := fill bmod 0%R |}) as (acc & E & _).
  - exact Hn.
  - intros mn acc Hmn F. destruct (Hcols mn Hmn) as (C1 & C2 & C3 & C4).
    apply (@vcoords_w_mode_ok self jrad pmns acc mn N); auto; lia.
  - unfold w_fits. cbn [a_wt a_wz a_w a_bmod]. now rewrite !length_fill.
  - exists acc. exact E.
Qed.

Lemma vcoords_w_run junk junk1 junkZ d nboz mboz self st jrad pmns wt wz w bmod :
  setup junk junk1 junkZ d nboz mboz = Ok (self, st) -> 1 <= mboz -> 0 <= nboz ->
  0 < vd_nfp d -> 0 <= nmnnyq self ->
  nmnnyq self <= Z.of_nat (length (xmnyq self)) ->
  nmnnyq self <= Z.of_nat (length (xnnyq self)) ->
  nmnnyq self <= Z.of_nat (length pmns) ->
  0 <= jrad < Z.of_nat (nrows (bmodmnc self)) ->
  nmnnyq self <= Z.of_nat (ncols (bmodmnc self)) ->
  (forall mn, 0 <= mn < nmnnyq self -> nyq_mode_covered self mn) ->
  Z.of_nat (length wt) = nunv self -> Z.of_nat (length wz) = nunv self ->
  Z.of_nat (length w) = nunv self -> Z.of_nat (length bmod) = nunv self ->
  exists acc,
    vcoords_w self jrad pmns wt wz w bmod = Ok acc /\
    forall k : nat, Z.of_nat k < nunv self ->
      nth k (a_w acc) 0%R
        = mode_sum (fun mn => amplitude pmns mn * sin (nyq_phase self mn k))%R
            (py_range 0 (nmnnyq self)) /\
      nth k (a_wt acc) 0%R
        = mode_sum (fun mn => amplitude pmns mn * IZR (mode_number (xmnyq self) mn)
                              * cos (nyq_phase self mn k))%R
            (py_range 0 (nmnnyq self)) /\
      nth k (a_wz acc) 0%R
        = (- mode_sum (fun mn => amplitude pmns mn * IZR (mode_number (xnnyq self) mn)
                                 * cos (nyq_phase self mn k))
               (py_range 0 (nmnnyq self)))%R /\
      nth k (a_bmod acc) 0%R
        = mode_sum (fun mn => entry (bmodmnc self) jrad mn * cos (nyq_phase self mn k))%R
            (py_range 0 (nmnnyq self)).
Proof.
  intros H Hm Hn Hnfp Hmn L1 L2 L3 Hj Hc Hcov Lwt Lwz Lw Lb.
  destruct (@setup_nyq_shapes junk junk1 junkZ d nboz mboz self st H Hm Hn)
    as (S1 & S2 & (R3 & C3) & (R4 & C4) & (R5 & C5) & (R6 & C6)).
  assert (Efp : nfp self = vd_nfp d).
  { destruct (@setup_facts _ _ _ _ _ _ _ _ H Hm Hn)
      as (norm & th & zt & cosm & sinm & cosn & sinn & cosm' & sinm' & cosn' & sinn'
          & _ & _ & _ & _ & _ & _ & _ & _ & E).
    injection E as -> _. reflexivity. }
  destruct (@vcoords_w_returns self jrad pmns wt wz w bmod (Z.to_nat (nunv self)))
    as (acc & E); try lia.
  - unfold nyq_rows. repeat split; lia.
  - intros mn Hmn'. destruct (Hcov mn Hmn') as (Hmm & q & Hx & Hq & _).
    rewrite Hx, Z.quot_mul by lia. lia.
  - exists acc. split; [exact E|].
    exact (@vcoords_w_values junk junk1 junkZ d nboz mboz self st jrad pmns wt wz w bmod
             acc H Hm Hn Hnfp Hcov Lwt Lwz Lw Lb E).
Qed.

(** [vcoords_w] zeroes its four arrays and returns in them the Fourier
    sums over all Nyquist modes, whatever the arrays held before: with the
    tables the constructor builds, arrays over the grid, a surface [jrad] of
    [bmodmnc] and every Nyquist mode [(m, x)] within the bounds of the
    tables, the call returns and at each grid point
    [w = sum pmns * sin(m theta - x zeta)],
    [wt = sum pmns * m * cos(m theta - x zeta)],
    [wz = - sum pmns * x * cos(m theta - x zeta)] and
    [bmod = sum bmodmnc[jrad] * cos(m theta - x zeta)]. *)
Theorem vcoords_w_sums junk junk1 junkZ d nboz mboz self st jrad pmns wt wz w bmod :
  setup junk junk1 junkZ d nboz mboz = Ok (self, st) -> 1 <= mboz -> 0 <= nboz ->
  0 < vd_nfp d -> 0 <= nmnnyq self ->
  nmnnyq self <= Z.of_nat (length (xmnyq self)) ->
  nmnnyq self <= Z.of_nat (length (xnnyq self)) ->
  nmnnyq self <= Z.of_nat (length pmns) ->
  0 <= jrad < Z.of_nat (nrows (bmodmnc self)) ->
  nmnnyq self <= Z.of_nat (ncols (bmodmnc self)) ->
  (forall mn, 0 <= mn < nmnnyq self -> nyq_mode_covered self mn) ->
  Z.of_nat (length wt) = nunv self -> Z.of_nat (length wz) = nunv self ->
  Z.of_nat (length w) = nunv self -> Z.of_nat (length bmod) = nunv self ->
  exists acc,
    vcoords_w self jrad pmns wt wz w bmod = Ok acc /\
    forall k : nat, Z.of_nat k < nunv self ->
      nth k (a_w acc) 0%R
        = mode_sum (fun mn => amplitude pmns mn * sin (nyq_phase self mn k))%R
            (py_range 0 (nmnnyq self)) /\
      nth k (a_wt acc) 0%R
        = mode_sum (fun mn => amplitude pmns mn * IZR (mode_number (xmnyq self) mn)
                              * cos (nyq_phase self mn k))%R
            (py_range 0 (nmnnyq self)) /\
      nth k (a_wz acc) 0%R
        = (- mode_sum (fun mn => amplitude pmns mn * IZR (mode_number (xnnyq self) mn)
                                 * cos (nyq_phase self mn k))
               (py_range 0 (nmnnyq self)))%R /\
      nth k (a_bmod acc) 0%R
        = mode_sum (fun mn => entry (bmodmnc self) jrad mn * cos (nyq_phase self mn k))%R
            (py_range 0 (nmnnyq self)).
Proof.
  exact (@vcoords_w_run junk junk1 junkZ d nboz mboz self st jrad pmns wt wz w bmod).
Qed.

Lemma vcoords_w_sums_witness :
  exists acc,
    vcoords_w sample_self2 1 sample_pmns sample_blank sample_blank sample_blank
      sample_blank = Ok acc /\
    nth 3 (a_w acc) 0%R
      = mode_sum (fun mn => amplitude sample_pmns mn * sin (nyq_phase sample_self2 mn 3))%R
          (py_range 0 (nmnnyq sample_self2)).
Proof.
  destruct (@vcoords_w_sums (fun _ _ _ => 0%R) (fun _ => 0%R) (fun _ => 0)
              sample_data2 0 1 sample_self2 sample_store2 1 sample_pmns sample_blank
              sample_blank sample_blank sample_blank)
    as (acc & E & Hv); try by_evaluation.
  - intros mn Hmn.
    assert (E : nmnnyq sample_self2 = 5) by (vm_compute; reflexivity).
    rewrite E in Hmn.
    assert (Hc : mn = 0 \/ mn = 1 \/ mn = 2 \/ mn = 3 \/ mn = 4) by lia.
    destruct Hc as [-> | [-> | [-> | [-> | ->]]]].
    + mode_with 0.
    + mode_with 1.
    + mode_with (-1).
    + mode_with 0.
    + mode_with 1.
  - exists acc. split; [exact E|]. apply (Hv 3%nat). by_evaluation.
Defined.

(** ** The normalisation in [boozerfun] *)

(** The mode loop of [boozerfun] returns whenever the mode numbers are
    within the bounds of the tables, whatever the tables hold. *)
Lemma boozerfun_sums_returns junk self st bmod_b rad zee uboz vboz xjac jacfac
  (jr n N : nat) :
  0 < nfp self -> 1 <= mboz self -> 0 <= nboz self ->
  Z.of_nat N = nunv self -> 0 < nv_boz self -> 2 <= nu2_b self ->
  nunv self = nu2_b self * nv_boz self ->
  length (thgrid self) = N -> length (ztgrid self) = N ->
  length uboz = N -> length vboz = N -> length xjac = N -> length bmod_b = N ->
  nd_fits N rad -> nd_fits N zee ->
  Z.of_nat n = mnboz self -> length (xmb self) = n -> length (xnb self) = n ->
  (forall i, (i < n)%nat ->
     0 <= nth i (vals (xmb self)) 0 <= mboz self /\
     exists q, nth i (vals (xnb self)) 0 = q * nfp self /\ Z.abs q <= nboz self) ->
  nrows (bmncb st) = n -> nrows (rmncb st) = n -> nrows (zmnsb st) = n ->
  nrows (pmnsb st) = n -> nrows (gmncb st) = n ->
  (jr < ncols (bmncb st))%nat -> (jr < ncols (rmncb st))%nat ->
  (jr < ncols (zmnsb st))%nat -> (jr < ncols (pmnsb st))%nat ->
  (jr < ncols (gmncb st))%nat ->
  exists o cs,
    boozerfun_sums junk self st bmod_b rad zee uboz vboz xjac jacfac (Z.of_nat jr)
      = Ok (o, cs) /\
    same_shapes (outputs_of st) o.
Proof.
  intros Hnfp Hmb Hnb HN Hnv Hnu Hnunv Lth Lzt Lu Lv Lx Lb Frad Fzee Hn L1 L2 Hcov
    Rb Rr Rz Rp Rg Jb Jr Jz Jp Jg.
  unfold boozerfun_sums, vadd.
  rewrite (bcast_same Rplus (thgrid self) uboz) by lia. cbn [bind].
  rewrite (bcast_same Rplus (ztgrid self) vboz) by lia. cbn [bind].
  set (uang := map2 Rplus (thgrid self) uboz).
  set (vang := map2 Rplus (ztgrid self) vboz).
  assert (Lua : length uang = N) by (subst uang; rewrite length_map2; lia).
  assert (Lva : length vang = N) by (subst vang; rewrite length_map2; lia).
  destruct (@trigfunc_spec junk (nfp self) uang vang (mboz self) (nboz self) N)
    as (cosmmt & sinmmt & cosnnt & sinnnt & Et & Hpol & Htor); try lia.
  rewrite <- HN, Et. cbn [bind].
  set (M := Z.to_nat (mboz self + 1)) in *.
  pose proof Hpol as (Rc & Rs & Cc & Cs & _).
  pose proof Htor as (Rcn & Rsn & Ccn & Csn & _).
  destruct (@half_weights_loop (theta_weight self) N (nv_boz self)
              (nv_boz self * (nu2_b self - 1)) M (np_copy cosmmt) (np_copy sinmmt))
    as (cosmm & sinmm & Ew & Wc & Ws); auto; try nia.
  replace (mboz self + 1) with (Z.of_nat M) by (subst M; lia).
  match goal with
  | |- context [bind ?x _] => replace x with (Ok (cosmm, sinmm)) by (symmetry; exact Ew)
  end.
  cbn [bind].
  pose proof Wc as (Rwc & Cwc & _). pose proof Ws as (Rws & Cws & _).
  cbn [np_copy nrows ncols] in Rwc, Cwc, Rws, Cws.
  set (bbjac := map (fun b => (jacfac / (b * b))%R) bmod_b).
  destruct (@foldM_range_inv _
    (boozerfun_mode self cosmm sinmm (np_copy cosnnt) (np_copy sinnnt) bmod_b rad zee
       vboz xjac bbjac (Z.of_nat jr))
    (fun j o => exists m, j = Z.of_nat m /\ same_shapes (outputs_of st) o)
    0 (Z.of_nat n)) with (st := outputs_of st) as (o & Eo & m & Hm & Hst).
  - lia.
  - intros j o Hj (i & -> & Hst).
    destruct (Hcov i ltac:(lia)) as (Hmm & q & Hx & Hq).
    set (mm := nth i (vals (xmb self)) 0) in *.
    pose proof Hst as (S1 & S2 & S3 & S4 & S5).
    unfold same_shape in S1, S2, S3, S4, S5. cbn [outputs_of o_bmncb o_rmncb o_zmnsb
      o_pmnsb o_gmncb] in S1, S2, S3, S4, S5.
    eexists. split.
    + apply (@boozerfun_mode_ok self cosmm sinmm (np_copy cosnnt) (np_copy sinnnt)
               bmod_b rad zee vboz xjac bbjac jr i N o
               (fun k => (col_at cosmm mm k * col_at (np_copy cosnnt) (Z.abs q) k
                          + col_at sinmm mm k * col_at (np_copy sinnnt) (Z.abs q) k
                            * np_sign (q * nfp self))%R)
               (fun k => (col_at sinmm mm k * col_at (np_copy cosnnt) (Z.abs q) k
                          - col_at cosmm mm k * col_at (np_copy sinnnt) (Z.abs q) k
                            * np_sign (q * nfp self))%R)
               mm q); auto;
        cbn [np_copy nrows ncols]; try lia.
      subst bbjac. now rewrite length_map.
    + exists (S i). split; [lia|].
      unfold same_shapes, same_shape in *.
      cbn [o_bmncb o_rmncb o_zmnsb o_pmnsb o_gmncb store_at nrows ncols outputs_of].
      tauto.
  - exists 0%nat. split; [reflexivity|]. apply same_shapes_refl.
  - rewrite <- Hn, Eo. cbn [bind].
    do 2 eexists. split; [reflexivity|]. exact Hst.
Qed.

(** The Boozer modes the constructor enumerates are within the bounds of
    the tables [boozerfun] builds. *)
Lemma boozer_modes_in_range mboz nboz nfp (i : nat) :
  1 <= mboz -> 0 <= nboz ->
  (i < length (boozer_modes mboz nboz nfp))%nat ->
  let modes := boozer_modes mboz nboz nfp in
  0 <= nth i (map fst modes) 0 <= mboz /\
  exists q, nth i (map snd modes) 0 = q * nfp /\ Z.abs q <= nboz.
Proof.
  intros Hm Hn Hi modes.
  assert (Hin : In (nth i modes (0, 0)) modes) by (apply nth_In; exact Hi).
  apply in_boozer_modes in Hin as (m & q & E & Hm0 & Hq); [|lia].
  replace (nth i (map fst modes) 0) with (fst (nth i modes (0, 0)))
    by (symmetry; exact (map_nth fst modes (0, 0) i)).
  replace (nth i (map snd modes) 0) with (snd (nth i modes (0, 0)))
    by (symmetry; exact (map_nth snd modes (0, 0) i)).
  rewrite E. cbn [fst snd]. split; [lia|].
  exists q. split; [reflexivity|]. destruct (m =? 0); lia.
Qed.

Lemma vals_map_cells {A B} (f : A -> B) (w : nat) (l : list A) :
  vals (map (fun p => {| val := f p; writes := w |}) l) = map f l.
Proof. unfold vals. rewrite map_map. reflexivity. Qed.

(** What the constructor builds and what [boozerfun] does with it, for the
    normalisation. *)
Lemma scl_facts junk junk1 junkZ d nb mb :
  1 <= mb -> 0 <= nb -> 0 < vd_nfp d -> 0 <= vd_ns d -> vd_ns d <> 1 ->
  2 <= vd_mpol d -> 0 <= vd_ntor d -> 1 <= vd_mnyq d -> 0 <= vd_nnyq d ->
  exists self st,
    setup junk junk1 junkZ d nb mb = Ok (self, st) /\
    nu2_b self = 2 * mb + 2 /\ nv_boz self = 2 * (2 * nb + 1) /\
    nunv self = nu2_b self * nv_boz self /\
    0 < (nu2_b self - 1) * nv_boz self /\
    Z.of_nat (length (scl self)) = mnboz_of mb nb /\
    (let f := (2 / IZR ((nu2_b self - 1) * nv_boz self))%R in
     nth 0 (vals (scl self)) 0%R = (f / 2)%R /\
     forall k, (1 <= k < length (scl self))%nat -> nth k (vals (scl self)) 0%R = f) /\
    (forall jr : nat, Z.of_nat jr < vd_ns d ->
       outputs_have_column (length (scl self)) jr st) /\
    (forall mem st0 bmod_b rad zee uboz vboz xjac jacfac (jr N : nat),
       Z.of_nat N = nunv self ->
       length bmod_b = N -> length uboz = N -> length vboz = N -> length xjac = N ->
       nd_fits N rad -> nd_fits N zee ->
       outputs_have_column (length (scl self)) jr st0 ->
       exists o cs st',
         boozerfun_sums mem self st0 bmod_b rad zee uboz vboz xjac jacfac (Z.of_nat jr)
           = Ok (o, cs) /\
         boozerfun mem self st0 bmod_b rad zee uboz vboz xjac jacfac (Z.of_nat jr)
           = Ok st' /\
         column_scaled (vals (scl self)) jr (o_bmncb o) (bmncb st') /\
         column_scaled (vals (scl self)) jr (o_rmncb o) (rmncb st') /\
         column_scaled (vals (scl self)) jr (o_zmnsb o) (zmnsb st') /\
         column_scaled (vals (scl self)) jr (o_pmnsb o) (pmnsb st') /\
         column_scaled (vals (scl self)) jr (o_gmncb o) (gmncb st')).
Proof.
  intros Hm Hn Hnfp Hns Hns1 Hmpol Hntor Hmnyq Hnnyq.
  destruct (@setup_run junk junk1 junkZ d nb mb)
    as (norm & th & zt & cosm & sinm & cosn & sinn & cosm' & sinm' & cosn' & sinn'
        & F1 & F2 & F3 & F4 & _ & _ & _ & _ & E); try lia.
  cbv zeta in F4. destruct F4 as (Lth & Lzt & _).
  destruct (@make_scl_spec junk1 mb nb (mnboz_of mb nb))
    as (norm' & E' & _ & _ & Hfac & Hlen & H0 & Hk).
  { apply mnboz_of_pos; assumption. }
  rewrite F1 in E'. injection E' as <-.
  pose proof (@boozer_modes_length mb nb (vd_nfp d) Hm Hn) as Lmodes.
  match type of E with _ = Ok (?s, ?t) => exists s, t end.
  split; [exact E|].
  cbn [nu2_b nv_boz nunv scl xmb xnb mboz nboz nfp mnboz thgrid ztgrid bmncb rmncb
       zmnsb pmnsb gmncb].
  split; [exact F2|]. split; [exact F3|]. split; [reflexivity|].
  split; [nia|]. split; [exact Hlen|].
  split; [|split].
  - cbv zeta. rewrite <- Hfac. unfold vals.
    change 0%R with (val {| val := 0%R; writes := 0 |}).
    rewrite !map_nth, H0. split; [reflexivity|].
    intros k Hk'. change 0%R with (val {| val := 0%R; writes := 0 |}).
    rewrite map_nth, Hk by exact Hk'. reflexivity.
  - intros jr Hjr. unfold outputs_have_column, has_column, zeros2.
    cbn [bmncb rmncb zmnsb pmnsb gmncb nrows ncols].
    repeat split; lia.
  - intros mem st0 bmod_b rad zee uboz vboz xjac jacfac jr N HN Lb Lu Lv Lx Frad Fzee
      ((Rb & Jb) & (Rr & Jr) & (Rz & Jz) & (Rp & Jp) & (Rg & Jg)).
    match goal with |- context [boozerfun_sums mem ?s] => set (self := s) end.
    set (n := length (n_scl norm)) in *.
    assert (Hnn : Z.of_nat n = mnboz self) by (subst n self; exact Hlen).
    assert (HNN : N = Z.to_nat (n_nu2_b norm * n_nv_boz norm)) by lia.
    destruct (@boozerfun_sums_returns mem self st0 bmod_b rad zee uboz vboz xjac jacfac
                jr n N) as (o & cs & Es & Hs);
      subst self; cbn [nu2_b nv_boz nunv scl xmb xnb mboz nboz nfp mnboz thgrid ztgrid];
      try assumption; try lia; try congruence.
    + rewrite length_map. lia.
    + rewrite length_map. lia.
    + intros i Hi. rewrite !vals_map_cells.
      apply boozer_modes_in_range; try assumption. lia.
    + match goal with |- context [boozerfun_sums mem ?s] => set (self := s) in * end.
      destruct Hs as ((S1 & C1) & (S2 & C2) & (S3 & C3) & (S4 & C4) & (S5 & C5)).
      cbn [outputs_of o_bmncb o_rmncb o_zmnsb o_pmnsb o_gmncb] in S1, C1, S2, C2, S3, C3,
        S4, C4, S5, C5.
      assert (Lsv : length (vals (n_scl norm)) = n) by (now rewrite length_vals).
      destruct (@imul_col_ok (o_bmncb o) jr (vals (n_scl norm))) as (bm & Eb & Hb);
        try lia.
      destruct (@imul_col_ok (o_rmncb o) jr (vals (n_scl norm))) as (rm & Er & Hr);
        try lia.
      destruct (@imul_col_ok (o_zmnsb o) jr (vals (n_scl norm))) as (zm & Ez & Hz);
        try lia.
      destruct (@imul_col_ok (o_pmnsb o) jr (vals (n_scl norm))) as (pm & Ep & Hp);
        try lia.
      destruct (@imul_col_ok (o_gmncb o) jr (vals (n_scl norm))) as (gm & Eg & Hg);
        try lia.
      exists o, cs. unfold boozerfun. rewrite Es. cbn [bind].
      destruct cs as [[[cm cn] sm] sn].
      unfold scale_outputs. subst self. cbn [scl]. rewrite Eb, Er, Ez, Ep, Eg.
      cbn [bind].
      eexists. split; [reflexivity|]. split; [reflexivity|].
      cbn [with_outputs bmncb rmncb zmnsb pmnsb gmncb o_bmncb o_rmncb o_zmnsb o_pmnsb
        o_gmncb].
      auto.
Qed.

(** C4. The constructor returns an object whose normalisation vector [scl]
    has [mnboz] entries, [scl[k] = 2 / ((nu2_b - 1) * nv_boz)] for every
    [k >= 1] and [scl[0]] half that value, where [nu2_b = 2 mboz + 2] and
    [nv_boz = 2 (2 nboz + 1)], so that the denominator is positive.  On this
    object, every call of [boozerfun] for a surface [jr], with fields over
    the [nunv] grid points and output tables that have a row for each mode
    and a column [jr] (as the tables the constructor allocates have, for
    every [jr < ns]), returns, and it has multiplied, elementwise and in
    place, column [jr] of each of the five tables [bmncb], [rmncb], [zmnsb],
    [pmnsb], [gmncb], as its mode loop left them, by this same vector
    [self.scl], and changed nothing else in them.  (Stated on the first part
    of the constructor, up to the surface loop, and on [boozerfun] as a
    method.) *)
Theorem scl_normalization junk junk1 junkZ d nboz mboz :
  1 <= mboz -> 0 <= nboz -> 0 < vd_nfp d -> 0 <= vd_ns d -> vd_ns d <> 1 ->
  2 <= vd_mpol d -> 0 <= vd_ntor d -> 1 <= vd_mnyq d -> 0 <= vd_nnyq d ->
  exists self st,
    setup junk junk1 junkZ d nboz mboz = Ok (self, st) /\
    nu2_b self = 2 * mboz + 2 /\ nv_boz self = 2 * (2 * nboz + 1) /\
    nunv self = nu2_b self * nv_boz self /\
    0 < (nu2_b self - 1) * nv_boz self /\
    Z.of_nat (length (scl self)) = mnboz_of mboz nboz /\
    (let f := (2 / IZR ((nu2_b self - 1) * nv_boz self))%R in
     nth 0 (vals (scl self)) 0%R = (f / 2)%R /\
     forall k, (1 <= k < length (scl self))%nat -> nth k (vals (scl self)) 0%R = f) /\
    (forall jr : nat, Z.of_nat jr < vd_ns d ->
       outputs_have_column (length (scl self)) jr st) /\
    (forall mem st0 bmod_b rad zee uboz vboz xjac jacfac (jr N : nat),
       Z.of_nat N = nunv self ->
       length bmod_b = N -> length uboz = N -> length vboz = N -> length xjac = N ->
       nd_fits N rad -> nd_fits N zee ->
       outputs_have_column (length (scl self)) jr st0 ->
       exists o cs st',
         boozerfun_sums mem self st0 bmod_b rad zee uboz vboz xjac jacfac (Z.of_nat jr)
           = Ok (o, cs) /\
         boozerfun mem self st0 bmod_b rad zee uboz vboz xjac jacfac (Z.of_nat jr)
           = Ok st' /\
         column_scaled (vals (scl self)) jr (o_bmncb o) (bmncb st') /\
         column_scaled (vals (scl self)) jr (o_rmncb o) (rmncb st') /\
         column_scaled (vals (scl self)) jr (o_zmnsb o) (zmnsb st') /\
         column_scaled (vals (scl self)) jr (o_pmnsb o) (pmnsb st') /\
         column_scaled (vals (scl self)) jr (o_gmncb o) (gmncb st')).
Proof. exact (@scl_facts junk junk1 junkZ d nboz mboz). Qed.

Lemma scl_normalization_witness :
  exists self st,
    setup (fun _ _ _ => 0%R) (fun _ => 0%R) (fun _ => 0) sample_data 2 2
      = Ok (self, st) /\
    nu2_b self = 6 /\ nv_boz self = 10 /\ Z.of_nat (length (scl self)) = 8 /\
    nth 0 (vals (scl self)) 0%R = (2 / IZR ((6 - 1) * 10) / 2)%R /\
    nth 3 (vals (scl self)) 0%R = (2 / IZR ((6 - 1) * 10))%R /\
    exists o cs st',
      boozerfun_sums (fun _ _ _ => 0%R) self st (sample_ramp 1 60)
        (Ar (sample_ramp 2 60)) (Ar (sample_ramp 3 60)) (sample_ramp 4 60)
        (sample_ramp 5 60) (sample_ramp 6 60) 7%R (Z.of_nat 1) = Ok (o, cs) /\
      boozerfun (fun _ _ _ => 0%R) self st (sample_ramp 1 60)
        (Ar (sample_ramp 2 60)) (Ar (sample_ramp 3 60)) (sample_ramp 4 60)
        (sample_ramp 5 60) (sample_ramp 6 60) 7%R (Z.of_nat 1) = Ok st' /\
      column_scaled (vals (scl self)) 1 (o_bmncb o) (bmncb st') /\
      column_scaled (vals (scl self)) 1 (o_rmncb o) (rmncb st') /\
      column_scaled (vals (scl self)) 1 (o_zmnsb o) (zmnsb st') /\
      column_scaled (vals (scl self)) 1 (o_pmnsb o) (pmnsb st') /\
      column_scaled (vals (scl self)) 1 (o_gmncb o) (gmncb st').
Proof.
  destruct (@scl_normalization (fun _ _ _ => 0%R) (fun _ => 0%R) (fun _ => 0)
              sample_data 2 2)
    as (self & st & E & Hnu & Hnv & Hnunv & _ & Hlen & (H0 & Hk) & Hcol & Hrun);
    [cbn; lia ..|].
  change (mnboz_of 2 2) with 8 in Hlen.
  change (2 * 2 + 2) with 6 in Hnu. change (2 * (2 * 2 + 1)) with 10 in Hnv.
  rewrite Hnu, Hnv in Hnunv, H0, Hk.
  exists self, st. split; [exact E|]. split; [exact Hnu|]. split; [exact Hnv|].
  split; [exact Hlen|]. split; [exact H0|]. split; [apply Hk; lia|].
  apply (Hrun (fun _ _ _ => 0%R) st (sample_ramp 1 60) (Ar (sample_ramp 2 60))
           (Ar (sample_ramp 3 60)) (sample_ramp 4 60) (sample_ramp 5 60)
           (sample_ramp 6 60) 7%R 1%nat 60%nat);
    try reflexivity.
  - rewrite Hnunv. reflexivity.
  - apply Hcol. vm_compute. reflexivity.
Defined.

(** ** A surface with a vanishing Jacobian factor *)

(** Over the reals too, [harfun] logs its warning when the Jacobian factor
    is zero. *)
Lemma harfun_logs_at_zero (hiota gpsi ipsi : list R) (js : Z)
  (xlt xlz xl wt wz w : list R) (g h i : R) :
  item gpsi js 0%R = Ok g -> item hiota js 0%R = Ok h -> item ipsi js 0%R = Ok i ->
  (g + h * i = 0)%R ->
  fst (harfun hiota gpsi ipsi js xlt xlz xl wt wz w) = [jacfac_warning].
Proof.
  intros Hg Hh Hi Hj. unfold harfun. change (@zero R Real_arith) with 0%R.
  rewrite Hg, Hh, Hi. cbn [bind fst].
  change (@is_zero R Real_arith (add g (mul h i)))
    with (if Req_dec_T (g + h * i) 0%R then true else false).
  destruct (Req_dec_T (g + h * i) 0%R); [reflexivity|contradiction].
Qed.

(** C7 fails on the code.  [harfun] itself does what the claim says: with a
    zero Jacobian factor it logs its warning and returns.  But the surface
    loop never calls it: the line before, [wt, wz, wp = self.vcoords_w(...)],
    raises [ValueError] in every iteration.  On the small equilibrium whose
    surface 1 has [gpsi[1] = ipsi[1] = 0], hence [jacfac = 0], the first part
    of the constructor succeeds, the iteration of the surface 1 raises that
    error and so does the construction: nothing is propagated into the
    outputs of the surface, which keep their initial zeros, and no further
    surface is processed. *)
Theorem zero_jacfac_surface_unreached :
  is_ok singular_setup = true /\
  (exists pmn,
     singular_profiles = Ok pmn /\
     (amplitude (p_gpsi pmn) 1
      + amplitude (hiota singular_self) 1 * amplitude (p_ipsi pmn) 1 = 0)%R /\
     forall xlt xlz xl wt wz w,
       fst (harfun (hiota singular_self) (p_gpsi pmn) (p_ipsi pmn) 1
              xlt xlz xl wt wz w) = [jacfac_warning]) /\
  surface_step (fun _ _ _ => 0%R) (fun _ => 0%R) singular_data singular_self
    singular_store 1 = Raise too_many_values /\
  init (fun _ _ _ => 0%R) (fun _ => 0%R) (fun _ => 0) singular_data 0 1
    = Raise too_many_values /\
  (forall i j, at_ (bmncb singular_store) i j = {| val := 0%R; writes := 0 |} /\
               at_ (rmncb singular_store) i j = {| val := 0%R; writes := 0 |} /\
               at_ (zmnsb singular_store) i j = {| val := 0%R; writes := 0 |} /\
               at_ (pmnsb singular_store) i j = {| val := 0%R; writes := 0 |} /\
               at_ (gmncb singular_store) i j = {| val := 0%R; writes := 0 |}).
Proof.
  split; [vm_compute; reflexivity|].
  split; [|split; [vm_compute; reflexivity|split; [vm_compute; reflexivity|]]].
  - eexists. split; [vm_compute; reflexivity|].
    assert (E : (amplitude [R0; R0; R0] 1
                 + amplitude (hiota singular_self) 1 * amplitude [R0; R0; R0] 1 = 0)%R).
    { vm_compute. lra. }
    split; [exact E|].
    intros xlt xlz xl wt wz w.
    apply (@harfun_logs_at_zero _ _ _ _ _ _ _ _ _ _
             (amplitude [R0; R0; R0] 1) (amplitude (hiota singular_self) 1)
             (amplitude [R0; R0; R0] 1));
      [vm_compute; reflexivity .. | exact E].
  - intros i j. vm_compute. repeat split.
Qed.
